(** * FlatSQL index layer: values, B-tree index, host-SQL index, framed log

    A shallow embedding of the C++ sources
      - cpp/src/btree.cpp            (compareValues, class BTree)
      - sqlite_index.cpp             (class SqliteIndex)
      - cpp/include/flatsql/storage.h (StreamingFlatBufferStore, declarations)
      - cpp/src/junction.cpp         (SchemaAnalyzer, JunctionManager)
      - cpp/src/flatsql.cpp          (the read loop of runCLI)
    and the properties of the index contract that hold, or fail, on them. *)

From Stdlib Require Import ZArith NArith List Strings.String Strings.Ascii Strings.Byte Bool Lia.
From Stdlib Require Import Sorted Permutation Finite.
From Stdlib Require Import Floats.SpecFloat.
From stdpp Require Import base option list gmap.

Local Open Scope Z_scope.

(** ** Values (flatsql/types.h) *)

Module Values.

(** Modelled from the spec: flatsql/types.h is not among the sources.  The
    alternatives of [Value] are listed in the order of section 3.1 of the
    specification (Null, Bool, signed 8/16/32/64, unsigned 8/16/32/64,
    Float32, Float64, String, Bytes); [index] is the position in that list,
    which is what [std::variant::index] returns.  Integer payloads are the
    mathematical value of the C++ integer; floating-point payloads are IEEE
    values in the representation of [SpecFloat]. *)
Inductive Value : Type :=
| VNull
| VBool (b : bool)
| VInt8 (z : Z) | VInt16 (z : Z) | VInt32 (z : Z) | VInt64 (z : Z)
| VUInt8 (z : Z) | VUInt16 (z : Z) | VUInt32 (z : Z) | VUInt64 (z : Z)
| VFloat32 (f : spec_float) | VFloat64 (f : spec_float)
| VString (s : string)
| VBytes (b : list byte).

Definition index (v : Value) : Z :=
  match v with
  | VNull => 0 | VBool _ => 1
  | VInt8 _ => 2 | VInt16 _ => 3 | VInt32 _ => 4 | VInt64 _ => 5
  | VUInt8 _ => 6 | VUInt16 _ => 7 | VUInt32 _ => 8 | VUInt64 _ => 9
  | VFloat32 _ => 10 | VFloat64 _ => 11
  | VString _ => 12 | VBytes _ => 13
  end.

(** Modelled from the spec: the enumeration [ValueType] of flatsql/types.h,
    one tag per alternative of [Value]. *)
Inductive ValueType : Type :=
| TNull | TBool
| TInt8 | TInt16 | TInt32 | TInt64
| TUInt8 | TUInt16 | TUInt32 | TUInt64
| TFloat32 | TFloat64 | TString | TBytes.

Definition in_range (lo hi z : Z) : Prop := lo <= z <= hi.

(** The payload of an integer alternative lies in the range of its C++ type. *)
Definition Value_ok (v : Value) : Prop :=
  match v with
  | VInt8 z => in_range (- 2 ^ 7) (2 ^ 7 - 1) z
  | VInt16 z => in_range (- 2 ^ 15) (2 ^ 15 - 1) z
  | VInt32 z => in_range (- 2 ^ 31) (2 ^ 31 - 1) z
  | VInt64 z => in_range (- 2 ^ 63) (2 ^ 63 - 1) z
  | VUInt8 z => in_range 0 (2 ^ 8 - 1) z
  | VUInt16 z => in_range 0 (2 ^ 16 - 1) z
  | VUInt32 z => in_range 0 (2 ^ 32 - 1) z
  | VUInt64 z => in_range 0 (2 ^ 64 - 1) z
  | _ => True
  end.

(** [static_cast<int64_t>] of a 64-bit unsigned value: reduction modulo 2^64
    into the signed range. *)
Definition to_int64 (z : Z) : Z := (z + 2 ^ 63) mod 2 ^ 64 - 2 ^ 63.

(** [static_cast<int>] of a 32-bit or wider value. *)
Definition to_int32 (z : Z) : Z := (z + 2 ^ 31) mod 2 ^ 32 - 2 ^ 31.

(** tryGetInt64: [Some] for the eight integer alternatives ([bool] is not one
    of them); only the unsigned 64-bit case can change the value. *)
Definition tryGetInt64 (v : Value) : option Z :=
  match v with
  | VInt32 z => Some z
  | VInt64 z => Some z
  | VUInt32 z => Some z
  | VUInt64 z => Some (to_int64 z)
  | VInt16 z => Some z
  | VUInt16 z => Some z
  | VInt8 z => Some z
  | VUInt8 z => Some z
  | _ => None
  end.

(** [static_cast<double>] of an integer: the nearest binary64 value. *)
Definition double_of_Z (z : Z) : spec_float := binary_normalize 53 1024 z 0 false.

(** [static_cast<double>] of a [float]: the same real number in binary64. *)
Definition double_of_float (f : spec_float) : spec_float :=
  match f with
  | S754_finite s m e => binary_normalize 53 1024 (cond_Zopp s (Zpos m)) e false
  | _ => f
  end.

Definition tryGetDouble (v : Value) : option spec_float :=
  match v with
  | VFloat32 f => Some (double_of_float f)
  | VFloat64 f => Some f
  | VInt8 z | VInt16 z | VInt32 z | VInt64 z
  | VUInt8 z | VUInt16 z | VUInt32 z | VUInt64 z => Some (double_of_Z z)
  | _ => None
  end.

(** *** std::string::compare

    The C++ standard only fixes the sign of the result.  This is the
    libstdc++ implementation: [traits_type::compare] (memcmp) over the common
    prefix, bytes taken as unsigned char; when the prefixes agree, the
    difference of the lengths clamped to the range of [int].  [memcmp] is
    taken to return the difference of the first two bytes that differ. *)
Definition bytes_of_string (s : string) : list Z :=
  List.map (fun c => Z.of_N (N_of_ascii c)) (list_ascii_of_string s).

Fixpoint memcmp (a b : list Z) : Z :=
  match a, b with
  | x :: a', y :: b' => if x =? y then memcmp a' b' else x - y
  | _, _ => 0
  end.

Definition INT_MAX : Z := 2 ^ 31 - 1.
Definition INT_MIN : Z := - 2 ^ 31.

Definition S_compare (n1 n2 : Z) : Z :=
  let d := n1 - n2 in
  if d >? INT_MAX then INT_MAX else if d <? INT_MIN then INT_MIN else d.

Definition string_compare (a b : string) : Z :=
  let la := bytes_of_string a in
  let lb := bytes_of_string b in
  let r := memcmp la lb in
  if r =? 0 then S_compare (Z.of_nat (List.length la)) (Z.of_nat (List.length lb)) else r.

(** The loop of the blob branch: the first position, below the shorter
    length, at which the bytes differ decides. *)
Fixpoint bytes_loop (a b : list byte) : option Z :=
  match a, b with
  | x :: a', y :: b' =>
      if (Byte.to_N x <? Byte.to_N y)%N then Some (-1)
      else if (Byte.to_N y <? Byte.to_N x)%N then Some 1
      else bytes_loop a' b'
  | _, _ => None
  end.

Definition bytes_compare (a b : list byte) : Z :=
  match bytes_loop a b with
  | Some r => r
  | None =>
      if (List.length a <? List.length b)%nat then -1
      else if (List.length b <? List.length a)%nat then 1
      else 0
  end.

Definition holds_null (v : Value) : bool :=
  match v with VNull => true | _ => false end.

(** compareValues (btree.cpp, lines 41-94). *)
Definition compareValues (a b : Value) : Z :=
  if holds_null a then (if holds_null b then 0 else -1)
  else if holds_null b then 1
  else
    match tryGetInt64 a, tryGetInt64 b with
    | Some aInt, Some bInt =>
        if aInt <? bInt then -1 else if bInt <? aInt then 1 else 0
    | _, _ =>
        match tryGetDouble a, tryGetDouble b with
        | Some aDouble, Some bDouble =>
            if SFltb aDouble bDouble then -1
            else if SFltb bDouble aDouble then 1
            else 0
        | _, _ =>
            match a, b with
            | VString sa, VString sb => string_compare sa sb
            | VBytes aVec, VBytes bVec => bytes_compare aVec bVec
            | VBool aVal, VBool bVal =>
                if Bool.eqb aVal bVal then 0
                else if (negb aVal && bVal)%bool then -1 else 1
            | _, _ => if index a <? index b then -1 else 1
            end
        end
    end.

(** *** Reference notions for the comparison contract *)

(** The three results of a comparison by [<] and [>]. *)
Definition three_way (x y : Z) : Z := if x <? y then -1 else if y <? x then 1 else 0.

(** The integer a value stands for, when it is of an integer alternative. *)
Definition integer_value (v : Value) : option Z :=
  match v with
  | VInt8 z | VInt16 z | VInt32 z | VInt64 z
  | VUInt8 z | VUInt16 z | VUInt32 z | VUInt64 z => Some z
  | _ => None
  end.

(** Lexicographic order of byte sequences, a proper prefix coming first. *)
Fixpoint lex_compare (a b : list Z) : comparison :=
  match a, b with
  | [], [] => Eq
  | [], _ :: _ => Lt
  | _ :: _, [] => Gt
  | x :: a', y :: b' =>
      match x ?= y with
      | Eq => lex_compare a' b'
      | c => c
      end
  end.

Definition sign_of (c : comparison) : Z :=
  match c with Lt => -1 | Eq => 0 | Gt => 1 end.

(** The comparison contract as section 3.1 of the specification words it. *)
Definition compare_contract : Prop :=
  forall a b : Value,
    compareValues a b = -1 \/ compareValues a b = 0 \/ compareValues a b = 1.

End Values.

Export Values.

(** ** Outcomes of a call

    A member function either returns or leaves by one of the failures below.
    [NodeNotFound] is the [std::runtime_error] thrown by [BTree::getNode];
    [OutOfRange] stands for an access past the end of a [std::vector]
    (undefined behaviour in C++, never defined here); [HostError] is a
    [std::runtime_error] raised after a host-SQL call did not succeed;
    [OutOfFuel] is an artefact of the embedding: recursive descents carry a
    bound on their depth. *)
Inductive error : Type :=
| NodeNotFound (nodeId : N)
| OutOfRange
| HostError (rc : Z)
| OutOfFuel.

Inductive result (A : Type) : Type :=
| Ok (a : A)
| Err (e : error).
Arguments Ok {A} a.
Arguments Err {A} e.

Definition bind {A B : Type} (r : result A) (k : A -> result B) : result B :=
  match r with
  | Ok a => k a
  | Err e => Err e
  end.

Declare Scope result_scope.
Delimit Scope result_scope with result.
Notation "x <- r ;; k" := (bind r (fun x => k))
  (at level 100, r at next level, right associativity) : result_scope.
Local Open Scope result_scope.

(** [v[i]] on a vector. *)
Definition vec_at {A : Type} (v : list A) (i : nat) : result A :=
  match nth_error v i with
  | Some x => Ok x
  | None => Err OutOfRange
  end.

(** [v.insert(v.begin() + i, x)]. *)
Definition vec_insert {A : Type} (v : list A) (i : nat) (x : A) : result (list A) :=
  if (i <=? List.length v)%nat then Ok (firstn i v ++ x :: skipn i v)
  else Err OutOfRange.

(** [v.resize(n)] with value-initialised new elements. *)
Definition vec_resize {A : Type} (dflt : A) (v : list A) (n : nat) : list A :=
  firstn n v ++ repeat dflt (n - List.length v).

(** ** The in-memory B-tree (btree.cpp) *)

Module BTreeIndex.

(** IndexEntry (flatsql/types.h, section 3.3 of the specification). *)
Record IndexEntry : Type := mkEntry {
  key : Value;
  dataOffset : N;
  dataLength : N;
  sequence : N
}.

Record BTreeNode : Type := mkNode {
  nodeId : N;
  isLeaf : bool;
  entries : list IndexEntry;
  children : list N;
  parentId : N
}.

Definition set_entries (n : BTreeNode) (es : list IndexEntry) : BTreeNode :=
  mkNode (nodeId n) (isLeaf n) es (children n) (parentId n).
Definition set_children (n : BTreeNode) (cs : list N) : BTreeNode :=
  mkNode (nodeId n) (isLeaf n) (entries n) cs (parentId n).
Definition set_parentId (n : BTreeNode) (p : N) : BTreeNode :=
  mkNode (nodeId n) (isLeaf n) (entries n) (children n) p.

(** The members of class BTree.  [nodes_] maps node ids to nodes.  The two
    64-bit counters: [entryCount_] wraps modulo 2^64 as in C++;
    [nextNodeId_] is kept unbounded, one id being allotted per node held in
    memory. *)
Record BTree : Type := mkBTree {
  keyType_ : ValueType;
  order_ : Z;
  nodes_ : gmap N BTreeNode;
  rootId_ : N;
  nextNodeId_ : N;
  entryCount_ : N
}.

Definition set_nodes (t : BTree) (m : gmap N BTreeNode) : BTree :=
  mkBTree (keyType_ t) (order_ t) m (rootId_ t) (nextNodeId_ t) (entryCount_ t).
Definition set_rootId (t : BTree) (r : N) : BTree :=
  mkBTree (keyType_ t) (order_ t) (nodes_ t) r (nextNodeId_ t) (entryCount_ t).
Definition set_entryCount (t : BTree) (c : N) : BTree :=
  mkBTree (keyType_ t) (order_ t) (nodes_ t) (rootId_ t) (nextNodeId_ t) c.

(** createNode: [nodes_[nodeId] = node] with a fresh id. *)
Definition createNode (t : BTree) (leaf : bool) (parent : N) : N * BTree :=
  let id := nextNodeId_ t in
  (id, mkBTree (keyType_ t) (order_ t)
         (<[id := mkNode id leaf [] [] parent]> (nodes_ t))
         (rootId_ t) (id + 1)%N (entryCount_ t)).

(** getNode: throws when the id is not a key of [nodes_]. *)
Definition getNode (t : BTree) (id : N) : result BTreeNode :=
  match nodes_ t !! id with
  | Some n => Ok n
  | None => Err (NodeNotFound id)
  end.

(** A write through the reference returned by [getNode].  Such references
    are taken to stay valid while other nodes are created, as they do in
    the node-based maps of the standard library. *)
Definition putNode (t : BTree) (id : N) (n : BTreeNode) : BTree :=
  set_nodes t (<[id := n]> (nodes_ t)).

(** The constructor.  btree.h is not among the sources; the first node id is
    taken to be 1, the value [clear] resets [nextNodeId_] to. *)
Definition BTree_new (keyType : ValueType) (order : Z) : BTree :=
  let '(id, t) := createNode (mkBTree keyType order ∅ 0%N 1%N 0%N) true 0%N in
  set_rootId t id.

(** The loop [for i in moved: getNode(i).parentId = siblingId] of splitChild. *)
Fixpoint reparent (t : BTree) (moved : list N) (siblingId : N) : result BTree :=
  match moved with
  | [] => Ok t
  | c :: rest =>
      n <- getNode t c ;;
      reparent (putNode t c (set_parentId n siblingId)) rest siblingId
  end.

(** splitChild (lines 195-229). *)
Definition splitChild (t : BTree) (parentId : N) (childIndex : nat) : result BTree :=
  parent <- getNode t parentId ;;
  childId <- vec_at (children parent) childIndex ;;
  child <- getNode t childId ;;
  let mid := Z.to_nat (Z.quot (order_ t - 1) 2) in
  let '(siblingId, t) := createNode t (isLeaf child) parentId in
  sibling <- getNode t siblingId ;;
  let t := putNode t siblingId (set_entries sibling (skipn (mid + 1) (entries child))) in
  child <- getNode t childId ;;
  midEntry <- vec_at (entries child) mid ;;
  let t := putNode t childId (set_entries child (firstn mid (entries child))) in
  t <- (if negb (isLeaf child) then
          let moved := skipn (mid + 1) (children child) in
          sibling <- getNode t siblingId ;;
          let t := putNode t siblingId (set_children sibling (children sibling ++ moved)) in
          t <- reparent t moved siblingId ;;
          child <- getNode t childId ;;
          Ok (putNode t childId
                (set_children child (vec_resize 0%N (children child) (mid + 1))))
        else Ok t) ;;
  parentNode <- getNode t parentId ;;
  es <- vec_insert (entries parentNode) childIndex midEntry ;;
  cs <- vec_insert (children parentNode) (childIndex + 1) siblingId ;;
  Ok (putNode t parentId (set_children (set_entries parentNode es) cs)).

(** The backward scan shared by both branches of insertNonFull:
    [i = size - 1; while (i >= 0 && compareValues(key, entries[i].key) < 0) i--;]
    started with [n = i + 1]; the result is [i + 1] at loop exit. *)
Fixpoint scan_back (k : Value) (es : list IndexEntry) (n : nat) : nat :=
  match n with
  | O => O
  | S i =>
      match nth_error es i with
      | Some e => if compareValues k (key e) <? 0 then scan_back k es i else S i
      | None => S i
      end
  end.

(** [static_cast<int>(node.entries.size()) >= order_ - 1]. *)
Definition is_full (t : BTree) (n : BTreeNode) : bool :=
  Z.of_nat (List.length (entries n)) >=? order_ t - 1.

(** insertNonFull (lines 157-193); [fuel] bounds the depth of the descent. *)
Fixpoint insertNonFull (fuel : nat) (t : BTree) (nodeId : N) (entry : IndexEntry)
  : result BTree :=
  match fuel with
  | O => Err OutOfFuel
  | S fuel =>
      node <- getNode t nodeId ;;
      let i := scan_back (key entry) (entries node) (List.length (entries node)) in
      if isLeaf node then
        es <- vec_insert (entries node) i entry ;;
        Ok (putNode t nodeId (set_entries node es))
      else
        childId <- vec_at (children node) i ;;
        child <- getNode t childId ;;
        if is_full t child then
          t <- splitChild t nodeId i ;;
          nodeAfterSplit <- getNode t nodeId ;;
          sep <- vec_at (entries nodeAfterSplit) i ;;
          let i := if compareValues (key entry) (key sep) >? 0 then S i else i in
          c <- vec_at (children nodeAfterSplit) i ;;
          insertNonFull fuel t c entry
        else
          insertNonFull fuel t childId entry
  end.

(** The bound handed to the recursive descents: node ids are allotted
    consecutively, so a path of distinct nodes is shorter than
    [nextNodeId_]. *)
Definition depth_bound (t : BTree) : nat := N.to_nat (nextNodeId_ t).

(** insert (lines 128-155). *)
Definition insert (t : BTree) (k : Value) (dataOffset dataLength sequence : N)
  : result BTree :=
  let entry := mkEntry k dataOffset dataLength sequence in
  root <- getNode t (rootId_ t) ;;
  t <- (if is_full t root then
          let '(newRootId, t) := createNode t false 0%N in
          newRoot <- getNode t newRootId ;;
          let t := putNode t newRootId
                     (set_children newRoot (children newRoot ++ [rootId_ t])) in
          oldRoot <- getNode t (rootId_ t) ;;
          let t := putNode t (rootId_ t) (set_parentId oldRoot newRootId) in
          t <- splitChild t newRootId 0 ;;
          Ok (set_rootId t newRootId)
        else Ok t) ;;
  t <- insertNonFull (depth_bound t) t (rootId_ t) entry ;;
  Ok (set_entryCount t ((entryCount_ t + 1) mod 2 ^ 64)%N).

(** The forward scans [while (i < size && p(entries[i])) i++]; [es] is the
    part of the vector from position [i] on. *)
Fixpoint advance (p : IndexEntry -> bool) (es : list IndexEntry) (i : nat) : nat :=
  match es with
  | e :: es' => if p e then advance p es' (S i) else i
  | [] => i
  end.

(** [while (i < size && compareValues(key, entries[i].key) == 0)
       { results.push_back(entries[i]); i++; }] *)
Fixpoint collect_equal (k : Value) (es : list IndexEntry) (results : list IndexEntry)
  : list IndexEntry :=
  match es with
  | e :: es' =>
      if compareValues k (key e) =? 0 then collect_equal k es' (results ++ [e])
      else results
  | [] => results
  end.

(** searchNode (lines 241-263). *)
Fixpoint searchNode (fuel : nat) (t : BTree) (nodeId : N) (k : Value)
    (results : list IndexEntry) : result (list IndexEntry) :=
  match fuel with
  | O => Err OutOfFuel
  | S fuel =>
      node <- getNode t nodeId ;;
      let i := advance (fun e => compareValues k (key e) >? 0) (entries node) 0 in
      let results := collect_equal k (skipn i (entries node)) results in
      if negb (isLeaf node) then
        let childIdx := advance (fun e => compareValues k (key e) >? 0) (entries node) 0 in
        c <- vec_at (children node) childIdx ;;
        searchNode fuel t c k results
      else Ok results
  end.

Definition search (t : BTree) (k : Value) : result (list IndexEntry) :=
  searchNode (depth_bound t) t (rootId_ t) k [].

(** The binary searches of searchNodeFirst and searchNodeFirstInt:
    [while (lo < hi) { mid = lo + (hi - lo) / 2;
                       if (le(entries[mid])) hi = mid; else lo = mid + 1; }]
    [n] bounds the number of iterations. *)
Fixpoint lower_bound (le : IndexEntry -> bool) (es : list IndexEntry)
    (n lo hi : nat) : result nat :=
  if (lo <? hi)%nat then
    match n with
    | O => Err OutOfFuel
    | S n =>
        let mid := (lo + (hi - lo) / 2)%nat in
        e <- vec_at es mid ;;
        if le e then lower_bound le es n lo mid
        else lower_bound le es n (mid + 1)%nat hi
    end
  else Ok lo.

(** The integer read of searchNodeFirstInt.  When the stored key is not an
    integer, [tryGetInt64] leaves the local [entryInt] unset; [indet] is the
    value then found in it. *)
Definition entry_int (indet : Z) (e : IndexEntry) : Z :=
  match key e with
  | VInt32 z => z
  | VInt64 z => z
  | k => match tryGetInt64 k with Some z => z | None => indet end
  end.

(** searchNodeFirstInt (lines 266-312). *)
Fixpoint searchNodeFirstInt (indet : Z) (fuel : nat) (t : BTree) (nodeId : N)
    (keyInt : Z) : result (option IndexEntry) :=
  match fuel with
  | O => Err OutOfFuel
  | S fuel =>
      node <- getNode t nodeId ;;
      let size := List.length (entries node) in
      lo <- lower_bound (fun e => keyInt <=? entry_int indet e) (entries node) size 0 size ;;
      found <- (if (lo <? size)%nat then
                  e <- vec_at (entries node) lo ;;
                  Ok (if keyInt =? entry_int indet e then Some e else None)
                else Ok None) ;;
      match found with
      | Some e => Ok (Some e)
      | None =>
          if (negb (isLeaf node) && (lo <? List.length (children node))%nat)%bool then
            c <- vec_at (children node) lo ;;
            searchNodeFirstInt indet fuel t c keyInt
          else Ok None
      end
  end.

(** searchNodeFirst (lines 314-347). *)
Fixpoint searchNodeFirst (indet : Z) (fuel : nat) (t : BTree) (nodeId : N)
    (k : Value) : result (option IndexEntry) :=
  match tryGetInt64 k with
  | Some keyInt => searchNodeFirstInt indet fuel t nodeId keyInt
  | None =>
      match fuel with
      | O => Err OutOfFuel
      | S fuel =>
          node <- getNode t nodeId ;;
          let size := List.length (entries node) in
          lo <- lower_bound (fun e => compareValues k (key e) <=? 0) (entries node) size 0 size ;;
          found <- (if (lo <? size)%nat then
                      e <- vec_at (entries node) lo ;;
                      Ok (if compareValues k (key e) =? 0 then Some e else None)
                    else Ok None) ;;
          match found with
          | Some e => Ok (Some e)
          | None =>
              if (negb (isLeaf node) && (lo <? List.length (children node))%nat)%bool then
                c <- vec_at (children node) lo ;;
                searchNodeFirst indet fuel t c k
              else Ok None
          end
      end
  end.

Definition searchFirst (indet : Z) (t : BTree) (k : Value) : result (option IndexEntry) :=
  searchNodeFirst indet (depth_bound t) t (rootId_ t) k.

(** The [while (i < node.entries.size())] loop of rangeSearch; [es] is the
    part of the vector from position [i] on, [visit] the recursive call.
    The position at loop exit is returned with the results: it is below the
    size after a [break]. *)
Fixpoint range_loop (visit : N -> list IndexEntry -> result (list IndexEntry))
    (node : BTreeNode) (minKey maxKey : Value)
    (es : list IndexEntry) (i : nat) (results : list IndexEntry)
  : result (nat * list IndexEntry) :=
  match es with
  | [] => Ok (i, results)
  | entry :: es' =>
      let cmpMin := compareValues (key entry) minKey in
      let cmpMax := compareValues (key entry) maxKey in
      results <- (if (negb (isLeaf node) && (cmpMin >=? 0)
                      && (i <? List.length (children node))%nat)%bool then
                    c <- vec_at (children node) i ;;
                    visit c results
                  else Ok results) ;;
      let results :=
        if ((cmpMin >=? 0) && (cmpMax <=? 0))%bool then results ++ [entry] else results in
      if cmpMax >? 0 then Ok (i, results)
      else range_loop visit node minKey maxKey es' (S i) results
  end.

(** rangeSearch (lines 355-387). *)
Fixpoint rangeSearch (fuel : nat) (t : BTree) (nodeId : N) (minKey maxKey : Value)
    (results : list IndexEntry) : result (list IndexEntry) :=
  match fuel with
  | O => Err OutOfFuel
  | S fuel =>
      node <- getNode t nodeId ;;
      r <- range_loop (fun c acc => rangeSearch fuel t c minKey maxKey acc)
             node minKey maxKey (entries node) 0 results ;;
      let '(i, results) := r in
      if (negb (isLeaf node) && (i =? List.length (entries node))%nat
          && (i <? List.length (children node))%nat)%bool then
        c <- vec_at (children node) i ;;
        rangeSearch fuel t c minKey maxKey results
      else Ok results
  end.

Definition range (t : BTree) (minKey maxKey : Value) : result (list IndexEntry) :=
  rangeSearch (depth_bound t) t (rootId_ t) minKey maxKey [].

(** The [for] loop of collectAll. *)
Fixpoint collect_loop (visit : N -> list IndexEntry -> result (list IndexEntry))
    (node : BTreeNode) (es : list IndexEntry) (i : nat) (results : list IndexEntry)
  : result (list IndexEntry) :=
  match es with
  | [] => Ok results
  | entry :: es' =>
      results <- (if negb (isLeaf node) then
                    c <- vec_at (children node) i ;;
                    visit c results
                  else Ok results) ;;
      collect_loop visit node es' (S i) (results ++ [entry])
  end.

(** collectAll (lines 395-408). *)
Fixpoint collectAll (fuel : nat) (t : BTree) (nodeId : N) (results : list IndexEntry)
  : result (list IndexEntry) :=
  match fuel with
  | O => Err OutOfFuel
  | S fuel =>
      node <- getNode t nodeId ;;
      results <- collect_loop (fun c acc => collectAll fuel t c acc)
                   node (entries node) 0 results ;;
      if (negb (isLeaf node)
          && (List.length (entries node) <? List.length (children node))%nat)%bool then
        c <- vec_at (children node) (List.length (children node) - 1) ;;
        collectAll fuel t c results
      else Ok results
  end.

Definition all (t : BTree) : result (list IndexEntry) :=
  collectAll (depth_bound t) t (rootId_ t) [].

Definition getEntryCount (t : BTree) : N := entryCount_ t.

(** clear (lines 422-427). *)
Definition clear (t : BTree) : BTree :=
  let '(id, t) :=
    createNode (mkBTree (keyType_ t) (order_ t) ∅ (rootId_ t) 1%N 0%N) true 0%N in
  set_rootId t id.

(** A use of the public interface: a sequence of calls on a fresh index. *)
Inductive call : Type :=
| Insert (k : Value) (dataOffset dataLength sequence : N)
| Clear.

Definition step (t : BTree) (c : call) : result BTree :=
  match c with
  | Insert k o l s => insert t k o l s
  | Clear => Ok (clear t)
  end.

Fixpoint run (t : BTree) (cs : list call) : result BTree :=
  match cs with
  | [] => Ok t
  | c :: cs => t <- step t c ;; run t cs
  end.

Definition insert_call (e : IndexEntry) : call :=
  Insert (key e) (dataOffset e) (dataLength e) (sequence e).

(** An index built through [insert] alone. *)
Definition build (keyType : ValueType) (order : Z) (es : list IndexEntry)
  : result BTree :=
  run (BTree_new keyType order) (List.map insert_call es).

(** Entries with the int32 key 5 and the given sequence numbers. *)
Definition fives (seqs : list N) : list IndexEntry :=
  List.map (fun s => mkEntry (VInt32 5) (s * 100)%N 50%N s) seqs.

(** The entries of the repository's test testBTree: keys 0 to 99. *)
Definition hundred : list IndexEntry :=
  List.map (fun i => mkEntry (VInt32 (Z.of_nat i)) (N.of_nat i * 100)%N 50%N (N.of_nat i))
           (seq 0 100).

End BTreeIndex.

Export BTreeIndex.

(** ** The tree held in the node map

    Queries and updates follow node ids through [nodes_].  The tree they
    walk is made explicit here: [rep m T] says that the node map [m] holds
    the tree [T], node by node. *)

Module Shape.

#[local] Set Warnings "-register-all".

Inductive tree : Type :=
| TNode (id : N) (leaf : bool) (es : list IndexEntry) (cs : list tree).

Definition tid (T : tree) : N := match T with TNode id _ _ _ => id end.
Definition tleaf (T : tree) : bool := match T with TNode _ leaf _ _ => leaf end.
Definition tentries (T : tree) : list IndexEntry := match T with TNode _ _ es _ => es end.
Definition tchildren (T : tree) : list tree := match T with TNode _ _ _ cs => cs end.

(** [e0 :: c1 ++ e1 :: c2 ++ ...]: separators each followed by a subtree. *)
Fixpoint weave_r {A : Type} (es : list A) (cs : list (list A)) : list A :=
  match es, cs with
  | e :: es', c :: cs' => e :: c ++ weave_r es' cs'
  | _, _ => []
  end.

(** [c0 ++ e0 :: c1 ++ e1 :: ...]: subtrees each followed by a separator. *)
Fixpoint weave_l {A : Type} (cs : list (list A)) (es : list A) : list A :=
  match cs, es with
  | c :: cs', e :: es' => c ++ e :: weave_l cs' es'
  | _, _ => []
  end.

(** In-order sequence of a node from the sequences of its subtrees. *)
Definition interleave {A : Type} (cs : list (list A)) (es : list A) : list A :=
  match cs with
  | [] => es
  | c :: cs' => c ++ weave_r es cs'
  end.

Fixpoint inorder (T : tree) : list IndexEntry :=
  match T with
  | TNode _ _ es cs => interleave (List.map inorder cs) es
  end.

Fixpoint ids (T : tree) : list N :=
  match T with
  | TNode id _ _ cs => id :: concat (List.map ids cs)
  end.

Fixpoint height (T : tree) : nat :=
  match T with
  | TNode _ _ _ cs => S (list_max (List.map height cs))
  end.

(** What queries read of a node: everything but [parentId]. *)
Definition shape (n : BTreeNode) : bool * list IndexEntry * list N :=
  (isLeaf n, entries n, children n).

Definition shape_at (m : gmap N BTreeNode) (id : N)
  : option (bool * list IndexEntry * list N) :=
  shape <$> (m !! id).

Inductive rep (m : gmap N BTreeNode) : tree -> Prop :=
| rep_node id leaf es cs :
    shape_at m id = Some (leaf, es, List.map tid cs) ->
    (if leaf then cs = [] else List.length cs = S (List.length es)) ->
    Forall (rep m) cs ->
    rep m (TNode id leaf es cs).

(** The comparison of entries by key, as the index sees it. *)
Definition key_le (a b : IndexEntry) : Prop := compareValues (key a) (key b) <= 0.

Definition key_leb (a b : IndexEntry) : bool := compareValues (key a) (key b) <=? 0.

(** The state of an index object holds the tree [T]. *)
Definition holds (t : BTree) (T : tree) : Prop :=
  rep (nodes_ t) T /\ tid T = rootId_ t /\ NoDup (ids T) /\
  Forall (fun i => (i < nextNodeId_ t)%N) (ids T) /\
  Sorted key_le (inorder T).

(** Induction on trees, with the hypothesis for every child. *)
Definition tree_rect' (P : tree -> Type) (Q : list tree -> Type)
    (Hnil : Q []) (Hcons : forall c cs, P c -> Q cs -> Q (c :: cs))
    (Hnode : forall id leaf es cs, Q cs -> P (TNode id leaf es cs))
  : forall T, P T :=
  fix go (T : tree) : P T :=
    match T with
    | TNode id leaf es cs =>
        Hnode id leaf es cs
          ((fix gos (cs : list tree) : Q cs :=
              match cs with
              | [] => Hnil
              | c :: cs' => Hcons c cs' (go c) (gos cs')
              end) cs)
    end.

(** [l'] is [l] with [e] put in at a place where its neighbours agree with
    the key order. *)
Definition inserted (e : IndexEntry) (l l' : list IndexEntry) : Prop :=
  exists l1 l2,
    l = l1 ++ l2 /\ l' = l1 ++ e :: l2 /\
    (forall x, last l1 = Some x -> key_le x e) /\
    (forall y, head l2 = Some y -> key_le e y).

(** The state [t] with its id counter moved to [n]. *)
Definition with_next (t : BTree) (n : N) : BTree :=
  mkBTree (keyType_ t) (order_ t) (nodes_ t) (rootId_ t) n (entryCount_ t).

(** The members an update of the node map leaves alone. *)
Definition meta_eq (t t' : BTree) : Prop :=
  keyType_ t' = keyType_ t /\ order_ t' = order_ t /\
  rootId_ t' = rootId_ t /\ entryCount_ t' = entryCount_ t.

(** The ids of [T] are pairwise distinct and were all allotted already. *)
Definition owned (t : BTree) (T : tree) : Prop :=
  NoDup (ids T) /\ Forall (fun i => (i < nextNodeId_ t)%N) (ids T).

(** What a descent that puts [e] into the subtree [T] of state [t] leaves
    behind: the subtree [T'] in state [t'], made of nodes of [T] and of new
    ones, every node outside [T] keeping its shape. *)
Definition grown (e : IndexEntry) (t : BTree) (T : tree) (t' : BTree) (T' : tree)
  : Prop :=
  meta_eq t t' /\ (nextNodeId_ t <= nextNodeId_ t')%N /\
  rep (nodes_ t') T' /\ tid T' = tid T /\ NoDup (ids T') /\
  (forall id, id ∈ ids T' ->
     id ∈ ids T \/ (nextNodeId_ t <= id < nextNodeId_ t')%N) /\
  (forall id, id ∉ ids T -> (id < nextNodeId_ t)%N ->
     shape_at (nodes_ t') id = shape_at (nodes_ t) id) /\
  inserted e (inorder T) (inorder T').

(** The entries an index holds after the calls [cs], when it held [acc]
    before: every [Insert] adds one, [Clear] drops them all. *)
Fixpoint live (acc : list IndexEntry) (cs : list call) : list IndexEntry :=
  match cs with
  | [] => acc
  | Insert k o l s :: cs => live (acc ++ [mkEntry k o l s]) cs
  | Clear :: cs => live [] cs
  end.

(** The number of [Insert] calls since the last [Clear] (or since the
    start), counting from [n]. *)
Fixpoint inserts_from (n : nat) (cs : list call) : nat :=
  match cs with
  | [] => n
  | Insert _ _ _ _ :: cs => inserts_from (S n) cs
  | Clear :: cs => inserts_from O cs
  end.

Definition inserts_since_clear (cs : list call) : nat := inserts_from O cs.

(** A count of entries as the 64-bit member [entryCount_] holds it. *)
Definition count_mod (n : nat) : N := (N.of_nat n mod 2 ^ 64)%N.

(** [minKey <= key e <= maxKey] under the index comparison. *)
Definition key_in_range (minKey maxKey : Value) (e : IndexEntry) : bool :=
  ((compareValues (key e) minKey >=? 0) && (compareValues (key e) maxKey <=? 0))%bool.

(** [k] and the key of [e] compare equal. *)
Definition key_matches (k : Value) (e : IndexEntry) : bool :=
  compareValues k (key e) =? 0.

(** The order of section 3.3: by key, then by sequence number. *)
Definition key_seq_le (a b : IndexEntry) : Prop :=
  compareValues (key a) (key b) < 0 \/
  (compareValues (key a) (key b) = 0 /\ (sequence a <= sequence b)%N).

Definition key_seq_leb (a b : IndexEntry) : bool :=
  (compareValues (key a) (key b) <? 0) ||
  ((compareValues (key a) (key b) =? 0) && (sequence a <=? sequence b)%N).

(** A family of values on which the comparison is transitive, so that it
    orders them.  (It is not transitive on all values: integers compare
    with each other exactly and with floating-point values after rounding.) *)
Definition ordered_family (K : Value -> Prop) : Prop :=
  forall a b c, K a -> K b -> K c ->
    compareValues a b <= 0 -> compareValues b c <= 0 -> compareValues a c <= 0.

(** The integer alternatives of [Value]. *)
Definition is_integer (v : Value) : Prop :=
  match tryGetInt64 v with Some _ => True | None => False end.

(** Sequence numbers grow along the insertions. *)
Definition increasing_sequences (es : list IndexEntry) : Prop :=
  StronglySorted (fun a b => (sequence a < sequence b)%N) es.

(** The range contract as section 8 of the specification words it: the
    answer is ordered by (key, sequence), lies within the bounds and misses
    no stored entry that does. *)
Definition range_contract : Prop :=
  forall (kt : ValueType) (order : Z) (es : list IndexEntry) (lo hi : Value) (t : BTree),
    increasing_sequences es -> compareValues lo hi <= 0 ->
    build kt order es = Ok t ->
    exists r,
      range t lo hi = Ok r /\ Sorted key_seq_le r /\
      Forall (fun e => key_in_range lo hi e = true) r /\
      (forall e, In e es -> key_in_range lo hi e = true -> In e r).

End Shape.

Export Shape.

(** ** The host SQL engine

    SqliteIndex keeps its entries in a table of the host SQL engine (SQLite)
    and reaches it through statements it hands over as text.  The engine is
    not part of the repository; what follows is the part of its documented
    behaviour that the statements of sqlite_index.cpp rely on: the reading
    of the statement texts, storage classes, column affinity, the NOT NULL
    and PRIMARY KEY constraints, the order of values, and the order in which
    a table is walked.  The grammar is the part of the engine's grammar in
    which the statements of sqlite_index.cpp are written; values are taken
    to be within the engine's size limits. *)

Module HostSql.

Inductive SqlValue : Type :=
| SqlNull
| SqlInteger (z : Z)
| SqlReal (f : spec_float)
| SqlText (s : string)
| SqlBlob (b : list byte).

(** The five column affinities. *)
Inductive SqlType : Type := INTEGER | REAL | TEXT | BLOB | NUMERIC.

Definition SQLITE_ERROR : Z := 1.
Definition SQLITE_CONSTRAINT : Z := 19.
Definition SQLITE_ROW : Z := 100.
Definition SQLITE_DONE : Z := 101.

(** Conversions between storage classes that the engine performs and that
    are not spelled out here (text to number and back, and the like).  No
    property below depends on what they return. *)
Record Conversions : Type := mkConversions {
  affinity_of : SqlType -> SqlValue -> SqlValue;
  int64_of : SqlValue -> Z;
  double_of : SqlValue -> spec_float;
  text_of : SqlValue -> option string;
  blob_of : SqlValue -> list byte
}.

(** Column affinity applied to a value on its way into a column or into a
    comparison with it: a value already in the storage class of the column
    is kept, NULL and blobs are never converted, an integer becomes a real
    in a REAL column.  A real without fractional part is held as an integer
    in a REAL column and read back as a real, which changes nothing but the
    sign of a negative zero. *)
Definition apply_affinity (h : Conversions) (ty : SqlType) (v : SqlValue) : SqlValue :=
  match ty, v with
  | _, SqlNull => SqlNull
  | _, SqlBlob _ => v
  | BLOB, _ => v
  | INTEGER, SqlInteger _ => v
  | NUMERIC, SqlInteger _ => v
  | NUMERIC, SqlReal _ => v
  | REAL, SqlReal (S754_zero _) => SqlReal (S754_zero false)
  | REAL, SqlReal _ => v
  | REAL, SqlInteger z => SqlReal (double_of_Z z)
  | TEXT, SqlText _ => v
  | _, _ => affinity_of h ty v
  end.

(** The affinity applied to the other operand of a comparison with a
    column: NUMERIC for a column of a numeric affinity, TEXT for a TEXT
    column, none for a BLOB column. *)
Definition compare_affinity (ty : SqlType) : SqlType :=
  match ty with
  | INTEGER | REAL | NUMERIC => NUMERIC
  | TEXT => TEXT
  | BLOB => BLOB
  end.

(** The real number [m * 2 ^ e] against the integer [z], exactly. *)
Definition compare_int_finite (z : Z) (s : bool) (m : positive) (e : Z) : comparison :=
  let v := cond_Zopp s (Zpos m) in
  if 0 <=? e then Z.compare z (v * 2 ^ e) else Z.compare (z * 2 ^ (- e)) v.

Definition compare_int_real (z : Z) (f : spec_float) : comparison :=
  match f with
  | S754_zero _ => Z.compare z 0
  | S754_infinity s => if s then Gt else Lt
  | S754_nan => Gt
  | S754_finite s m e => compare_int_finite z s m e
  end.

Definition compare_real (f g : spec_float) : comparison :=
  match SFcompare f g with
  | Some c => c
  | None => Eq
  end.

Fixpoint compare_bytes (a b : list Z) : comparison :=
  match a, b with
  | [], [] => Eq
  | [], _ :: _ => Lt
  | _ :: _, [] => Gt
  | x :: a', y :: b' =>
      match Z.compare x y with
      | Eq => compare_bytes a' b'
      | c => c
      end
  end.

(** The order of values: NULL first, then numbers by value, then text by
    bytes (BINARY collation), then blobs by bytes. *)
Definition sql_compare (a b : SqlValue) : comparison :=
  match a, b with
  | SqlNull, SqlNull => Eq
  | SqlNull, _ => Lt
  | _, SqlNull => Gt
  | SqlInteger x, SqlInteger y => Z.compare x y
  | SqlInteger x, SqlReal g => compare_int_real x g
  | SqlReal f, SqlInteger y => CompOpp (compare_int_real y f)
  | SqlReal f, SqlReal g => compare_real f g
  | (SqlInteger _ | SqlReal _), _ => Lt
  | _, (SqlInteger _ | SqlReal _) => Gt
  | SqlText s, SqlText t => compare_bytes (bytes_of_string s) (bytes_of_string t)
  | SqlText _, SqlBlob _ => Lt
  | SqlBlob _, SqlText _ => Gt
  | SqlBlob x, SqlBlob y =>
      compare_bytes (List.map (fun c => Z.of_N (Byte.to_N c)) x)
                    (List.map (fun c => Z.of_N (Byte.to_N c)) y)
  end.

Definition is_null (v : SqlValue) : bool :=
  match v with SqlNull => true | _ => false end.

(** The comparison operators of a WHERE clause: false when an operand is NULL. *)
Definition sql_eq (a b : SqlValue) : bool :=
  negb (is_null a) && negb (is_null b) &&
  match sql_compare a b with Eq => true | _ => false end.

Definition sql_ge (a b : SqlValue) : bool :=
  negb (is_null a) && negb (is_null b) &&
  match sql_compare a b with Lt => false | _ => true end.

Definition sql_le (a b : SqlValue) : bool :=
  negb (is_null a) && negb (is_null b) &&
  match sql_compare a b with Gt => false | _ => true end.

(** *** Names and declared types *)

(** The double quote character. *)
Definition dquote_char : ascii := "034"%char.
Definition dquote : string := String dquote_char EmptyString.

(** Names of tables and columns are compared without regard to the case of
    the letters A to Z. *)
Definition lower (c : ascii) : ascii :=
  let n := N_of_ascii c in
  if ((65 <=? n) && (n <=? 90))%N then ascii_of_N (n + 32) else c.

Fixpoint fold_name (s : string) : string :=
  match s with
  | EmptyString => EmptyString
  | String c rest => String (lower c) (fold_name rest)
  end.

Definition same_name (a b : string) : bool := String.eqb (fold_name a) (fold_name b).

Fixpoint contains (sub s : string) : bool :=
  match s with
  | EmptyString => String.prefix sub EmptyString
  | String _ rest => String.prefix sub s || contains sub rest
  end.

(** The affinity of a column follows from the text of its declared type. *)
Definition affinity_of_type (ty : string) : SqlType :=
  let t := fold_name ty in
  if contains "int" t then INTEGER
  else if contains "char" t || contains "clob" t || contains "text" t then TEXT
  else if contains "blob" t || String.eqb t EmptyString then BLOB
  else if contains "real" t || contains "floa" t || contains "doub" t then REAL
  else NUMERIC.

(** *** Tables *)

Record ColumnDecl : Type := mkColumn {
  c_name : string;
  c_type : string;
  c_not_null : bool
}.

Record TableDecl : Type := mkTable {
  d_name : string;
  d_columns : list ColumnDecl;
  d_primary_key : list string;
  d_without_rowid : bool
}.

(** A row holds one value for each column of the declaration. *)
Definition Row : Type := list SqlValue.

(** A table: its declaration and its rows in the order the table is walked
    in, which is the order of the primary key for a WITHOUT ROWID table and
    the order of insertion otherwise. *)
Record Table : Type := mkTableState {
  t_decl : TableDecl;
  t_rows : list Row
}.

(** A database: its tables by folded name. *)
Abbreviation Database := (gmap string Table).

Fixpoint position (n : string) (names : list string) : option nat :=
  match names with
  | [] => None
  | x :: rest => if same_name x n then Some O else option_map S (position n rest)
  end.

Definition column_names (d : TableDecl) : list string := List.map c_name (d_columns d).

(** The value a row holds in the column [n]. *)
Definition cell (d : TableDecl) (n : string) (r : Row) : SqlValue :=
  match position n (column_names d) with
  | Some i => nth i r SqlNull
  | None => SqlNull
  end.

Definition column_affinity (d : TableDecl) (n : string) : SqlType :=
  match List.find (fun c => same_name (c_name c) n) (d_columns d) with
  | Some c => affinity_of_type (c_type c)
  | None => BLOB
  end.

(** Order of the primary key: by its columns, the first one first. *)
Fixpoint compare_cells (d : TableDecl) (names : list string) (a b : Row) : comparison :=
  match names with
  | [] => Eq
  | n :: rest =>
      match sql_compare (cell d n a) (cell d n b) with
      | Eq => compare_cells d rest a b
      | c => c
      end
  end.

Definition pk_compare (d : TableDecl) (a b : Row) : comparison :=
  compare_cells d (d_primary_key d) a b.

Fixpoint pk_insert (d : TableDecl) (r : Row) (rows : list Row) : list Row :=
  match rows with
  | [] => [r]
  | x :: rest =>
      match pk_compare d r x with
      | Gt => x :: pk_insert d r rest
      | _ => r :: rows
      end
  end.

(** Some row agrees with [r] on every column of the primary key. *)
Definition pk_taken (d : TableDecl) (r : Row) (rows : list Row) : bool :=
  negb (Nat.eqb (List.length (d_primary_key d)) 0) &&
  existsb (fun x => forallb (fun n => sql_eq (cell d n r) (cell d n x)) (d_primary_key d))
          rows.

(** A column that takes no NULL: declared NOT NULL, or part of the primary
    key of a WITHOUT ROWID table. *)
Definition must_not_be_null (d : TableDecl) (c : ColumnDecl) : bool :=
  c_not_null c || (d_without_rowid d && existsb (same_name (c_name c)) (d_primary_key d)).

(** *** Statement texts *)

Inductive token : Type :=
| TWord (w : string)
| TName (n : string)
| TLp | TRp | TComma | TParam | TStar | TEq | TGe | TLe
| TBad.

Inductive lex_state : Type :=
| LNone
| LWord (w : string)
| LQuoted (n : string)
| LQuoteSeen (n : string)
| LGreater
| LLess.

Definition is_space (c : ascii) : bool :=
  let n := N_of_ascii c in
  ((n =? 32) || (n =? 9) || (n =? 10) || (n =? 12) || (n =? 13))%N.

Definition is_digit (c : ascii) : bool :=
  let n := N_of_ascii c in ((48 <=? n) && (n <=? 57))%N.

Definition is_word_char (c : ascii) : bool :=
  let n := N_of_ascii c in
  (is_digit c || ((65 <=? n) && (n <=? 90)) || ((97 <=? n) && (n <=? 122))
   || (n =? 95) || (n =? 36) || (128 <=? n))%N.

(** A character met between two tokens. *)
Definition lex_fresh (c : ascii) : list token * lex_state :=
  if is_space c then ([], LNone)
  else if is_word_char c then ([], LWord (String c EmptyString))
  else if Ascii.eqb c dquote_char then ([], LQuoted EmptyString)
  else if Ascii.eqb c "("%char then ([TLp], LNone)
  else if Ascii.eqb c ")"%char then ([TRp], LNone)
  else if Ascii.eqb c ","%char then ([TComma], LNone)
  else if Ascii.eqb c "?"%char then ([TParam], LNone)
  else if Ascii.eqb c "*"%char then ([TStar], LNone)
  else if Ascii.eqb c "="%char then ([TEq], LNone)
  else if Ascii.eqb c ">"%char then ([], LGreater)
  else if Ascii.eqb c "<"%char then ([], LLess)
  else ([TBad], LNone).

Definition after (t : token) (c : ascii) : list token * lex_state :=
  (t :: fst (lex_fresh c), snd (lex_fresh c)).

(** One character more.  Inside a quoted name two double quotes in a row
    stand for one; a single one ends the name. *)
Definition lex_step (st : lex_state) (c : ascii) : list token * lex_state :=
  match st with
  | LNone => lex_fresh c
  | LWord w =>
      if is_word_char c then ([], LWord (w ++ String c EmptyString)) else after (TWord w) c
  | LQuoted n =>
      if Ascii.eqb c dquote_char then ([], LQuoteSeen n)
      else ([], LQuoted (n ++ String c EmptyString))
  | LQuoteSeen n =>
      if Ascii.eqb c dquote_char then ([], LQuoted (n ++ dquote)) else after (TName n) c
  | LGreater => if Ascii.eqb c "="%char then ([TGe], LNone) else after TBad c
  | LLess => if Ascii.eqb c "="%char then ([TLe], LNone) else after TBad c
  end.

(** The end of the text: a name left open is no token. *)
Definition lex_end (st : lex_state) : list token :=
  match st with
  | LNone => []
  | LWord w => [TWord w]
  | LQuoted _ => [TBad]
  | LQuoteSeen n => [TName n]
  | LGreater | LLess => [TBad]
  end.

Fixpoint lex_from (st : lex_state) (s : string) : list token :=
  match s with
  | EmptyString => lex_end st
  | String c rest =>
      let p := lex_step st c in fst p ++ lex_from (snd p) rest
  end.

Definition tokens (s : string) : list token := lex_from LNone s.

Inductive CompareOp : Type := OpEq | OpGe | OpLe.

Record Select : Type := mkSelect {
  s_columns : list string;
  s_table : string;
  s_where : list (string * CompareOp);
  s_order_by : option string;
  s_limit : option N
}.

(** A statement as the engine understands it.  The parameters [?] are
    numbered from the left. *)
Inductive Stmt : Type :=
| SCreateTable (if_not_exists : bool) (d : TableDecl)
| SInsert (table : string) (columns : list string) (values : nat)
| SSelect (q : Select)
| SCount (table : string)
| SDelete (table : string).

Definition keyword (kw : string) (t : token) : bool :=
  match t with
  | TWord w => String.eqb (fold_name w) kw
  | _ => false
  end.

(** Words that name nothing unless quoted. *)
Definition reserved_words : list string :=
  ["add"; "all"; "alter"; "and"; "as"; "autoincrement"; "between"; "case"; "check";
   "collate"; "commit"; "constraint"; "create"; "default"; "deferrable"; "delete";
   "distinct"; "drop"; "else"; "escape"; "except"; "exists"; "foreign"; "from";
   "group"; "having"; "in"; "index"; "insert"; "intersect"; "into"; "is"; "isnull";
   "join"; "limit"; "not"; "nothing"; "notnull"; "null"; "on"; "or"; "order";
   "primary"; "references"; "returning"; "select"; "set"; "table"; "then"; "to";
   "transaction"; "union"; "unique"; "update"; "using"; "values"; "when";
   "where"]%string.

Definition reserved (w : string) : bool :=
  existsb (String.eqb (fold_name w)) reserved_words.

Definition starts_with_digit (w : string) : bool :=
  match w with
  | String c _ => is_digit c
  | EmptyString => false
  end.

(** The name a token stands for: a quoted name as it is without its
    quotes, a word unless it is reserved or a number. *)
Definition name_of (t : token) : option string :=
  match t with
  | TName n => Some n
  | TWord w => if reserved w || starts_with_digit w then None else Some w
  | _ => None
  end.

(** [name, ..., name )] *)
Fixpoint name_list (ts : list token) : option (list string * list token) :=
  match ts with
  | t :: TComma :: rest =>
      n ← name_of t; r ← name_list rest; Some (n :: fst r, snd r)
  | t :: TRp :: rest => n ← name_of t; Some ([n], rest)
  | _ => None
  end.

(** [?, ..., ? )] *)
Fixpoint param_list (ts : list token) : option (nat * list token) :=
  match ts with
  | TParam :: TComma :: rest => r ← param_list rest; Some (S (fst r), snd r)
  | TParam :: TRp :: rest => Some (1%nat, rest)
  | _ => None
  end.

(** [name type NOT NULL], the type and the constraint being optional. *)
Definition column_def (ts : list token) : option (ColumnDecl * list token) :=
  match ts with
  | t :: rest =>
      n ← name_of t;
      let typed :=
        match rest with
        | TWord w :: rest' =>
            if reserved w || starts_with_digit w || String.eqb (fold_name w) "generated"
            then (EmptyString, rest) else (w, rest')
        | _ => (EmptyString, rest)
        end in
      let constrained :=
        match snd typed with
        | a :: b :: rest' =>
            if keyword "not" a && keyword "null" b then (true, rest')
            else (false, snd typed)
        | _ => (false, snd typed)
        end in
      Some (mkColumn n (fst typed) (fst constrained), snd constrained)
  | [] => None
  end.

(** The column definitions of CREATE TABLE up to the closing parenthesis,
    with a PRIMARY KEY constraint at their end or without one. *)
Fixpoint column_defs (fuel : nat) (ts : list token)
  : option (list ColumnDecl * list string * list token) :=
  match fuel with
  | O => None
  | S fuel =>
      let item :=
        c ← column_def ts;
        match snd c with
        | TComma :: rest =>
            r ← column_defs fuel rest; Some (fst c :: fst (fst r), snd (fst r), snd r)
        | TRp :: rest => Some ([fst c], [], rest)
        | _ => None
        end in
      match ts with
      | p :: k :: TLp :: rest =>
          if keyword "primary" p && keyword "key" k then
            r ← name_list rest;
            match snd r with
            | TRp :: rest' => Some ([], fst r, rest')
            | _ => None
            end
          else item
      | _ => item
      end
  end.

Definition parse_create (ts : list token) : option Stmt :=
  match ts with
  | c :: t :: rest =>
      if keyword "create" c && keyword "table" t then
        let guarded :=
          match rest with
          | i :: n :: e :: rest' =>
              if keyword "if" i && keyword "not" n && keyword "exists" e
              then (true, rest') else (false, rest)
          | _ => (false, rest)
          end in
        match snd guarded with
        | nm :: TLp :: rest' =>
            n ← name_of nm;
            r ← column_defs (List.length rest') rest';
            wr ← match snd r with
                 | [] => Some false
                 | [w; x] => if keyword "without" w && keyword "rowid" x
                             then Some true else None
                 | _ => None
                 end;
            Some (SCreateTable (fst guarded) (mkTable n (fst (fst r)) (snd (fst r)) wr))
        | _ => None
        end
      else None
  | _ => None
  end.

Definition parse_insert (ts : list token) : option Stmt :=
  match ts with
  | i :: n :: nm :: TLp :: rest =>
      if keyword "insert" i && keyword "into" n then
        table ← name_of nm;
        cols ← name_list rest;
        match snd cols with
        | v :: TLp :: rest' =>
            if keyword "values" v then
              ps ← param_list rest';
              match snd ps with
              | [] => Some (SInsert table (fst cols) (fst ps))
              | _ => None
              end
            else None
        | _ => None
        end
      else None
  | _ => None
  end.

(** [name, ..., name FROM] *)
Fixpoint select_list (ts : list token) : option (list string * list token) :=
  match ts with
  | t :: TComma :: rest =>
      n ← name_of t; r ← select_list rest; Some (n :: fst r, snd r)
  | t :: f :: rest =>
      if keyword "from" f then n ← name_of t; Some ([n], rest) else None
  | _ => None
  end.

Definition compare_op (t : token) : option CompareOp :=
  match t with
  | TEq => Some OpEq
  | TGe => Some OpGe
  | TLe => Some OpLe
  | _ => None
  end.

(** [name op ? AND ... AND name op ?] *)
Fixpoint conditions (ts : list token)
  : option (list (string * CompareOp) * list token) :=
  match ts with
  | c :: o :: TParam :: rest =>
      n ← name_of c; op ← compare_op o;
      match rest with
      | a :: rest' =>
          if keyword "and" a then
            r ← conditions rest'; Some ((n, op) :: fst r, snd r)
          else Some ([(n, op)], rest)
      | [] => Some ([(n, op)], rest)
      end
  | _ => None
  end.

Fixpoint decimal (acc : N) (w : string) : option N :=
  match w with
  | EmptyString => Some acc
  | String c rest =>
      if is_digit c then decimal (10 * acc + (N_of_ascii c - 48))%N rest else None
  end.

Definition number_of (t : token) : option N :=
  match t with
  | TWord w => if starts_with_digit w then decimal 0%N w else None
  | _ => None
  end.

Definition parse_select (ts : list token) : option Stmt :=
  match ts with
  | [s; c; TLp; TStar; TRp; f; nm] =>
      if keyword "select" s && keyword "count" c && keyword "from" f then
        table ← name_of nm; Some (SCount table)
      else None
  | s :: rest =>
      if keyword "select" s then
        cols ← select_list rest;
        match snd cols with
        | nm :: rest1 =>
            table ← name_of nm;
            wh ← match rest1 with
                 | w :: rest' => if keyword "where" w then conditions rest'
                                 else Some ([], rest1)
                 | [] => Some ([], rest1)
                 end;
            ob ← match snd wh with
                 | o :: b :: c :: rest' =>
                     if keyword "order" o && keyword "by" b then
                       n ← name_of c; Some (Some n, rest')
                     else Some (None, snd wh)
                 | _ => Some (None, snd wh)
                 end;
            lim ← match snd ob with
                  | [] => Some None
                  | [l; k] => if keyword "limit" l then n ← number_of k; Some (Some n)
                              else None
                  | _ => None
                  end;
            Some (SSelect (mkSelect (fst cols) table (fst wh) (fst ob) lim))
        | [] => None
        end
      else None
  | _ => None
  end.

Definition parse_delete (ts : list token) : option Stmt :=
  match ts with
  | [d; f; nm] =>
      if keyword "delete" d && keyword "from" f then
        table ← name_of nm; Some (SDelete table)
      else None
  | _ => None
  end.

Definition parse (ts : list token) : option Stmt :=
  match ts with
  | t :: _ =>
      if keyword "create" t then parse_create ts
      else if keyword "insert" t then parse_insert ts
      else if keyword "select" t then parse_select ts
      else if keyword "delete" t then parse_delete ts
      else None
  | [] => None
  end.

(** The text behind a [const char*]: the bytes before the first NUL. *)
Fixpoint c_string (s : string) : string :=
  match s with
  | EmptyString => EmptyString
  | String c rest => if Ascii.eqb c "000"%char then EmptyString else String c (c_string rest)
  end.

(** The statement a text handed over as a C string stands for. *)
Definition statement (zSql : string) : result Stmt :=
  match parse (tokens (c_string zSql)) with
  | Some s => Ok s
  | None => Err (HostError SQLITE_ERROR)
  end.

Fixpoint distinct_names (names : list string) : bool :=
  match names with
  | [] => true
  | n :: rest => negb (existsb (same_name n) rest) && distinct_names rest
  end.

Definition has_column (d : TableDecl) (n : string) : bool :=
  existsb (same_name n) (column_names d).

(** The declarations CREATE TABLE accepts: columns with different names, a
    primary key made of columns of the table, and one at all for a WITHOUT
    ROWID table.  (A single INTEGER column as the primary key of a table
    with rowids would stand for the rowid; such tables are left out.) *)
Definition valid_decl (d : TableDecl) : bool :=
  negb (Nat.eqb (List.length (d_columns d)) 0) &&
  distinct_names (column_names d) &&
  forallb (has_column d) (d_primary_key d) &&
  distinct_names (d_primary_key d) &&
  (if d_without_rowid d then negb (Nat.eqb (List.length (d_primary_key d)) 0)
   else
     match d_primary_key d with
     | [n] => negb (String.eqb (fold_name
                      (match List.find (fun c => same_name (c_name c) n) (d_columns d) with
                       | Some c => c_type c
                       | None => EmptyString
                       end)) "integer")
     | _ => true
     end).

(** sqlite3_exec, for the one kind of statement the index runs with it.
    CREATE TABLE IF NOT EXISTS leaves a table of that name as it is. *)
Definition sqlite3_exec (db : Database) (zSql : string) : result Database :=
  s <- statement zSql ;;
  match s with
  | SCreateTable if_not_exists d =>
      match db !! fold_name (d_name d) with
      | Some _ => if if_not_exists then Ok db else Err (HostError SQLITE_ERROR)
      | None =>
          if valid_decl d then Ok (<[fold_name (d_name d) := mkTableState d []]> db)
          else Err (HostError SQLITE_ERROR)
      end
  | _ => Err (HostError SQLITE_ERROR)
  end.

(** The table of a statement exists and has the columns the statement
    names. *)
Definition resolves (db : Database) (table : string) (columns : list string) : bool :=
  match db !! fold_name table with
  | Some t => forallb (has_column (t_decl t)) columns
  | None => false
  end.

(** sqlite3_prepare_v2 for INSERT, SELECT and DELETE. *)
Definition sqlite3_prepare_v2 (db : Database) (zSql : string) : result Stmt :=
  s <- statement zSql ;;
  let ok :=
    match s with
    | SCreateTable _ _ => false
    | SInsert table columns values =>
        resolves db table columns && distinct_names columns
        && Nat.eqb (List.length columns) values
    | SSelect q =>
        resolves db (s_table q)
          (s_columns q ++ List.map fst (s_where q)
           ++ match s_order_by q with Some n => [n] | None => [] end)
    | SCount table => resolves db table []
    | SDelete table => resolves db table []
    end in
  if ok then Ok s else Err (HostError SQLITE_ERROR).

(** *** Running a prepared statement *)

(** The row an INSERT makes of its parameters: a column the statement does
    not name gets NULL; every value takes the affinity of its column. *)
Definition new_row (h : Conversions) (d : TableDecl) (columns : list string)
    (params : list SqlValue) : Row :=
  List.map (fun c =>
              apply_affinity h (affinity_of_type (c_type c))
                (match position (c_name c) columns with
                 | Some i => nth i params SqlNull
                 | None => SqlNull
                 end))
           (d_columns d).

Fixpoint null_where_forbidden (d : TableDecl) (cs : list ColumnDecl) (r : Row) : bool :=
  match cs, r with
  | c :: cs', v :: r' =>
      (must_not_be_null d c && is_null v) || null_where_forbidden d cs' r'
  | _, _ => false
  end.

(** sqlite3_step on an INSERT: the result code and the database afterwards. *)
Definition step_insert (h : Conversions) (db : Database) (s : Stmt)
    (params : list SqlValue) : Z * Database :=
  match s with
  | SInsert table columns _ =>
      match db !! fold_name table with
      | Some t =>
          let d := t_decl t in
          let r := new_row h d columns params in
          if null_where_forbidden d (d_columns d) r then (SQLITE_CONSTRAINT, db)
          else if pk_taken d r (t_rows t) then (SQLITE_CONSTRAINT, db)
          else
            (SQLITE_DONE,
             <[fold_name table :=
                 mkTableState d (if d_without_rowid d then pk_insert d r (t_rows t)
                                 else t_rows t ++ [r])]> db)
      | None => (SQLITE_ERROR, db)
      end
  | _ => (SQLITE_ERROR, db)
  end.

Definition holds_condition (h : Conversions) (d : TableDecl) (r : Row)
    (c : string * CompareOp) (p : SqlValue) : bool :=
  let v := cell d (fst c) r in
  let p := apply_affinity h (compare_affinity (column_affinity d (fst c))) p in
  match snd c with
  | OpEq => sql_eq v p
  | OpGe => sql_ge v p
  | OpLe => sql_le v p
  end.

(** The conditions of a WHERE clause, joined by AND; a parameter that was
    not bound is NULL. *)
Fixpoint holds_where (h : Conversions) (d : TableDecl) (r : Row)
    (cs : list (string * CompareOp)) (params : list SqlValue) : bool :=
  match cs with
  | [] => true
  | c :: cs' =>
      holds_condition h d r c (hd SqlNull params)
      && holds_where h d r cs' (tl params)
  end.

(** ORDER BY one column: rows that compare equal stay in the order the
    table is walked in. *)
Fixpoint order_insert (d : TableDecl) (n : string) (r : Row) (sorted : list Row)
  : list Row :=
  match sorted with
  | [] => [r]
  | x :: rest =>
      match sql_compare (cell d n r) (cell d n x) with
      | Gt => x :: order_insert d n r rest
      | _ => r :: sorted
      end
  end.

Definition order_by (d : TableDecl) (n : string) (rows : list Row) : list Row :=
  fold_right (order_insert d n) [] rows.

(** sqlite3_step on a SELECT until it returns SQLITE_DONE: the rows it
    stops at with SQLITE_ROW, each with the columns the statement names. *)
Definition step_select (h : Conversions) (db : Database) (s : Stmt)
    (params : list SqlValue) : list Row :=
  match s with
  | SSelect q =>
      match db !! fold_name (s_table q) with
      | Some t =>
          let d := t_decl t in
          let rows := List.filter (fun r => holds_where h d r (s_where q) params)
                                  (t_rows t) in
          let rows := match s_order_by q with
                      | Some n => order_by d n rows
                      | None => rows
                      end in
          let rows := match s_limit q with
                      | Some k => firstn (N.to_nat k) rows
                      | None => rows
                      end in
          List.map (fun r => List.map (fun n => cell d n r) (s_columns q)) rows
      | None => []
      end
  | _ => []
  end.

(** sqlite3_step on a DELETE without WHERE. *)
Definition step_delete (db : Database) (s : Stmt) : Z * Database :=
  match s with
  | SDelete table =>
      match db !! fold_name table with
      | Some t => (SQLITE_DONE, <[fold_name table := mkTableState (t_decl t) []]> db)
      | None => (SQLITE_ERROR, db)
      end
  | _ => (SQLITE_ERROR, db)
  end.

(** sqlite3_column_int64, sqlite3_column_int, sqlite3_column_double,
    sqlite3_column_text, sqlite3_column_blob with sqlite3_column_bytes. *)
Definition column_int64 (h : Conversions) (v : SqlValue) : Z :=
  match v with
  | SqlInteger z => z
  | SqlNull => 0
  | _ => int64_of h v
  end.

Definition column_int (h : Conversions) (v : SqlValue) : Z :=
  to_int32 (column_int64 h v).

Definition column_double (h : Conversions) (v : SqlValue) : spec_float :=
  match v with
  | SqlReal f => f
  | SqlInteger z => double_of_Z z
  | SqlNull => S754_zero false
  | _ => double_of h v
  end.

Definition column_text (h : Conversions) (v : SqlValue) : option string :=
  match v with
  | SqlText s => Some s
  | SqlNull => None
  | _ => text_of h v
  end.

Definition column_blob (h : Conversions) (v : SqlValue) : list byte :=
  match v with
  | SqlBlob b => b
  | SqlNull => []
  | _ => blob_of h v
  end.

(** The column [i] of a result row. *)
Definition column (r : Row) (i : nat) : SqlValue := nth i r SqlNull.

End HostSql.

Export HostSql.

(** ** The host-SQL-backed index (sqlite_index.cpp) *)

Module SqliteIndexModel.

Record SqliteIndex : Type := mkSqliteIndex {
  indexTableName_ : string;
  keyType_ : ValueType;
  entryCount_ : N;
  insertStmt_ : Stmt;
  searchStmt_ : Stmt;
  searchFirstStmt_ : Stmt;
  rangeStmt_ : Stmt;
  allStmt_ : Stmt;
  countStmt_ : Stmt;
  clearStmt_ : Stmt
}.

(** getSqliteType (lines 244-267). *)
Definition getSqliteType (keyType : ValueType) : string :=
  match keyType with
  | TInt8 | TInt16 | TInt32 | TInt64
  | TUInt8 | TUInt16 | TUInt32 | TUInt64 => "INTEGER"
  | TFloat32 | TFloat64 => "REAL"
  | TString => "TEXT"
  | TBool => "INTEGER"
  | TBytes => "BLOB"
  | _ => "BLOB"
  end.

Definition make_indexTableName (tableName columnName : string) : string :=
  ("_idx_" ++ tableName ++ "_" ++ columnName)%string.

Definition make_createSql (indexTableName : string) (sqlType : string) : string :=
  ("CREATE TABLE IF NOT EXISTS " ++ dquote ++ indexTableName ++ dquote ++ " ("
   ++ "key " ++ sqlType ++ " NOT NULL, "
   ++ "data_offset INTEGER NOT NULL, "
   ++ "data_length INTEGER NOT NULL, "
   ++ "sequence INTEGER NOT NULL, "
   ++ "PRIMARY KEY (key, sequence)"
   ++ ") WITHOUT ROWID")%string.

Definition make_insertSql (indexTableName : string) : string :=
  ("INSERT INTO " ++ dquote ++ indexTableName ++ dquote
   ++ " (key, data_offset, data_length, sequence) VALUES (?, ?, ?, ?)")%string.

Definition make_searchSql (indexTableName : string) : string :=
  ("SELECT key, data_offset, data_length, sequence FROM " ++ dquote
   ++ indexTableName ++ dquote ++ " WHERE key = ?")%string.

Definition make_searchFirstSql (indexTableName : string) : string :=
  ("SELECT key, data_offset, data_length, sequence FROM " ++ dquote
   ++ indexTableName ++ dquote ++ " WHERE key = ? LIMIT 1")%string.

Definition make_rangeSql (indexTableName : string) : string :=
  ("SELECT key, data_offset, data_length, sequence FROM " ++ dquote
   ++ indexTableName ++ dquote ++ " WHERE key >= ? AND key <= ? ORDER BY key")%string.

Definition make_allSql (indexTableName : string) : string :=
  ("SELECT key, data_offset, data_length, sequence FROM " ++ dquote
   ++ indexTableName ++ dquote ++ " ORDER BY key")%string.

Definition make_countSql (indexTableName : string) : string :=
  ("SELECT COUNT(*) FROM " ++ dquote ++ indexTableName ++ dquote)%string.

Definition make_clearSql (indexTableName : string) : string :=
  ("DELETE FROM " ++ dquote ++ indexTableName ++ dquote)%string.

(** The constructor (lines 97-173): names the table, has the engine run the
    CREATE TABLE statement and prepares the seven statements; it throws
    when the engine refuses one of them. *)
Definition SqliteIndex_new (db : Database) (tableName columnName : string)
    (keyType : ValueType) : result (Database * SqliteIndex) :=
  let indexTableName := make_indexTableName tableName columnName in
  let sqlType := getSqliteType keyType in
  db <- sqlite3_exec db (make_createSql indexTableName sqlType) ;;
  insertStmt <- sqlite3_prepare_v2 db (make_insertSql indexTableName) ;;
  searchStmt <- sqlite3_prepare_v2 db (make_searchSql indexTableName) ;;
  searchFirstStmt <- sqlite3_prepare_v2 db (make_searchFirstSql indexTableName) ;;
  rangeStmt <- sqlite3_prepare_v2 db (make_rangeSql indexTableName) ;;
  allStmt <- sqlite3_prepare_v2 db (make_allSql indexTableName) ;;
  countStmt <- sqlite3_prepare_v2 db (make_countSql indexTableName) ;;
  clearStmt <- sqlite3_prepare_v2 db (make_clearSql indexTableName) ;;
  Ok (db,
      mkSqliteIndex indexTableName keyType 0%N insertStmt searchStmt searchFirstStmt
        rangeStmt allStmt countStmt clearStmt).

(** sqlite3_bind_double: a NaN is bound as NULL. *)
Definition bind_double (f : spec_float) : SqlValue :=
  match f with
  | S754_nan => SqlNull
  | _ => SqlReal f
  end.

(** sqlite3_bind_blob: a null pointer is bound as NULL, and that is what
    [data()] of an empty vector without storage is. *)
Definition bind_blob (b : list byte) : SqlValue :=
  match b with
  | [] => SqlNull
  | _ => SqlBlob b
  end.

(** bindKey (lines 269-296). *)
Definition bindKey (k : Value) : SqlValue :=
  match k with
  | VNull => SqlNull
  | VBool b => SqlInteger (if b then 1 else 0)
  | VInt8 z | VInt16 z | VInt32 z => SqlInteger (to_int32 z)
  | VInt64 z => SqlInteger z
  | VUInt8 z | VUInt16 z | VUInt32 z => SqlInteger (to_int32 z)
  | VUInt64 z => SqlInteger (to_int64 z)
  | VFloat32 f => bind_double (double_of_float f)
  | VFloat64 f => bind_double f
  | VString s => SqlText s
  | VBytes b => bind_blob b
  end.

(** Reduction of an integer into the range of a C++ integer type. *)
Definition wrap_signed (bits : Z) (z : Z) : Z :=
  (z + 2 ^ (bits - 1)) mod 2 ^ bits - 2 ^ (bits - 1).
Definition wrap_unsigned (bits : Z) (z : Z) : Z := z mod 2 ^ bits.

(** [static_cast<float>] of a double: the nearest binary32 value. *)
Definition float_of_double (f : spec_float) : spec_float :=
  match f with
  | S754_finite s m e => binary_normalize 24 128 (cond_Zopp s (Zpos m)) e s
  | _ => f
  end.

(** extractKey (lines 298-341). *)
Definition extractKey (h : Conversions) (keyType : ValueType) (v : SqlValue) : Value :=
  match keyType with
  | TInt8 => VInt8 (wrap_signed 8 (column_int h v))
  | TInt16 => VInt16 (wrap_signed 16 (column_int h v))
  | TInt32 => VInt32 (column_int h v)
  | TInt64 => VInt64 (column_int64 h v)
  | TUInt8 => VUInt8 (wrap_unsigned 8 (column_int h v))
  | TUInt16 => VUInt16 (wrap_unsigned 16 (column_int h v))
  | TUInt32 => VUInt32 (wrap_unsigned 32 (column_int h v))
  | TUInt64 => VUInt64 (wrap_unsigned 64 (column_int64 h v))
  | TFloat32 => VFloat32 (float_of_double (column_double h v))
  | TFloat64 => VFloat64 (column_double h v)
  | TString =>
      match column_text h v with
      | Some text => VString (c_string text)
      | None => VString EmptyString
      end
  | TBool => VBool (negb (column_int h v =? 0))
  | TBytes => VBytes (column_blob h v)
  | TNull => VNull
  end.

(** extractEntry (lines 343-350). *)
Definition extractEntry (h : Conversions) (keyType : ValueType) (r : Row) : IndexEntry :=
  mkEntry (extractKey h keyType (column r 0))
          (Z.to_N (wrap_unsigned 64 (column_int64 h (column r 1))))
          (Z.to_N (wrap_unsigned 32 (column_int h (column r 2))))
          (Z.to_N (wrap_unsigned 64 (column_int64 h (column r 3)))).

Definition with_count (ix : SqliteIndex) (n : N) : SqliteIndex :=
  mkSqliteIndex (indexTableName_ ix) (keyType_ ix) n
    (insertStmt_ ix) (searchStmt_ ix) (searchFirstStmt_ ix)
    (rangeStmt_ ix) (allStmt_ ix) (countStmt_ ix) (clearStmt_ ix).

(** insert (lines 352-368). *)
Definition insert (h : Conversions) (db : Database) (ix : SqliteIndex)
    (k : Value) (dataOffset dataLength sequence : N)
  : result (Database * SqliteIndex) :=
  let params := [bindKey k;
                 SqlInteger (to_int64 (Z.of_N dataOffset));
                 SqlInteger (to_int32 (Z.of_N dataLength));
                 SqlInteger (to_int64 (Z.of_N sequence))] in
  let rc := step_insert h db (insertStmt_ ix) params in
  if negb (fst rc =? SQLITE_DONE) then Err (HostError (fst rc))
  else Ok (snd rc, with_count ix ((entryCount_ ix + 1) mod 2 ^ 64)%N).

(** search (lines 370-382). *)
Definition search (h : Conversions) (db : Database) (ix : SqliteIndex) (k : Value)
  : list IndexEntry :=
  List.map (extractEntry h (keyType_ ix))
           (step_select h db (searchStmt_ ix) [bindKey k]).

(** searchFirst (lines 384-395): one step of its statement. *)
Definition searchFirst (h : Conversions) (db : Database) (ix : SqliteIndex) (k : Value)
  : option IndexEntry :=
  match step_select h db (searchFirstStmt_ ix) [bindKey k] with
  | r :: _ => Some (extractEntry h (keyType_ ix) r)
  | [] => None
  end.

(** searchFirstString and searchFirstInt64 (lines 397-427). *)
Definition searchFirstRaw (h : Conversions) (db : Database) (ix : SqliteIndex)
    (k : SqlValue) : option (N * N * N) :=
  match step_select h db (searchFirstStmt_ ix) [k] with
  | r :: _ =>
      Some (Z.to_N (wrap_unsigned 64 (column_int64 h (column r 1))),
            Z.to_N (wrap_unsigned 32 (column_int h (column r 2))),
            Z.to_N (wrap_unsigned 64 (column_int64 h (column r 3))))
  | [] => None
  end.

Definition searchFirstString (h : Conversions) (db : Database) (ix : SqliteIndex)
    (k : string) : option (N * N * N) :=
  searchFirstRaw h db ix (SqlText k).

Definition searchFirstInt64 (h : Conversions) (db : Database) (ix : SqliteIndex)
    (k : Z) : option (N * N * N) :=
  searchFirstRaw h db ix (SqlInteger k).

(** range (lines 429-442). *)
Definition range (h : Conversions) (db : Database) (ix : SqliteIndex)
    (minKey maxKey : Value) : list IndexEntry :=
  List.map (extractEntry h (keyType_ ix))
           (step_select h db (rangeStmt_ ix) [bindKey minKey; bindKey maxKey]).

(** all (lines 444-454). *)
Definition all (h : Conversions) (db : Database) (ix : SqliteIndex) : list IndexEntry :=
  List.map (extractEntry h (keyType_ ix)) (step_select h db (allStmt_ ix) []).

Definition getEntryCount (ix : SqliteIndex) : N := entryCount_ ix.

(** clear (lines 456-466). *)
Definition clear (db : Database) (ix : SqliteIndex) : result (Database * SqliteIndex) :=
  let rc := step_delete db (clearStmt_ ix) in
  if negb (fst rc =? SQLITE_DONE) then Err (HostError (fst rc))
  else Ok (snd rc, with_count ix 0%N).

(** An index filled through insert alone. *)
Fixpoint insert_all (h : Conversions) (db : Database) (ix : SqliteIndex)
    (es : list IndexEntry) : result (Database * SqliteIndex) :=
  match es with
  | [] => Ok (db, ix)
  | e :: es =>
      s <- insert h db ix (key e) (dataOffset e) (dataLength e) (sequence e) ;;
      insert_all h (fst s) (snd s) es
  end.

(** An index constructed on an empty database and filled. *)
Definition build (h : Conversions) (tableName columnName : string)
    (keyType : ValueType) (es : list IndexEntry) : result (Database * SqliteIndex) :=
  s <- SqliteIndex_new ∅ tableName columnName keyType ;;
  insert_all h (fst s) (snd s) es.

End SqliteIndexModel.

(** ** The framed append log (flatsql/storage.h) *)

Module StreamingStore.

Local Open Scope N_scope.

(** [StreamingFlatBufferStore::FileRecordInfo]. *)
Record FileRecordInfo : Type := mkInfo { offset : N; sequence : N }.

(** The arguments of one [IngestCallback] invocation:
    (fileId, data, length, sequence, offset); [length] is the length of
    [cb_data]. *)
Record CallbackArgs : Type := mkArgs {
  cb_fileId : string;
  cb_data : list byte;
  cb_sequence : N;
  cb_offset : N }.

(** The private members of [StreamingFlatBufferStore], as storage.h declares
    them.  [data_] stands for the committed part of the buffer,
    [data_[0 .. writeOffset_)], which is what [exportData] returns; the
    spare capacity behind it is not observable.  Offsets and sequence
    numbers are taken unbounded: 2^64 bytes or records are out of reach. *)
Record StreamingFlatBufferStore : Type := mkStore {
  data_ : list byte;
  writeOffset_ : N;
  recordCount_ : N;
  nextSequence_ : N;
  sequenceToOffset_ : gmap N N;
  offsetToSequence_ : gmap N N;
  fileIdToRecords_ : gmap string (list FileRecordInfo) }.

(** The constructor: member initialisers of storage.h. *)
Definition StreamingFlatBufferStore_new : StreamingFlatBufferStore :=
  mkStore [] 0 0 1 ∅ ∅ ∅.

Definition byte_of_N (n : N) : byte :=
  match Byte.of_N (n mod 256) with
  | Some b => b
  | None => x00
  end.

(** The four bytes of a [uint32_t], least significant first. *)
Definition u32le (n : N) : list byte :=
  [byte_of_N n; byte_of_N (n / 256); byte_of_N (n / 65536); byte_of_N (n / 16777216)].

(** The [uint32_t] held, least significant byte first, by the first four
    bytes. *)
Definition read_u32le (bytes : list byte) : N :=
  match bytes with
  | b0 :: b1 :: b2 :: b3 :: _ =>
      Byte.to_N b0 + 256 * Byte.to_N b1 + 65536 * Byte.to_N b2 + 16777216 * Byte.to_N b3
  | _ => 0
  end.

(** Modelled from the spec: storage.cpp, which defines
    [StreamingFlatBufferStore::extractFileId], is not among the sources.
    Section 4.1: the file identifier is bytes [4..8) of the payload; a
    payload shorter than 8 bytes is given a zero file identifier. *)
Definition extractFileId (flatbuffer : list byte) : string :=
  if (N.of_nat (length flatbuffer) <? 8)
  then string_of_list_byte [x00; x00; x00; x00]
  else string_of_list_byte (take 4 (drop 4 flatbuffer)).

(** Modelled from the spec: storage.cpp, which defines
    [StreamingFlatBufferStore::indexRecord], is not among the sources.
    Sections 3.4 and 4.1: the record is entered in the two offset/sequence
    maps and appended to the bucket of its file identifier. *)
Definition indexRecord (fileId : string) (recordOffset recordSequence : N)
    (st : StreamingFlatBufferStore) : StreamingFlatBufferStore :=
  mkStore (data_ st) (writeOffset_ st) (recordCount_ st) (nextSequence_ st)
          (<[recordSequence := recordOffset]> (sequenceToOffset_ st))
          (<[recordOffset := recordSequence]> (offsetToSequence_ st))
          (<[fileId := default [] (fileIdToRecords_ st !! fileId)
                       ++ [mkInfo recordOffset recordSequence]]> (fileIdToRecords_ st)).

Section Ingest.

(** What the callback does is left open: it folds the invocations into an
    accumulator of the caller's. *)
Context {A : Type}.
Variable callback : A -> CallbackArgs -> A.

(** Modelled from the spec: storage.cpp, which defines
    [StreamingFlatBufferStore::ingestFlatBuffer], is not among the sources.
    Sections 3.4 and 4.1: the record is laid out at [writeOffset_] as
    [u32 size LE][size bytes]; the sequence number is allocated once the
    bytes are committed; the three maps are updated; the callback is invoked
    once with (fileId, payload, length, sequence, offset); the sequence
    number is returned. *)
Definition ingestFlatBuffer (st : StreamingFlatBufferStore) (acc : A) (payload : list byte)
    : StreamingFlatBufferStore * A * N :=
  let recordOffset := writeOffset_ st in
  let size := N.of_nat (length payload) in
  let committed :=
    mkStore (data_ st ++ u32le size ++ payload) (recordOffset + 4 + size)
            (recordCount_ st) (nextSequence_ st)
            (sequenceToOffset_ st) (offsetToSequence_ st) (fileIdToRecords_ st) in
  let recordSequence := nextSequence_ committed in
  let numbered :=
    mkStore (data_ committed) (writeOffset_ committed) (recordCount_ committed + 1)
            (recordSequence + 1)
            (sequenceToOffset_ committed) (offsetToSequence_ committed)
            (fileIdToRecords_ committed) in
  let fileId := extractFileId payload in
  (indexRecord fileId recordOffset recordSequence numbered,
   callback acc (mkArgs fileId payload recordSequence recordOffset),
   recordSequence).

(** The frame at the front of [bytes], if it is all there: its payload and
    the bytes behind it. *)
Definition next_frame (bytes : list byte) : option (list byte * list byte) :=
  if (N.of_nat (length bytes) <? 4) then None
  else
    let size := read_u32le bytes in
    if (N.of_nat (length bytes) <? 4 + size) then None
    else Some (take (N.to_nat size) (drop 4 bytes), drop (4 + N.to_nat size) bytes).

(** Modelled from the spec: storage.cpp, which defines
    [StreamingFlatBufferStore::ingest], is not among the sources.  Section
    4.1, partial-buffer behaviour: the walk starts at offset 0; at each step
    it reads the size prefix if at least 4 bytes remain, then checks whether
    4 + size bytes remain; if not, it stops and returns the current position
    as bytesConsumed, and the number of frames taken as recordsProcessed.
    [rest] is what lies at and behind the current position [pos]. *)
Fixpoint ingest_loop (fuel : nat) (st : StreamingFlatBufferStore) (acc : A)
    (rest : list byte) (pos count : N) : result (StreamingFlatBufferStore * A * N * N) :=
  match fuel with
  | O => Err OutOfFuel
  | S fuel' =>
      match next_frame rest with
      | None => Ok (st, acc, pos, count)
      | Some (payload, rest') =>
          let '(st', acc', _) := ingestFlatBuffer st acc payload in
          ingest_loop fuel' st' acc' rest' (pos + 4 + N.of_nat (length payload)) (count + 1)
      end
  end.

(** [ingest(data, length, callback, &recordsProcessed)]: the new state and
    (bytesConsumed, recordsProcessed). *)
Definition ingest (st : StreamingFlatBufferStore) (acc : A) (bytes : list byte)
    : result (StreamingFlatBufferStore * A * N * N) :=
  ingest_loop (S (length bytes)) st acc bytes 0 0.

(** The loop of testPartialStreamData (roundtrip_test.cpp): each byte of
    [allData] is pushed on [buffer], [buffer] is handed to ingest, and the
    consumed prefix, if any, is erased.  The result is the final state, the
    bytes left in [buffer] and [totalRecords]. *)
Fixpoint feed_bytes (st : StreamingFlatBufferStore) (acc : A) (buffer : list byte)
    (totalRecords : N) (allData : list byte)
    : result (StreamingFlatBufferStore * A * list byte * N) :=
  match allData with
  | [] => Ok (st, acc, buffer, totalRecords)
  | b :: allData' =>
      let buffer := buffer ++ [b] in
      r <- ingest st acc buffer ;;
      let '(st', acc', consumed, recordsProcessed) := r in
      let buffer := if (0 <? consumed) then drop (N.to_nat consumed) buffer else buffer in
      feed_bytes st' acc' buffer (totalRecords + recordsProcessed) allData'
  end.

(** One frame of the stream format: [u32 size LE][payload]. *)
Definition frame (payload : list byte) : list byte :=
  u32le (N.of_nat (length payload)) ++ payload.

Definition frames (payloads : list (list byte)) : list byte :=
  concat (List.map frame payloads).

(** The records appended one after the other. *)
Fixpoint append_all (st : StreamingFlatBufferStore) (acc : A) (payloads : list (list byte))
    : StreamingFlatBufferStore * A :=
  match payloads with
  | [] => (st, acc)
  | p :: payloads' =>
      let '(st', acc', _) := ingestFlatBuffer st acc p in
      append_all st' acc' payloads'
  end.

End Ingest.

(** Payloads whose length a [uint32_t] size prefix can hold. *)
Definition valid_payloads (payloads : list (list byte)) : Prop :=
  List.Forall (fun p => N.of_nat (length p) < 2 ^ 32) payloads.

(** No complete frame at the front: fewer than 4 bytes, or fewer than the
    4 + size bytes the size prefix announces. *)
Definition incomplete (bytes : list byte) : Prop :=
  N.of_nat (length bytes) < 4 \/ N.of_nat (length bytes) < 4 + read_u32le bytes.

(** The sequence numbers handed to the callback, when the callback records
    its arguments. *)
Definition record_args (acc : list CallbackArgs) (a : CallbackArgs) : list CallbackArgs :=
  acc ++ [a].

End StreamingStore.

(** ** The index contract

    Statements of the specification that the code does not meet as worded,
    and the notions in which the code's own behaviour is stated. *)

Module Contract.

(** Section 4.3: a Null key still yields an index entry, with either
    back-end. *)
Definition null_key_contract : Prop :=
  (forall (kt : ValueType) (es : list IndexEntry) (t : BTree) (o l s : N),
     build kt 4 es = Ok t -> exists t', BTreeIndex.insert t VNull o l s = Ok t') /\
  (forall (h : Conversions) (tableName columnName : string) (kt : ValueType) (o l s : N)
          (db : Database) (ix : SqliteIndexModel.SqliteIndex),
     SqliteIndexModel.SqliteIndex_new ∅ tableName columnName kt = Ok (db, ix) ->
     exists r, SqliteIndexModel.insert h db ix VNull o l s = Ok r).

(** The integer alternatives among the key types. *)
Definition integer_type (kt : ValueType) : Prop :=
  In kt [TInt8; TInt16; TInt32; TInt64; TUInt8; TUInt16; TUInt32; TUInt64].

(** The integer an integer key is compared by. *)
Definition int_of (k : Value) : Z :=
  match tryGetInt64 k with Some z => z | None => 0 end.

(** Strictly ascending keys. *)
Definition key_lt (a b : IndexEntry) : Prop := compareValues (key a) (key b) < 0.

(** Keys of the integer type [kt] that reach the index table as the
    integer the B-tree compares them by: within the range of [int] for the
    types bound with [sqlite3_bind_int], within the range of [int64_t] for
    the two 64-bit types. *)
Definition sql_faithful (kt : ValueType) (k : Value) : Prop :=
  match kt, k with
  | TInt8, VInt8 z => - 2 ^ 7 <= z < 2 ^ 7
  | TInt16, VInt16 z => - 2 ^ 15 <= z < 2 ^ 15
  | TInt32, VInt32 z => - 2 ^ 31 <= z < 2 ^ 31
  | TInt64, VInt64 z => - 2 ^ 63 <= z < 2 ^ 63
  | TUInt8, VUInt8 z => 0 <= z < 2 ^ 8
  | TUInt16, VUInt16 z => 0 <= z < 2 ^ 16
  | TUInt32, VUInt32 z => 0 <= z < 2 ^ 31
  | TUInt64, VUInt64 z => 0 <= z < 2 ^ 63
  | _, _ => False
  end.

(** An entry as the C++ struct can hold it ([uint64_t], [uint32_t],
    [uint64_t]), with a key as above. *)
Definition entry_fits (kt : ValueType) (e : IndexEntry) : Prop :=
  sql_faithful kt (key e) /\
  (dataOffset e < 2 ^ 64)%N /\ (dataLength e < 2 ^ 32)%N /\ (sequence e < 2 ^ 64)%N.

(** The row of the index table that stands for an entry with an integer
    key. *)
Definition row_of (e : IndexEntry) : Row :=
  [SqlInteger (int_of (key e));
   SqlInteger (to_int64 (Z.of_N (dataOffset e)));
   SqlInteger (to_int32 (Z.of_N (dataLength e)));
   SqlInteger (to_int64 (Z.of_N (sequence e)))].

(** Keys of the index's key type [kt] that the index table takes, hands
    back unchanged and orders as compareValues does: booleans, integers
    within the range of their C++ type (UInt32 below 2^31 only, since
    [static_cast<int>] turns the others negative), strings without a NUL
    byte, blobs that are not empty, doubles other than NaN and the negative
    zero, and floats other than NaN and the negative zero that the
    conversion to double and back leaves as they are. *)
Definition index_key (kt : ValueType) (k : Value) : Prop :=
  match kt, k with
  | TBool, VBool _ => True
  | TInt8, VInt8 _ => Value_ok k
  | TInt16, VInt16 _ => Value_ok k
  | TInt32, VInt32 _ => Value_ok k
  | TInt64, VInt64 _ => Value_ok k
  | TUInt8, VUInt8 _ => Value_ok k
  | TUInt16, VUInt16 _ => Value_ok k
  | TUInt32, VUInt32 z => 0 <= z < 2 ^ 31
  | TUInt64, VUInt64 _ => Value_ok k
  | TFloat32, VFloat32 f =>
      double_of_float f <> S754_nan /\ double_of_float f <> S754_zero true /\
      SqliteIndexModel.float_of_double (double_of_float f) = f
  | TFloat64, VFloat64 f => f <> S754_nan /\ f <> S754_zero true
  | TString, VString s => c_string s = s
  | TBytes, VBytes b => b <> []
  | _, _ => False
  end.

(** Keys to look up in an index of key type [kt]: for an integer type an
    integer of any alternative that bindKey hands to the engine as the
    integer compareValues compares it by; otherwise a value of the
    alternative [kt] names (a blob that is not empty, a float or double
    that is not NaN). *)
Definition query_key (kt : ValueType) (q : Value) : Prop :=
  match kt with
  | TBool => exists b, q = VBool b
  | TInt8 | TInt16 | TInt32 | TInt64 | TUInt8 | TUInt16 | TUInt32 | TUInt64 =>
      is_integer q /\ SqliteIndexModel.bindKey q = SqlInteger (int_of q)
  | TFloat32 => exists f, q = VFloat32 f /\ double_of_float f <> S754_nan
  | TFloat64 => exists f, q = VFloat64 f /\ f <> S754_nan
  | TString => exists s, q = VString s
  | TBytes => exists b, q = VBytes b /\ b <> []
  | TNull => False
  end.

(** An entry as the C++ struct can hold it, with a key as above. *)
Definition index_entry (kt : ValueType) (e : IndexEntry) : Prop :=
  index_key kt (key e) /\
  (dataOffset e < 2 ^ 64)%N /\ (dataLength e < 2 ^ 32)%N /\ (sequence e < 2 ^ 64)%N.

(** The two back-ends, filled by the same inserts, answer alike: either
    both refuse the inserts, or both take them and then agree on the entry
    count, on a full scan, on the queries for keys in [Q], and on the state
    after clear. *)
Definition backends_agree (Q : Value -> Prop) (h : Conversions) (kt : ValueType)
    (order : Z) (tableName columnName : string) (es : list IndexEntry) : Prop :=
  match BTreeIndex.build kt order es,
        SqliteIndexModel.build h tableName columnName kt es with
  | Ok t, Ok (db, ix) =>
      getEntryCount t = SqliteIndexModel.getEntryCount ix /\
      all t = Ok (SqliteIndexModel.all h db ix) /\
      (forall k, Q k -> search t k = Ok (SqliteIndexModel.search h db ix k)) /\
      (forall k indet, Q k ->
         searchFirst indet t k = Ok (SqliteIndexModel.searchFirst h db ix k)) /\
      (forall lo hi, Q lo -> Q hi ->
         range t lo hi = Ok (SqliteIndexModel.range h db ix lo hi)) /\
      match SqliteIndexModel.clear db ix with
      | Ok (db', ix') =>
          getEntryCount (clear t) = SqliteIndexModel.getEntryCount ix' /\
          all (clear t) = Ok (SqliteIndexModel.all h db' ix')
      | Err _ => False
      end
  | Err _, Err _ => True
  | _, _ => False
  end.

(** Section 4.2: both variants behave identically on the public contract,
    for every sequence of inserts and every query, once the index has been
    constructed. *)
Definition backend_contract : Prop :=
  forall (h : Conversions) (kt : ValueType) (tableName columnName : string)
         (es : list IndexEntry),
    (exists s, SqliteIndexModel.SqliteIndex_new ∅ tableName columnName kt = Ok s) ->
    Forall (fun e => Value_ok (key e)) es -> increasing_sequences es ->
    backends_agree (fun _ => True) h kt 4 tableName columnName es.

(** The declared type of the key column as section 4.2 has it: integers
    and bool INTEGER, float REAL, string TEXT, bytes BLOB. *)
Definition declared_key_type (kt : ValueType) : option string :=
  match kt with
  | TInt8 | TInt16 | TInt32 | TInt64 | TUInt8 | TUInt16 | TUInt32 | TUInt64 =>
      Some "INTEGER"%string
  | TBool => Some "INTEGER"%string
  | TFloat32 | TFloat64 => Some "REAL"%string
  | TString => Some "TEXT"%string
  | TBytes => Some "BLOB"%string
  | TNull => None
  end.

(** A table as section 4.2 describes the table of an index: the columns
    key, data_offset, data_length and sequence, the key column of the given
    declared type, the primary key (key, sequence), no rowid. *)
Definition index_table_shape (name keyType : string) (d : TableDecl) : Prop :=
  d_name d = name /\
  List.map c_name (d_columns d)
  = (["key"; "data_offset"; "data_length"; "sequence"])%string /\
  option_map c_type (head (d_columns d)) = Some keyType /\
  d_primary_key d = (["key"; "sequence"])%string /\
  d_without_rowid d = true.

(** Section 4.2 as worded: whatever the table name, the column name and
    the key type, constructing the index leaves such a table of the name
    _idx_{table}_{column} in the database. *)
Definition index_table_contract : Prop :=
  forall (db : Database) (tableName columnName : string) (kt : ValueType)
         (keyType : string),
    declared_key_type kt = Some keyType ->
    exists db' ix t,
      SqliteIndexModel.SqliteIndex_new db tableName columnName kt = Ok (db', ix) /\
      db' !! fold_name ("_idx_" ++ tableName ++ "_" ++ columnName)%string = Some t /\
      index_table_shape ("_idx_" ++ tableName ++ "_" ++ columnName)%string keyType
        (t_decl t).

End Contract.

Export Contract.

(** ** Notions for further properties of the host-SQL index *)

Module IndexKeys.

(** Keys a SqliteIndex of key type [kt] stores and reads back unchanged: a
    value of the alternative [kt] names, within the range of its C++ type;
    a string without a NUL byte; a blob that is not empty. *)
Definition storable (kt : ValueType) (k : Value) : Prop :=
  match kt, k with
  | TBool, VBool _ => True
  | TInt8, VInt8 _ => Value_ok k
  | TInt16, VInt16 _ => Value_ok k
  | TInt32, VInt32 _ => Value_ok k
  | TInt64, VInt64 _ => Value_ok k
  | TUInt8, VUInt8 _ => Value_ok k
  | TUInt16, VUInt16 _ => Value_ok k
  | TUInt32, VUInt32 _ => Value_ok k
  | TUInt64, VUInt64 _ => Value_ok k
  | TString, VString s => c_string s = s
  | TBytes, VBytes b => b <> []
  | _, _ => False
  end.

(** The declaration in the CREATE TABLE statement of the constructor
    (lines 108-115), for a table name and a declared type of the key
    column. *)
Definition index_table (name keyType : string) : TableDecl :=
  mkTable name
    [mkColumn "key" keyType true;
     mkColumn "data_offset" "INTEGER" true;
     mkColumn "data_length" "INTEGER" true;
     mkColumn "sequence" "INTEGER" true]
    (["key"; "sequence"])%string true.

(** The affinity of the key column of an index of key type [kt]. *)
Definition key_affinity (kt : ValueType) : SqlType :=
  affinity_of_type (SqliteIndexModel.getSqliteType kt).

(** The row that insert hands to the engine, as a key column of affinity
    [ty] stores it. *)
Definition stored_row (h : Conversions) (ty : SqlType) (k : Value)
    (dataOffset dataLength sequence : N) : Row :=
  [apply_affinity h ty (SqliteIndexModel.bindKey k);
   SqlInteger (to_int64 (Z.of_N dataOffset));
   SqlInteger (to_int32 (Z.of_N dataLength));
   SqlInteger (to_int64 (Z.of_N sequence))].

(** The row of an entry in the table of an index of key type [kt]. *)
Definition entry_row (h : Conversions) (kt : ValueType) (e : IndexEntry) : Row :=
  stored_row h (key_affinity kt) (key e) (dataOffset e) (dataLength e) (sequence e).

(** Table and column names without a double quote and without a NUL byte. *)
Fixpoint plain_text (s : string) : bool :=
  match s with
  | EmptyString => true
  | String c rest =>
      negb (Ascii.eqb c dquote_char) && negb (Ascii.eqb c "000"%char) && plain_text rest
  end.

(** The tokens a stretch of text gives and the state it leaves the reading
    in. *)
Fixpoint lex_run (st : lex_state) (s : string) : list token * lex_state :=
  match s with
  | EmptyString => ([], st)
  | String c rest =>
      let p := lex_step st c in
      let q := lex_run (snd p) rest in
      (fst p ++ fst q, snd q)
  end.

(** Between double quotes the text [N] reads as the name [n]: it has no
    NUL byte, and its double quotes come in pairs. *)
Definition reads_as (N n : string) : Prop :=
  c_string N = N /\ lex_run (LQuoted EmptyString) N = ([], LQuoted n).

Definition index_columns : list string :=
  (["key"; "data_offset"; "data_length"; "sequence"])%string.

Definition index_select (n : string) (conds : list (string * CompareOp))
    (order : option string) (limit : option N) : Stmt :=
  SSelect (mkSelect index_columns n conds order limit).

(** The seven statements of an index on the table [n], as the engine
    understands them. *)
Definition prepared (n : string) (ix : SqliteIndexModel.SqliteIndex) : Prop :=
  SqliteIndexModel.insertStmt_ ix = SInsert n index_columns 4 /\
  SqliteIndexModel.searchStmt_ ix = index_select n [("key"%string, OpEq)] None None /\
  SqliteIndexModel.searchFirstStmt_ ix
  = index_select n [("key"%string, OpEq)] None (Some 1%N) /\
  SqliteIndexModel.rangeStmt_ ix
  = index_select n [("key"%string, OpGe); ("key"%string, OpLe)] (Some "key"%string) None /\
  SqliteIndexModel.allStmt_ ix = index_select n [] (Some "key"%string) None /\
  SqliteIndexModel.countStmt_ ix = SCount n /\
  SqliteIndexModel.clearStmt_ ix = SDelete n.

(** The index the constructor returns for the table name [N], read by the
    engine as [n]. *)
Definition fresh_index (N n : string) (kt : ValueType) : SqliteIndexModel.SqliteIndex :=
  SqliteIndexModel.mkSqliteIndex N kt 0%N
    (SInsert n index_columns 4)
    (index_select n [("key"%string, OpEq)] None None)
    (index_select n [("key"%string, OpEq)] None (Some 1%N))
    (index_select n [("key"%string, OpGe); ("key"%string, OpLe)] (Some "key"%string) None)
    (index_select n [] (Some "key"%string) None)
    (SCount n)
    (SDelete n).

(** The index [ix] works on the table [n] of [db], which was made by its
    constructor and holds [rows]. *)
Definition index_state (db : Database) (ix : SqliteIndexModel.SqliteIndex)
    (n : string) (rows : list Row) : Prop :=
  prepared n ix /\
  db !! fold_name n
  = Some (mkTableState
            (index_table n (SqliteIndexModel.getSqliteType (SqliteIndexModel.keyType_ ix)))
            rows).

(** The order of the primary key (key, sequence) on rows. *)
Definition idx_compare (a b : Row) : comparison :=
  match sql_compare (column a 0) (column b 0) with
  | Eq => sql_compare (column a 3) (column b 3)
  | c => c
  end.

(** Some row has the key and the sequence number of [r]. *)
Definition idx_taken (r : Row) (rows : list Row) : bool :=
  existsb (fun x => sql_eq (column r 0) (column x 0) && sql_eq (column r 3) (column x 3))
          rows.

(** The columns a SELECT of the index hands out. *)
Definition idx_project (r : Row) : Row := [column r 0; column r 1; column r 2; column r 3].

(** The condition [key op ?] on a row of the table of an index of key type
    [kt]. *)
Definition key_test (h : Conversions) (kt : ValueType) (op : CompareOp) (p : SqlValue)
    (r : Row) : bool :=
  let p := apply_affinity h (compare_affinity (key_affinity kt)) p in
  match op with
  | OpEq => sql_eq (column r 0) p
  | OpGe => sql_ge (column r 0) p
  | OpLe => sql_le (column r 0) p
  end.

(** Rows in the order of their keys. *)
Definition key_sorted (rows : list Row) : Prop :=
  StronglySorted (fun a b => sql_compare (column a 0) (column b 0) <> Gt) rows.

(** How many of the values [S] come before [v] under compareValues. *)
Definition rank (S : list Value) (v : Value) : Z :=
  Z.of_nat (List.length (List.filter (fun x => compareValues x v <? 0) S)).

(** The order of the primary key on entries with integer keys: by key,
    then by sequence number. *)
Definition key_seq_lt (a b : IndexEntry) : Prop :=
  int_of (key a) < int_of (key b) \/
  (int_of (key a) = int_of (key b) /\ (sequence a < sequence b)%N).

(** The conversions of an engine that is never asked for one: the examples
    run with it. *)
Definition plain_conversions : Conversions :=
  mkConversions (fun _ v => v) (fun _ => 0) (fun _ => S754_zero false)
                (fun _ => None) (fun _ => []).

End IndexKeys.

Export IndexKeys.

(** ** Schema analysis and junction tables (flatsql/junction.h, junction.cpp) *)

Module Junction.

(** *** Containers

    [std::map<std::string, V>] is kept as the list of its entries in the
    order the map is walked in, ascending keys; [std::set<std::string>]
    that is walked likewise.  A set that is only asked for membership is a
    [gset]. *)

Fixpoint map_find {V : Type} (k : string) (m : list (string * V)) : option V :=
  match m with
  | [] => None
  | (k', v) :: m' => if String.eqb k k' then Some v else map_find k m'
  end.

(** [m[k] = v]: the entry is replaced, or put in at its place in the order
    of the keys. *)
Fixpoint map_assign {V : Type} (k : string) (v : V) (m : list (string * V))
  : list (string * V) :=
  match m with
  | [] => [(k, v)]
  | (k', v') :: m' =>
      match String.compare k k' with
      | Lt => (k, v) :: m
      | Eq => (k, v) :: m'
      | Gt => (k', v') :: map_assign k v m'
      end
  end.

(** A change made through the iterator that [find] returned. *)
Fixpoint map_adjust {V : Type} (k : string) (f : V -> V) (m : list (string * V))
  : list (string * V) :=
  match m with
  | [] => []
  | (k', v) :: m' =>
      if String.eqb k k' then (k', f v) :: m' else (k', v) :: map_adjust k f m'
  end.

(** [std::multimap<uint64_t, size_t>]: entries in ascending key order, equal
    keys in the order they were put in ([emplace] inserts at the upper bound
    of the key). *)
Fixpoint multimap_emplace (k : N) (v : nat) (m : list (N * nat)) : list (N * nat) :=
  match m with
  | [] => [(k, v)]
  | (k', v') :: m' =>
      if (k <? k')%N then (k, v) :: m else (k', v') :: multimap_emplace k v m'
  end.

(** The values between the two iterators of [equal_range(k)]. *)
Definition equal_range (k : N) (m : list (N * nat)) : list nat :=
  List.map snd (List.filter (fun p => (fst p =? k)%N) m).

(** *** The import graph (SchemaAnalyzer::Impl) *)

(** [importGraph]: file -> the files it includes. *)
Definition ImportGraph : Type := list (string * list string).

(** [importGraph[filePath].insert(includedFile)] of parseIncludes: the set
    of includes is kept in ascending order, without repetition. *)
Fixpoint set_insert (x : string) (s : list string) : list string :=
  match s with
  | [] => [x]
  | y :: s' =>
      match String.compare x y with
      | Lt => x :: s
      | Eq => s
      | Gt => y :: set_insert x s'
      end
  end.

Definition add_include (filePath includedFile : string) (importGraph : ImportGraph)
  : ImportGraph :=
  map_assign filePath
    (set_insert includedFile (default [] (map_find filePath importGraph))) importGraph.

(** The end of parseIncludes: the file is in the graph even without
    includes. *)
Definition ensure_file (filePath : string) (importGraph : ImportGraph) : ImportGraph :=
  match map_find filePath importGraph with
  | Some _ => importGraph
  | None => map_assign filePath [] importGraph
  end.

(** [u] includes [v]. *)
Definition edge (importGraph : ImportGraph) (u v : string) : Prop :=
  exists edges, map_find u importGraph = Some edges /\ In v edges.

(** The files of the graph: those that include and those included. *)
Definition nodes (importGraph : ImportGraph) : list string :=
  List.map fst importGraph ++ List.concat (List.map snd importGraph).

(** [CycleInfo] (junction.h). *)
Record CycleInfo : Type := mkCycleInfo {
  hasCycle : bool;
  cyclePath : list string
}.

(** The variables the lambda [dfs] of detectCycles captures by reference. *)
Record DfsState : Type := mkDfs {
  visited : gset string;
  inStack : gset string;
  path : list string;
  found : CycleInfo
}.

(** [std::vector(std::find(path.begin(), path.end(), x), path.end())]. *)
Fixpoint from_first (x : string) (l : list string) : list string :=
  match l with
  | [] => []
  | y :: l' => if String.eqb y x then l else from_first x l'
  end.

(** The loop over the neighbours in [dfs]; [rec] is the recursive call. *)
Fixpoint dfs_neighbors (rec : string -> DfsState -> result (bool * DfsState))
    (neighbors : list string) (st : DfsState) : result (bool * DfsState) :=
  match neighbors with
  | [] => Ok (false, st)
  | neighbor :: rest =>
      if negb (bool_decide (neighbor ∈ visited st)) then
        r <- rec neighbor st ;;
        if fst r then Ok (true, snd r) else dfs_neighbors rec rest (snd r)
      else if bool_decide (neighbor ∈ inStack st) then
        Ok (true,
            mkDfs (visited st) (inStack st) (path st)
                  (mkCycleInfo true (from_first neighbor (path st) ++ [neighbor])))
      else dfs_neighbors rec rest st
  end.

(** The lambda [dfs] of detectCycles (lines 229-254); [fuel] bounds the
    depth of the recursion. *)
Fixpoint dfs (importGraph : ImportGraph) (fuel : nat) (node : string) (st : DfsState)
  : result (bool * DfsState) :=
  match fuel with
  | O => Err OutOfFuel
  | S fuel' =>
      let st := mkDfs ({[node]} ∪ visited st) ({[node]} ∪ inStack st)
                      (path st ++ [node]) (found st) in
      r <- dfs_neighbors (dfs importGraph fuel')
             (default [] (map_find node importGraph)) st ;;
      if fst r then Ok (true, snd r)
      else
        let st := snd r in
        Ok (false,
            mkDfs (visited st) (inStack st ∖ {[node]}) (removelast (path st)) (found st))
  end.

(** The loop over the files of the graph at the end of detectCycles. *)
Fixpoint dfs_roots (rec : string -> DfsState -> result (bool * DfsState))
    (files : list string) (st : DfsState) : result DfsState :=
  match files with
  | [] => Ok st
  | node :: rest =>
      if negb (bool_decide (node ∈ visited st)) then
        r <- rec node st ;;
        if fst r then Ok (snd r) else dfs_roots rec rest (snd r)
      else dfs_roots rec rest st
  end.

(** detectCycles (lines 222-263).  No descent is deeper than the number of
    files. *)
Definition detectCycles (importGraph : ImportGraph) : result CycleInfo :=
  st <- dfs_roots (dfs importGraph (S (List.length (nodes importGraph))))
          (List.map fst importGraph) (mkDfs ∅ ∅ [] (mkCycleInfo false [])) ;;
  Ok (found st).

(** [inDegree[target]++] and [--inDegree[neighbor]]: a missing entry is
    made with 0 first.  The counters are [int]; they stay within the number
    of include directives. *)
Definition degree (inDegree : list (string * Z)) (node : string) : Z :=
  default 0 (map_find node inDegree).

(** The first two loops of topologicalSort (lines 266-276). *)
Definition inDegree_nodes (importGraph : ImportGraph) : list (string * Z) :=
  fold_left (fun inDegree e =>
               match map_find (fst e) inDegree with
               | Some _ => inDegree
               | None => map_assign (fst e) 0 inDegree
               end) importGraph [].

Definition inDegree_edges (importGraph : ImportGraph) (inDegree : list (string * Z))
  : list (string * Z) :=
  fold_left (fun inDegree e =>
               fold_left (fun inDegree target =>
                            map_assign target (degree inDegree target + 1) inDegree)
                         (snd e) inDegree)
            importGraph inDegree.

(** The loop over the neighbours of a file taken from the queue. *)
Fixpoint release (neighbors : list string) (inDegree : list (string * Z))
    (queue : list string) : list (string * Z) * list string :=
  match neighbors with
  | [] => (inDegree, queue)
  | neighbor :: rest =>
      let d := degree inDegree neighbor - 1 in
      release rest (map_assign neighbor d inDegree)
              (if d =? 0 then queue ++ [neighbor] else queue)
  end.

(** The while loop of topologicalSort (lines 285-299); [fuel] bounds the
    number of files taken from the queue. *)
Fixpoint sort_loop (importGraph : ImportGraph) (fuel : nat) (inDegree : list (string * Z))
    (queue sorted : list string) : result (list string) :=
  match fuel with
  | O => Err OutOfFuel
  | S fuel' =>
      match queue with
      | [] => Ok sorted
      | node :: queue =>
          let s := release (default [] (map_find node importGraph)) inDegree queue in
          sort_loop importGraph fuel' (fst s) (snd s) (sorted ++ [node])
      end
  end.

(** topologicalSort (lines 265-303). *)
Definition topologicalSort (importGraph : ImportGraph) : result (list string) :=
  let inDegree := inDegree_edges importGraph (inDegree_nodes importGraph) in
  let queue := List.map fst (List.filter (fun e => snd e =? 0) inDegree) in
  sorted <- sort_loop importGraph (S (List.length inDegree)) inDegree queue [] ;;
  Ok (rev sorted).

(** *** Junction tables (junction.h) *)

Inductive RelationType : Type :=
| SINGLE_TABLE
| VECTOR_TABLE
| UNION
| VECTOR_UNION.

(** [TableReference] and [TableInfo]; the fields [fieldName] and
    [relationType] of the first and [name] of the second carry a prefix
    here, since [JunctionTable] has fields of the same names. *)
Record TableReference : Type := mkTableReference {
  ref_fieldName : string;
  referencedType : string;
  ref_relationType : RelationType;
  unionTypes : list string;
  fieldId : Z
}.

Record TableInfo : Type := mkTableInfo {
  ti_name : string;
  sourceFile : string;
  references : list TableReference;
  isImported : bool;
  indexedFields : list string
}.

Record JunctionTable : Type := mkJunctionTable {
  name : string;
  parentTable : string;
  fieldName : string;
  relationType : RelationType;
  childTable : string;
  unionChildTables : list string
}.

Definition is_union (r : RelationType) : bool :=
  match r with
  | UNION | VECTOR_UNION => true
  | _ => false
  end.

(** generateJunctionTables (lines 305-328): one junction table for each
    reference of each table, in the order of the tables and of their
    references. *)
Definition generateJunctionTables (tables : list (string * TableInfo)) : list JunctionTable :=
  flat_map
    (fun t =>
       List.map
         (fun ref =>
            mkJunctionTable (fst t ++ "__" ++ ref_fieldName ref) (fst t) (ref_fieldName ref)
              (ref_relationType ref)
              (if is_union (ref_relationType ref) then EmptyString else referencedType ref)
              (if is_union (ref_relationType ref) then unionTypes ref else []))
         (references (snd t)))
    tables.

(** [JunctionRow] (junction.h). *)
Record JunctionRow : Type := mkJunctionRow {
  parentRowId : N;
  childRowId : N;
  vectorIndex : option Z;
  unionType : option string
}.

(** [JunctionRowData] (junction.cpp); its fields carry the prefix [rd_]. *)
Record JunctionRowData : Type := mkJunctionRowData {
  rd_id : N;
  rd_parentRowId : N;
  rd_childRowId : N;
  rd_vecIndex : option Z;
  rd_unionType : option string
}.

(** [JunctionTableData].  [nextId] is a [uint64_t] that is one more than the
    number of rows ever added, and rows are never taken out of the vector:
    it cannot wrap. *)
Record JunctionTableData : Type := mkJunctionTableData {
  definition : JunctionTable;
  rows : list JunctionRowData;
  nextId : N;
  parentIndex : list (N * nat);
  childIndex : list (N * nat)
}.

(** [JunctionManager::Impl], without the reference to the database and the
    copy of the schema analysis, which only insertWithRelations reads. *)
Record Impl : Type := mkImpl {
  junctionTables : list (string * JunctionTableData);
  deletedRowIds : gset N
}.

(** The constructor. *)
Definition JunctionManager_new : Impl := mkImpl [] ∅.

(** initialize (lines 530-539). *)
Definition initialize (analysisJunctionTables : list JunctionTable) (s : Impl) : Impl :=
  mkImpl
    (fold_left (fun m jt => map_assign (name jt) (mkJunctionTableData jt [] 1 [] []) m)
               analysisJunctionTables (junctionTables s))
    (deletedRowIds s).

(** addJunctionRow (lines 416-439): the state afterwards and the id of the
    row, 0 for a junction table that does not exist. *)
Definition addJunctionRow (junctionName : string) (parent child : N)
    (vecIndex : option Z) (unionType : option string) (s : Impl) : Impl * N :=
  match map_find junctionName (junctionTables s) with
  | None => (s, 0%N)
  | Some t =>
      let row := mkJunctionRowData (nextId t) parent child vecIndex unionType in
      let rowIndex := List.length (rows t) in
      (mkImpl
         (map_adjust junctionName
            (fun t => mkJunctionTableData (definition t) (rows t ++ [row]) (nextId t + 1)%N
                        (multimap_emplace parent rowIndex (parentIndex t))
                        (multimap_emplace child rowIndex (childIndex t)))
            (junctionTables s))
         (deletedRowIds s),
       rd_id row)
  end.

(** [rows[idx].id = 0] for each index of [toRemove]. *)
Fixpoint mark_deleted (toRemove : list nat) (rows : list JunctionRowData)
  : result (list JunctionRowData) :=
  match toRemove with
  | [] => Ok rows
  | idx :: rest =>
      r <- vec_at rows idx ;;
      mark_deleted rest
        (<[idx := mkJunctionRowData 0 (rd_parentRowId r) (rd_childRowId r) (rd_vecIndex r)
                    (rd_unionType r)]> rows)
  end.

(** The loop that fills the two indexes again from the rows that are not
    marked; [i] is the index of the first row of [rows]. *)
Fixpoint rebuild_indexes (rows : list JunctionRowData) (i : nat)
    (parentIndex childIndex : list (N * nat)) : list (N * nat) * list (N * nat) :=
  match rows with
  | [] => (parentIndex, childIndex)
  | r :: rest =>
      if (rd_id r =? 0)%N then rebuild_indexes rest (S i) parentIndex childIndex
      else rebuild_indexes rest (S i)
             (multimap_emplace (rd_parentRowId r) i parentIndex)
             (multimap_emplace (rd_childRowId r) i childIndex)
  end.

(** removeByParent (lines 442-466). *)
Definition removeByParent (junctionName : string) (parent : N) (s : Impl) : result Impl :=
  match map_find junctionName (junctionTables s) with
  | None => Ok s
  | Some t =>
      let toRemove := equal_range parent (parentIndex t) in
      rows' <- mark_deleted toRemove (rows t) ;;
      let indexes := rebuild_indexes rows' 0 [] [] in
      Ok (mkImpl
            (map_adjust junctionName
               (fun t => mkJunctionTableData (definition t) rows' (nextId t)
                           (fst indexes) (snd indexes))
               (junctionTables s))
            (deletedRowIds s))
  end.

Definition to_row (rowData : JunctionRowData) : JunctionRow :=
  mkJunctionRow (rd_parentRowId rowData) (rd_childRowId rowData) (rd_vecIndex rowData)
                (rd_unionType rowData).

(** The loop over an equal range of getChildrenByParent and
    getParentsByChild. *)
Fixpoint collect_rows (rows : list JunctionRowData) (indices : list nat)
  : result (list JunctionRow) :=
  match indices with
  | [] => Ok []
  | i :: rest =>
      rowData <- vec_at rows i ;;
      more <- collect_rows rows rest ;;
      Ok (if (rd_id rowData =? 0)%N then more else to_row rowData :: more)
  end.

(** getChildrenByParent (lines 469-487). *)
Definition getChildrenByParent (junctionName : string) (parent : N) (s : Impl)
  : result (list JunctionRow) :=
  match map_find junctionName (junctionTables s) with
  | None => Ok []
  | Some t => collect_rows (rows t) (equal_range parent (parentIndex t))
  end.

(** getParentsByChild (lines 490-508). *)
Definition getParentsByChild (junctionName : string) (child : N) (s : Impl)
  : result (list JunctionRow) :=
  match map_find junctionName (junctionTables s) with
  | None => Ok []
  | Some t => collect_rows (rows t) (equal_range child (childIndex t))
  end.

(** The loop over an equal range that counts the rows that are not
    marked. *)
Fixpoint count_rows (rows : list JunctionRowData) (indices : list nat) : result N :=
  match indices with
  | [] => Ok 0%N
  | i :: rest =>
      rowData <- vec_at rows i ;;
      more <- count_rows rows rest ;;
      Ok (if (rd_id rowData =? 0)%N then more else (1 + more)%N)
  end.

(** countChildReferences (lines 511-522). *)
Fixpoint countChildReferences_loop (tables : list (string * JunctionTableData)) (child : N)
  : result N :=
  match tables with
  | [] => Ok 0%N
  | t :: rest =>
      c <- count_rows (rows (snd t)) (equal_range child (childIndex (snd t))) ;;
      more <- countChildReferences_loop rest child ;;
      Ok (c + more)%N
  end.

Definition countChildReferences (child : N) (s : Impl) : result N :=
  countChildReferences_loop (junctionTables s) child.

(** getChildren (lines 606-613). *)
Definition getChildren (parentTable fieldName : string) (parent : N) (s : Impl)
  : result (list JunctionRow) :=
  getChildrenByParent (parentTable ++ "__" ++ fieldName) parent s.

(** The test [matches] of getParents and getReferenceCount. *)
Definition references_table (d : JunctionTable) (tableName : string) : bool :=
  String.eqb (childTable d) tableName
  || existsb (fun ut => String.eqb ut tableName) (unionChildTables d).

(** getParents (lines 615-640). *)
Fixpoint getParents_loop (tables : list (string * JunctionTableData)) (childTable : string)
    (child : N) (s : Impl) : result (list JunctionRow) :=
  match tables with
  | [] => Ok []
  | t :: rest =>
      parents <- (if references_table (definition (snd t)) childTable
                  then getParentsByChild (fst t) child s else Ok []) ;;
      more <- getParents_loop rest childTable child s ;;
      Ok (parents ++ more)
  end.

Definition getParents (childTable : string) (child : N) (s : Impl)
  : result (list JunctionRow) :=
  getParents_loop (junctionTables s) childTable child s.

(** getReferenceCount (lines 659-684). *)
Fixpoint getReferenceCount_loop (tables : list (string * JunctionTableData))
    (tableName : string) (rowId : N) : result N :=
  match tables with
  | [] => Ok 0%N
  | t :: rest =>
      c <- (if references_table (definition (snd t)) tableName
            then count_rows (rows (snd t)) (equal_range rowId (childIndex (snd t)))
            else Ok 0%N) ;;
      more <- getReferenceCount_loop rest tableName rowId ;;
      Ok (c + more)%N
  end.

Definition getReferenceCount (tableName : string) (rowId : N) (s : Impl) : result N :=
  getReferenceCount_loop (junctionTables s) tableName rowId.

(** The children of one junction table that deleteWithCascade puts on
    [childrenToCheck]. *)
Definition children_to_check (d : JunctionTable) (children : list JunctionRow)
  : list (string * N) :=
  flat_map
    (fun child =>
       let childTable :=
         if is_union (relationType d) then default EmptyString (unionType child)
         else childTable d in
       if String.eqb childTable EmptyString then [] else [(childTable, childRowId child)])
    children.

(** The first loop of deleteWithCascade (lines 574-593).  The loop walks
    the map while removeByParent changes the rows of the entry it stands
    on; the keys and the definitions stay as they are, so [tables] is the
    map as it was when the loop began. *)
Fixpoint unlink_children (tables : list (string * JunctionTableData)) (tableName : string)
    (rowId : N) (s : Impl) : result (Impl * list (string * N)) :=
  match tables with
  | [] => Ok (s, [])
  | t :: rest =>
      if String.eqb (parentTable (definition (snd t))) tableName then
        children <- getChildrenByParent (fst t) rowId s ;;
        s <- removeByParent (fst t) rowId s ;;
        r <- unlink_children rest tableName rowId s ;;
        Ok (fst r, children_to_check (definition (snd t)) children ++ snd r)
      else unlink_children rest tableName rowId s
  end.

(** The last loop of deleteWithCascade (lines 599-603); [rec] is the
    recursive call. *)
Fixpoint delete_orphans (rec : string -> N -> Impl -> result Impl)
    (childrenToCheck : list (string * N)) (s : Impl) : result Impl :=
  match childrenToCheck with
  | [] => Ok s
  | c :: rest =>
      n <- getReferenceCount (fst c) (snd c) s ;;
      s <- (if (n =? 0)%N then rec (fst c) (snd c) s else Ok s) ;;
      delete_orphans rec rest s
  end.

(** deleteWithCascade (lines 569-604); [fuel] bounds the depth of the
    recursion. *)
Fixpoint cascade (fuel : nat) (tableName : string) (rowId : N) (s : Impl) : result Impl :=
  match fuel with
  | O => Err OutOfFuel
  | S fuel' =>
      r <- unlink_children (junctionTables s) tableName rowId s ;;
      let s := mkImpl (junctionTables (fst r)) ({[rowId]} ∪ deletedRowIds (fst r)) in
      delete_orphans (cascade fuel') (snd r) s
  end.

(** Every nested call follows the removal of a junction row: no chain of
    calls is longer than the number of rows. *)
Definition total_rows (s : Impl) : nat :=
  list_sum (List.map (fun t => List.length (rows (snd t))) (junctionTables s)).

Definition deleteWithCascade (tableName : string) (rowId : N) (s : Impl) : result Impl :=
  cascade (S (total_rows s)) tableName rowId s.

(** cleanupOrphans (lines 642-649): the number of rows marked deleted, and
    the marks are dropped; the table name is not looked at. *)
Definition cleanupOrphans (tableName : string) (s : Impl) : Impl * N :=
  (mkImpl (junctionTables s) ∅, N.of_nat (size (deletedRowIds s))).

(** getJunctionTables (lines 651-657). *)
Definition getJunctionTables (s : Impl) : list JunctionTable :=
  List.map (fun t => definition (snd t)) (junctionTables s).

(** A list in which each consecutive pair is an include. *)
Fixpoint walk (importGraph : ImportGraph) (l : list string) : Prop :=
  match l with
  | u :: (v :: _) as l' => edge importGraph u v /\ walk importGraph l'
  | _ => True
  end.

(** A chain of includes leads from [u] to [v]. *)
Definition reaches (importGraph : ImportGraph) : string -> string -> Prop :=
  Relation_Operators.clos_trans string (edge importGraph).

(** No file includes itself through a chain of includes. *)
Definition acyclic (importGraph : ImportGraph) : Prop :=
  forall u, ~ reaches importGraph u u.

(** Each file of the list has its includes behind it in the list. *)
Fixpoint postorder (importGraph : ImportGraph) (done : list string) : Prop :=
  match done with
  | [] => True
  | u :: done' => (forall v, edge importGraph u v -> In v done') /\ postorder importGraph done'
  end.

(** The state of the search between two calls of [dfs], as long as no cycle
    was found: [done] lists the files whose call has returned, the latest
    first. *)
Definition dfs_inv (importGraph : ImportGraph) (st : DfsState) (done : list string) : Prop :=
  (forall x, x ∈ visited st <-> In x done \/ x ∈ inStack st) /\
  (forall x, x ∈ inStack st <-> In x (path st)) /\
  List.NoDup done /\
  (forall x, In x done -> x ∉ inStack st) /\
  walk importGraph (path st) /\
  postorder importGraph done /\
  found st = mkCycleInfo false [].

(** A reported cycle: the path ends in the file it starts with and each of
    its steps is an include. *)
Definition closed_walk (importGraph : ImportGraph) (c : CycleInfo) : Prop :=
  hasCycle c = true /\
  exists x mid, cyclePath c = x :: mid ++ [x] /\ walk importGraph (cyclePath c).

(** How often [n] occurs in a list of includes. *)
Fixpoint occurrences (n : string) (l : list string) : Z :=
  match l with
  | [] => 0
  | x :: l' => (if String.eqb x n then 1 else 0) + occurrences n l'
  end.

(** The includes of [n] by files that are not among [taken]. *)
Fixpoint pending (importGraph : ImportGraph) (taken : list string) (n : string) : Z :=
  match importGraph with
  | [] => 0
  | e :: rest =>
      (if existsb (String.eqb (fst e)) taken then 0 else occurrences n (snd e))
      + pending rest taken n
  end.

(** The state of the while loop of topologicalSort at the head of an
    iteration: the counters hold the includes by files not yet taken from
    the queue; a file is queued once nothing pending includes it. *)
Definition sort_inv (importGraph : ImportGraph) (inDegree : list (string * Z))
    (queue sorted : list string) : Prop :=
  (forall n, degree inDegree n = pending importGraph sorted n) /\
  List.NoDup (sorted ++ queue) /\
  (forall v, In v queue -> pending importGraph sorted v = 0) /\
  (forall i v, sorted !! i = Some v -> pending importGraph (take i sorted) v = 0) /\
  (forall n, In n (nodes importGraph) -> pending importGraph sorted n = 0 ->
             In n (sorted ++ queue)) /\
  (forall v, In v (sorted ++ queue) -> In v (nodes importGraph)).

(** *** Notions for the junction rows *)

(** The rows that are not marked deleted. *)
Definition live (rows : list JunctionRowData) : list JunctionRowData :=
  List.filter (fun r => negb (rd_id r =? 0)%N) rows.

(** The indexes, from [i] on, of the live rows with [f r = k]. *)
Fixpoint live_from (f : JunctionRowData -> N) (k : N) (i : nat)
    (rows : list JunctionRowData) : list nat :=
  match rows with
  | [] => []
  | r :: rest =>
      (if negb (rd_id r =? 0)%N && (f r =? k)%N then [i] else [])
      ++ live_from f k (S i) rest
  end.

(** An index multimap that agrees with the rows. *)
Definition index_ok (f : JunctionRowData -> N) (rows : list JunctionRowData)
    (index : list (N * nat)) : Prop :=
  StronglySorted (fun a b => (fst a <= fst b)%N) index /\
  forall k, equal_range k index = live_from f k 0 rows.

Definition table_ok (t : JunctionTableData) : Prop :=
  nextId t = (N.of_nat (List.length (rows t)) + 1)%N /\
  index_ok rd_parentRowId (rows t) (parentIndex t) /\
  index_ok rd_childRowId (rows t) (childIndex t).

Definition state_ok (s : Impl) : Prop :=
  StronglySorted (fun a b => String.compare a b = Lt) (List.map fst (junctionTables s)) /\
  List.Forall (fun e => table_ok (snd e)) (junctionTables s).

(** Calls that change the junction rows. *)
Inductive junction_call : Type :=
| AddRow (junctionName : string) (parent child : N) (vecIndex : option Z)
         (unionType : option string)
| RemoveByParent (junctionName : string) (parent : N)
| DeleteWithCascade (tableName : string) (rowId : N).

Definition run_call (c : junction_call) (s : Impl) : result Impl :=
  match c with
  | AddRow j p ch vi ut => Ok (fst (addJunctionRow j p ch vi ut s))
  | RemoveByParent j p => removeByParent j p s
  | DeleteWithCascade t r => deleteWithCascade t r s
  end.

Fixpoint run_calls (calls : list junction_call) (s : Impl) : result Impl :=
  match calls with
  | [] => Ok s
  | c :: rest => s <- run_call c s ;; run_calls rest s
  end.

(** The rows of the junction table [j] that a sequence of AddRow and
    RemoveByParent calls leaves linked, in the order they were added. *)
Fixpoint linked (calls : list junction_call) (j : string) (acc : list JunctionRow)
  : list JunctionRow :=
  match calls with
  | [] => acc
  | AddRow j' p ch vi ut :: rest =>
      linked rest j (if String.eqb j' j then acc ++ [mkJunctionRow p ch vi ut] else acc)
  | RemoveByParent j' p :: rest =>
      linked rest j
        (if String.eqb j' j then List.filter (fun r => negb (parentRowId r =? p)%N) acc
         else acc)
  | DeleteWithCascade _ _ :: rest => linked rest j acc
  end.

Definition only_rows (calls : list junction_call) : Prop :=
  List.Forall (fun c => match c with DeleteWithCascade _ _ => False | _ => True end) calls.

End Junction.

(** ** The command-line reader (flatsql.cpp, runCLI) *)

Module Cli.

Definition CHUNK_SIZE : nat := 64 * 1024.

Section ReadLoop.

Context {DB : Type}.

(** [db.ingest(data, length)]: the database afterwards and the number of
    records ingested. *)
Variable db_ingest : DB -> list byte -> result (DB * N).

(** The while loop of runCLI (lines 270-283).  [input] is what is left on
    stdin: a read takes CHUNK_SIZE bytes of it, or all that is left, and
    the loop ends when nothing is left.  The chunk is put behind [buffer]
    and all of [buffer] is handed to ingest; nothing is taken out of
    [buffer]. *)
Fixpoint read_loop (fuel : nat) (input buffer : list byte) (db : DB)
  : result (DB * list byte) :=
  match fuel with
  | O => Err OutOfFuel
  | S fuel' =>
      match input with
      | [] => Ok (db, buffer)
      | _ :: _ =>
          let buffer := buffer ++ take CHUNK_SIZE input in
          r <- db_ingest db buffer ;;
          read_loop fuel' (drop CHUNK_SIZE input) buffer (fst r)
      end
  end.

(** The reading part of runCLI (lines 265-291): the loop, then the final
    ingest of a buffer that is not empty. *)
Definition ingest_stdin (input : list byte) (db : DB) : result DB :=
  r <- read_loop (S (List.length input)) input [] db ;;
  match snd r with
  | [] => Ok (fst r)
  | _ :: _ => r' <- db_ingest (fst r) (snd r) ;; Ok (fst r')
  end.

End ReadLoop.

(** Modelled from the spec: database.cpp, which defines
    [FlatSQLDatabase::ingest], is not among the sources.  Section 4.5:
    ingest delegates to the log, whose ingest callback dispatches each
    record; section 7: it reports the records processed.  The database is
    taken as its log together with what the callback has gathered. *)
Definition log_ingest {A : Type} (callback : A -> StreamingStore.CallbackArgs -> A)
    (db : StreamingStore.StreamingFlatBufferStore * A) (bytes : list byte)
  : result (StreamingStore.StreamingFlatBufferStore * A * N) :=
  r <- StreamingStore.ingest callback (fst db) (snd db) bytes ;;
  Ok (fst (fst (fst r)), snd (fst (fst r)), snd r).

End Cli.

(** * Properties *)

(** ** compareValues *)

Section CompareFacts.

Lemma SFcompare_swap (x y : spec_float) :
  SFcompare y x = option_map CompOpp (SFcompare x y).
Proof.
  destruct x as [sx | sx | | sx mx ex], y as [sy | sy | | sy my ey];
    simpl; try reflexivity;
    try (destruct sx; try destruct sy; reflexivity);
    try (destruct sy; reflexivity).
  assert (E : Pos.compare_cont Eq my mx = CompOpp (Pos.compare_cont Eq mx my)).
  { rewrite Pos.compare_cont_antisym. reflexivity. }
  destruct sx, sy; simpl; try reflexivity.
  - rewrite (Z.compare_antisym ex ey).
    destruct (ex ?= ey)%Z; simpl; try reflexivity.
    rewrite E. reflexivity.
  - rewrite (Z.compare_antisym ex ey).
    destruct (ex ?= ey)%Z; simpl; try reflexivity.
    rewrite E. reflexivity.
Qed.

Lemma SFltb_asym (x y : spec_float) : SFltb x y = true -> SFltb y x = false.
Proof.
  unfold SFltb. rewrite (SFcompare_swap x y).
  destruct (SFcompare x y) as [[]|]; simpl; congruence.
Qed.

Lemma memcmp_swap (a b : list Z) : memcmp b a = - memcmp a b.
Proof.
  revert b; induction a as [|x a IH]; intros [|y b]; simpl; try reflexivity.
  rewrite (Z.eqb_sym y x). destruct (x =? y); [apply IH | lia].
Qed.

Lemma S_compare_sgn (n1 n2 : Z) : Z.sgn (S_compare n2 n1) = - Z.sgn (S_compare n1 n2).
Proof.
  unfold S_compare, INT_MAX, INT_MIN.
  repeat match goal with
         | |- context [?a >? ?b] => destruct (Z.gtb_spec a b)
         | |- context [?a <? ?b] => destruct (Z.ltb_spec a b)
         end; lia.
Qed.

Lemma string_compare_swap (a b : string) :
  Z.sgn (string_compare b a) = - Z.sgn (string_compare a b).
Proof.
  unfold string_compare.
  rewrite (memcmp_swap (bytes_of_string a) (bytes_of_string b)).
  destruct (Z.eqb_spec (memcmp (bytes_of_string a) (bytes_of_string b)) 0) as [E|E].
  - rewrite E. simpl. apply S_compare_sgn.
  - destruct (Z.eqb_spec (- memcmp (bytes_of_string a) (bytes_of_string b)) 0); lia.
Qed.

Lemma bytes_loop_swap (a b : list byte) :
  bytes_loop b a = option_map Z.opp (bytes_loop a b).
Proof.
  revert b; induction a as [|x a IH]; intros [|y b]; simpl; try reflexivity.
  destruct (N.ltb_spec (Byte.to_N x) (Byte.to_N y)),
           (N.ltb_spec (Byte.to_N y) (Byte.to_N x)); simpl; try reflexivity; try lia.
  apply IH.
Qed.

Lemma bytes_loop_values (a b : list byte) (r : Z) :
  bytes_loop a b = Some r -> r = -1 \/ r = 1.
Proof.
  revert b; induction a as [|x a IH]; intros [|y b]; simpl; try discriminate.
  destruct (Byte.to_N x <? Byte.to_N y)%N; [intros [= <-]; auto |].
  destruct (Byte.to_N y <? Byte.to_N x)%N; [intros [= <-]; auto |].
  apply IH.
Qed.

Lemma bytes_compare_values (a b : list byte) :
  bytes_compare a b = -1 \/ bytes_compare a b = 0 \/ bytes_compare a b = 1.
Proof.
  unfold bytes_compare. destruct (bytes_loop a b) as [r|] eqn:E.
  - destruct (bytes_loop_values _ _ _ E); auto.
  - destruct (_ <? _)%nat; auto. destruct (_ <? _)%nat; auto.
Qed.

Lemma bytes_compare_swap (a b : list byte) : bytes_compare b a = - bytes_compare a b.
Proof.
  unfold bytes_compare. rewrite (bytes_loop_swap a b).
  destruct (bytes_loop a b); simpl; [reflexivity |].
  destruct (Nat.ltb_spec (List.length a) (List.length b)),
           (Nat.ltb_spec (List.length b) (List.length a)); lia.
Qed.

Lemma three_way_swap (x y : Z) : three_way y x = - three_way x y.
Proof.
  unfold three_way. destruct (Z.ltb_spec x y), (Z.ltb_spec y x); lia.
Qed.

Lemma compareValues_ints (a b : Value) (x y : Z) :
  tryGetInt64 a = Some x -> tryGetInt64 b = Some y ->
  compareValues a b = three_way x y.
Proof.
  intros Ha Hb. unfold compareValues.
  destruct a; try discriminate Ha; destruct b; try discriminate Hb;
    simpl in *; injection Ha as <-; injection Hb as <-; reflexivity.
Qed.

(** Swapping the arguments flips the sign: the comparison never calls both
    [a < b] and [b < a]. *)
Lemma compareValues_swap (a b : Value) :
  Z.sgn (compareValues b a) = - Z.sgn (compareValues a b).
Proof.
  assert (Hf : forall x y : spec_float,
    Z.sgn (if SFltb y x then -1 else if SFltb x y then 1 else 0) =
    - Z.sgn (if SFltb x y then -1 else if SFltb y x then 1 else 0)).
  { intros x y. destruct (SFltb x y) eqn:E1.
    - rewrite (SFltb_asym _ _ E1). reflexivity.
    - destruct (SFltb y x); reflexivity. }
  assert (Hi : forall x y : Z,
    Z.sgn (if y <? x then -1 else if x <? y then 1 else 0) =
    - Z.sgn (if x <? y then -1 else if y <? x then 1 else 0)).
  { intros x y. destruct (Z.ltb_spec x y), (Z.ltb_spec y x); lia. }
  destruct a, b; unfold compareValues; simpl;
    try reflexivity; try apply Hi; try apply Hf.
  - destruct b, b0; reflexivity.
  - apply string_compare_swap.
  - match goal with
    | |- context [- Z.sgn (bytes_compare ?x ?y)] =>
        rewrite (bytes_compare_swap x y);
        destruct (bytes_compare_values x y) as [-> | [-> | ->]]; reflexivity
    end.
Qed.

Lemma key_le_total (a b : IndexEntry) : key_le a b \/ key_le b a.
Proof.
  unfold key_le. pose proof (compareValues_swap (key a) (key b)). lia.
Qed.

End CompareFacts.

Section CompareContract.

Lemma memcmp_lex (a b : list Z) :
  memcmp a b <> 0 -> Z.sgn (memcmp a b) = sign_of (lex_compare a b).
Proof.
  revert b. induction a as [|x a IH]; intros [|y b] H; simpl in *; try congruence.
  destruct (Z.eqb_spec x y) as [->|Hne].
  - rewrite Z.compare_refl. apply IH. exact H.
  - destruct (Z.compare_spec x y); simpl; lia.
Qed.

Lemma memcmp_zero_lex (a b : list Z) :
  memcmp a b = 0 ->
  sign_of (lex_compare a b) = Z.sgn (Z.of_nat (List.length a) - Z.of_nat (List.length b)).
Proof.
  revert b. induction a as [|x a IH]; intros [|y b] H;
    cbn [memcmp lex_compare sign_of List.length] in *.
  - reflexivity.
  - rewrite Z.sgn_neg; [reflexivity | rewrite Nat2Z.inj_succ; lia].
  - rewrite Z.sgn_pos; [reflexivity | rewrite Nat2Z.inj_succ; lia].
  - destruct (Z.eqb_spec x y) as [->|Hne]; [|lia].
    rewrite Z.compare_refl, (IH b H). f_equal. rewrite !Nat2Z.inj_succ. lia.
Qed.

Lemma S_compare_sgn_diff (n1 n2 : Z) : Z.sgn (S_compare n1 n2) = Z.sgn (n1 - n2).
Proof.
  unfold S_compare, INT_MAX, INT_MIN.
  destruct (Z.gtb_spec (n1 - n2) (2 ^ 31 - 1)); [lia|].
  destruct (Z.ltb_spec (n1 - n2) (- 2 ^ 31)); [lia | reflexivity].
Qed.

(** The sign of std::string::compare is the lexicographic order of the bytes. *)
Lemma string_compare_sign (a b : string) :
  Z.sgn (string_compare a b) =
  sign_of (lex_compare (bytes_of_string a) (bytes_of_string b)).
Proof.
  unfold string_compare.
  destruct (Z.eqb_spec (memcmp (bytes_of_string a) (bytes_of_string b)) 0) as [E|E].
  - rewrite S_compare_sgn_diff, (memcmp_zero_lex _ _ E). reflexivity.
  - apply memcmp_lex. exact E.
Qed.

(** C2, the counterexample: the string "a" against "abc" yields -2. *)
Lemma compare_contract_fails : ~ compare_contract.
Proof.
  intros H. specialize (H (VString "a") (VString "abc")).
  vm_compute in H. destruct H as [H|[H|H]]; discriminate H.
Qed.

(** C2, as the code has it.  Two strings compare as std::string::compare
    says, an integer of either sign whose sign is the lexicographic order of
    the bytes; every other pair of values yields -1, 0 or 1. *)
Theorem compareValues_codomain (a b : Value) :
  match a, b with
  | VString sa, VString sb =>
      compareValues a b = string_compare sa sb /\
      Z.sgn (compareValues a b) =
        sign_of (lex_compare (bytes_of_string sa) (bytes_of_string sb))
  | _, _ =>
      compareValues a b = -1 \/ compareValues a b = 0 \/ compareValues a b = 1
  end.
Proof.
  assert (Hi : forall x y : Z,
    (if x <? y then -1 else if y <? x then 1 else 0) = -1 \/
    (if x <? y then -1 else if y <? x then 1 else 0) = 0 \/
    (if x <? y then -1 else if y <? x then 1 else 0) = 1).
  { intros x y. destruct (x <? y); auto. destruct (y <? x); auto. }
  assert (Hf : forall x y : spec_float,
    (if SFltb x y then -1 else if SFltb y x then 1 else 0) = -1 \/
    (if SFltb x y then -1 else if SFltb y x then 1 else 0) = 0 \/
    (if SFltb x y then -1 else if SFltb y x then 1 else 0) = 1).
  { intros x y. destruct (SFltb x y); auto. destruct (SFltb y x); auto. }
  destruct a, b; unfold compareValues; cbn -[string_compare bytes_compare lex_compare];
    auto; try apply Hi; try apply Hf.
  - match goal with |- context [Bool.eqb ?x ?y] => destruct x, y; cbn; auto end.
  - split; [reflexivity | apply string_compare_sign].
  - apply bytes_compare_values.
Qed.

(** C7.  Null sorts below every other value and equals itself; two values
    of integer alternatives compare as the signed 64-bit integers they
    convert to, which turns an unsigned 64-bit value above INT64_MAX into a
    negative one. *)
Theorem null_and_integer_order :
  compareValues VNull VNull = 0 /\
  (forall v, v <> VNull -> compareValues VNull v = -1 /\ compareValues v VNull = 1) /\
  (forall a b x y,
     integer_value a = Some x -> integer_value b = Some y ->
     Value_ok a -> Value_ok b ->
     compareValues a b = three_way (to_int64 x) (to_int64 y)) /\
  (forall z, - 2 ^ 63 <= z < 2 ^ 63 -> to_int64 z = z) /\
  (forall z, 2 ^ 63 <= z < 2 ^ 64 -> to_int64 z = z - 2 ^ 64 /\ to_int64 z < 0).
Proof.
  assert (Hsmall : forall z, - 2 ^ 63 <= z < 2 ^ 63 -> to_int64 z = z).
  { intros z Hz. unfold to_int64. rewrite Z.mod_small; lia. }
  assert (Hbig : forall z, 2 ^ 63 <= z < 2 ^ 64 -> to_int64 z = z - 2 ^ 64).
  { intros z Hz. unfold to_int64.
    replace (z + 2 ^ 63) with (z - 2 ^ 63 + 1 * 2 ^ 64) by lia.
    rewrite Z.mod_add by lia. rewrite Z.mod_small; lia. }
  split; [reflexivity|]. split.
  { intros v Hv. destruct v; try contradiction; split; reflexivity. }
  split; [|split; [exact Hsmall|]].
  2: { intros z Hz. rewrite (Hbig z Hz). lia. }
  intros a b x y Ha Hb Oka Okb.
  assert (Ha' : tryGetInt64 a = Some (to_int64 x)).
  { destruct a; try discriminate Ha; injection Ha as <-; unfold Value_ok, in_range in Oka;
      cbn [tryGetInt64]; try (rewrite Hsmall by lia); reflexivity. }
  assert (Hb' : tryGetInt64 b = Some (to_int64 y)).
  { destruct b; try discriminate Hb; injection Hb as <-; unfold Value_ok, in_range in Okb;
      cbn [tryGetInt64]; try (rewrite Hsmall by lia); reflexivity. }
  apply compareValues_ints; assumption.
Qed.

Lemma null_and_integer_order_witness :
  compareValues (VUInt64 (2 ^ 63)) (VInt32 0) = three_way (to_int64 (2 ^ 63)) (to_int64 0) /\
  to_int64 (2 ^ 63) < 0.
Proof.
  destruct null_and_integer_order as (_ & _ & Hint & _ & Hwrap).
  split.
  - apply (Hint (VUInt64 (2 ^ 63)) (VInt32 0) (2 ^ 63) 0);
      [reflexivity | reflexivity | unfold Value_ok, in_range; lia
       | unfold Value_ok, in_range; lia].
  - apply (Hwrap (2 ^ 63)). lia.
Defined.

(** The comparison is not transitive across integers and floating-point
    values: 2^53 + 1 rounds to the double 2^53. *)
Example compareValues_not_transitive :
  let a := VInt64 (2 ^ 53 + 1) in
  let b := VFloat64 (double_of_Z (2 ^ 53)) in
  let c := VInt64 (2 ^ 53) in
  compareValues a b = 0 /\ compareValues b c = 0 /\ compareValues a c = 1.
Proof. vm_compute. auto. Qed.

End CompareContract.
(** ** compareValues within the families of keys *)

Section OrderFacts.

Lemma SFltb_irrefl (f : spec_float) : SFltb f f = false.
Proof.
  destruct (SFltb f f) eqn:E; [|reflexivity].
  rewrite (SFltb_asym f f E) in E. discriminate E.
Qed.

Lemma memcmp_refl (a : list Z) : memcmp a a = 0.
Proof. induction a as [|x a IH]; [reflexivity|]. simpl. rewrite Z.eqb_refl. exact IH. Qed.

Lemma bytes_loop_refl (a : list byte) : bytes_loop a a = None.
Proof.
  induction a as [|x a IH]; [reflexivity|]. simpl. rewrite N.ltb_irrefl. exact IH.
Qed.

Lemma compareValues_refl (a : Value) : compareValues a a = 0.
Proof.
  destruct a; unfold compareValues; cbn -[string_compare bytes_compare];
    rewrite ?Z.ltb_irrefl, ?SFltb_irrefl; try reflexivity.
  - destruct b; reflexivity.
  - unfold string_compare. rewrite memcmp_refl. cbn [Z.eqb].
    unfold S_compare. rewrite Z.sub_diag. reflexivity.
  - unfold bytes_compare. rewrite bytes_loop_refl, Nat.ltb_irrefl. reflexivity.
Qed.

Lemma lex_compare_le_trans (a : list Z) :
  forall b c, lex_compare a b <> Gt -> lex_compare b c <> Gt -> lex_compare a c <> Gt.
Proof.
  induction a as [|x a IH]; intros [|y b] [|z c]; simpl; try congruence.
  destruct (Z.compare_spec x y), (Z.compare_spec y z), (Z.compare_spec x z);
    subst; try congruence; try lia; try (intros; discriminate).
  apply IH.
Qed.

Lemma sgn_le_0 (z : Z) : z <= 0 <-> Z.sgn z <= 0.
Proof. lia. Qed.

Lemma string_family : ordered_family (fun v => exists s, v = VString s).
Proof.
  intros a b c [sa ->] [sb ->] [sc ->].
  assert (E : forall s t, compareValues (VString s) (VString t) = string_compare s t)
    by reflexivity.
  rewrite !E. rewrite (sgn_le_0 (string_compare sa sb)), (sgn_le_0 (string_compare sb sc)),
    (sgn_le_0 (string_compare sa sc)), !string_compare_sign.
  intros H1 H2.
  pose proof (lex_compare_le_trans (bytes_of_string sa) (bytes_of_string sb)
                (bytes_of_string sc)) as Ht.
  destruct (lex_compare (bytes_of_string sa) (bytes_of_string sb)),
    (lex_compare (bytes_of_string sb) (bytes_of_string sc)),
    (lex_compare (bytes_of_string sa) (bytes_of_string sc));
    cbn in *; try lia; exfalso; apply Ht; congruence.
Qed.

Lemma bytes_compare_cons (x y : byte) (a b : list byte) :
  bytes_compare (x :: a) (y :: b)
  = if (Byte.to_N x <? Byte.to_N y)%N then -1
    else if (Byte.to_N y <? Byte.to_N x)%N then 1 else bytes_compare a b.
Proof.
  unfold bytes_compare. cbn [bytes_loop List.length].
  destruct (Byte.to_N x <? Byte.to_N y)%N; [reflexivity|].
  destruct (Byte.to_N y <? Byte.to_N x)%N; reflexivity.
Qed.

Lemma bytes_compare_sign (a b : list byte) :
  bytes_compare a b
  = sign_of (lex_compare (List.map (fun c => Z.of_N (Byte.to_N c)) a)
                         (List.map (fun c => Z.of_N (Byte.to_N c)) b)).
Proof.
  revert b. induction a as [|x a IH]; intros [|y b]; try reflexivity.
  rewrite bytes_compare_cons. cbn [List.map lex_compare].
  destruct (N.ltb_spec (Byte.to_N x) (Byte.to_N y)) as [H1|H1].
  - replace (Z.of_N (Byte.to_N x) ?= Z.of_N (Byte.to_N y)) with Lt; [reflexivity|].
    symmetry. apply Z.compare_lt_iff. lia.
  - destruct (N.ltb_spec (Byte.to_N y) (Byte.to_N x)) as [H2|H2].
    + replace (Z.of_N (Byte.to_N x) ?= Z.of_N (Byte.to_N y)) with Gt; [reflexivity|].
      symmetry. apply Z.compare_gt_iff. lia.
    + replace (Z.of_N (Byte.to_N x) ?= Z.of_N (Byte.to_N y)) with Eq; [apply IH|].
      symmetry. apply Z.compare_eq_iff. lia.
Qed.

Lemma bytes_family : ordered_family (fun v => exists b, v = VBytes b).
Proof.
  intros a b c [ba ->] [bb ->] [bc ->].
  change (bytes_compare ba bb <= 0 -> bytes_compare bb bc <= 0 -> bytes_compare ba bc <= 0).
  rewrite !bytes_compare_sign. intros H1 H2.
  set (f := List.map (fun c => Z.of_N (Byte.to_N c))) in *.
  pose proof (lex_compare_le_trans (f ba) (f bb) (f bc)) as Ht.
  destruct (lex_compare (f ba) (f bb)), (lex_compare (f bb) (f bc)),
    (lex_compare (f ba) (f bc)); cbn in *; try lia; exfalso; apply Ht; congruence.
Qed.

Lemma bool_family : ordered_family (fun v => exists b, v = VBool b).
Proof. intros a b c [[|] ->] [[|] ->] [[|] ->]; vm_compute; congruence. Qed.

Lemma lex_compare_eq (a : list Z) : forall b, lex_compare a b = Eq -> a = b.
Proof.
  induction a as [|x a IH]; intros [|y b]; cbn [lex_compare]; try congruence.
  destruct (Z.compare_spec x y) as [->|H|H]; try discriminate.
  intros E. f_equal. apply IH. exact E.
Qed.

Lemma sign_of_eq (c : comparison) : sign_of c = 0 -> c = Eq.
Proof. destruct c; cbn; congruence. Qed.

Lemma bytes_of_string_inj (s : string) : forall t, bytes_of_string s = bytes_of_string t -> s = t.
Proof.
  unfold bytes_of_string.
  induction s as [|c s IH]; intros [|d t]; cbn [list_ascii_of_string List.map];
    try congruence.
  intros E. injection E as E1 E2. f_equal; [|apply IH; exact E2].
  apply N2Z.inj in E1.
  rewrite <- (ascii_N_embedding c), <- (ascii_N_embedding d), E1. reflexivity.
Qed.

Lemma bytes_as_Z_inj (a : list byte) :
  forall b,
    List.map (fun c => Z.of_N (Byte.to_N c)) a = List.map (fun c => Z.of_N (Byte.to_N c)) b ->
    a = b.
Proof.
  induction a as [|x a IH]; intros [|y b]; cbn [List.map]; try congruence.
  intros E. injection E as E1 E2. f_equal; [|apply IH; exact E2].
  apply N2Z.inj in E1.
  pose proof (Byte.of_to_N x) as Hx. rewrite E1, Byte.of_to_N in Hx. congruence.
Qed.

(** *** Doubles

    SFcompare orders the doubles other than NaN: by sign, then exponent,
    then mantissa; the two zeros are equal. *)

Lemma SFcompare_some (f g : spec_float) :
  f <> S754_nan -> g <> S754_nan -> exists c, SFcompare f g = Some c.
Proof.
  intros Hf Hg. destruct f, g; try congruence; cbn [SFcompare]; eauto.
Qed.

Lemma SFcompare_le_trans (f g k : spec_float) :
  g <> S754_nan ->
  SFcompare f g <> Some Gt -> SFcompare g k <> Some Gt -> SFcompare f k <> Some Gt.
Proof.
  destruct f as [sf|sf| |sf mf ef], g as [sg|sg| |sg mg eg], k as [sk|sk| |sk mk ek];
    cbn [SFcompare]; intros Hg; try congruence;
    repeat match goal with s : bool |- _ => destruct s end;
    try congruence.
  all: change (Pos.compare_cont Eq) with Pos.compare;
    destruct (Z.compare_spec ef eg), (Z.compare_spec eg ek), (Z.compare_spec ef ek);
    try lia; try congruence; subst;
    destruct (Pos.compare_spec mf mg), (Pos.compare_spec mg mk), (Pos.compare_spec mf mk);
    cbn [CompOpp]; try lia; congruence.
Qed.

Lemma SFcompare_eq (f g : spec_float) :
  SFcompare f g = Some Eq ->
  f = g \/ exists s t, f = S754_zero s /\ g = S754_zero t.
Proof.
  destruct f as [sf|sf| |sf mf ef], g as [sg|sg| |sg mg eg]; cbn [SFcompare];
    intros H; try discriminate;
    repeat match goal with s : bool |- _ => destruct s end; try discriminate; eauto.
  all: left; revert H; change (Pos.compare_cont Eq) with Pos.compare;
    destruct (Z.compare_spec ef eg); try discriminate; subst;
    destruct (Pos.compare_spec mf mg); cbn [CompOpp]; try discriminate; subst; reflexivity.
Qed.

End OrderFacts.

(** ** Vectors and in-order sequences *)

Section VectorFacts.

Context {A : Type}.
Implicit Types (l v : list A) (x : A) (i n : nat).

Lemma nth_error_lookup l i : nth_error l i = l !! i.
Proof.
  revert i; induction l as [|x l IH]; intros [|i]; simpl; auto.
Qed.

Lemma vec_at_middle l1 x l2 : vec_at (l1 ++ x :: l2) (List.length l1) = Ok x.
Proof.
  unfold vec_at. rewrite nth_error_app2 by lia.
  rewrite Nat.sub_diag. reflexivity.
Qed.

Lemma vec_at_lt v i : (i < List.length v)%nat -> exists x, vec_at v i = Ok x.
Proof.
  intros H. unfold vec_at.
  destruct (nth_error v i) as [x|] eqn:E; [eauto |].
  apply nth_error_None in E. lia.
Qed.

Lemma vec_at_Ok v i x : vec_at v i = Ok x -> nth_error v i = Some x.
Proof.
  unfold vec_at. destruct (nth_error v i); congruence.
Qed.

Lemma vec_at_split v i x :
  vec_at v i = Ok x ->
  exists l1 l2, v = l1 ++ x :: l2 /\ List.length l1 = i.
Proof.
  intros H. apply vec_at_Ok in H.
  destruct (nth_error_split v i H) as (l1 & l2 & -> & <-). eauto.
Qed.

Lemma vec_insert_middle l1 l2 x :
  vec_insert (l1 ++ l2) (List.length l1) x = Ok (l1 ++ x :: l2).
Proof.
  unfold vec_insert.
  assert (H : (List.length l1 <=? List.length (l1 ++ l2))%nat = true).
  { apply Nat.leb_le. rewrite length_app. lia. }
  rewrite H, take_app_length, drop_app_length. reflexivity.
Qed.

Lemma vec_resize_shrink (d : A) v n :
  (n <= List.length v)%nat -> vec_resize d v n = firstn n v.
Proof.
  intros H. unfold vec_resize.
  replace (n - List.length v)%nat with O by lia. simpl. apply app_nil_r.
Qed.

Lemma interleave_split (cs1 : list (list A)) (c : list A) (cs2 : list (list A))
    (es1 es2 : list A) :
  List.length cs1 = List.length es1 ->
  interleave (cs1 ++ c :: cs2) (es1 ++ es2) = weave_l cs1 es1 ++ c ++ weave_r es2 cs2.
Proof.
  revert es1. induction cs1 as [|c1 cs1 IH]; intros [|e1 es1] Hlen;
    try discriminate Hlen.
  - reflexivity.
  - simpl in Hlen. injection Hlen as Hlen. specialize (IH es1 Hlen).
    simpl. rewrite <- app_assoc. simpl. rewrite <- IH.
    destruct (cs1 ++ c :: cs2) as [|c2 cs'] eqn:E; [| reflexivity].
    destruct cs1; discriminate E.
Qed.

Lemma weave_l_snoc (cs : list (list A)) (c : list A) (es : list A) x :
  List.length cs = List.length es ->
  weave_l (cs ++ [c]) (es ++ [x]) = weave_l cs es ++ c ++ [x].
Proof.
  revert es. induction cs as [|c1 cs IH]; intros [|e1 es] Hlen;
    try discriminate Hlen; simpl.
  - reflexivity.
  - injection Hlen as Hlen. rewrite (IH es Hlen), <- app_assoc. reflexivity.
Qed.

End VectorFacts.

Section ScanFacts.

Lemma scan_back_spec (k : Value) (es : list IndexEntry) (n : nat) :
  (n <= List.length es)%nat ->
  (scan_back k es n <= n)%nat /\
  (forall x, nth_error es (scan_back k es n - 1) = Some x ->
             scan_back k es n <> O -> 0 <= compareValues k (key x)) /\
  (forall j y, (scan_back k es n <= j < n)%nat -> nth_error es j = Some y ->
               compareValues k (key y) < 0).
Proof.
  induction n as [|i IH]; intros Hn; simpl.
  - repeat split; intros; lia.
  - destruct (nth_error es i) as [e|] eqn:E.
    2: { apply nth_error_None in E. lia. }
    destruct (Z.ltb_spec (compareValues k (key e)) 0) as [Hlt|Hge].
    + destruct IH as (IH1 & IH2 & IH3); [lia|].
      split; [lia|]. split; [exact IH2|].
      intros j y Hj Hy. destruct (Nat.eq_dec j i) as [->|Hne].
      * congruence.
      * apply (IH3 j y); [lia | exact Hy].
    + split; [lia|]. split.
      * intros x Hx _. simpl in Hx. rewrite Nat.sub_0_r in Hx. congruence.
      * intros j y Hj. lia.
Qed.

(** The position found by the backward scan cuts the vector in two: the
    entry before the cut is not above the key, the entry after it is. *)
Lemma scan_back_cut (k : Value) (es : list IndexEntry) :
  exists l1 l2,
    es = l1 ++ l2 /\ List.length l1 = scan_back k es (List.length es) /\
    (forall x, last l1 = Some x -> 0 <= compareValues k (key x)) /\
    (forall y, head l2 = Some y -> compareValues k (key y) < 0).
Proof.
  destruct (scan_back_spec k es (List.length es) (le_n _)) as (H1 & H2 & H3).
  set (p := scan_back k es (List.length es)) in *.
  exists (firstn p es), (skipn p es).
  split; [symmetry; apply take_drop|].
  split; [rewrite length_take; lia|].
  split.
  - intros x Hx. destruct (Nat.eq_dec p O) as [E|E].
    { rewrite E in Hx. discriminate Hx. }
    apply (H2 x); [|exact E].
    rewrite last_lookup in Hx. rewrite length_take in Hx.
    rewrite lookup_take_lt in Hx by lia.
    rewrite nth_error_lookup.
    replace (p - 1)%nat with (Nat.pred (p `min` List.length es)) by lia.
    exact Hx.
  - intros y Hy. apply (H3 p y).
    + split; [lia|]. destruct (Nat.lt_ge_cases p (List.length es)); [assumption|].
      rewrite drop_ge in Hy by lia. discriminate Hy.
    + rewrite <- (take_drop p es) at 1.
      rewrite nth_error_app2 by (rewrite length_take; lia).
      rewrite length_take. replace (p - p `min` List.length es)%nat with O by lia.
      destruct (skipn p es); [discriminate Hy | exact Hy].
Qed.

End ScanFacts.

(** ** The node map *)

Section HeapFacts.

Implicit Types (t : BTree) (m : gmap N BTreeNode) (T : tree) (id : N).

Lemma shape_at_insert_eq m id n : shape_at (<[id := n]> m) id = Some (shape n).
Proof. unfold shape_at. rewrite lookup_insert_eq. reflexivity. Qed.

Lemma shape_at_insert_ne m id j n : id <> j -> shape_at (<[id := n]> m) j = shape_at m j.
Proof. intros H. unfold shape_at. rewrite lookup_insert_ne by exact H. reflexivity. Qed.

Lemma getNode_shape t id s :
  shape_at (nodes_ t) id = Some s -> exists n, getNode t id = Ok n /\ shape n = s.
Proof.
  unfold shape_at, getNode. destruct (nodes_ t !! id) as [n|]; simpl; [|discriminate].
  intros [= <-]. eauto.
Qed.

Lemma shape_eq n leaf es cs :
  shape n = (leaf, es, cs) -> isLeaf n = leaf /\ entries n = es /\ children n = cs.
Proof. unfold shape. intros [= -> -> ->]. auto. Qed.

Lemma rep_frame m m' T :
  rep m T -> (forall id, id ∈ ids T -> shape_at m' id = shape_at m id) -> rep m' T.
Proof.
  revert T. refine (tree_rect' _ (fun cs => Forall (rep m) cs ->
      (forall id, id ∈ concat (List.map ids cs) -> shape_at m' id = shape_at m id) ->
      Forall (rep m') cs) _ _ _).
  - intros _ _. constructor.
  - intros c cs IHc IHcs Hall Hfr. inversion Hall as [|? ? Hc Hcs]; subst.
    constructor.
    + apply IHc; [exact Hc|]. intros id Hid. apply Hfr. simpl.
      apply elem_of_app. auto.
    + apply IHcs; [exact Hcs|]. intros id Hid. apply Hfr. simpl.
      apply elem_of_app. auto.
  - intros id leaf es cs IH Hrep Hfr. inversion Hrep as [? ? ? ? Hs Hl Hcs]; subst.
    constructor.
    + rewrite Hfr; [exact Hs|]. simpl. apply elem_of_cons. auto.
    + exact Hl.
    + apply IH; [exact Hcs|]. intros j Hj. apply Hfr. simpl.
      apply elem_of_cons. auto.
Qed.

Lemma rep_root m T :
  rep m T -> shape_at m (tid T) = Some (tleaf T, tentries T, List.map tid (tchildren T)).
Proof. intros H. inversion H; subst. simpl. assumption. Qed.

Lemma meta_eq_refl t : meta_eq t t.
Proof. unfold meta_eq. auto. Qed.

Lemma meta_eq_trans t1 t2 t3 : meta_eq t1 t2 -> meta_eq t2 t3 -> meta_eq t1 t3.
Proof. unfold meta_eq. intros (?&?&?&?) (?&?&?&?). repeat split; congruence. Qed.

Lemma reparent_spec t moved sib :
  Forall (fun c => is_Some (nodes_ t !! c)) moved ->
  exists t', reparent t moved sib = Ok t' /\ meta_eq t t' /\
             nextNodeId_ t' = nextNodeId_ t /\
             forall id, shape_at (nodes_ t') id = shape_at (nodes_ t) id.
Proof.
  revert t. induction moved as [|c rest IH]; intros t Hall; simpl.
  - exists t. split; [reflexivity|]. split; [apply meta_eq_refl|]. auto.
  - inversion Hall as [|? ? [n Hn] Hrest]; subst.
    unfold getNode at 1. rewrite Hn. simpl.
    destruct (IH (putNode t c (set_parentId n sib))) as (t' & Hr & Hm & Hnx & Hsh).
    { eapply Forall_impl; [exact Hrest|]. intros c' [n' Hc']. simpl.
      destruct (decide (c = c')) as [->|Hne].
      - rewrite lookup_insert_eq. eauto.
      - rewrite lookup_insert_ne by exact Hne. eauto. }
    exists t'. split; [exact Hr|]. split; [exact Hm|]. split; [exact Hnx|].
    intros id. rewrite Hsh. simpl.
    destruct (decide (c = id)) as [->|Hne].
    + rewrite shape_at_insert_eq. unfold shape_at. rewrite Hn. reflexivity.
    + apply shape_at_insert_ne. exact Hne.
Qed.

End HeapFacts.

Section SplitFacts.

Implicit Types (t : BTree) (m : gmap N BTreeNode) (T : tree) (id : N).

Ltac heap_simpl :=
  cbn [bind nodes_ order_ rootId_ nextNodeId_ entryCount_ keyType_
       putNode set_nodes set_rootId set_entryCount createNode
       isLeaf entries children nodeId parentId
       set_entries set_children set_parentId negb] in *.

Lemma getNode_put_eq t id n : getNode (putNode t id n) id = Ok n.
Proof. unfold getNode. simpl. rewrite lookup_insert_eq. reflexivity. Qed.

Lemma getNode_put_ne t id j n : id <> j -> getNode (putNode t id n) j = getNode t j.
Proof. intros H. unfold getNode. simpl. rewrite lookup_insert_ne by exact H. reflexivity. Qed.

Lemma mid_lt (order : Z) (n : nat) :
  2 <= order -> order - 1 <= Z.of_nat n -> (Z.to_nat (Z.quot (order - 1) 2) < n)%nat.
Proof.
  intros H1 H2.
  assert (0 <= Z.quot (order - 1) 2 < order - 1).
  { rewrite Z.quot_div_nonneg by lia. split.
    - apply Z.div_pos; lia.
    - apply Z.div_lt; lia. }
  lia.
Qed.

Lemma elem_of_ids_child (c : tree) (cs : list tree) id :
  c ∈ cs -> id ∈ ids c -> id ∈ concat (List.map ids cs).
Proof.
  intros Hc Hid. apply list_elem_of_In. apply in_concat.
  exists (ids c). split.
  - apply in_map. apply list_elem_of_In. exact Hc.
  - apply list_elem_of_In. exact Hid.
Qed.

Lemma tid_in_ids T : tid T ∈ ids T.
Proof. destruct T. simpl. apply elem_of_cons. auto. Qed.

Lemma concat_ids_app (cs1 cs2 : list tree) :
  concat (List.map ids (cs1 ++ cs2)) = concat (List.map ids cs1) ++ concat (List.map ids cs2).
Proof. rewrite List.map_app, concat_app. reflexivity. Qed.

Lemma height_children_le (cs : list tree) (c : tree) :
  c ∈ cs -> (height c <= list_max (List.map height cs))%nat.
Proof.
  intros H. assert (Hall := proj1 (list_max_le (List.map height cs) _) (le_n _)).
  rewrite List.Forall_forall in Hall. apply Hall. apply in_map.
  apply list_elem_of_In. exact H.
Qed.

Lemma list_max_sub (l k : list nat) :
  (forall x, In x l -> In x k) -> (list_max l <= list_max k)%nat.
Proof.
  intros H. apply list_max_le. apply List.Forall_forall. intros x Hx.
  assert (Hall := proj1 (list_max_le k _) (le_n _)).
  rewrite List.Forall_forall in Hall. apply Hall. apply H. exact Hx.
Qed.

Lemma ids_node_split id leaf es (cs1 : list tree) (C : tree) (cs2 : list tree) :
  ids (TNode id leaf es (cs1 ++ C :: cs2)) =
  id :: concat (List.map ids cs1) ++ ids C ++ concat (List.map ids cs2).
Proof. simpl. rewrite concat_ids_app. reflexivity. Qed.

Lemma vec_at_middle' {A : Type} (l1 : list A) x l2 i :
  i = List.length l1 -> vec_at (l1 ++ x :: l2) i = Ok x.
Proof. intros ->. apply vec_at_middle. Qed.

Lemma elem_of_take_sub {A : Type} (x : A) n (l : list A) : x ∈ firstn n l -> x ∈ l.
Proof. intros H. rewrite <- (take_drop n l). apply elem_of_app. auto. Qed.

Lemma elem_of_drop_sub {A : Type} (x : A) n (l : list A) : x ∈ skipn n l -> x ∈ l.
Proof. intros H. rewrite <- (take_drop n l). apply elem_of_app. auto. Qed.

Lemma splice_after {A : Type} (a : list A) (c s : A) (b : list A) (i : nat) :
  i = List.length a ->
  firstn (i + 1) (a ++ c :: b) ++ s :: skipn (i + 1) (a ++ c :: b) = a ++ c :: s :: b.
Proof.
  intros ->. rewrite (cons_middle c a b), app_assoc.
  rewrite take_app_length' by (rewrite length_app; simpl; lia).
  rewrite drop_app_length' by (rewrite length_app; simpl; lia).
  rewrite <- app_assoc. reflexivity.
Qed.

End SplitFacts.
Section SplitRun.
Implicit Types (t : BTree) (m : gmap N BTreeNode) (T : tree) (id : N).

Lemma createNode_eq t leaf p :
  createNode t leaf p =
  (nextNodeId_ t,
   putNode (with_next t (nextNodeId_ t + 1)%N) (nextNodeId_ t)
           (mkNode (nextNodeId_ t) leaf [] [] p)).
Proof. reflexivity. Qed.

Lemma getNode_with_next t n id : getNode (with_next t n) id = getNode t id.
Proof. reflexivity. Qed.

Lemma shape_at_put_eq t id n : shape_at (nodes_ (putNode t id n)) id = Some (shape n).
Proof. apply shape_at_insert_eq. Qed.

Lemma shape_at_put_ne t id j n :
  id <> j -> shape_at (nodes_ (putNode t id n)) j = shape_at (nodes_ t) j.
Proof. apply shape_at_insert_ne. Qed.

Lemma getNode_Ok_shape t id n : getNode t id = Ok n -> shape_at (nodes_ t) id = Some (shape n).
Proof.
  unfold getNode, shape_at. destruct (nodes_ t !! id); [|discriminate].
  intros [= ->]. reflexivity.
Qed.

Lemma getNode_is_Some t id n : getNode t id = Ok n -> is_Some (nodes_ t !! id).
Proof.
  unfold getNode. destruct (nodes_ t !! id); [eauto | discriminate].
Qed.

Lemma is_Some_put t id n j : is_Some (nodes_ t !! j) -> is_Some (nodes_ (putNode t id n) !! j).
Proof.
  intros H. simpl. destruct (decide (id = j)) as [->|Hne].
  - rewrite lookup_insert_eq. eauto.
  - rewrite lookup_insert_ne by exact Hne. exact H.
Qed.

Ltac get_step :=
  first [ rewrite getNode_put_eq
        | rewrite getNode_put_ne by congruence
        | rewrite getNode_with_next ].

Lemma splitChild_run t pid pleaf pes pcs i cid cleaf ces ccids midE :
  let mid := Z.to_nat (Z.quot (order_ t - 1) 2) in
  let sib := nextNodeId_ t in
  shape_at (nodes_ t) pid = Some (pleaf, pes, pcs) ->
  vec_at pcs i = Ok cid -> (i <= List.length pes)%nat ->
  shape_at (nodes_ t) cid = Some (cleaf, ces, ccids) ->
  vec_at ces mid = Ok midE ->
  pid <> cid -> pid <> sib -> cid <> sib ->
  (if cleaf then ccids = []
   else (mid + 1 <= List.length ccids)%nat /\
        Forall (fun g => is_Some (nodes_ t !! g)) (skipn (mid + 1) ccids)) ->
  exists t',
    splitChild t pid i = Ok t' /\ meta_eq t t' /\
    nextNodeId_ t' = (nextNodeId_ t + 1)%N /\
    shape_at (nodes_ t') pid =
      Some (pleaf, firstn i pes ++ midE :: skipn i pes,
            firstn (i + 1) pcs ++ sib :: skipn (i + 1) pcs) /\
    shape_at (nodes_ t') cid = Some (cleaf, firstn mid ces, firstn (mid + 1) ccids) /\
    shape_at (nodes_ t') sib = Some (cleaf, skipn (mid + 1) ces, skipn (mid + 1) ccids) /\
    (forall id, id <> pid -> id <> cid -> id <> sib ->
                shape_at (nodes_ t') id = shape_at (nodes_ t) id).
Proof.
  intros mid sib HsP Hcid Hi HsC HmidE Hpc Hps Hcs Hkids.
  destruct (getNode_shape _ _ _ HsP) as (P & HgP & HshP).
  apply shape_eq in HshP as (HP1 & HP2 & HP3).
  destruct (getNode_shape _ _ _ HsC) as (Cn & HgC & HshC).
  apply shape_eq in HshC as (HC1 & HC2 & HC3).
  assert (Hi' : (i + 1 <= List.length pcs)%nat).
  { apply vec_at_Ok in Hcid.
    assert (nth_error pcs i <> None) as H%nth_error_Some by congruence. lia. }
  unfold splitChild. rewrite HgP. cbn [bind]. rewrite HP3, Hcid. cbn [bind].
  rewrite HgC. cbn [bind]. rewrite createNode_eq. cbn iota. fold sib. fold mid.
  repeat get_step. cbn [bind]. repeat get_step. rewrite HgC. cbn [bind].
  rewrite HC2, HmidE. cbn [bind].
  rewrite HC1.
  set (N0 := mkNode sib cleaf [] [] pid).
  set (s3 := putNode (putNode (putNode (with_next t (sib + 1)%N) sib N0) sib
                        (set_entries N0 (skipn (mid + 1) ces)))
               cid (set_entries Cn (firstn mid ces))).
  assert (F3p : shape_at (nodes_ s3) pid = Some (pleaf, pes, pcs)).
  { unfold s3. rewrite !shape_at_put_ne by congruence. exact HsP. }
  assert (F3c : shape_at (nodes_ s3) cid = Some (cleaf, firstn mid ces, ccids)).
  { unfold s3. rewrite shape_at_put_eq. unfold shape. cbn. rewrite HC1, HC3. reflexivity. }
  assert (F3s : getNode s3 sib = Ok (set_entries N0 (skipn (mid + 1) ces))).
  { unfold s3. repeat get_step. reflexivity. }
  assert (F3o : forall id, id <> cid -> id <> sib ->
                  shape_at (nodes_ s3) id = shape_at (nodes_ t) id).
  { intros id H1 H2. unfold s3. rewrite !shape_at_put_ne by congruence. reflexivity. }
  assert (F3i : forall g, is_Some (nodes_ t !! g) -> is_Some (nodes_ s3 !! g)).
  { intros g Hg. unfold s3. do 3 apply is_Some_put. exact Hg. }
  assert (F3m : meta_eq t s3 /\ nextNodeId_ s3 = (sib + 1)%N).
  { unfold s3, meta_eq. cbn. auto. }
  clearbody s3.
  assert (Hs4 : exists s4,
    (if negb cleaf
     then
       sibling <- getNode s3 sib ;;
       t0 <- reparent
               (putNode s3 sib
                  (set_children sibling
                     (children sibling ++ skipn (mid + 1) (children Cn))))
               (skipn (mid + 1) (children Cn)) sib ;;
       child <- getNode t0 cid ;;
       Ok (putNode t0 cid
             (set_children child (vec_resize 0%N (children child) (mid + 1))))
     else Ok s3) = Ok s4 /\
    meta_eq t s4 /\ nextNodeId_ s4 = (sib + 1)%N /\
    shape_at (nodes_ s4) pid = Some (pleaf, pes, pcs) /\
    shape_at (nodes_ s4) cid = Some (cleaf, firstn mid ces, firstn (mid + 1) ccids) /\
    shape_at (nodes_ s4) sib = Some (cleaf, skipn (mid + 1) ces, skipn (mid + 1) ccids) /\
    (forall id, id <> cid -> id <> sib ->
                shape_at (nodes_ s4) id = shape_at (nodes_ t) id)).
  { destruct cleaf; cbn [negb].
    - subst ccids. exists s3. split; [reflexivity|].
      destruct F3m as [F3m F3n]. repeat split; try assumption; try apply F3m.
      + rewrite F3c. rewrite firstn_nil. reflexivity.
      + rewrite (getNode_Ok_shape _ _ _ F3s). rewrite skipn_nil. reflexivity.
    - destruct Hkids as [Hlen Hmoved]. rewrite F3s. cbn [bind].
      rewrite HC3. cbn [children set_entries N0 app].
      set (S2 := set_children _ _).
      destruct (reparent_spec (putNode s3 sib S2) (skipn (mid + 1) ccids) sib)
        as (s4b & Hrun & Hm4 & Hn4 & Hsh4).
      { eapply Forall_impl; [exact Hmoved|]. intros g Hg. cbn beta.
        apply is_Some_put. apply F3i. exact Hg. }
      rewrite Hrun. cbn [bind].
      assert (F4c : shape_at (nodes_ s4b) cid = Some (false, firstn mid ces, ccids)).
      { rewrite Hsh4, shape_at_put_ne by congruence. exact F3c. }
      destruct (getNode_shape _ _ _ F4c) as (C2 & HgC2 & HshC2).
      apply shape_eq in HshC2 as (HC21 & HC22 & HC23).
      rewrite HgC2. cbn [bind]. eexists. split; [reflexivity|].
      destruct F3m as [F3m F3n].
      split. { eapply meta_eq_trans; [exact F3m|]. unfold meta_eq in *. cbn. cbn in Hm4. exact Hm4. }
      split. { cbn. rewrite Hn4. cbn. exact F3n. }
      split. { rewrite shape_at_put_ne by congruence. rewrite Hsh4.
               rewrite shape_at_put_ne by congruence. exact F3p. }
      split. { rewrite shape_at_put_eq. unfold shape. cbn.
               rewrite HC21, HC22, HC23, vec_resize_shrink by exact Hlen. reflexivity. }
      split. { rewrite shape_at_put_ne by congruence. rewrite Hsh4.
               rewrite shape_at_put_eq. reflexivity. }
      intros id H1 H2. rewrite shape_at_put_ne by congruence. rewrite Hsh4.
      rewrite shape_at_put_ne by congruence. apply F3o; assumption. }
  destruct Hs4 as (s4 & -> & Hm & Hn & H4p & H4c & H4s & H4o). cbn [bind].
  destruct (getNode_shape _ _ _ H4p) as (P4 & HgP4 & HshP4).
  apply shape_eq in HshP4 as (HP41 & HP42 & HP43).
  rewrite HgP4. cbn [bind]. rewrite HP42, HP43.
  unfold vec_insert.
  replace (i <=? List.length pes)%nat with true by (symmetry; apply Nat.leb_le; lia).
  replace (i + 1 <=? List.length pcs)%nat with true by (symmetry; apply Nat.leb_le; lia).
  cbn [bind]. eexists. split; [reflexivity|].
  split. { unfold meta_eq in *. cbn. exact Hm. }
  split. { cbn. exact Hn. }
  split. { rewrite shape_at_put_eq. unfold shape. cbn. rewrite HP41. reflexivity. }
  split. { rewrite shape_at_put_ne by congruence. exact H4c. }
  split. { rewrite shape_at_put_ne by congruence. exact H4s. }
  intros id H1 H2 H3. rewrite shape_at_put_ne by congruence. apply H4o; assumption.
Qed.
End SplitRun.
Section SplitSpec.
Implicit Types (t : BTree) (m : gmap N BTreeNode) (T : tree) (id : N).

Lemma interleave_cons {A : Type} (c1 c2 : list A) (cs : list (list A)) e (es : list A) :
  interleave (c1 :: c2 :: cs) (e :: es) = c1 ++ e :: interleave (c2 :: cs) es.
Proof. reflexivity. Qed.

Lemma interleave_cut {A : Type} (k : nat) :
  forall (cs : list (list A)) (es : list A) (x : A),
    List.length cs = S (List.length es) -> nth_error es k = Some x ->
    interleave cs es =
    interleave (firstn (S k) cs) (firstn k es) ++
    x :: interleave (skipn (S k) cs) (skipn (S k) es).
Proof.
  induction k as [|k IH]; intros cs es x Hlen Hx.
  - destruct es as [|e es]; [discriminate Hx|]. injection Hx as ->.
    destruct cs as [|c0 [|c1 cs]]; try discriminate Hlen.
    cbn. rewrite app_nil_r. reflexivity.
  - destruct es as [|e es]; [discriminate Hx|]. simpl in Hx.
    destruct cs as [|c0 [|c1 cs]]; try discriminate Hlen.
    simpl in Hlen. injection Hlen as Hlen.
    rewrite interleave_cons.
    rewrite (IH (c1 :: cs) es x) by (simpl; auto).
    change (firstn (S (S k)) (c0 :: c1 :: cs)) with (c0 :: c1 :: firstn k cs).
    change (firstn (S k) (e :: es)) with (e :: firstn k es).
    rewrite interleave_cons.
    cbn [skipn firstn]. rewrite <- app_assoc. reflexivity.
Qed.

Lemma rep_is_Some m T : rep m T -> is_Some (m !! tid T).
Proof.
  intros H. apply rep_root in H. unfold shape_at in H.
  destruct (m !! tid T); [eauto | discriminate].
Qed.

Lemma splitChild_spec t pid es cs1 C cs2 :
  let T := TNode pid false es (cs1 ++ C :: cs2) in
  rep (nodes_ t) T -> owned t T ->
  2 <= order_ t -> order_ t - 1 <= Z.of_nat (List.length (tentries C)) ->
  exists t' L R midE,
    splitChild t pid (List.length cs1) = Ok t' /\ meta_eq t t' /\
    nextNodeId_ t' = (nextNodeId_ t + 1)%N /\
    rep (nodes_ t')
        (TNode pid false
           (firstn (List.length cs1) es ++ midE :: skipn (List.length cs1) es)
           (cs1 ++ L :: R :: cs2)) /\
    tid L = tid C /\ tid R = nextNodeId_ t /\
    inorder C = inorder L ++ midE :: inorder R /\
    ids L ++ ids R ≡ₚ nextNodeId_ t :: ids C /\
    (height L <= height C)%nat /\ (height R <= height C)%nat /\
    (forall id, id ∉ ids T -> id <> nextNodeId_ t ->
                shape_at (nodes_ t') id = shape_at (nodes_ t) id).
Proof.
  intros T Hrep [Hnd Hlt] Hord Hfull.
  destruct C as [cid cleaf ces ccs]. simpl in Hfull.
  set (mid := Z.to_nat (Z.quot (order_ t - 1) 2)).
  assert (Hmid : (mid < List.length ces)%nat) by (apply mid_lt; assumption).
  inversion Hrep as [? ? ? ? HsP HlP HcsP]; subst.
  apply Forall_app in HcsP as [Hcs1 HcsP].
  apply Forall_cons in HcsP as [HC Hcs2].
  inversion HC as [? ? ? ? HsC HlC HccsC]; subst.
  assert (HT : ids T = pid :: concat (List.map ids cs1) ++
                 ids (TNode cid cleaf ces ccs) ++ concat (List.map ids cs2))
    by apply ids_node_split.
  rewrite HT in Hnd, Hlt.
  apply NoDup_cons in Hnd as [Hpid Hnd].
  apply NoDup_app in Hnd as (Hnd1 & Hd1 & Hnd).
  apply NoDup_app in Hnd as (HndC & HdC & Hnd2).
  apply Forall_cons in Hlt as [Hpid_lt Hlt].
  apply Forall_app in Hlt as [Hlt1 Hlt].
  apply Forall_app in Hlt as [HltC Hlt2].
  rewrite Forall_forall in Hlt1, HltC, Hlt2.
  assert (HcidC : cid ∈ ids (TNode cid cleaf ces ccs))
    by apply (tid_in_ids (TNode cid cleaf ces ccs)).
  assert (Hcid_lt : (cid < nextNodeId_ t)%N) by (apply HltC; exact HcidC).
  assert (Hpc : pid <> cid).
  { intros ->. apply Hpid. apply elem_of_app. right. apply elem_of_app. left. exact HcidC. }
  set (sib := nextNodeId_ t) in *.
  assert (Hps : pid <> sib) by lia.
  assert (Hcsib : cid <> sib) by lia.
  destruct (vec_at_lt ces mid Hmid) as [midE HmidE].
  assert (HlenP : (List.length cs1 <= List.length es)%nat).
  { rewrite length_app in HlP. simpl in HlP. lia. }
  assert (Hkids : if cleaf then List.map tid ccs = []
                  else (mid + 1 <= List.length (List.map tid ccs))%nat /\
                       Forall (fun g => is_Some (nodes_ t !! g))
                              (skipn (mid + 1) (List.map tid ccs))).
  { destruct cleaf; [subst ccs; reflexivity|].
    rewrite length_map. split; [lia|].
    rewrite skipn_map. apply Forall_forall. intros g Hg.
    apply list_elem_of_In, in_map_iff in Hg as (c & <- & Hc).
    apply rep_is_Some. rewrite Forall_forall in HccsC. apply HccsC.
    eapply elem_of_drop_sub. apply list_elem_of_In. exact Hc. }
  destruct (splitChild_run t pid false es (List.map tid (cs1 ++ TNode cid cleaf ces ccs :: cs2))
              (List.length cs1) cid cleaf ces (List.map tid ccs) midE)
    as (t' & Hrun & Hm & Hn & H'p & H'c & H's & H'o);
    try assumption.
  { rewrite List.map_app. apply vec_at_middle'. rewrite length_map. reflexivity. }
  fold mid in H'c, H's. fold sib in H'p, H's, H'o.
  set (L := TNode cid cleaf (firstn mid ces) (firstn (mid + 1) ccs)).
  set (R := TNode sib cleaf (skipn (mid + 1) ces) (skipn (mid + 1) ccs)).
  exists t', L, R, midE.
  assert (Hframe : forall X, rep (nodes_ t) X ->
            (forall id, id ∈ ids X -> id <> pid /\ id <> cid /\ (id < sib)%N) ->
            rep (nodes_ t') X).
  { intros X HX Hids. eapply rep_frame; [exact HX|].
    intros id Hid. destruct (Hids id Hid) as (H1 & H2 & H3).
    apply H'o; [assumption | assumption | lia]. }
  assert (Hgrand : forall c, c ∈ ccs -> rep (nodes_ t') c).
  { intros c Hc. apply Hframe.
    - rewrite Forall_forall in HccsC. apply HccsC. exact Hc.
    - intros id Hid.
      assert (Hin : id ∈ concat (List.map ids ccs)) by (eapply elem_of_ids_child; eassumption).
      assert (HinC : id ∈ ids (TNode cid cleaf ces ccs)).
      { simpl. apply elem_of_cons. auto. }
      split; [|split].
      + intros ->. apply Hpid. apply elem_of_app. right. apply elem_of_app. auto.
      + intros ->. simpl in HndC. apply NoDup_cons in HndC as [Hn1 _]. apply Hn1. exact Hin.
      + apply HltC. exact HinC. }
  split; [exact Hrun|]. split; [exact Hm|]. split; [exact Hn|].
  split.
  { constructor.
    - rewrite H'p. f_equal. f_equal.
      rewrite !List.map_app. cbn [List.map tid L R].
      apply splice_after. rewrite length_map. reflexivity.
    - rewrite !length_app in *. simpl in *. rewrite length_take, length_skipn. lia.
    - apply Forall_app. split.
      { apply Forall_forall. intros X HX. apply Hframe.
        { rewrite Forall_forall in Hcs1. apply Hcs1. exact HX. }
        intros id Hid.
        assert (Hin : id ∈ concat (List.map ids cs1)) by (eapply elem_of_ids_child; eassumption).
        split; [|split].
        + intros ->. apply Hpid. apply elem_of_app. auto.
        + intros ->. apply (Hd1 cid Hin). apply elem_of_app. auto.
        + apply Hlt1. exact Hin. }
      apply Forall_cons. split.
      { constructor.
        - rewrite H'c. rewrite firstn_map. reflexivity.
        - destruct cleaf.
          + subst ccs. apply firstn_nil.
          + rewrite !length_take. lia.
        - apply Forall_forall. intros c Hc. apply Hgrand.
          eapply elem_of_take_sub. exact Hc. }
      apply Forall_cons. split.
      { constructor.
        - rewrite H's. rewrite skipn_map. reflexivity.
        - destruct cleaf.
          + subst ccs. apply skipn_nil.
          + rewrite !length_skipn. lia.
        - apply Forall_forall. intros c Hc. apply Hgrand.
          eapply elem_of_drop_sub. exact Hc. }
      apply Forall_forall. intros X HX. apply Hframe.
      { rewrite Forall_forall in Hcs2. apply Hcs2. exact HX. }
      intros id Hid.
      assert (Hin : id ∈ concat (List.map ids cs2)) by (eapply elem_of_ids_child; eassumption).
      split; [|split].
      + intros ->. apply Hpid. apply elem_of_app. right. apply elem_of_app. auto.
      + intros ->. apply (HdC cid HcidC). exact Hin.
      + apply Hlt2. exact Hin. }
  split; [reflexivity|]. split; [reflexivity|].
  split.
  { cbn [inorder L R]. apply vec_at_Ok in HmidE.
    destruct cleaf.
    - subst ccs. cbn. rewrite nth_error_lookup in HmidE.
      rewrite Nat.add_1_r. symmetry. apply take_drop_middle. exact HmidE.
    - rewrite <- firstn_map, <- skipn_map, !Nat.add_1_r.
      apply interleave_cut; [rewrite length_map; exact HlC | exact HmidE]. }
  split.
  { cbn [ids L R]. rewrite <- (take_drop (mid + 1) ccs) at 3.
    rewrite concat_ids_app. simpl.
    rewrite <- Permutation_middle. apply perm_swap. }
  split.
  { cbn [height L]. apply le_n_S. apply list_max_sub.
    intros x Hx. apply in_map_iff in Hx as (c & <- & Hc). apply in_map.
    apply list_elem_of_In. eapply elem_of_take_sub. apply list_elem_of_In. exact Hc. }
  split.
  { cbn [height R]. apply le_n_S. apply list_max_sub.
    intros x Hx. apply in_map_iff in Hx as (c & <- & Hc). apply in_map.
    apply list_elem_of_In. eapply elem_of_drop_sub. apply list_elem_of_In. exact Hc. }
  intros id Hid Hsib. apply H'o; [| | exact Hsib].
  - intros ->. apply Hid. rewrite HT. apply elem_of_cons. auto.
  - intros ->. apply Hid. rewrite HT. apply elem_of_cons. right.
    apply elem_of_app. right. apply elem_of_app. auto.
Qed.

End SplitSpec.

(** ** Insertion *)

Section InsertFacts.
Implicit Types (t : BTree) (m : gmap N BTreeNode) (T : tree) (id : N) (e : IndexEntry).

Lemma last_weave_l {A : Type} (cs : list (list A)) (es : list A) :
  List.length cs = List.length es -> last (weave_l cs es) = last es.
Proof.
  revert es. induction cs as [|c cs IH]; intros [|x es] Hlen; try discriminate Hlen.
  - reflexivity.
  - simpl in Hlen. injection Hlen as Hlen. cbn [weave_l].
    rewrite last_app_cons, (last_cons x), (last_cons x es), (IH es Hlen). reflexivity.
Qed.

Lemma head_weave_r {A : Type} (es : list A) (cs : list (list A)) y :
  head (weave_r es cs) = Some y -> head es = Some y.
Proof. destruct es, cs; simpl; congruence. Qed.

Lemma last_nil_inv {A : Type} (l : list A) : last l = None -> l = [].
Proof. apply last_None. Qed.

Lemma inserted_in_child e (W1 W2 x x' : list IndexEntry) (esA esB : list IndexEntry) :
  inserted e x x' ->
  (forall a, last W1 = Some a -> last esA = Some a) ->
  (forall b, head W2 = Some b -> head esB = Some b) ->
  (forall a, last esA = Some a -> key_le a e) ->
  (forall b, head esB = Some b -> key_le e b) ->
  inserted e (W1 ++ x ++ W2) (W1 ++ x' ++ W2).
Proof.
  intros (x1 & x2 & -> & -> & Hl & Hr) HW1 HW2 HA HB.
  exists (W1 ++ x1), (x2 ++ W2).
  split; [rewrite <- !app_assoc; reflexivity|].
  split; [rewrite <- !app_assoc; reflexivity|].
  split.
  - intros a Ha. rewrite last_app in Ha.
    destruct (last x1) as [a'|] eqn:E.
    + injection Ha as <-. apply Hl. reflexivity.
    + apply HA, HW1. exact Ha.
  - intros b Hb. destruct x2 as [|b' x2].
    + apply HB, HW2. exact Hb.
    + simpl in Hb. injection Hb as <-. apply Hr. reflexivity.
Qed.

Lemma grown_child e t pid cs1 X cs2 t' X' esA esB :
  let P := TNode pid false (esA ++ esB) (cs1 ++ X :: cs2) in
  rep (nodes_ t) P -> owned t P ->
  List.length esA = List.length cs1 ->
  (forall x, last esA = Some x -> key_le x e) ->
  (forall y, head esB = Some y -> key_le e y) ->
  grown e t X t' X' ->
  grown e t P t' (TNode pid false (esA ++ esB) (cs1 ++ X' :: cs2)).
Proof.
  intros P Hrep [Hnd Hlt] Hlen HA HB (Hm & Hnx & HrX' & Htid & HndX' & Hsub & Hfr & Hins).
  inversion Hrep as [? ? ? ? HsP HlP HcsP]; subst.
  apply Forall_app in HcsP as [Hcs1 HcsP].
  apply Forall_cons in HcsP as [HX Hcs2].
  assert (HT : ids P = pid :: concat (List.map ids cs1) ++ ids X ++ concat (List.map ids cs2))
    by apply ids_node_split.
  rewrite HT in Hnd, Hlt.
  apply NoDup_cons in Hnd as [Hpid Hnd].
  apply NoDup_app in Hnd as (Hnd1 & Hd1 & Hnd).
  apply NoDup_app in Hnd as (HndX & HdX & Hnd2).
  apply Forall_cons in Hlt as [Hpid_lt Hlt].
  apply Forall_app in Hlt as [Hlt1 Hlt].
  apply Forall_app in Hlt as [HltX Hlt2].
  rewrite Forall_forall in Hlt1, HltX, Hlt2.
  assert (HpX : pid ∉ ids X).
  { intros H. apply Hpid. apply elem_of_app. right. apply elem_of_app. auto. }
  assert (Hold : forall id, id ∈ ids X' -> (id < nextNodeId_ t)%N -> id ∈ ids X).
  { intros id Hid Hl. destruct (Hsub id Hid) as [H|H]; [exact H | lia]. }
  assert (Hkeep : forall Y, rep (nodes_ t) Y ->
            (forall id, id ∈ ids Y -> (id ∉ ids X) /\ (id < nextNodeId_ t)%N) ->
            rep (nodes_ t') Y).
  { intros Y HY Hids. eapply rep_frame; [exact HY|].
    intros id Hid. destruct (Hids id Hid). apply Hfr; assumption. }
  unfold grown. split; [exact Hm|]. split; [exact Hnx|].
  split.
  { constructor.
    - rewrite Hfr by assumption. rewrite HsP. rewrite !List.map_app. simpl.
      rewrite Htid. reflexivity.
    - rewrite length_app in *. simpl in *. exact HlP.
    - apply Forall_app. split.
      { apply Forall_forall. intros Y HY. apply Hkeep.
        { rewrite Forall_forall in Hcs1. apply Hcs1. exact HY. }
        intros id Hid.
        assert (Hin : id ∈ concat (List.map ids cs1)) by (eapply elem_of_ids_child; eassumption).
        split; [|apply Hlt1; exact Hin].
        intros H. apply (Hd1 id Hin). apply elem_of_app. auto. }
      apply Forall_cons. split; [exact HrX'|].
      apply Forall_forall. intros Y HY. apply Hkeep.
      { rewrite Forall_forall in Hcs2. apply Hcs2. exact HY. }
      intros id Hid.
      assert (Hin : id ∈ concat (List.map ids cs2)) by (eapply elem_of_ids_child; eassumption).
      split; [|apply Hlt2; exact Hin].
      intros H. apply (HdX id H). exact Hin. }
  split; [reflexivity|].
  split.
  { rewrite ids_node_split. apply NoDup_cons. split.
    - intros H. apply elem_of_app in H as [H|H].
      { apply Hpid. apply elem_of_app. auto. }
      apply elem_of_app in H as [H|H].
      { apply HpX. apply Hold; assumption. }
      apply Hpid. apply elem_of_app. right. apply elem_of_app. auto.
    - apply NoDup_app. split; [exact Hnd1|]. split.
      + intros x Hx H. apply elem_of_app in H as [H|H].
        * apply (Hd1 x Hx). apply elem_of_app. left. apply Hold; [exact H|].
          apply Hlt1. exact Hx.
        * apply (Hd1 x Hx). apply elem_of_app. auto.
      + apply NoDup_app. split; [exact HndX'|]. split; [|exact Hnd2].
        intros x Hx H. apply (HdX x); [|exact H].
        apply Hold; [exact Hx|]. apply Hlt2. exact H. }
  split.
  { intros id Hid. rewrite ids_node_split in Hid. rewrite HT.
    apply elem_of_cons in Hid as [->|Hid]; [left; apply elem_of_cons; auto|].
    apply elem_of_app in Hid as [Hid|Hid].
    { left. apply elem_of_cons. right. apply elem_of_app. auto. }
    apply elem_of_app in Hid as [Hid|Hid].
    - destruct (Hsub id Hid) as [H|H]; [|right; exact H].
      left. apply elem_of_cons. right. apply elem_of_app. right. apply elem_of_app. auto.
    - left. apply elem_of_cons. right. apply elem_of_app. right. apply elem_of_app. auto. }
  split.
  { intros id Hid Hl. apply Hfr; [|exact Hl].
    intros H. apply Hid. rewrite HT. apply elem_of_cons. right.
    apply elem_of_app. right. apply elem_of_app. auto. }
  subst P. cbn [inorder]. rewrite !List.map_app. cbn [List.map].
  rewrite !interleave_split by (rewrite length_map; auto).
  apply (inserted_in_child e _ _ _ _ esA esB); try assumption.
  - intros a Ha. rewrite last_weave_l in Ha by (rewrite length_map; auto). exact Ha.
  - intros b Hb. eapply head_weave_r. exact Hb.
Qed.


Lemma compareValues_ge_swap (a b : Value) :
  0 <= compareValues a b -> compareValues b a <= 0.
Proof. pose proof (compareValues_swap a b). lia. Qed.

Lemma compareValues_gt_swap (a b : Value) :
  0 < compareValues a b -> compareValues b a <= 0.
Proof. pose proof (compareValues_swap a b). lia. Qed.

Lemma owned_child t id leaf es cs1 X cs2 :
  owned t (TNode id leaf es (cs1 ++ X :: cs2)) -> owned t X.
Proof.
  intros [Hnd Hlt]. rewrite ids_node_split in Hnd, Hlt.
  apply NoDup_cons in Hnd as [_ Hnd].
  apply NoDup_app in Hnd as (_ & _ & Hnd).
  apply NoDup_app in Hnd as (Hnd & _ & _).
  apply Forall_cons in Hlt as [_ Hlt].
  apply Forall_app in Hlt as [_ Hlt].
  apply Forall_app in Hlt as [Hlt _].
  split; assumption.
Qed.

Lemma height_child id leaf es cs1 X cs2 :
  (S (height X) <= height (TNode id leaf es (cs1 ++ X :: cs2)))%nat.
Proof.
  cbn [height]. apply le_n_S. apply height_children_le.
  apply elem_of_app. right. apply elem_of_cons. auto.
Qed.

Lemma inorder_split id leaf esA esB cs1 L R x cs2 :
  List.length esA = List.length cs1 ->
  inorder (TNode id leaf (esA ++ x :: esB) (cs1 ++ L :: R :: cs2)) =
  weave_l (List.map inorder cs1) esA ++
    (inorder L ++ x :: inorder R) ++ weave_r esB (List.map inorder cs2).
Proof.
  intros Hlen. cbn [inorder]. rewrite List.map_app. cbn [List.map].
  rewrite interleave_split by (rewrite length_map; auto).
  cbn [weave_r]. rewrite <- !app_assoc. reflexivity.
Qed.

(** After [splitChild] the descent continues in the state [t1]; what it
    leaves behind there is also what it leaves behind from [t]. *)
Lemma grown_after_split e t T t1 T1 t' T' :
  meta_eq t t1 -> nextNodeId_ t1 = (nextNodeId_ t + 1)%N ->
  ids T1 ≡ₚ nextNodeId_ t :: ids T ->
  inorder T1 = inorder T -> tid T1 = tid T ->
  (forall id, id ∉ ids T -> id <> nextNodeId_ t ->
              shape_at (nodes_ t1) id = shape_at (nodes_ t) id) ->
  grown e t1 T1 t' T' -> grown e t T t' T'.
Proof.
  intros Hm1 Hn1 Hperm Hin Htid1 Hfr1 (Hm & Hnx & Hr & Htid & Hnd & Hsub & Hfr & Hins).
  unfold grown. split; [eapply meta_eq_trans; eassumption|].
  split; [lia|]. split; [exact Hr|]. split; [congruence|]. split; [exact Hnd|].
  split.
  { intros id Hid. destruct (Hsub id Hid) as [H|H]; [|right; lia].
    rewrite Hperm in H. apply elem_of_cons in H as [->|H]; [right; lia | left; exact H]. }
  split.
  { intros id Hid Hl. rewrite Hfr.
    - apply Hfr1; [exact Hid | lia].
    - rewrite Hperm. intros H. apply elem_of_cons in H as [->|H]; [lia | contradiction].
    - lia. }
  rewrite <- Hin. exact Hins.
Qed.

Lemma insertNonFull_spec (fuel : nat) :
  forall t T e,
    2 <= order_ t -> rep (nodes_ t) T -> owned t T -> (height T <= fuel)%nat ->
    exists t' T', insertNonFull fuel t (tid T) e = Ok t' /\ grown e t T t' T'.
Proof.
  induction fuel as [|fuel IH]; intros t T e Hord Hrep Hown Hh.
  { destruct T; simpl in Hh; lia. }
  destruct T as [id leaf es cs]. cbn [tid insertNonFull].
  inversion Hrep as [? ? ? ? Hs Hl Hcs]; subst.
  destruct (getNode_shape _ _ _ Hs) as (n & Hg & Hsh).
  apply shape_eq in Hsh as (Hn1 & Hn2 & Hn3).
  rewrite Hg. cbn [bind]. rewrite Hn1, Hn2.
  destruct (scan_back_cut (key e) es) as (l1 & l2 & Hes & Hlen & Hl1 & Hl2).
  rewrite <- Hlen.
  assert (HA : forall x, last l1 = Some x -> key_le x e).
  { intros x Hx. apply compareValues_ge_swap. apply Hl1. exact Hx. }
  assert (HB : forall y, head l2 = Some y -> key_le e y).
  { intros y Hy. unfold key_le. specialize (Hl2 y Hy). lia. }
  destruct leaf.
  - (* leaf *)
    clear Hn2. subst cs es. rewrite vec_insert_middle. cbn [bind].
    eexists. exists (TNode id true (l1 ++ e :: l2) []).
    split; [reflexivity|].
    destruct Hown as [Hnd Hlt]. simpl in Hnd, Hlt.
    unfold grown. split; [unfold meta_eq; cbn; auto|].
    split; [cbn; lia|].
    split.
    { constructor; [|reflexivity|constructor].
      rewrite shape_at_put_eq. unfold shape. cbn. rewrite Hn1, Hn3. reflexivity. }
    split; [reflexivity|]. split; [exact Hnd|].
    split; [intros j Hj; left; exact Hj|].
    split.
    { intros j Hj _. apply shape_at_put_ne. intros ->. apply Hj. apply elem_of_cons. auto. }
    cbn. exists l1, l2. auto.
  - (* internal node *)
    assert (Hi : (List.length l1 < List.length cs)%nat).
    { rewrite Hl, Hes, length_app. lia. }
    destruct (vec_at_lt cs _ Hi) as [X HX].
    destruct (vec_at_split _ _ _ HX) as (cs1 & cs2 & -> & Hlen1).
    rewrite Hn3, List.map_app. cbn [List.map].
    rewrite vec_at_middle' by (rewrite length_map; auto). cbn [bind].
    pose proof Hcs as Hcs'.
    apply Forall_app in Hcs' as [Hcs1 Hcs'].
    apply Forall_cons in Hcs' as [HrX Hcs2].
    destruct (getNode_shape _ _ _ (rep_root _ _ HrX)) as (cn & Hgc & Hshc).
    apply shape_eq in Hshc as (Hc1 & Hc2 & Hc3).
    rewrite Hgc. cbn [bind]. unfold is_full. rewrite Hc2.
    pose proof (height_child id false es cs1 X cs2) as HhX.
    destruct (Z.geb_spec (Z.of_nat (List.length (tentries X))) (order_ t - 1)) as [Hfull|Hnot].
    + (* the child is full: split it, then choose a side *)
      destruct (splitChild_spec t id es cs1 X cs2 Hrep Hown Hord)
        as (t1 & L & R & midE & Hrun & Hm1 & Hnx1 & Hr1 & HtL & HtR & HinX & Hperm & HhL & HhR & Hfr1);
        [lia|].
      rewrite Hlen1 in Hrun, Hr1. rewrite Hrun. cbn [bind].
      rewrite Hes in Hr1.
      rewrite take_app_length, drop_app_length in Hr1.
      destruct (getNode_shape _ _ _ (rep_root _ _ Hr1)) as (n1 & Hg1 & Hsh1).
      cbn [tid tleaf tentries tchildren] in Hg1, Hsh1.
      apply shape_eq in Hsh1 as (Hn11 & Hn12 & Hn13).
      rewrite Hg1. cbn [bind]. rewrite Hn12, vec_at_middle. cbn [bind].
      set (T := TNode id false es (cs1 ++ X :: cs2)) in *.
      set (T1 := TNode id false (l1 ++ midE :: l2) (cs1 ++ L :: R :: cs2)) in *.
      assert (Hids1 : ids T1 ≡ₚ nextNodeId_ t :: ids T).
      { unfold T1, T. rewrite (cons_middle L cs1), app_assoc.
        rewrite !ids_node_split. rewrite concat_ids_app. simpl concat at 2.
        rewrite app_nil_r, <- !app_assoc.
        rewrite Permutation_swap. apply perm_skip.
        rewrite (app_assoc (ids L)), Hperm. simpl.
        symmetry. apply Permutation_middle. }
      assert (Hown1 : owned t1 T1).
      { destruct Hown as [Hnd Hlt]. split.
        - rewrite Hids1. apply NoDup_cons. split; [|exact Hnd].
          intros H. rewrite Forall_forall in Hlt. specialize (Hlt _ H). lia.
        - rewrite Hids1. apply Forall_cons. split; [lia|].
          eapply Forall_impl; [exact Hlt|]. intros j Hj. cbn beta in *. lia. }
      assert (Hin1 : inorder T1 = inorder T).
      { unfold T1. rewrite inorder_split by auto. rewrite <- HinX.
        unfold T. rewrite Hes. cbn [inorder]. rewrite List.map_app. cbn [List.map].
        rewrite interleave_split by (rewrite length_map; auto). reflexivity. }
      assert (Hord1 : 2 <= order_ t1) by (destruct Hm1 as (_ & -> & _); exact Hord).
      destruct (Z.gtb_spec (compareValues (key e) (key midE)) 0) as [Hgt|Hle].
      * (* right of the separator *)
        rewrite Hn13.
        rewrite (cons_middle L cs1), app_assoc, List.map_app. cbn [List.map].
        rewrite vec_at_middle' by (rewrite length_map, length_app; simpl; lia).
        cbn [bind].
        unfold T1 in Hr1, Hown1.
        rewrite (cons_middle L cs1), app_assoc in Hr1, Hown1.
        rewrite (cons_middle midE l1), app_assoc in Hr1, Hown1.
        pose proof Hr1 as Hr1'.
        inversion Hr1' as [? ? ? ? _ _ Hcs1']; subst.
        apply Forall_app in Hcs1' as [_ Hcs1'].
        apply Forall_cons in Hcs1' as [HrR _].
        destruct (IH t1 R e Hord1 HrR (owned_child _ _ _ _ _ _ _ Hown1)) as (t' & R' & Hrun' & Hg').
        { lia. }
        rewrite Hrun'.
        eexists. eexists. split; [reflexivity|].
        eapply (grown_after_split e t T t1 T1); try eassumption; [reflexivity|].
        unfold T1. rewrite (cons_middle L cs1), app_assoc.
        rewrite (cons_middle midE l1), app_assoc.
        apply grown_child; try eassumption.
        -- rewrite !length_app. simpl. lia.
        -- intros x Hx. rewrite last_snoc in Hx. injection Hx as <-.
           apply compareValues_gt_swap. exact Hgt.
      * (* left of the separator, or equal to it *)
        rewrite Hn13, List.map_app. cbn [List.map].
        rewrite vec_at_middle' by (rewrite length_map; auto). cbn [bind].
        pose proof Hr1 as Hr1'.
        inversion Hr1' as [? ? ? ? _ _ Hcs1']; subst.
        apply Forall_app in Hcs1' as [_ Hcs1'].
        apply Forall_cons in Hcs1' as [HrL _].
        destruct (IH t1 L e Hord1 HrL (owned_child _ _ _ _ _ _ _ Hown1)) as (t' & L' & Hrun' & Hg').
        { lia. }
        rewrite Hrun'.
        eexists. eexists. split; [reflexivity|].
        eapply (grown_after_split e t T t1 T1); try eassumption; [reflexivity|].
        unfold T1. apply grown_child; try eassumption; [lia|].
        intros y Hy. simpl in Hy. injection Hy as <-. exact Hle.
    + (* room in the child *)
      destruct (IH t X e Hord HrX (owned_child _ _ _ _ _ _ _ Hown)) as (t' & X' & Hrun' & Hg').
      { lia. }
      rewrite Hrun'. eexists. eexists. split; [reflexivity|].
      clear Hn2. subst es. apply grown_child; try eassumption. lia.
Qed.

End InsertFacts.

(** ** The invariant of the index object *)

Section Invariant.
Implicit Types (t : BTree) (m : gmap N BTreeNode) (T : tree) (id : N) (e : IndexEntry).

Lemma Sorted_app_iff {A : Type} (R : A -> A -> Prop) (l1 l2 : list A) :
  Sorted R (l1 ++ l2) <->
  Sorted R l1 /\ Sorted R l2 /\
  (forall x y, last l1 = Some x -> head l2 = Some y -> R x y).
Proof.
  induction l1 as [|a l1 IH]; simpl.
  - split.
    + intros H. repeat split; [constructor | exact H | discriminate].
    + intros (_ & H & _). exact H.
  - split.
    + intros H. apply Sorted_inv in H as [Hs Hd].
      apply IH in Hs as (Hs1 & Hs2 & Hj).
      split; [|split; [exact Hs2|]].
      * constructor; [exact Hs1|]. destruct l1; [constructor|].
        inversion Hd; subst. constructor. assumption.
      * intros x y Hx Hy. rewrite last_cons in Hx.
        destruct (last l1) as [x'|] eqn:E.
        -- injection Hx as <-. apply Hj; auto.
        -- injection Hx as <-. apply last_None in E. subst l1. simpl in Hd.
           destruct l2; [discriminate Hy|]. injection Hy as <-.
           inversion Hd; subst. assumption.
    + intros (Hs1 & Hs2 & Hj). apply Sorted_inv in Hs1 as [Hs1 Hd].
      constructor.
      * apply IH. split; [exact Hs1|]. split; [exact Hs2|].
        intros x y Hx Hy. apply Hj; [|exact Hy]. rewrite last_cons, Hx. reflexivity.
      * destruct l1 as [|b l1]; simpl.
        -- destruct l2 as [|y l2]; constructor. apply Hj; reflexivity.
        -- inversion Hd; subst. constructor. assumption.
Qed.

Lemma inserted_sorted e (l l' : list IndexEntry) :
  inserted e l l' -> Sorted key_le l -> Sorted key_le l'.
Proof.
  intros (l1 & l2 & -> & -> & Hl & Hr) Hs.
  apply Sorted_app_iff in Hs as (Hs1 & Hs2 & _).
  apply Sorted_app_iff. split; [exact Hs1|]. split.
  - constructor; [exact Hs2|]. destruct l2; constructor. apply Hr. reflexivity.
  - intros x y Hx Hy. injection Hy as <-. apply Hl. exact Hx.
Qed.

Lemma inserted_perm e (l l' : list IndexEntry) : inserted e l l' -> l' ≡ₚ e :: l.
Proof.
  intros (l1 & l2 & -> & -> & _). symmetry. apply Permutation_middle.
Qed.

Lemma height_le_ids T : (height T <= List.length (ids T))%nat.
Proof.
  revert T. refine (tree_rect' _ (fun cs =>
    (list_max (List.map height cs) <= List.length (concat (List.map ids cs)))%nat) _ _ _).
  - simpl. lia.
  - intros c cs Hc Hcs. simpl. rewrite length_app. lia.
  - intros id leaf es cs Hcs. simpl. lia.
Qed.

Lemma bounded_NoDup_length (l : list N) (n : N) :
  NoDup l -> Forall (fun i => (i < n)%N) l -> (List.length l <= N.to_nat n)%nat.
Proof.
  intros Hnd Hlt.
  assert (H : (List.length (List.map N.to_nat l) <=
               List.length (seq 0%nat (N.to_nat n)))%nat).
  { apply NoDup_incl_length.
    - apply Stdlib.Lists.Finite.Injective_map_NoDup; [|apply NoDup_ListNoDup; exact Hnd].
      intros x y H. apply N2Nat.inj. exact H.
    - intros x Hx. apply in_map_iff in Hx as (i & <- & Hi).
      rewrite List.Forall_forall in Hlt. specialize (Hlt _ Hi).
      apply in_seq. lia. }
  rewrite length_map, length_seq in H. exact H.
Qed.

Lemma owned_height t T : owned t T -> (height T <= depth_bound t)%nat.
Proof.
  intros [Hnd Hlt]. unfold depth_bound.
  pose proof (height_le_ids T). pose proof (bounded_NoDup_length _ _ Hnd Hlt). lia.
Qed.

Lemma holds_fresh t id p :
  nodes_ t = <[id := mkNode id true [] [] p]> ∅ -> rootId_ t = id ->
  (id < nextNodeId_ t)%N -> holds t (TNode id true [] []).
Proof.
  intros Hm Hr Hn. unfold holds.
  split; [|split; [|split; [|split]]].
  - constructor; [|reflexivity|constructor].
    rewrite Hm. unfold shape_at. rewrite lookup_insert_eq. reflexivity.
  - symmetry. exact Hr.
  - apply NoDup_singleton.
  - cbn. repeat constructor. exact Hn.
  - constructor.
Qed.

Lemma holds_new (keyType : ValueType) (order : Z) :
  holds (BTree_new keyType order) (TNode 1 true [] []).
Proof. eapply holds_fresh; cbn; [reflexivity | reflexivity | lia]. Qed.

Lemma holds_clear t : holds (clear t) (TNode 1 true [] []).
Proof. eapply holds_fresh; cbn; [reflexivity | reflexivity | lia]. Qed.


Ltac get_step :=
  first [ rewrite getNode_put_eq
        | rewrite getNode_put_ne by congruence
        | rewrite getNode_with_next ].

Lemma insert_tail t T e :
  2 <= order_ t -> rep (nodes_ t) T -> owned t T -> tid T = rootId_ t ->
  Sorted key_le (inorder T) ->
  exists t' T',
    (t1 <- insertNonFull (depth_bound t) t (rootId_ t) e ;;
     Ok (set_entryCount t1 ((entryCount_ t1 + 1) mod 2 ^ 64)%N)) = Ok t' /\
    holds t' T' /\ order_ t' = order_ t /\ keyType_ t' = keyType_ t /\
    entryCount_ t' = ((entryCount_ t + 1) mod 2 ^ 64)%N /\
    inserted e (inorder T) (inorder T').
Proof.
  intros Hord Hrep Hown Htid Hsorted.
  destruct (insertNonFull_spec (depth_bound t) t T e Hord Hrep Hown (owned_height _ _ Hown))
    as (t1 & T1 & Hrun & Hg).
  rewrite Htid in Hrun. rewrite Hrun. cbn [bind].
  destruct Hg as ((Hk & Ho & Hr & Hc) & Hnx & Hr1 & Htid1 & Hnd1 & Hsub & _ & Hins).
  eexists. exists T1. split; [reflexivity|].
  split; [|cbn; rewrite Hc; auto].
  unfold holds. cbn.
  split; [exact Hr1|]. split; [congruence|]. split; [exact Hnd1|].
  split; [|eapply inserted_sorted; eassumption].
  apply Forall_forall. intros id Hid.
  destruct (Hsub id Hid) as [H|H]; [|lia].
  destruct Hown as [_ Hlt]. rewrite Forall_forall in Hlt. specialize (Hlt _ H). lia.
Qed.

Lemma insert_spec t T k o l s :
  2 <= order_ t -> holds t T ->
  exists t' T',
    insert t k o l s = Ok t' /\ holds t' T' /\
    order_ t' = order_ t /\ keyType_ t' = keyType_ t /\
    entryCount_ t' = ((entryCount_ t + 1) mod 2 ^ 64)%N /\
    inserted (mkEntry k o l s) (inorder T) (inorder T').
Proof.
  intros Hord (Hrep & Htid & Hnd & Hlt & Hsorted).
  set (e := mkEntry k o l s).
  unfold insert. fold e.
  destruct (getNode_shape _ _ _ (rep_root _ _ Hrep)) as (root & Hg & Hsh).
  apply shape_eq in Hsh as (Hr1 & Hr2 & Hr3).
  rewrite <- Htid. rewrite Hg. cbn [bind].
  unfold is_full. rewrite Hr2.
  destruct (Z.geb_spec (Z.of_nat (List.length (tentries T))) (order_ t - 1)) as [Hfull|Hnot].
  - (* the root is full *)
    rewrite createNode_eq. cbn iota.
    set (new := nextNodeId_ t).
    assert (Hroot_lt : (tid T < new)%N).
    { rewrite Forall_forall in Hlt. apply Hlt. apply tid_in_ids. }
    repeat get_step. cbn [bind].
    cbn [rootId_ putNode set_nodes with_next children set_children app].
    repeat get_step. rewrite <- Htid.
    rewrite getNode_put_ne by lia. rewrite getNode_put_ne by lia.
    rewrite getNode_with_next, Hg. cbn [bind].
    set (t2 := putNode _ (tid T) _).
    set (T0 := TNode new false [] ([] ++ T :: [])).
    assert (Hrep0 : rep (nodes_ t2) T0).
    { unfold T0, t2. constructor.
      - rewrite shape_at_put_ne by lia. rewrite shape_at_put_eq. reflexivity.
      - reflexivity.
      - constructor; [|constructor]. eapply rep_frame; [exact Hrep|].
        intros id Hid. destruct (decide (tid T = id)) as [<-|Hne].
        + rewrite shape_at_put_eq. unfold shape. cbn.
          rewrite (rep_root _ _ Hrep), Hr1, Hr2, Hr3. reflexivity.
        + rewrite shape_at_put_ne by exact Hne.
          rewrite Forall_forall in Hlt. specialize (Hlt _ Hid).
          rewrite !shape_at_put_ne by lia. reflexivity. }
    assert (Hown0 : owned t2 T0).
    { unfold T0, t2. split; cbn.
      - rewrite app_nil_r. apply NoDup_cons. split; [|exact Hnd].
        intros H. rewrite Forall_forall in Hlt. specialize (Hlt _ H). lia.
      - rewrite app_nil_r. apply Forall_cons. split; [lia|].
        eapply Forall_impl; [exact Hlt|]. intros j Hj. cbn beta in *. lia. }
    destruct (splitChild_spec t2 new [] [] T [] Hrep0 Hown0)
      as (t3 & L & R & midE & Hrun & Hm3 & Hn3 & Hr3' & HtL & HtR & HinT & Hperm & _ & _ & _).
    { exact Hord. }
    { exact Hfull. }
    cbn [List.length] in Hrun. rewrite Hrun. cbn [bind].
    cbn [List.length firstn skipn app] in Hr3'.
    set (T1 := TNode new false [midE] [L; R]) in *.
    destruct Hm3 as (Hk3 & Ho3 & Hroot3 & Hc3).
    destruct (insert_tail (set_rootId t3 new) T1 e) as (t' & T' & Hrun' & Hh & Ho' & Hk' & Hc' & Hins).
    + cbn. rewrite Ho3. exact Hord.
    + exact Hr3'.
    + unfold owned. cbn [nextNodeId_ set_rootId]. rewrite Hn3.
      assert (Hids : ids T1 ≡ₚ new :: nextNodeId_ t2 :: ids T).
      { unfold T1. cbn [ids List.map concat]. rewrite app_nil_r, Hperm. reflexivity. }
      rewrite Hids. unfold t2. cbn [nextNodeId_ putNode set_nodes with_next]. fold new.
      split.
      * apply NoDup_cons. split.
        { intros H. apply elem_of_cons in H as [H|H]; [lia|].
          rewrite Forall_forall in Hlt. specialize (Hlt _ H). lia. }
        apply NoDup_cons. split; [|exact Hnd].
        intros H. rewrite Forall_forall in Hlt. specialize (Hlt _ H). lia.
      * apply Forall_cons. split; [lia|]. apply Forall_cons. split; [lia|].
        eapply Forall_impl; [exact Hlt|]. intros j Hj. cbn beta in *. lia.
    + reflexivity.
    + unfold T1. cbn [inorder List.map interleave weave_r]. rewrite app_nil_r.
      rewrite <- HinT. exact Hsorted.
    + exists t', T'.
      split; [exact Hrun'|]. split; [exact Hh|].
      cbn in Ho', Hk', Hc'. unfold t2 in *. cbn in Ho3, Hk3, Hc3.
      split; [congruence|]. split; [congruence|]. split; [congruence|].
      unfold T1 in Hins. cbn [inorder List.map interleave weave_r] in Hins.
      rewrite app_nil_r, <- HinT in Hins. exact Hins.
  - (* room in the root *)
    cbn [bind].
    destruct (insert_tail t T e Hord Hrep (conj Hnd Hlt) Htid Hsorted)
      as (t' & T' & Hrun' & Hrest).
    exists t', T'. split; [exact Hrun'|]. exact Hrest.
Qed.

End Invariant.

(** ** Sequences of calls *)

Section RunFacts.
Implicit Types (t : BTree) (T : tree) (e : IndexEntry) (cs : list call).

Lemma count_mod_succ (c : N) (n : nat) :
  c = count_mod n -> ((c + 1) mod 2 ^ 64)%N = count_mod (S n).
Proof.
  intros ->. unfold count_mod.
  rewrite N.Div0.add_mod_idemp_l. f_equal. lia.
Qed.

Lemma run_spec cs :
  forall t T acc,
    2 <= order_ t -> holds t T -> inorder T ≡ₚ acc ->
    entryCount_ t = count_mod (List.length acc) ->
    exists t' T',
      run t cs = Ok t' /\ holds t' T' /\
      order_ t' = order_ t /\ keyType_ t' = keyType_ t /\
      inorder T' ≡ₚ live acc cs /\
      entryCount_ t' = count_mod (List.length (live acc cs)).
Proof.
  induction cs as [|c cs IH]; intros t T acc Hord Hh Hp Hc.
  - exists t, T. cbn. split; [reflexivity|]. split; [exact Hh|].
    split; [reflexivity|]. split; [reflexivity|]. split; assumption.
  - destruct c as [k o l s|]; cbn [run step live].
    + destruct (insert_spec t T k o l s Hord Hh)
        as (t1 & T1 & Hrun & Hh1 & Ho1 & Hk1 & Hc1 & Hins).
      rewrite Hrun. cbn [bind].
      destruct (IH t1 T1 (acc ++ [mkEntry k o l s])) as (t' & T' & Hr & Hh' & Ho' & Hk' & Hp' & Hc').
      * rewrite Ho1. exact Hord.
      * exact Hh1.
      * rewrite (inserted_perm _ _ _ Hins), Hp.
        rewrite <- Permutation_cons_append. reflexivity.
      * rewrite Hc1. rewrite length_app, Nat.add_1_r. apply count_mod_succ. exact Hc.
      * exists t', T'. split; [exact Hr|]. split; [exact Hh'|].
        split; [congruence|]. split; [congruence|]. split; assumption.
    + cbn [bind].
      destruct (IH (clear t) (TNode 1 true [] []) []) as (t' & T' & Hr & Hh' & Ho' & Hk' & Hp' & Hc').
      * exact Hord.
      * apply holds_clear.
      * reflexivity.
      * reflexivity.
      * exists t', T'. split; [exact Hr|]. split; [exact Hh'|].
        split; [exact Ho'|]. split; [exact Hk'|]. split; assumption.
Qed.

End RunFacts.

(** ** Queries *)

Section QueryFacts.
Implicit Types (t : BTree) (T : tree) (e : IndexEntry).

Lemma child_at (cs : list tree) (i : nat) :
  (i < List.length cs)%nat ->
  exists c, vec_at (List.map tid cs) i = Ok (tid c) /\ c ∈ cs /\
            nth_error cs i = Some c.
Proof.
  intros Hi. destruct (nth_error cs i) as [c|] eqn:E.
  - exists c. split; [|split; [|reflexivity]].
    + unfold vec_at. rewrite nth_error_map, E. reflexivity.
    + apply list_elem_of_In. eapply nth_error_In. exact E.
  - apply nth_error_None in E. lia.
Qed.

Lemma height_rep_child id leaf es cs c (fuel : nat) :
  (height (TNode id leaf es cs) <= S fuel)%nat -> c ∈ cs -> (height c <= fuel)%nat.
Proof.
  intros Hh Hc. cbn [height] in Hh. pose proof (height_children_le cs c Hc). lia.
Qed.

Lemma collect_loop_leaf visit node (es : list IndexEntry) i acc :
  isLeaf node = true -> collect_loop visit node es i acc = Ok (acc ++ es).
Proof.
  intros Hleaf. revert i acc. induction es as [|e es IH]; intros i acc; cbn [collect_loop].
  - rewrite app_nil_r. reflexivity.
  - rewrite Hleaf. cbn [negb bind]. rewrite IH, <- app_assoc. reflexivity.
Qed.

Lemma collect_loop_internal visit node (es : list IndexEntry) :
  isLeaf node = false ->
  forall (csA csB csC : list tree) acc,
    children node = List.map tid (csA ++ csB ++ csC) ->
    List.length csB = List.length es ->
    (forall c a, c ∈ csB -> visit (tid c) a = Ok (a ++ inorder c)) ->
    collect_loop visit node es (List.length csA) acc =
    Ok (acc ++ weave_l (List.map inorder csB) es).
Proof.
  intros Hleaf. induction es as [|e es IH]; intros csA csB csC acc Hch Hlen Hvisit.
  - destruct csB; [|discriminate Hlen]. cbn. rewrite app_nil_r. reflexivity.
  - destruct csB as [|c csB]; [discriminate Hlen|].
    simpl in Hlen. injection Hlen as Hlen.
    cbn [collect_loop]. rewrite Hleaf. cbn [negb].
    rewrite Hch, List.map_app. cbn [app List.map].
    rewrite vec_at_middle' by (rewrite length_map; reflexivity). cbn [bind].
    rewrite Hvisit by (apply elem_of_cons; auto). cbn [bind].
    replace (S (List.length csA)) with (List.length (csA ++ [c]))
      by (rewrite length_app; simpl; lia).
    rewrite (IH (csA ++ [c]) csB csC).
    + cbn [List.map weave_l]. rewrite <- !app_assoc. reflexivity.
    + rewrite Hch, <- app_assoc. reflexivity.
    + exact Hlen.
    + intros c' a Hc'. apply Hvisit. apply elem_of_cons. auto.
Qed.

Lemma list_snoc_inv {A : Type} (l : list A) (n : nat) :
  List.length l = S n -> exists l' x, l = l' ++ [x] /\ List.length l' = n.
Proof.
  intros H. destruct (exists_last (l := l)) as (l' & x & ->).
  { intros ->. discriminate H. }
  exists l', x. split; [reflexivity|]. rewrite length_app in H. simpl in H. lia.
Qed.

Lemma interleave_snoc {A : Type} (cs : list (list A)) (c : list A) (es : list A) :
  List.length cs = List.length es ->
  interleave (cs ++ [c]) es = weave_l cs es ++ c.
Proof.
  intros H. rewrite <- (app_nil_r es) at 1.
  rewrite interleave_split by exact H. cbn. rewrite app_nil_r. reflexivity.
Qed.

Lemma collectAll_spec (fuel : nat) t :
  forall T acc,
    rep (nodes_ t) T -> (height T <= fuel)%nat ->
    collectAll fuel t (tid T) acc = Ok (acc ++ inorder T).
Proof.
  induction fuel as [|fuel IH]; intros T acc Hrep Hh.
  { destruct T; simpl in Hh; lia. }
  destruct T as [id leaf es cs]. cbn [tid collectAll].
  inversion Hrep as [? ? ? ? Hs Hl Hcs]; subst.
  destruct (getNode_shape _ _ _ Hs) as (n & Hg & Hsh).
  apply shape_eq in Hsh as (Hn1 & Hn2 & Hn3).
  rewrite Hg. cbn [bind]. rewrite Hn2.
  destruct leaf.
  - subst cs. rewrite collect_loop_leaf by exact Hn1. cbn [bind].
    rewrite Hn1. cbn. reflexivity.
  - destruct (list_snoc_inv cs _ Hl) as (cs' & clast & -> & Hlen').
    rewrite (collect_loop_internal _ n es Hn1 [] cs' [clast]).
    + cbn [bind]. rewrite Hn1, Hn3, length_map, length_app. cbn [negb andb List.length].
      replace (List.length es <? List.length cs' + 1)%nat with true
        by (symmetry; apply Nat.ltb_lt; lia).
      replace (List.length cs' + 1 - 1)%nat with (List.length cs') by lia.
      rewrite List.map_app. cbn [List.map].
      rewrite vec_at_middle' by (rewrite length_map; reflexivity). cbn [bind].
      rewrite IH.
      * cbn [inorder]. rewrite List.map_app. cbn [List.map].
        rewrite interleave_snoc by (rewrite length_map; exact Hlen').
        rewrite <- app_assoc. reflexivity.
      * rewrite Forall_forall in Hcs. apply Hcs. apply elem_of_app. right.
        apply elem_of_cons. auto.
      * eapply height_rep_child; [exact Hh|]. apply elem_of_app. right.
        apply elem_of_cons. auto.
    + exact Hn3.
    + exact Hlen'.
    + intros c a Hc. apply IH.
      * rewrite Forall_forall in Hcs. apply Hcs. apply elem_of_app. auto.
      * eapply height_rep_child; [exact Hh|]. apply elem_of_app. auto.
Qed.

Lemma all_spec t T : holds t T -> all t = Ok (inorder T).
Proof.
  intros (Hrep & Htid & Hnd & Hlt & _). unfold all. rewrite <- Htid.
  apply (collectAll_spec (depth_bound t) t T []); [exact Hrep|].
  apply owned_height. split; assumption.
Qed.

End QueryFacts.

Section TotalQueries.
Implicit Types (t : BTree) (T : tree) (e : IndexEntry).

Lemma advance_bounds (p : IndexEntry -> bool) (es : list IndexEntry) (i : nat) :
  (i <= advance p es i <= i + List.length es)%nat.
Proof.
  revert i. induction es as [|e es IH]; intros i; simpl; [lia|].
  destruct (p e); [specialize (IH (S i)); lia | lia].
Qed.

Lemma searchNode_total (fuel : nat) t (k : Value) :
  forall T acc,
    rep (nodes_ t) T -> (height T <= fuel)%nat ->
    exists r, searchNode fuel t (tid T) k acc = Ok r.
Proof.
  induction fuel as [|fuel IH]; intros T acc Hrep Hh.
  { destruct T; simpl in Hh; lia. }
  destruct T as [id leaf es cs]. cbn [tid searchNode].
  inversion Hrep as [? ? ? ? Hs Hl Hcs]; subst.
  destruct (getNode_shape _ _ _ Hs) as (n & Hg & Hsh).
  apply shape_eq in Hsh as (Hn1 & Hn2 & Hn3).
  rewrite Hg. cbn [bind]. rewrite Hn1, Hn2, Hn3.
  destruct leaf; cbn [negb]; [eauto|].
  pose proof (advance_bounds (fun e => compareValues k (key e) >? 0) es 0) as Hb.
  destruct (child_at cs (advance (fun e => compareValues k (key e) >? 0) es 0))
    as (c & Hc & Hin & _); [lia|].
  rewrite Hc. cbn [bind]. apply IH.
  - rewrite Forall_forall in Hcs. apply Hcs. exact Hin.
  - eapply height_rep_child; eassumption.
Qed.

Lemma lower_bound_total (le : IndexEntry -> bool) (es : list IndexEntry) (n : nat) :
  forall lo hi,
    (lo <= hi <= List.length es)%nat -> (hi - lo <= n)%nat ->
    exists r, lower_bound le es n lo hi = Ok r /\ (lo <= r <= hi)%nat.
Proof.
  induction n as [|n IH]; intros lo hi Hb Hn.
  - assert (lo = hi) as -> by lia. cbn [lower_bound].
    rewrite Nat.ltb_irrefl. exists hi. split; [reflexivity | lia].
  - cbn [lower_bound]. destruct (Nat.ltb_spec lo hi) as [Hlt|Hge].
    2: { exists lo. split; [reflexivity | lia]. }
    pose proof (Nat.Div0.div_le_upper_bound (hi - lo) 2 (hi - lo)) as Hdiv.
    assert (Hmid : ((hi - lo) / 2 < hi - lo)%nat) by (apply Nat.div_lt; lia).
    destruct (vec_at_lt es (lo + (hi - lo) / 2)) as [e He]; [lia|].
    rewrite He. cbn [bind]. destruct (le e).
    + destruct (IH lo (lo + (hi - lo) / 2)%nat) as (r & Hr & Hrb); [lia | lia |].
      exists r. split; [exact Hr | lia].
    + destruct (IH (lo + (hi - lo) / 2 + 1)%nat hi) as (r & Hr & Hrb); [lia | lia |].
      exists r. split; [exact Hr | lia].
Qed.

Lemma searchNodeFirstInt_total (indet : Z) (fuel : nat) t (keyInt : Z) :
  forall T,
    rep (nodes_ t) T -> (height T <= fuel)%nat ->
    exists r, searchNodeFirstInt indet fuel t (tid T) keyInt = Ok r.
Proof.
  induction fuel as [|fuel IH]; intros T Hrep Hh.
  { destruct T; simpl in Hh; lia. }
  destruct T as [id leaf es cs]. cbn [tid searchNodeFirstInt].
  inversion Hrep as [? ? ? ? Hs Hl Hcs]; subst.
  destruct (getNode_shape _ _ _ Hs) as (n & Hg & Hsh).
  apply shape_eq in Hsh as (Hn1 & Hn2 & Hn3).
  rewrite Hg. cbn [bind]. rewrite Hn1, Hn2, Hn3.
  destruct (lower_bound_total (fun e => keyInt <=? entry_int indet e) es
              (List.length es) 0 (List.length es)) as (lo & Hlo & Hb); [lia | lia |].
  rewrite Hlo. cbn [bind].
  assert (Hfound : exists found,
    (if (lo <? List.length es)%nat
     then e <- vec_at es lo ;; Ok (if keyInt =? entry_int indet e then Some e else None)
     else Ok None) = Ok found).
  { destruct (Nat.ltb_spec lo (List.length es)) as [Hlt|Hge]; [|eauto].
    destruct (vec_at_lt es lo Hlt) as [e He]. rewrite He. cbn [bind]. eauto. }
  destruct Hfound as [found ->]. cbn [bind].
  destruct found as [e|]; [eauto|].
  destruct leaf; cbn [negb andb]; [eauto|].
  rewrite length_map.
  destruct (Nat.ltb_spec lo (List.length cs)) as [Hlt|Hge]; [|eauto].
  destruct (child_at cs lo Hlt) as (c & Hc & Hin & _).
  rewrite Hc. cbn [bind]. apply IH.
  - rewrite Forall_forall in Hcs. apply Hcs. exact Hin.
  - eapply height_rep_child; eassumption.
Qed.

Lemma searchNodeFirst_total (indet : Z) (fuel : nat) t (k : Value) :
  forall T,
    rep (nodes_ t) T -> (height T <= fuel)%nat ->
    exists r, searchNodeFirst indet fuel t (tid T) k = Ok r.
Proof.
  destruct (tryGetInt64 k) as [keyInt|] eqn:Hk.
  { intros T Hrep Hh.
    destruct (searchNodeFirstInt_total indet fuel t keyInt T Hrep Hh) as [r Hr].
    exists r. destruct fuel; cbn [searchNodeFirst]; rewrite Hk; exact Hr. }
  induction fuel as [|fuel IH]; intros T Hrep Hh.
  { destruct T; simpl in Hh; lia. }
  destruct T as [id leaf es cs]. cbn [tid searchNodeFirst]. rewrite Hk.
  inversion Hrep as [? ? ? ? Hs Hl Hcs]; subst.
  destruct (getNode_shape _ _ _ Hs) as (n & Hg & Hsh).
  apply shape_eq in Hsh as (Hn1 & Hn2 & Hn3).
  rewrite Hg. cbn [bind]. rewrite Hn1, Hn2, Hn3.
  destruct (lower_bound_total (fun e => compareValues k (key e) <=? 0) es
              (List.length es) 0 (List.length es)) as (lo & Hlo & Hb); [lia | lia |].
  rewrite Hlo. cbn [bind].
  assert (Hfound : exists found,
    (if (lo <? List.length es)%nat
     then e <- vec_at es lo ;; Ok (if compareValues k (key e) =? 0 then Some e else None)
     else Ok None) = Ok found).
  { destruct (Nat.ltb_spec lo (List.length es)) as [Hlt|Hge]; [|eauto].
    destruct (vec_at_lt es lo Hlt) as [e He]. rewrite He. cbn [bind]. eauto. }
  destruct Hfound as [found ->]. cbn [bind].
  destruct found as [e|]; [eauto|].
  destruct leaf; cbn [negb andb]; [eauto|].
  rewrite length_map.
  destruct (Nat.ltb_spec lo (List.length cs)) as [Hlt|Hge]; [|eauto].
  destruct (child_at cs lo Hlt) as (c & Hc & Hin & _).
  rewrite Hc. cbn [bind]. apply IH.
  - rewrite Forall_forall in Hcs. apply Hcs. exact Hin.
  - eapply height_rep_child; eassumption.
Qed.

Lemma range_loop_total visit node (minKey maxKey : Value) (cs : list tree)
    (es : list IndexEntry) :
  children node = List.map tid cs ->
  (forall c a, c ∈ cs -> exists r, visit (tid c) a = Ok r) ->
  forall i acc,
    (i + List.length es < List.length cs)%nat \/ isLeaf node = true ->
    exists j r, range_loop visit node minKey maxKey es i acc = Ok (j, r) /\
                (i <= j <= i + List.length es)%nat.
Proof.
  intros Hch Hvisit. induction es as [|e es IH]; intros i acc Hi; cbn [range_loop].
  - exists i, acc. split; [reflexivity | simpl; lia].
  - assert (Hstep : exists r1,
      (if (negb (isLeaf node) && (compareValues (key e) minKey >=? 0)
           && (i <? List.length (children node))%nat)%bool
       then c <- vec_at (children node) i ;; visit c acc
       else Ok acc) = Ok r1).
    { destruct (negb (isLeaf node)) eqn:Hleaf; cbn [andb]; [|eauto].
      destruct (compareValues (key e) minKey >=? 0); cbn [andb]; [|eauto].
      rewrite Hch, length_map.
      destruct (Nat.ltb_spec i (List.length cs)) as [Hlt|Hge]; [|eauto].
      destruct (child_at cs i Hlt) as (c & Hc & Hin & _).
      rewrite Hc. cbn [bind]. apply Hvisit. exact Hin. }
    destruct Hstep as [r1 ->]. cbn [bind].
    destruct (compareValues (key e) maxKey >? 0).
    + eexists. eexists. split; [reflexivity | simpl; lia].
    + destruct (IH (S i) (if (compareValues (key e) minKey >=? 0) &&
                             (compareValues (key e) maxKey <=? 0)
                          then r1 ++ [e] else r1)) as (j & r & Hr & Hj).
      { simpl in Hi. destruct Hi; [left; lia | right; assumption]. }
      exists j, r. split; [exact Hr | simpl; lia].
Qed.

Lemma rangeSearch_total (fuel : nat) t (minKey maxKey : Value) :
  forall T acc,
    rep (nodes_ t) T -> (height T <= fuel)%nat ->
    exists r, rangeSearch fuel t (tid T) minKey maxKey acc = Ok r.
Proof.
  induction fuel as [|fuel IH]; intros T acc Hrep Hh.
  { destruct T; simpl in Hh; lia. }
  destruct T as [id leaf es cs]. cbn [tid rangeSearch].
  inversion Hrep as [? ? ? ? Hs Hl Hcs]; subst.
  destruct (getNode_shape _ _ _ Hs) as (n & Hg & Hsh).
  apply shape_eq in Hsh as (Hn1 & Hn2 & Hn3).
  rewrite Hg. cbn [bind]. rewrite Hn2.
  assert (Hvisit : forall c a, c ∈ cs ->
            exists r, rangeSearch fuel t (tid c) minKey maxKey a = Ok r).
  { intros c a Hc. apply IH.
    - rewrite Forall_forall in Hcs. apply Hcs. exact Hc.
    - eapply height_rep_child; eassumption. }
  destruct (range_loop_total (fun c a => rangeSearch fuel t c minKey maxKey a)
              n minKey maxKey cs es Hn3 Hvisit 0 acc) as (j & r & Hr & Hj).
  { destruct leaf; [right; exact Hn1 | left; lia]. }
  rewrite Hr. cbn [bind]. rewrite Hn1, Hn3, length_map.
  destruct leaf; cbn [negb andb]; [eauto|].
  destruct (j =? List.length es)%nat; cbn [andb]; [|eauto].
  destruct (Nat.ltb_spec j (List.length cs)) as [Hlt|Hge]; [|eauto].
  destruct (child_at cs j Hlt) as (c & Hc & Hin & _).
  rewrite Hc. cbn [bind]. apply Hvisit. exact Hin.
Qed.

End TotalQueries.

(** ** Range queries on an ordered family of keys *)

Section RangeFacts.

Variable K : Value -> Prop.
Hypothesis K_ordered : ordered_family K.
Variables minKey maxKey : Value.
Hypothesis K_min : K minKey.
Hypothesis K_max : K maxKey.

Implicit Types (t : BTree) (T : tree) (e : IndexEntry) (l : list IndexEntry).

Let F := List.filter (key_in_range minKey maxKey).
Let keys_in (l : list IndexEntry) : Prop := Forall (fun e => K (key e)) l.

Lemma SS_app_iff {A : Type} (R : A -> A -> Prop) (l1 l2 : list A) :
  StronglySorted R (l1 ++ l2) <->
  StronglySorted R l1 /\ StronglySorted R l2 /\ Forall (fun x => Forall (R x) l2) l1.
Proof.
  induction l1 as [|a l1 IH]; simpl.
  - split.
    + intros H. split; [constructor|]. split; [exact H | constructor].
    + intros (_ & H & _). exact H.
  - split.
    + intros H. apply StronglySorted_inv in H as [Hs Ha].
      apply IH in Hs as (H1 & H2 & H3).
      apply Forall_app in Ha as [Ha1 Ha2].
      split; [constructor; assumption|]. split; [assumption|].
      constructor; assumption.
    + intros (H1 & H2 & H3). apply StronglySorted_inv in H1 as [H1 Ha].
      apply Forall_cons in H3 as [Ha2 H3].
      constructor; [apply IH; auto | apply Forall_app; auto].
Qed.

Lemma Sorted_family_strong l :
  Sorted key_le l -> keys_in l -> StronglySorted key_le l.
Proof.
  induction l as [|a l IH]; intros Hs Hk; [constructor|].
  apply Sorted_inv in Hs as [Hs Hd]. apply Forall_cons in Hk as [Ka Hk].
  specialize (IH Hs Hk). constructor; [exact IH|].
  destruct l as [|b l]; [constructor|].
  inversion Hd as [|? ? Hab]; subst.
  apply StronglySorted_inv in IH as [_ Hb].
  apply Forall_cons in Hk as [Kb Hk].
  constructor; [exact Hab|].
  rewrite Forall_forall in Hb, Hk. apply Forall_forall. intros c Hc.
  unfold key_le in *. eapply (K_ordered (key a) (key b) (key c)); auto.
Qed.

Lemma below_min x e :
  K (key x) -> K (key e) -> key_le x e -> compareValues (key e) minKey < 0 ->
  key_in_range minKey maxKey x = false.
Proof.
  intros Kx Ke Hxe He. unfold key_in_range.
  destruct (Z.geb_spec (compareValues (key x) minKey) 0) as [Hge|]; [|reflexivity].
  exfalso. apply compareValues_ge_swap in Hge.
  pose proof (K_ordered minKey (key x) (key e) K_min Kx Ke Hge Hxe) as H.
  pose proof (compareValues_swap minKey (key e)). lia.
Qed.

Lemma above_max e y :
  K (key e) -> K (key y) -> key_le e y -> 0 < compareValues (key e) maxKey ->
  key_in_range minKey maxKey y = false.
Proof.
  intros Ke Ky Hey He. unfold key_in_range.
  destruct (Z.leb_spec (compareValues (key y) maxKey) 0) as [Hle|];
    [|apply andb_false_r].
  exfalso.
  pose proof (K_ordered (key e) (key y) maxKey Ke Ky K_max Hey Hle). lia.
Qed.

Lemma F_none l : Forall (fun x => key_in_range minKey maxKey x = false) l -> F l = [].
Proof.
  induction 1 as [|x l Hx _ IH]; [reflexivity|].
  unfold F in *. simpl. rewrite Hx. exact IH.
Qed.

Lemma F_app l1 l2 : F (l1 ++ l2) = F l1 ++ F l2.
Proof. apply List.filter_app. Qed.

Lemma F_mid l1 e l2 : F (l1 ++ e :: l2) = F l1 ++ F [e] ++ F l2.
Proof. rewrite F_app. change (e :: l2) with ([e] ++ l2). rewrite F_app. reflexivity. Qed.

Lemma range_loop_leaf visit node :
  isLeaf node = true ->
  forall es i acc,
    StronglySorted key_le es -> keys_in es ->
    exists j, range_loop visit node minKey maxKey es i acc = Ok (j, acc ++ F es).
Proof.
  intros Hleaf. induction es as [|e es IH]; intros i acc Hs Hk; cbn [range_loop].
  - exists i. rewrite app_nil_r. reflexivity.
  - rewrite Hleaf. cbn [negb andb bind].
    apply StronglySorted_inv in Hs as [Hs He].
    apply Forall_cons in Hk as [Ke Hk].
    change ((compareValues (key e) minKey >=? 0) && (compareValues (key e) maxKey <=? 0))%bool
      with (key_in_range minKey maxKey e).
    assert (HF : F (e :: es) = (if key_in_range minKey maxKey e then [e] else []) ++ F es).
    { unfold F. simpl. destruct (key_in_range minKey maxKey e); reflexivity. }
    destruct (Z.gtb_spec (compareValues (key e) maxKey) 0) as [Hgt|Hle].
    + exists i. rewrite HF, F_none.
      * rewrite app_nil_r. destruct (key_in_range minKey maxKey e);
          [reflexivity | rewrite app_nil_r; reflexivity].
      * rewrite Forall_forall in He, Hk. apply Forall_forall. intros y Hy.
        apply (above_max e y); auto; lia.
    + destruct (IH (S i) (if key_in_range minKey maxKey e then acc ++ [e] else acc) Hs Hk)
        as [j Hj].
      exists j. rewrite Hj, HF. f_equal. f_equal.
      destruct (key_in_range minKey maxKey e); rewrite <- ?app_assoc; reflexivity.
Qed.

Lemma range_loop_internal visit node :
  isLeaf node = false ->
  forall es (csA csB : list tree) (clast : tree) acc,
    children node = List.map tid (csA ++ csB ++ [clast]) ->
    List.length csB = List.length es ->
    List.length (entries node) = (List.length csA + List.length es)%nat ->
    StronglySorted key_le (weave_l (List.map inorder csB) es ++ inorder clast) ->
    keys_in (weave_l (List.map inorder csB) es ++ inorder clast) ->
    (forall c a, c ∈ csB -> StronglySorted key_le (inorder c) -> keys_in (inorder c) ->
                 visit (tid c) a = Ok (a ++ F (inorder c))) ->
    exists j r,
      range_loop visit node minKey maxKey es (List.length csA) acc = Ok (j, r) /\
      ((j = List.length (entries node) /\
        r = acc ++ F (weave_l (List.map inorder csB) es)) \/
       ((j < List.length (entries node))%nat /\
        r = acc ++ F (weave_l (List.map inorder csB) es ++ inorder clast))).
Proof.
  intros Hleaf. induction es as [|e es IH];
    intros csA csB clast acc Hch Hlen Hsize Hs Hk Hvisit.
  - destruct csB; [|discriminate Hlen]. cbn [range_loop].
    exists (List.length csA), acc. split; [reflexivity|]. left.
    split; [simpl in Hsize; lia|]. cbn. rewrite app_nil_r. reflexivity.
  - destruct csB as [|c csB]; [discriminate Hlen|].
    simpl in Hlen. injection Hlen as Hlen. cbn [List.length] in Hsize.
    cbn [List.map weave_l] in *. rewrite <- app_assoc in Hs, Hk.
    cbn [app] in Hs, Hk.
    set (rest := weave_l (List.map inorder csB) es ++ inorder clast) in *.
    apply SS_app_iff in Hs as (Hsc & Hse & Hce).
    apply StronglySorted_inv in Hse as [Hsr Her].
    apply Forall_app in Hk as [Hkc Hk].
    apply Forall_cons in Hk as [Ke Hkr].
    cbn [range_loop]. rewrite Hleaf. cbn [negb andb].
    change ((compareValues (key e) minKey >=? 0) && (compareValues (key e) maxKey <=? 0))%bool
      with (key_in_range minKey maxKey e).
    assert (Hr1 : (if (compareValues (key e) minKey >=? 0)
                       && (List.length csA <? List.length (children node))%nat
                   then c0 <- vec_at (children node) (List.length csA) ;; visit c0 acc
                   else Ok acc) = Ok (acc ++ F (inorder c))).
    { destruct (Z.geb_spec (compareValues (key e) minKey) 0) as [Hge|Hlt]; cbn [andb].
      - rewrite Hch, length_map, !length_app. cbn [List.length].
        match goal with
        | |- context [(?a <? ?b)%nat] =>
            replace (a <? b)%nat with true by (symmetry; apply Nat.ltb_lt; lia)
        end.
        rewrite List.map_app. cbn [app List.map].
        rewrite vec_at_middle' by (rewrite length_map; reflexivity). cbn [bind].
        apply Hvisit; [apply elem_of_cons; auto | assumption | assumption].
      - rewrite F_none, app_nil_r; [reflexivity|].
        rewrite Forall_forall in Hce, Hkc. apply Forall_forall. intros x Hx.
        apply (below_min x e); auto.
        specialize (Hce x Hx). apply Forall_cons in Hce as [Hxe _]. exact Hxe. }
    rewrite Hr1. cbn [bind].
    assert (HFe : F [e] = if key_in_range minKey maxKey e then [e] else []).
    { unfold F. simpl. destruct (key_in_range minKey maxKey e); reflexivity. }
    assert (Hacc2 : (if key_in_range minKey maxKey e
                     then (acc ++ F (inorder c)) ++ [e] else acc ++ F (inorder c)) =
                    acc ++ F (inorder c) ++ F [e]).
    { rewrite HFe. destruct (key_in_range minKey maxKey e);
        rewrite <- ?app_assoc, ?app_nil_r; reflexivity. }
    rewrite Hacc2.
    destruct (Z.gtb_spec (compareValues (key e) maxKey) 0) as [Hgt|Hle].
    + eexists. eexists. split; [reflexivity|]. right. split; [lia|].
      cbn [List.map weave_l]. rewrite <- !app_assoc. cbn [app]. fold rest.
      rewrite F_mid, (F_none rest), app_nil_r; [reflexivity|].
      rewrite Forall_forall in Her, Hkr. apply Forall_forall. intros y Hy.
      apply (above_max e y); auto; lia.
    + destruct (IH (csA ++ [c]) csB clast (acc ++ F (inorder c) ++ F [e]))
        as (j & r & Hrun & Hcase).
      * rewrite Hch, <- app_assoc. reflexivity.
      * exact Hlen.
      * rewrite length_app. simpl. simpl in Hsize. lia.
      * exact Hsr.
      * exact Hkr.
      * intros c' a Hc'. apply Hvisit. apply elem_of_cons. auto.
      * rewrite length_app in Hrun. cbn [List.length] in Hrun.
        rewrite Nat.add_1_r in Hrun.
        exists j, r. split; [exact Hrun|].
        destruct Hcase as [[Hj ->]|[Hj ->]]; [left | right]; (split; [exact Hj|]).
        -- cbn [List.map weave_l]. rewrite F_mid, <- ?app_assoc. reflexivity.
        -- cbn [List.map weave_l]. rewrite <- ?app_assoc. cbn [app]. fold rest.
           rewrite F_mid, <- ?app_assoc. reflexivity.
Qed.

Lemma rangeSearch_spec (fuel : nat) t :
  forall T acc,
    rep (nodes_ t) T -> (height T <= fuel)%nat ->
    StronglySorted key_le (inorder T) -> keys_in (inorder T) ->
    rangeSearch fuel t (tid T) minKey maxKey acc = Ok (acc ++ F (inorder T)).
Proof.
  induction fuel as [|fuel IH]; intros T acc Hrep Hh Hs Hk.
  { destruct T; simpl in Hh; lia. }
  destruct T as [id leaf es cs]. cbn [tid rangeSearch].
  inversion Hrep as [? ? ? ? Hsh Hl Hcs]; subst.
  destruct (getNode_shape _ _ _ Hsh) as (n & Hg & Hshape).
  apply shape_eq in Hshape as (Hn1 & Hn2 & Hn3).
  rewrite Hg. cbn [bind]. rewrite Hn2.
  destruct leaf.
  - subst cs. cbn [inorder List.map interleave] in *.
    destruct (range_loop_leaf (fun c a => rangeSearch fuel t c minKey maxKey a)
                n Hn1 es 0%nat acc Hs Hk) as [j Hj].
    rewrite Hj. cbn [bind]. rewrite Hn1. reflexivity.
  - destruct (list_snoc_inv cs _ Hl) as (cs' & clast & -> & Hlen').
    cbn [inorder] in Hs, Hk. rewrite List.map_app in Hs, Hk. cbn [List.map] in Hs, Hk.
    rewrite interleave_snoc in Hs, Hk by (rewrite length_map; exact Hlen').
    destruct (range_loop_internal (fun c a => rangeSearch fuel t c minKey maxKey a)
                n Hn1 es [] cs' clast acc) as (j & r & Hrun & Hcase); try assumption.
    { rewrite Hn2. reflexivity. }
    { intros c a Hc Hsc Hkc. apply IH; try assumption.
      - rewrite Forall_forall in Hcs. apply Hcs. apply elem_of_app. auto.
      - eapply height_rep_child; [exact Hh|]. apply elem_of_app. auto. }
    cbn [List.length] in Hrun. rewrite Hrun. cbn [bind].
    rewrite Hn1, Hn3, length_map, length_app. cbn [negb andb List.length].
    cbn [inorder]. rewrite (List.map_app inorder). cbn [List.map].
    rewrite interleave_snoc by (rewrite length_map; exact Hlen').
    rewrite Hn2 in Hcase.
    destruct Hcase as [[-> ->]|[Hj ->]].
    + rewrite Nat.eqb_refl. cbn [andb].
      replace (List.length es <? List.length cs' + 1)%nat with true
        by (symmetry; apply Nat.ltb_lt; lia).
      rewrite <- Hlen'. rewrite (List.map_app tid). cbn [List.map].
      rewrite vec_at_middle' by (rewrite length_map; reflexivity). cbn [bind].
      apply SS_app_iff in Hs as (_ & Hsl & _). apply Forall_app in Hk as [_ Hkl].
      rewrite IH; try assumption.
      * rewrite F_app, <- app_assoc. reflexivity.
      * rewrite Forall_forall in Hcs. apply Hcs. apply elem_of_app. right.
        apply elem_of_cons. auto.
      * eapply height_rep_child; [exact Hh|]. apply elem_of_app. right.
        apply elem_of_cons. auto.
    + replace (j =? List.length es)%nat with false
        by (symmetry; apply Nat.eqb_neq; lia).
      reflexivity.
Qed.

End RangeFacts.

(** ** The B-tree index behind its public interface *)

Section SmallOrder.
Implicit Types (t : BTree) (T : tree).

Ltac get_step :=
  first [ rewrite getNode_put_eq
        | rewrite getNode_put_ne by congruence
        | rewrite getNode_with_next ].

(** With an order below 2 the root counts as full even when empty, and the
    split that insert then starts reads the middle entry of an empty
    vector. *)
Lemma insert_small_order t id k o l s :
  order_ t < 2 -> holds t (TNode id true [] []) ->
  insert t k o l s = Err OutOfRange.
Proof.
  intros Hord (Hrep & Htid & Hnd & Hlt & _). cbn [tid] in Htid.
  destruct (getNode_shape _ _ _ (rep_root _ _ Hrep)) as (root & Hg & Hsh).
  cbn [tid tleaf tentries tchildren List.map] in Hg, Hsh.
  apply shape_eq in Hsh as (Hr1 & Hr2 & Hr3).
  assert (Hid : (id < nextNodeId_ t)%N).
  { rewrite Forall_forall in Hlt. apply Hlt. cbn. apply elem_of_cons. auto. }
  unfold insert. rewrite <- Htid, Hg. cbn [bind].
  unfold is_full. rewrite Hr2. cbn [List.length].
  replace (Z.of_nat 0 >=? order_ t - 1) with true by (symmetry; apply Z.geb_le; lia).
  rewrite createNode_eq. cbn iota.
  repeat get_step. cbn [bind].
  cbn [rootId_ putNode set_nodes with_next children set_children app].
  rewrite <- Htid.
  rewrite getNode_put_ne by lia. rewrite getNode_put_ne by lia.
  rewrite getNode_with_next, Hg. cbn [bind].
  set (t2 := putNode _ id _).
  assert (H2n : getNode t2 (nextNodeId_ t) =
                Ok (set_children (mkNode (nextNodeId_ t) false [] [] 0%N) [id])).
  { unfold t2. rewrite getNode_put_ne by lia. apply getNode_put_eq. }
  assert (H2c : getNode t2 id = Ok (set_parentId root (nextNodeId_ t))).
  { unfold t2. apply getNode_put_eq. }
  assert (H2s : (id < nextNodeId_ t2)%N) by (unfold t2; cbn; lia).
  assert (H2o : order_ t2 = order_ t) by reflexivity.
  clearbody t2.
  unfold splitChild. rewrite H2n.
  cbn [bind children set_children vec_at nth_error]. rewrite H2c. cbn [bind].
  rewrite createNode_eq. cbn iota.
  rewrite getNode_put_eq. cbn [bind].
  rewrite getNode_put_ne by lia. rewrite getNode_put_ne by lia.
  rewrite getNode_with_next, H2c. cbn [bind].
  cbn [entries set_parentId]. rewrite Hr2, H2o.
  replace (Z.to_nat (Z.quot (order_ t - 1) 2)) with 0%nat.
  - reflexivity.
  - symmetry. apply Z2Nat.nonpos.
    destruct (Z.eq_dec (order_ t - 1) 0) as [->|Hne]; [reflexivity|].
    pose proof (Z.quot_opp_l (- (order_ t - 1)) 2 ltac:(lia)) as H.
    rewrite Z.opp_involutive in H. rewrite H.
    pose proof (Z.quot_pos (- (order_ t - 1)) 2). lia.
Qed.

End SmallOrder.

Section Reachable.
Implicit Types (t : BTree) (T : tree) (cs : list call).

Lemma length_live acc cs : List.length (live acc cs) = inserts_from (List.length acc) cs.
Proof.
  revert acc. induction cs as [|[k o l s|] cs IH]; intros acc; cbn [live inserts_from].
  - reflexivity.
  - rewrite IH, length_app, Nat.add_1_r. reflexivity.
  - apply IH.
Qed.

Lemma live_inserts acc (es : list IndexEntry) :
  live acc (List.map insert_call es) = acc ++ es.
Proof.
  revert acc. induction es as [|[k o l s] es IH]; intros acc; cbn [List.map live insert_call].
  - rewrite app_nil_r. reflexivity.
  - cbn. rewrite IH, <- app_assoc. reflexivity.
Qed.

(** Every state reached by calls on the public interface holds a tree with
    the entries put in since the last clear; a call can only fail when the
    order is below 2, and then by reading past the end of a vector. *)
Lemma run_outcome cs :
  forall t T acc,
    holds t T -> inorder T ≡ₚ acc ->
    entryCount_ t = count_mod (List.length acc) ->
    (order_ t < 2 -> exists id, T = TNode id true [] []) ->
    (exists t' T',
       run t cs = Ok t' /\ holds t' T' /\ order_ t' = order_ t /\
       inorder T' ≡ₚ live acc cs /\
       entryCount_ t' = count_mod (List.length (live acc cs))) \/
    (order_ t < 2 /\ run t cs = Err OutOfRange).
Proof.
  induction cs as [|c cs IH]; intros t T acc Hh Hp Hc Hsmall.
  - left. exists t, T. cbn. auto.
  - destruct c as [k o l s|]; cbn [run step live].
    + destruct (Z.lt_ge_cases (order_ t) 2) as [Hlt|Hge].
      * right. split; [exact Hlt|]. destruct (Hsmall Hlt) as [id ->].
        rewrite (insert_small_order t id k o l s Hlt Hh). reflexivity.
      * destruct (insert_spec t T k o l s ltac:(lia) Hh)
          as (t1 & T1 & Hrun & Hh1 & Ho1 & Hk1 & Hc1 & Hins).
        rewrite Hrun. cbn [bind]. rewrite <- Ho1.
        apply (IH t1 T1).
        -- exact Hh1.
        -- rewrite (inserted_perm _ _ _ Hins), Hp.
           rewrite <- Permutation_cons_append. reflexivity.
        -- rewrite Hc1. rewrite length_app, Nat.add_1_r. apply count_mod_succ. exact Hc.
        -- intros H. lia.
    + cbn [bind].
      change (order_ t) with (order_ (clear t)).
      apply (IH (clear t) (TNode 1 true [] []) []).
      * apply holds_clear.
      * reflexivity.
      * reflexivity.
      * intros _. eauto.
Qed.

Lemma run_new_outcome kt order cs :
  (exists t' T',
     run (BTree_new kt order) cs = Ok t' /\ holds t' T' /\ order_ t' = order /\
     inorder T' ≡ₚ live [] cs /\
     entryCount_ t' = count_mod (inserts_since_clear cs)) \/
  (order < 2 /\ run (BTree_new kt order) cs = Err OutOfRange).
Proof.
  destruct (run_outcome cs (BTree_new kt order) (TNode 1 true [] []) [])
    as [(t' & T' & H1 & H2 & H3 & H4 & H5)|H].
  - apply holds_new.
  - reflexivity.
  - reflexivity.
  - intros _. eauto.
  - left. exists t', T'. rewrite length_live in H5. auto.
  - right. exact H.
Qed.

Lemma getNode_clear t : getNode (clear t) 1%N = Ok (mkNode 1 true [] [] 0).
Proof. unfold getNode, clear. cbn. rewrite lookup_insert_eq. reflexivity. Qed.

Lemma search_clear t (k : Value) : search (clear t) k = Ok [].
Proof.
  unfold search. change (rootId_ (clear t)) with 1%N.
  change (depth_bound (clear t)) with 2%nat.
  cbn [searchNode]. rewrite getNode_clear. reflexivity.
Qed.

End Reachable.

Section BTreeContract.
Implicit Types (t : BTree) (T : tree) (cs : list call) (es : list IndexEntry).

Lemma build_outcome kt order es :
  (exists t T,
     build kt order es = Ok t /\ holds t T /\ order_ t = order /\
     inorder T ≡ₚ es /\ entryCount_ t = count_mod (List.length es)) \/
  (order < 2 /\ build kt order es = Err OutOfRange).
Proof.
  unfold build.
  destruct (run_new_outcome kt order (List.map insert_call es))
    as [(t & T & H1 & H2 & H3 & H4 & H5)|H]; [left | right; exact H].
  exists t, T. rewrite live_inserts in H4. cbn [app] in H4.
  unfold inserts_since_clear in H5.
  change O with (List.length (@nil IndexEntry)) in H5.
  rewrite <- length_live, live_inserts in H5.
  auto.
Qed.

Lemma build_holds kt order es t :
  build kt order es = Ok t -> exists T, holds t T /\ inorder T ≡ₚ es.
Proof.
  intros Hb. destruct (build_outcome kt order es) as [(t' & T & H1 & H2 & _ & H4 & _)|[_ H]].
  - rewrite Hb in H1. injection H1 as <-. eauto.
  - rewrite Hb in H. discriminate H.
Qed.

Lemma holds_owned t T : holds t T -> owned t T.
Proof. intros (_ & _ & Hnd & Hlt & _). split; assumption. Qed.

(** C9.  An index built through insert answers every query: no node
    lookup fails and no vector is read out of range; insert itself never
    fails a node lookup, and with an order of at least 2 it never fails. *)
Theorem queries_never_fail (kt : ValueType) (order : Z) (es : list IndexEntry) :
  (2 <= order -> exists t, build kt order es = Ok t) /\
  (forall id, build kt order es <> Err (NodeNotFound id)) /\
  (forall t, build kt order es = Ok t ->
     forall (k lo hi : Value) (indet : Z),
       (exists r, search t k = Ok r) /\
       (exists r, searchFirst indet t k = Ok r) /\
       (exists r, range t lo hi = Ok r) /\
       (exists r, all t = Ok r)).
Proof.
  split; [|split].
  - intros Hord. destruct (build_outcome kt order es) as [(t & _ & H & _)|[H _]]; [eauto | lia].
  - intros id. destruct (build_outcome kt order es) as [(t & _ & H & _)|[_ H]];
      rewrite H; discriminate.
  - intros t Hb k lo hi indet.
    destruct (build_holds _ _ _ _ Hb) as (T & Hh & _).
    pose proof (owned_height _ _ (holds_owned _ _ Hh)) as Hheight.
    destruct Hh as (Hrep & Htid & _).
    unfold search, searchFirst, range, all. rewrite <- Htid.
    split; [apply searchNode_total; assumption|].
    split; [apply searchNodeFirst_total; assumption|].
    split; [apply rangeSearch_total; assumption|].
    exists (inorder T). apply (collectAll_spec _ t T []); assumption.
Qed.

Lemma queries_never_fail_witness :
  exists t r1 r2 r3 r4,
    build TInt32 4 hundred = Ok t /\
    search t (VInt32 42) = Ok r1 /\ searchFirst 0 t (VInt32 42) = Ok r2 /\
    range t (VInt32 10) (VInt32 20) = Ok r3 /\ all t = Ok r4.
Proof.
  destruct (queries_never_fail TInt32 4 hundred) as (H1 & _ & H3).
  destruct H1 as [t Ht]; [lia|].
  destruct (H3 t Ht (VInt32 42) (VInt32 10) (VInt32 20) 0)
    as ([r1 Q1] & [r2 Q2] & [r3 Q3] & [r4 Q4]).
  exists t, r1, r2, r3, r4. auto.
Defined.

(** C10.  The entry count is the number of inserts since the last clear,
    a full scan returns as many entries, and a cleared index is empty. *)
Theorem entry_count_tracks_inserts (kt : ValueType) (order : Z) (cs : list call) :
  (2 <= order -> exists t, run (BTree_new kt order) cs = Ok t) /\
  (forall t, run (BTree_new kt order) cs = Ok t ->
     (N.of_nat (inserts_since_clear cs) < 2 ^ 64)%N ->
     getEntryCount t = N.of_nat (inserts_since_clear cs) /\
     (exists r, all t = Ok r /\ N.of_nat (List.length r) = getEntryCount t) /\
     getEntryCount (clear t) = 0%N /\
     (forall k, search (clear t) k = Ok [])).
Proof.
  split.
  - intros Hord.
    destruct (run_new_outcome kt order cs) as [(t & _ & H & _)|[H _]]; [eauto | lia].
  - intros t Hrun Hbound.
    destruct (run_new_outcome kt order cs) as [(t' & T & H1 & Hh & _ & Hp & Hc)|[_ H]].
    2: { rewrite Hrun in H. discriminate H. }
    rewrite Hrun in H1. injection H1 as <-.
    assert (Hcount : getEntryCount t = N.of_nat (inserts_since_clear cs)).
    { unfold getEntryCount. rewrite Hc. unfold count_mod. apply N.mod_small. exact Hbound. }
    split; [exact Hcount|]. split; [|split; [reflexivity | apply search_clear]].
    exists (inorder T). split; [apply all_spec; exact Hh|].
    rewrite Hcount. f_equal. rewrite Hp. unfold inserts_since_clear.
    apply (length_live [] cs).
Qed.

Lemma entry_count_tracks_inserts_witness :
  exists t,
    run (BTree_new TInt32 4)
      [Insert (VInt32 1) 0 50 1; Clear; Insert (VInt32 2) 100 50 2;
       Insert (VInt32 3) 200 50 3] = Ok t /\
    getEntryCount t = 2%N.
Proof.
  destruct (entry_count_tracks_inserts TInt32 4
              [Insert (VInt32 1) 0 50 1; Clear; Insert (VInt32 2) 100 50 2;
               Insert (VInt32 3) 200 50 3]) as (H1 & H2).
  destruct H1 as [t Ht]; [lia|].
  exists t. split; [exact Ht|].
  destruct (H2 t Ht) as (Hc & _); [reflexivity|]. exact Hc.
Defined.

Lemma integer_family : ordered_family is_integer.
Proof.
  intros a b c Ha Hb Hc. unfold is_integer in *.
  destruct (tryGetInt64 a) as [x|] eqn:Ea; [|contradiction].
  destruct (tryGetInt64 b) as [y|] eqn:Eb; [|contradiction].
  destruct (tryGetInt64 c) as [z|] eqn:Ec; [|contradiction].
  rewrite (compareValues_ints a b x y Ea Eb), (compareValues_ints b c y z Eb Ec),
    (compareValues_ints a c x z Ea Ec).
  unfold three_way.
  destruct (Z.ltb_spec x y), (Z.ltb_spec y x), (Z.ltb_spec y z), (Z.ltb_spec z y),
    (Z.ltb_spec x z), (Z.ltb_spec z x); lia.
Qed.

Lemma StronglySorted_filter {A : Type} (R : A -> A -> Prop) (f : A -> bool) (l : list A) :
  StronglySorted R l -> StronglySorted R (List.filter f l).
Proof.
  induction 1 as [|a l Hs IH Ha]; simpl; [constructor|].
  destruct (f a); [|exact IH]. constructor; [exact IH|].
  rewrite List.Forall_forall in *. intros x Hx. apply Ha.
  apply List.filter_In in Hx. tauto.
Qed.

Lemma filter_perm {A : Type} (f : A -> bool) (l l' : list A) :
  l ≡ₚ l' -> List.filter f l ≡ₚ List.filter f l'.
Proof.
  induction 1 as [|x l l' _ IH|x y l|l1 l2 l3 _ IH1 _ IH2]; simpl.
  - reflexivity.
  - destruct (f x); [apply perm_skip|]; exact IH.
  - destruct (f x), (f y); try reflexivity. apply perm_swap.
  - etransitivity; eassumption.
Qed.

(** C5, as the code has it.  On a family of keys that the comparison
    orders, a range query returns, in non-decreasing key order, exactly the
    stored entries whose key lies within the two bounds. *)
Theorem range_sound_complete (K : Value -> Prop) (kt : ValueType) (order : Z)
    (es : list IndexEntry) (lo hi : Value) (t : BTree) :
  ordered_family K -> Forall (fun e => K (key e)) es -> K lo -> K hi ->
  build kt order es = Ok t ->
  exists r,
    range t lo hi = Ok r /\ StronglySorted key_le r /\
    Forall (fun e => key_in_range lo hi e = true) r /\
    r ≡ₚ List.filter (key_in_range lo hi) es.
Proof.
  intros HK Hes Hlo Hhi Hb.
  destruct (build_holds _ _ _ _ Hb) as (T & Hh & Hp).
  pose proof (owned_height _ _ (holds_owned _ _ Hh)) as Hheight.
  destruct Hh as (Hrep & Htid & _ & _ & Hsorted).
  assert (Hkeys : Forall (fun e => K (key e)) (inorder T)) by (rewrite Hp; exact Hes).
  pose proof (Sorted_family_strong K HK _ Hsorted Hkeys) as Hstrong.
  exists (List.filter (key_in_range lo hi) (inorder T)).
  split; [|split; [|split]].
  - unfold range. rewrite <- Htid.
    apply (rangeSearch_spec K HK lo hi Hlo Hhi _ t T []); assumption.
  - apply StronglySorted_filter. exact Hstrong.
  - apply List.Forall_forall. intros e He. apply List.filter_In in He. tauto.
  - apply filter_perm. exact Hp.
Qed.

Lemma range_sound_complete_witness :
  exists t r,
    build TInt32 4 (fives [1; 2; 3]%N) = Ok t /\
    range t (VInt32 2) (VInt32 6) = Ok r /\
    r ≡ₚ fives [1; 2; 3]%N.
Proof.
  destruct (build_outcome TInt32 4 (fives [1; 2; 3]%N)) as [(t & _ & Hb & _)|[Hlt _]];
    [|lia].
  destruct (range_sound_complete is_integer TInt32 4 (fives [1; 2; 3]%N)
              (VInt32 2) (VInt32 6) t) as (r & Hr & _ & _ & Hp).
  - exact integer_family.
  - repeat constructor.
  - exact I.
  - exact I.
  - exact Hb.
  - exists t, r. split; [exact Hb|]. split; [exact Hr|]. exact Hp.
Defined.

End BTreeContract.

(** ** Concrete runs *)

Section Runs.

Example testBTree :
  exists t, build TInt32 4 hundred = Ok t /\
    getEntryCount t = 100%N /\
    search t (VInt32 42) = Ok [mkEntry (VInt32 42) 4200 50 42] /\
    (r <- range t (VInt32 10) (VInt32 20) ;; Ok (List.length r)) = Ok 11%nat /\
    (r <- all t ;; Ok (List.length r)) = Ok 100%nat.
Proof.
  destruct (build TInt32 4 hundred) as [t|e] eqn:E; [|vm_compute in E; discriminate E].
  exists t. split; [reflexivity|].
  assert (H : (t <- build TInt32 4 hundred ;;
               Ok (getEntryCount t, search t (VInt32 42),
                   (r <- range t (VInt32 10) (VInt32 20) ;; Ok (List.length r)),
                   (r <- all t ;; Ok (List.length r)))) =
              Ok (100%N, Ok [mkEntry (VInt32 42) 4200 50 42], Ok 11%nat, Ok 100%nat))
    by (vm_compute; reflexivity).
  rewrite E in H. cbn [bind] in H. injection H as H1 H2 H3 H4. auto.
Qed.

(** C1, at the failing input.  Four inserts of the key 5 into an index of
    order 4, sequence numbers 1 to 4: the search for 5 returns the entries
    with sequence 2 and 1, in that order, and misses 3 and 4. *)
Theorem search_drops_duplicates :
  exists t, build TInt32 4 (fives [1; 2; 3; 4]%N) = Ok t /\
    search t (VInt32 5) = Ok (fives [2; 1]%N) /\
    all t = Ok (fives [1; 2; 3; 4]%N).
Proof.
  destruct (build TInt32 4 (fives [1; 2; 3; 4]%N)) as [t|e] eqn:E;
    [|vm_compute in E; discriminate E].
  exists t. split; [reflexivity|].
  assert (H : (t <- build TInt32 4 (fives [1; 2; 3; 4]%N) ;;
               Ok (search t (VInt32 5), all t)) =
              Ok (Ok (fives [2; 1]%N), Ok (fives [1; 2; 3; 4]%N)))
    by (vm_compute; reflexivity).
  rewrite E in H. cbn [bind] in H. injection H as H1 H2. auto.
Qed.

(** C5, the counterexample.  Six inserts of the key 5 into an index of
    order 4: the range query [5, 5] returns the sequence numbers in the
    order 1, 2, 3, 6, 4, 5. *)
Lemma range_contract_fails : ~ range_contract.
Proof.
  intros Hclaim.
  destruct (build TInt32 4 (fives [1; 2; 3; 4; 5; 6]%N)) as [t|e] eqn:E;
    [|vm_compute in E; discriminate E].
  destruct (Hclaim TInt32 4 (fives [1; 2; 3; 4; 5; 6]%N) (VInt32 5) (VInt32 5) t)
    as (r & Hr & Hsorted & _).
  - unfold increasing_sequences, fives. cbn [List.map].
    repeat (constructor; [|repeat (constructor; [cbn; lia|]); constructor]).
    constructor.
  - vm_compute. discriminate.
  - exact E.
  - assert (H : (t <- build TInt32 4 (fives [1; 2; 3; 4; 5; 6]%N) ;;
                 range t (VInt32 5) (VInt32 5)) = Ok (fives [1; 2; 3; 6; 4; 5]%N))
      by (vm_compute; reflexivity).
    rewrite E in H. cbn [bind] in H. rewrite H in Hr. injection Hr as <-.
    unfold fives in Hsorted. cbn [List.map] in Hsorted.
    do 3 (apply Sorted_inv in Hsorted as [Hsorted _]).
    apply Sorted_inv in Hsorted as [_ Hd].
    inversion Hd as [|? ? Hle]; subst.
    destruct Hle as [Hlt|[_ Hseq]]; [vm_compute in Hlt; discriminate Hlt|].
    cbn in Hseq. lia.
Qed.

End Runs.

(** ** The engine and the statements of the index *)

Section StatementTexts.

Lemma append_assoc (a b c : string) : ((a ++ b) ++ c = a ++ (b ++ c))%string.
Proof.
  induction a as [|x a IH]; [reflexivity|].
  change (String x ((a ++ b) ++ c) = String x (a ++ (b ++ c)))%string.
  f_equal. exact IH.
Qed.

Lemma append_nil_r (a : string) : (a ++ EmptyString)%string = a.
Proof.
  induction a as [|x a IH]; [reflexivity|].
  change (String x (a ++ EmptyString)%string = String x a). f_equal. exact IH.
Qed.

Lemma c_string_app (a b : string) :
  c_string a = a -> c_string (a ++ b) = (a ++ c_string b)%string.
Proof.
  induction a as [|c a IH]; intros H; [reflexivity|].
  change ((String c a ++ b)%string) with (String c (a ++ b)).
  cbn [c_string] in H |- *.
  destruct (Ascii.eqb c "000"%char); [discriminate H|].
  injection H as H. rewrite (IH H). reflexivity.
Qed.

(** A text with a NUL byte ends there, whatever follows it. *)
Lemma c_string_cut (a b : string) : c_string a <> a -> c_string (a ++ b) = c_string a.
Proof.
  induction a as [|c a IH]; intros H; [contradiction H; reflexivity|].
  change ((String c a ++ b)%string) with (String c (a ++ b)).
  cbn [c_string] in H |- *.
  destruct (Ascii.eqb c "000"%char); [reflexivity|].
  rewrite IH; [reflexivity|]. intros E. apply H. rewrite E. reflexivity.
Qed.

Lemma c_string_idem (a : string) : c_string (c_string a) = c_string a.
Proof.
  induction a as [|c a IH]; [reflexivity|]. cbn [c_string].
  destruct (Ascii.eqb c "000"%char) eqn:E; [reflexivity|].
  cbn [c_string]. rewrite E, IH. reflexivity.
Qed.

Lemma lex_from_app (a : string) :
  forall st b,
    lex_from st (a ++ b) = fst (lex_run st a) ++ lex_from (snd (lex_run st a)) b.
Proof.
  induction a as [|c a IH]; intros st b; [reflexivity|].
  change ((String c a ++ b)%string) with (String c (a ++ b)).
  cbn [lex_from lex_run]. cbn zeta. cbn [fst snd]. rewrite IH, <- app_assoc. reflexivity.
Qed.

Lemma lex_run_plain (N : string) :
  forall acc,
    plain_text N = true ->
    c_string N = N /\ lex_run (LQuoted acc) N = ([], LQuoted (acc ++ N)).
Proof.
  induction N as [|c N IH]; intros acc H.
  - split; [reflexivity|]. cbn [lex_run]. rewrite append_nil_r. reflexivity.
  - cbn [plain_text] in H.
    apply andb_true_iff in H as [H HN]. apply andb_true_iff in H as [Hq Hz].
    apply negb_true_iff in Hq, Hz.
    destruct (IH (acc ++ String c EmptyString)%string HN) as [Hc Hr].
    split.
    + cbn [c_string]. rewrite Hz, Hc. reflexivity.
    + cbn [lex_run]. cbn zeta. cbn [lex_step]. rewrite Hq. cbn [fst snd app]. rewrite Hr.
      cbn [fst snd]. rewrite append_assoc. reflexivity.
Qed.

(** A name without double quote and NUL reads as itself. *)
Lemma plain_reads (N : string) : plain_text N = true -> reads_as N N.
Proof. intros H. exact (lex_run_plain N EmptyString H). Qed.

Lemma plain_text_app (a b : string) :
  plain_text (a ++ b) = plain_text a && plain_text b.
Proof.
  induction a as [|c a IH]; [reflexivity|].
  change ((String c a ++ b)%string) with (String c (a ++ b)).
  cbn [plain_text]. rewrite IH, !andb_assoc. reflexivity.
Qed.

Lemma plain_index_name (tableName columnName : string) :
  plain_text tableName = true -> plain_text columnName = true ->
  plain_text (SqliteIndexModel.make_indexTableName tableName columnName) = true.
Proof.
  intros H1 H2. unfold SqliteIndexModel.make_indexTableName.
  rewrite !plain_text_app, H1, H2. reflexivity.
Qed.

(** The tokens of a statement text with a quoted name in it. *)
Lemma tokens_quoted (P S N n : string) :
  reads_as N n -> c_string P = P -> c_string S = S ->
  snd (lex_run LNone P) = LNone ->
  S = EmptyString \/ (exists S', S = String " "%char S') ->
  tokens (c_string (P ++ dquote ++ N ++ dquote ++ S))
  = fst (lex_run LNone P) ++ TName n :: tokens S.
Proof.
  intros [HN Hr] HP HS HstP Hsp.
  rewrite (c_string_app P _ HP).
  change ((dquote ++ N ++ dquote ++ S)%string) with (String dquote_char (N ++ dquote ++ S)).
  cbn [c_string]. change (Ascii.eqb dquote_char "000"%char) with false. cbn iota.
  rewrite (c_string_app N _ HN).
  change ((dquote ++ S)%string) with (String dquote_char S).
  cbn [c_string]. change (Ascii.eqb dquote_char "000"%char) with false. cbn iota.
  rewrite HS.
  unfold tokens. rewrite lex_from_app, HstP. f_equal.
  cbn [lex_from]. change (lex_step LNone dquote_char) with (@nil token, LQuoted EmptyString).
  cbn [fst snd app].
  rewrite lex_from_app, Hr. cbn [fst snd app lex_from].
  change (lex_step (LQuoted n) dquote_char) with (@nil token, LQuoteSeen n).
  cbn [fst snd app].
  destruct Hsp as [-> | [S' ->]]; [reflexivity|].
  cbn [lex_from].
  change (lex_step (LQuoteSeen n) " "%char) with ([TName n], LNone).
  change (lex_step LNone " "%char) with (@nil token, LNone).
  reflexivity.
Qed.

Ltac statement_of Hr :=
  unfold statement;
  match goal with
  | |- context [tokens (c_string (?P ++ dquote ++ ?N ++ dquote ++ ?S)%string)] =>
      rewrite (tokens_quoted P S N _ Hr);
      [ | reflexivity | reflexivity | reflexivity
        | first [left; reflexivity | right; eexists; reflexivity] ]
  end;
  vm_compute; reflexivity.

Lemma statement_create (N n : string) (kt : ValueType) :
  reads_as N n ->
  statement (SqliteIndexModel.make_createSql N (SqliteIndexModel.getSqliteType kt))
  = Ok (SCreateTable true (index_table n (SqliteIndexModel.getSqliteType kt))).
Proof.
  intros Hr. unfold SqliteIndexModel.make_createSql.
  destruct kt; cbn [SqliteIndexModel.getSqliteType]; statement_of Hr.
Qed.

Lemma statement_insert (N n : string) :
  reads_as N n ->
  statement (SqliteIndexModel.make_insertSql N) = Ok (SInsert n index_columns 4).
Proof. intros Hr. unfold SqliteIndexModel.make_insertSql. statement_of Hr. Qed.

Lemma statement_search (N n : string) :
  reads_as N n ->
  statement (SqliteIndexModel.make_searchSql N)
  = Ok (index_select n [("key"%string, OpEq)] None None).
Proof. intros Hr. unfold SqliteIndexModel.make_searchSql. statement_of Hr. Qed.

Lemma statement_searchFirst (N n : string) :
  reads_as N n ->
  statement (SqliteIndexModel.make_searchFirstSql N)
  = Ok (index_select n [("key"%string, OpEq)] None (Some 1%N)).
Proof. intros Hr. unfold SqliteIndexModel.make_searchFirstSql. statement_of Hr. Qed.

Lemma statement_range (N n : string) :
  reads_as N n ->
  statement (SqliteIndexModel.make_rangeSql N)
  = Ok (index_select n [("key"%string, OpGe); ("key"%string, OpLe)]
          (Some "key"%string) None).
Proof. intros Hr. unfold SqliteIndexModel.make_rangeSql. statement_of Hr. Qed.

Lemma statement_all (N n : string) :
  reads_as N n ->
  statement (SqliteIndexModel.make_allSql N)
  = Ok (index_select n [] (Some "key"%string) None).
Proof. intros Hr. unfold SqliteIndexModel.make_allSql. statement_of Hr. Qed.

Lemma statement_count (N n : string) :
  reads_as N n -> statement (SqliteIndexModel.make_countSql N) = Ok (SCount n).
Proof.
  intros Hr. unfold SqliteIndexModel.make_countSql.
  change ("SELECT COUNT(*) FROM " ++ dquote ++ N ++ dquote)%string
    with ("SELECT COUNT(*) FROM " ++ dquote ++ N ++ dquote ++ EmptyString)%string.
  statement_of Hr.
Qed.

Lemma statement_clear (N n : string) :
  reads_as N n -> statement (SqliteIndexModel.make_clearSql N) = Ok (SDelete n).
Proof.
  intros Hr. unfold SqliteIndexModel.make_clearSql.
  change ("DELETE FROM " ++ dquote ++ N ++ dquote)%string
    with ("DELETE FROM " ++ dquote ++ N ++ dquote ++ EmptyString)%string.
  statement_of Hr.
Qed.

End StatementTexts.

Section Constructor.

Lemma tokens_after_quote (P X : string) :
  c_string P = P -> snd (lex_run LNone P) = LNone ->
  tokens (c_string (P ++ dquote ++ X))
  = fst (lex_run LNone P) ++ lex_from (LQuoted EmptyString) (c_string X).
Proof.
  intros HP Hst. rewrite (c_string_app P _ HP).
  change ((dquote ++ X)%string) with (String dquote_char X).
  cbn [c_string]. change (Ascii.eqb dquote_char "000"%char) with false. cbn iota.
  unfold tokens. rewrite lex_from_app, Hst. f_equal.
Qed.

Lemma parse_delete_name (ts : list token) (s : Stmt) :
  parse (TWord "DELETE" :: TWord "FROM" :: ts) = Some s ->
  exists t n, ts = [t] /\ name_of t = Some n.
Proof.
  destruct ts as [|a [|b ts']]; intros H.
  - discriminate H.
  - change (parse [TWord "DELETE"; TWord "FROM"; a])
      with (table ← name_of a; Some (SDelete table)) in H.
    destruct (name_of a) as [n|] eqn:E; [|discriminate H]. eauto.
  - discriminate H.
Qed.

Lemma parse_create_name (t : token) :
  parse [TWord "CREATE"; TWord "TABLE"; TWord "IF"; TWord "NOT"; TWord "EXISTS"; t] = None.
Proof. reflexivity. Qed.

(** A table name is read the same way in each of the statements: when the
    engine takes the DELETE and the CREATE TABLE statement, the name
    between the quotes reads as a name. *)
Lemma reads_inv (N ty : string) (s1 s2 : Stmt) :
  statement (SqliteIndexModel.make_clearSql N) = Ok s1 ->
  statement (SqliteIndexModel.make_createSql N ty) = Ok s2 ->
  exists n, reads_as N n.
Proof.
  unfold statement, SqliteIndexModel.make_clearSql, SqliteIndexModel.make_createSql.
  rewrite !tokens_after_quote by reflexivity.
  change (fst (lex_run LNone "DELETE FROM ")) with [TWord "DELETE"; TWord "FROM"].
  change (fst (lex_run LNone "CREATE TABLE IF NOT EXISTS "))
    with [TWord "CREATE"; TWord "TABLE"; TWord "IF"; TWord "NOT"; TWord "EXISTS"].
  cbn [app].
  destruct (String.string_dec (c_string N) N) as [HN|HN].
  - rewrite (c_string_app N _ HN). change (c_string dquote) with dquote.
    rewrite lex_from_app.
    destruct (lex_run (LQuoted EmptyString) N) as [tsN stN] eqn:Er. cbn [fst snd].
    intros H1 _.
    destruct (parse (TWord "DELETE" :: TWord "FROM" :: tsN ++ lex_from stN dquote))
      as [s|] eqn:Ep; [|discriminate H1].
    apply parse_delete_name in Ep as (t & n & Ets & Hn).
    destruct stN as [|w|m|m| |];
      cbn [lex_from dquote] in Ets; cbn zeta in Ets;
      repeat match type of Ets with
             | context [lex_step ?st dquote_char] =>
                 let r := eval vm_compute in (lex_step st dquote_char) in
                 change (lex_step st dquote_char) with r in Ets
             end;
      cbn [fst snd app lex_end] in Ets;
      apply app_eq_unit in Ets as [[-> Et]|[_ Et]]; try discriminate Et;
      injection Et as <-; try discriminate Hn.
    exists m. split; [exact HN | exact Er].
  - rewrite !(c_string_cut N _ HN).
    intros H1 H2.
    destruct (parse (TWord "DELETE" :: TWord "FROM" :: lex_from (LQuoted EmptyString) (c_string N)))
      as [s|] eqn:Ep; [|discriminate H1].
    apply parse_delete_name in Ep as (t & n & Ets & _).
    rewrite Ets in H2. cbn [app] in H2. rewrite parse_create_name in H2. discriminate H2.
Qed.

Lemma has_columns_more (d : TableDecl) :
  forallb (has_column d) index_columns = true ->
  forallb (has_column d) (index_columns ++ ["key"%string]) = true /\
  forallb (has_column d) (index_columns ++ ["key"%string; "key"%string] ++ ["key"%string])
  = true /\
  forallb (has_column d) (index_columns ++ ["key"%string] ++ []) = true /\
  forallb (has_column d) (index_columns ++ [] ++ ["key"%string]) = true.
Proof.
  intros H. rewrite !forallb_app, H.
  unfold index_columns in H. cbn [forallb] in H.
  apply andb_true_iff in H as [Hk _].
  cbn [forallb app]. rewrite Hk. auto.
Qed.

(** The constructor on a table name that reads as [n]: a table of that
    name is kept, and must have the four columns; otherwise the table is
    created as the CREATE TABLE statement declares it. *)
Lemma SqliteIndex_new_reads (db : Database) (tableName columnName n : string)
    (kt : ValueType) :
  reads_as (SqliteIndexModel.make_indexTableName tableName columnName) n ->
  SqliteIndexModel.SqliteIndex_new db tableName columnName kt
  = match db !! fold_name n with
    | None =>
        Ok (<[fold_name n
              := mkTableState (index_table n (SqliteIndexModel.getSqliteType kt)) []]> db,
            fresh_index (SqliteIndexModel.make_indexTableName tableName columnName) n kt)
    | Some t =>
        if forallb (has_column (t_decl t)) index_columns
        then Ok (db, fresh_index (SqliteIndexModel.make_indexTableName tableName columnName)
                       n kt)
        else Err (HostError SQLITE_ERROR)
    end.
Proof.
  intros Hr. unfold SqliteIndexModel.SqliteIndex_new. cbn zeta.
  unfold sqlite3_exec, sqlite3_prepare_v2.
  rewrite (statement_create _ n kt Hr), (statement_insert _ n Hr),
    (statement_search _ n Hr), (statement_searchFirst _ n Hr), (statement_range _ n Hr),
    (statement_all _ n Hr), (statement_count _ n Hr), (statement_clear _ n Hr).
  cbn [bind index_table d_name]. unfold index_select, resolves.
  cbn [s_table s_columns s_where s_order_by List.map fst].
  destruct (db !! fold_name n) as [t|] eqn:E.
  - cbn [bind]. rewrite E.
    destruct (forallb (has_column (t_decl t)) index_columns) eqn:Hc.
    + destruct (has_columns_more _ Hc) as (H1 & H2 & H3 & H4).
      rewrite H2, H3, H4. cbn [forallb andb bind]. reflexivity.
    + reflexivity.
  - change (valid_decl _) with true. cbn [bind].
    rewrite lookup_insert_eq. cbn [t_decl].
    reflexivity.
Qed.

Lemma SqliteIndex_new_inv (db : Database) (tableName columnName : string)
    (kt : ValueType) (db' : Database) (ix : SqliteIndexModel.SqliteIndex) :
  SqliteIndexModel.SqliteIndex_new db tableName columnName kt = Ok (db', ix) ->
  exists n,
    reads_as (SqliteIndexModel.make_indexTableName tableName columnName) n /\
    ix = fresh_index (SqliteIndexModel.make_indexTableName tableName columnName) n kt /\
    ((db !! fold_name n = None /\
      db' = <[fold_name n
              := mkTableState (index_table n (SqliteIndexModel.getSqliteType kt)) []]> db) \/
     (exists t, db !! fold_name n = Some t /\
                forallb (has_column (t_decl t)) index_columns = true /\ db' = db)).
Proof.
  intros H. pose proof H as H0.
  unfold SqliteIndexModel.SqliteIndex_new in H0. cbn zeta in H0.
  assert (Hn : exists n,
             reads_as (SqliteIndexModel.make_indexTableName tableName columnName) n).
  { unfold sqlite3_exec in H0.
    destruct (statement (SqliteIndexModel.make_createSql _ _)) as [s2|] eqn:E2;
      [|discriminate H0].
    cbn [bind] in H0.
    match type of H0 with
    | bind ?r _ = _ => destruct r as [db1|]; [|discriminate H0]
    end.
    cbn [bind] in H0.
    repeat match type of H0 with
           | bind (sqlite3_prepare_v2 ?d (SqliteIndexModel.make_clearSql ?N)) _ = _ =>
               fail 1
           | bind ?r _ = _ => destruct r; [|discriminate H0]; cbn [bind] in H0
           end.
    unfold sqlite3_prepare_v2 in H0.
    destruct (statement (SqliteIndexModel.make_clearSql _)) as [s1|] eqn:E1;
      [|discriminate H0].
    exact (reads_inv _ _ _ _ E1 E2). }
  destruct Hn as [n Hr]. exists n. split; [exact Hr|].
  rewrite (SqliteIndex_new_reads db _ _ n kt Hr) in H.
  destruct (db !! fold_name n) as [t|] eqn:E.
  - destruct (forallb (has_column (t_decl t)) index_columns) eqn:Hc; [|discriminate H].
    injection H as <- <-. split; [reflexivity|]. right. eauto.
  - injection H as <- <-. split; [reflexivity|]. left. auto.
Qed.

(** The state a successful constructor leaves on an empty database. *)
Lemma new_index_state (tableName columnName : string) (kt : ValueType)
    (db : Database) (ix : SqliteIndexModel.SqliteIndex) :
  SqliteIndexModel.SqliteIndex_new ∅ tableName columnName kt = Ok (db, ix) ->
  exists n,
    reads_as (SqliteIndexModel.make_indexTableName tableName columnName) n /\
    ix = fresh_index (SqliteIndexModel.make_indexTableName tableName columnName) n kt /\
    db = {[fold_name n
           := mkTableState (index_table n (SqliteIndexModel.getSqliteType kt)) []]} /\
    index_state db ix n [].
Proof.
  intros H. apply SqliteIndex_new_inv in H as (n & Hr & -> & [[_ ->]|(t & Ht & _)]).
  - exists n. split; [exact Hr|]. split; [reflexivity|]. split; [reflexivity|].
    split; [repeat split|].
    cbn [SqliteIndexModel.keyType_ fresh_index]. apply lookup_insert_eq.
  - rewrite lookup_empty in Ht. discriminate Ht.
Qed.

(** With names free of double quotes and NUL bytes the constructor
    succeeds on an empty database. *)
Lemma new_index_plain (tableName columnName : string) (kt : ValueType) :
  plain_text tableName = true -> plain_text columnName = true ->
  exists s, SqliteIndexModel.SqliteIndex_new ∅ tableName columnName kt = Ok s.
Proof.
  intros H1 H2.
  rewrite (SqliteIndex_new_reads ∅ tableName columnName _ kt
             (plain_reads _ (plain_index_name _ _ H1 H2))).
  rewrite lookup_empty. eauto.
Qed.

End Constructor.

Section IndexTable.

Variable h : Conversions.

Implicit Types (db : Database) (ix : SqliteIndexModel.SqliteIndex) (r : Row)
  (rows : list Row) (k : Value).

Lemma pk_compare_index (n ty : string) (a b : Row) :
  pk_compare (index_table n ty) a b = idx_compare a b.
Proof.
  unfold pk_compare, idx_compare. cbn [index_table d_primary_key compare_cells].
  change (cell (index_table n ty) "key" a) with (column a 0).
  change (cell (index_table n ty) "key" b) with (column b 0).
  change (cell (index_table n ty) "sequence" a) with (column a 3).
  change (cell (index_table n ty) "sequence" b) with (column b 3).
  destruct (sql_compare (column a 0) (column b 0)); try reflexivity.
  destruct (sql_compare (column a 3) (column b 3)); reflexivity.
Qed.

Lemma pk_taken_index (n ty : string) r rows :
  pk_taken (index_table n ty) r rows = idx_taken r rows.
Proof.
  unfold pk_taken, idx_taken.
  change (negb (Nat.eqb (List.length (d_primary_key (index_table n ty))) 0)) with true.
  cbn [andb].
  induction rows as [|x rows IH]; [reflexivity|].
  cbn [existsb]. rewrite <- IH. f_equal.
  cbn [index_table d_primary_key forallb].
  change (cell (index_table n ty) "key" r) with (column r 0).
  change (cell (index_table n ty) "key" x) with (column x 0).
  change (cell (index_table n ty) "sequence" r) with (column r 3).
  change (cell (index_table n ty) "sequence" x) with (column x 3).
  rewrite andb_true_r. reflexivity.
Qed.

(** An insert into the table of an index: the key column must not be
    NULL, the pair of key and sequence number must be new, and the row
    goes to its place in the order of the primary key. *)
Lemma insert_index db ix (n : string) rows k (o l s : N) :
  index_state db ix n rows ->
  let d := index_table n (SqliteIndexModel.getSqliteType (SqliteIndexModel.keyType_ ix)) in
  let r := stored_row h (key_affinity (SqliteIndexModel.keyType_ ix)) k o l s in
  SqliteIndexModel.insert h db ix k o l s
  = if is_null (column r 0) || idx_taken r rows
    then Err (HostError SQLITE_CONSTRAINT)
    else Ok (<[fold_name n := mkTableState d (pk_insert d r rows)]> db,
             SqliteIndexModel.with_count ix
               ((SqliteIndexModel.entryCount_ ix + 1) mod 2 ^ 64)%N).
Proof.
  intros [(Hins & _) Hdb]. cbn zeta.
  unfold SqliteIndexModel.insert. rewrite Hins. unfold step_insert. rewrite Hdb.
  cbn [t_decl t_rows].
  set (kt := SqliteIndexModel.keyType_ ix).
  set (ty := SqliteIndexModel.getSqliteType kt).
  change (new_row h (index_table n ty) index_columns
            [SqliteIndexModel.bindKey k; SqlInteger (to_int64 (Z.of_N o));
             SqlInteger (to_int32 (Z.of_N l)); SqlInteger (to_int64 (Z.of_N s))])
    with (stored_row h (key_affinity kt) k o l s).
  set (r := stored_row h (key_affinity kt) k o l s).
  change (null_where_forbidden (index_table n ty) (d_columns (index_table n ty)) r)
    with (is_null (column r 0) || false).
  rewrite orb_false_r, pk_taken_index.
  destruct (is_null (column r 0)); [reflexivity|]. cbn [orb].
  destruct (idx_taken r rows); reflexivity.
Qed.

Lemma index_state_insert db ix (n : string) rows rows' (c : N) :
  index_state db ix n rows ->
  index_state
    (<[fold_name n
       := mkTableState
            (index_table n (SqliteIndexModel.getSqliteType (SqliteIndexModel.keyType_ ix)))
            rows']> db)
    (SqliteIndexModel.with_count ix c) n rows'.
Proof.
  intros [Hp _]. split; [exact Hp|]. apply lookup_insert_eq.
Qed.

Lemma extract_selected (n ty : string) (kt : ValueType) (l : list Row) :
  List.map (SqliteIndexModel.extractEntry h kt)
    (List.map (fun r => List.map (fun c => cell (index_table n ty) c r) index_columns) l)
  = List.map (SqliteIndexModel.extractEntry h kt) l.
Proof. rewrite List.map_map. apply List.map_ext. intros r. reflexivity. Qed.

Lemma holds_where_1 (n : string) (kt : ValueType) (op : CompareOp) (p : SqlValue) r :
  holds_where h (index_table n (SqliteIndexModel.getSqliteType kt)) r
    [("key"%string, op)] [p]
  = key_test h kt op p r.
Proof. cbn [holds_where hd tl]. rewrite andb_true_r. destruct op; reflexivity. Qed.

Lemma holds_where_2 (n : string) (kt : ValueType) (op1 op2 : CompareOp)
    (p1 p2 : SqlValue) r :
  holds_where h (index_table n (SqliteIndexModel.getSqliteType kt)) r
    [("key"%string, op1); ("key"%string, op2)] [p1; p2]
  = key_test h kt op1 p1 r && key_test h kt op2 p2 r.
Proof.
  cbn [holds_where hd tl]. rewrite andb_true_r. destruct op1, op2; reflexivity.
Qed.

Lemma search_index db ix (n : string) rows k :
  index_state db ix n rows ->
  SqliteIndexModel.search h db ix k
  = List.map (SqliteIndexModel.extractEntry h (SqliteIndexModel.keyType_ ix))
      (List.filter (key_test h (SqliteIndexModel.keyType_ ix) OpEq (SqliteIndexModel.bindKey k))
         rows).
Proof.
  intros [(_ & Hs & _) Hdb]. unfold SqliteIndexModel.search. rewrite Hs.
  unfold step_select, index_select. cbn [s_table s_where s_order_by s_limit s_columns].
  rewrite Hdb. cbn [t_decl t_rows].
  rewrite extract_selected. f_equal.
  apply List.filter_ext. intros r. apply holds_where_1.
Qed.

Lemma searchFirst_index db ix (n : string) rows k :
  index_state db ix n rows ->
  SqliteIndexModel.searchFirst h db ix k
  = option_map (SqliteIndexModel.extractEntry h (SqliteIndexModel.keyType_ ix))
      (head (List.filter
               (key_test h (SqliteIndexModel.keyType_ ix) OpEq (SqliteIndexModel.bindKey k))
               rows)).
Proof.
  intros [(_ & _ & Hs & _) Hdb]. unfold SqliteIndexModel.searchFirst. rewrite Hs.
  unfold step_select, index_select. cbn [s_table s_where s_order_by s_limit s_columns].
  rewrite Hdb. cbn [t_decl t_rows].
  rewrite (List.filter_ext _
             (key_test h (SqliteIndexModel.keyType_ ix) OpEq (SqliteIndexModel.bindKey k)))
    by (intros r; apply holds_where_1).
  destruct (List.filter _ rows) as [|x rest]; reflexivity.
Qed.

Lemma range_index db ix (n : string) rows (lo hi : Value) :
  index_state db ix n rows ->
  SqliteIndexModel.range h db ix lo hi
  = List.map (SqliteIndexModel.extractEntry h (SqliteIndexModel.keyType_ ix))
      (order_by
         (index_table n (SqliteIndexModel.getSqliteType (SqliteIndexModel.keyType_ ix)))
         "key"
         (List.filter
            (fun r =>
               key_test h (SqliteIndexModel.keyType_ ix) OpGe (SqliteIndexModel.bindKey lo) r
               && key_test h (SqliteIndexModel.keyType_ ix) OpLe
                    (SqliteIndexModel.bindKey hi) r)
            rows)).
Proof.
  intros [(_ & _ & _ & Hs & _) Hdb]. unfold SqliteIndexModel.range. rewrite Hs.
  unfold step_select, index_select. cbn [s_table s_where s_order_by s_limit s_columns].
  rewrite Hdb. cbn [t_decl t_rows].
  rewrite extract_selected. f_equal. f_equal.
  apply List.filter_ext. intros r. apply holds_where_2.
Qed.

Lemma all_index db ix (n : string) rows :
  index_state db ix n rows ->
  SqliteIndexModel.all h db ix
  = List.map (SqliteIndexModel.extractEntry h (SqliteIndexModel.keyType_ ix))
      (order_by
         (index_table n (SqliteIndexModel.getSqliteType (SqliteIndexModel.keyType_ ix)))
         "key" rows).
Proof.
  intros [(_ & _ & _ & _ & Hs & _) Hdb]. unfold SqliteIndexModel.all. rewrite Hs.
  unfold step_select, index_select. cbn [s_table s_where s_order_by s_limit s_columns].
  rewrite Hdb. cbn [t_decl t_rows].
  rewrite extract_selected. f_equal. f_equal.
  clear. induction rows as [|r rows IH]; [reflexivity|].
  cbn [List.filter holds_where]. f_equal. exact IH.
Qed.

Lemma clear_index db ix (n : string) rows :
  index_state db ix n rows ->
  SqliteIndexModel.clear db ix
  = Ok (<[fold_name n
          := mkTableState
               (index_table n (SqliteIndexModel.getSqliteType (SqliteIndexModel.keyType_ ix)))
               []]> db,
        SqliteIndexModel.with_count ix 0%N).
Proof.
  intros [(_ & _ & _ & _ & _ & _ & Hs) Hdb]. unfold SqliteIndexModel.clear. rewrite Hs.
  unfold step_delete. rewrite Hdb. reflexivity.
Qed.

Lemma order_insert_perm (d : TableDecl) (c : string) r rows :
  order_insert d c r rows ≡ₚ r :: rows.
Proof.
  induction rows as [|x rows IH]; [reflexivity|]. cbn [order_insert].
  destruct (sql_compare (cell d c r) (cell d c x)); try reflexivity.
  rewrite IH. apply perm_swap.
Qed.

Lemma order_by_perm (d : TableDecl) (c : string) rows : order_by d c rows ≡ₚ rows.
Proof.
  induction rows as [|x rows IH]; [reflexivity|]. unfold order_by in *.
  cbn [fold_right]. rewrite order_insert_perm, IH. reflexivity.
Qed.

(** ORDER BY key leaves rows that are in the order of their keys as they
    are. *)
Lemma order_by_sorted (n ty : string) rows :
  key_sorted rows -> order_by (index_table n ty) "key" rows = rows.
Proof.
  induction 1 as [|x rows Hs IH Hx]; [reflexivity|].
  unfold order_by in *. cbn [fold_right]. rewrite IH.
  destruct rows as [|y rows]; [reflexivity|].
  cbn [order_insert].
  change (cell (index_table n ty) "key" x) with (column x 0).
  change (cell (index_table n ty) "key" y) with (column y 0).
  apply List.Forall_inv in Hx.
  destruct (sql_compare (column x 0) (column y 0)); try reflexivity.
  contradiction Hx; reflexivity.
Qed.

Lemma key_sorted_filter (p : Row -> bool) rows :
  key_sorted rows -> key_sorted (List.filter p rows).
Proof.
  induction 1 as [|x rows Hs IH Hx]; [constructor|]. cbn [List.filter].
  destruct (p x); [|exact IH]. constructor; [exact IH|].
  rewrite List.Forall_forall in *. intros y Hy.
  apply List.filter_In in Hy as [Hy _]. auto.
Qed.

End IndexTable.

Section IndexRuns.

Variable h : Conversions.

Implicit Types (db : Database) (ix : SqliteIndexModel.SqliteIndex) (r : Row)
  (rows : list Row) (k : Value).

Lemma compare_bytes_refl (l : list Z) : compare_bytes l l = Eq.
Proof. induction l as [|x l IH]; [reflexivity|]. simpl. rewrite Z.compare_refl. exact IH. Qed.

Lemma SFcompare_refl (f : spec_float) : SFcompare f f = Some Eq \/ SFcompare f f = None.
Proof.
  destruct f as [s|s| |s m e]; cbn; auto.
  all: try (destruct s; auto; fail).
  rewrite Z.compare_refl, Pos.compare_cont_refl. destruct s; cbn; auto.
Qed.

Lemma sql_compare_refl (v : SqlValue) : sql_compare v v = Eq.
Proof.
  destruct v; cbn; try reflexivity.
  - apply Z.compare_refl.
  - unfold compare_real. destruct (SFcompare_refl f) as [-> | ->]; reflexivity.
  - apply compare_bytes_refl.
  - apply compare_bytes_refl.
Qed.

Lemma length_pk_insert (d : TableDecl) r rows :
  List.length (pk_insert d r rows) = S (List.length rows).
Proof.
  induction rows as [|x rows IH]; [reflexivity|]. cbn [pk_insert].
  destruct (pk_compare d r x); cbn [List.length]; rewrite ?IH; reflexivity.
Qed.

Lemma In_pk_insert (d : TableDecl) r rows : In r (pk_insert d r rows).
Proof.
  induction rows as [|x rows IH]; [left; reflexivity|]. cbn [pk_insert].
  destruct (pk_compare d r x); cbn; auto.
Qed.

Lemma In_pk_insert_inv (d : TableDecl) (x : Row) r rows :
  In x (pk_insert d r rows) -> x = r \/ In x rows.
Proof.
  induction rows as [|y rows IH]; cbn [pk_insert].
  - intros [<-|[]]. auto.
  - destruct (pk_compare d r y); cbn; intros H; try (destruct H as [<-|H]; auto).
    destruct (IH H); auto.
Qed.

(** What a successful insert has done. *)
Lemma insert_inv db ix (n : string) rows k (o l s : N) db'
    (ix' : SqliteIndexModel.SqliteIndex) :
  index_state db ix n rows ->
  SqliteIndexModel.insert h db ix k o l s = Ok (db', ix') ->
  let d := index_table n (SqliteIndexModel.getSqliteType (SqliteIndexModel.keyType_ ix)) in
  let r := stored_row h (key_affinity (SqliteIndexModel.keyType_ ix)) k o l s in
  is_null (column r 0) = false /\ idx_taken r rows = false /\
  index_state db' ix' n (pk_insert d r rows) /\
  SqliteIndexModel.indexTableName_ ix' = SqliteIndexModel.indexTableName_ ix /\
  SqliteIndexModel.keyType_ ix' = SqliteIndexModel.keyType_ ix /\
  SqliteIndexModel.entryCount_ ix'
  = ((SqliteIndexModel.entryCount_ ix + 1) mod 2 ^ 64)%N.
Proof.
  intros Hst. rewrite (insert_index h db ix n rows k o l s Hst). cbn zeta.
  destruct (is_null _) eqn:En; cbn [orb]; [discriminate|].
  destruct (idx_taken _ rows) eqn:Et; [discriminate|].
  intros [= <- <-].
  split; [reflexivity|]. split; [reflexivity|].
  split; [exact (index_state_insert db ix n rows _ _ Hst)|].
  repeat split.
Qed.

(** What a successful run of inserts has done to the table and the counter. *)
Lemma insert_all_inv (es : list IndexEntry) :
  forall db ix (n : string) rows db' (ix' : SqliteIndexModel.SqliteIndex),
    index_state db ix n rows ->
    SqliteIndexModel.insert_all h db ix es = Ok (db', ix') ->
    (SqliteIndexModel.entryCount_ ix < 2 ^ 64)%N ->
    SqliteIndexModel.indexTableName_ ix' = SqliteIndexModel.indexTableName_ ix /\
    SqliteIndexModel.keyType_ ix' = SqliteIndexModel.keyType_ ix /\
    SqliteIndexModel.entryCount_ ix'
    = ((SqliteIndexModel.entryCount_ ix + N.of_nat (List.length es)) mod 2 ^ 64)%N /\
    exists rows',
      index_state db' ix' n rows' /\
      List.length rows' = (List.length rows + List.length es)%nat /\
      (forall x, In x rows' ->
         In x rows \/
         exists e, In e es /\ x = entry_row h (SqliteIndexModel.keyType_ ix) e).
Proof.
  induction es as [|e es IH]; intros db ix n rows db' ix' Hst Hall Hc.
  - cbn [SqliteIndexModel.insert_all] in Hall. injection Hall as <- <-.
    cbn [List.length]. rewrite N.add_0_r, N.mod_small by exact Hc.
    repeat (split; [reflexivity|]). exists rows.
    split; [exact Hst|]. split; [lia|]. auto.
  - cbn [SqliteIndexModel.insert_all] in Hall.
    destruct (SqliteIndexModel.insert h db ix (key e) (dataOffset e) (dataLength e)
                (sequence e)) as [[db1 ix1]|err] eqn:Hins; [|discriminate Hall].
    cbn [bind fst snd] in Hall.
    destruct (insert_inv _ _ _ _ _ _ _ _ _ _ Hst Hins) as (_ & _ & Hst1 & Hn1 & Hk1 & Hc1).
    cbn zeta in Hst1.
    destruct (IH db1 ix1 n _ db' ix' Hst1 Hall) as (Hn & Hk & Hcnt & rows' & Hst' & Hlen & Hin).
    { rewrite Hc1. apply N.mod_upper_bound. discriminate. }
    split; [congruence|]. split; [congruence|]. split.
    { rewrite Hcnt, Hc1. cbn [List.length]. rewrite N.Div0.add_mod_idemp_l. f_equal. lia. }
    exists rows'. split; [exact Hst'|]. split.
    { rewrite Hlen, length_pk_insert. cbn [List.length]. lia. }
    intros x Hx. destruct (Hin x Hx) as [Hx'|(e' & He' & ->)].
    + apply In_pk_insert_inv in Hx' as [->|Hx']; [|auto].
      right. exists e. split; [left; reflexivity|reflexivity].
    + right. exists e'. split; [right; exact He'|]. rewrite Hk1. reflexivity.
Qed.

(** The state of an index that was constructed on an empty database and
    filled. *)
Lemma build_inv (tableName columnName : string) (kt : ValueType) (es : list IndexEntry)
    db ix :
  SqliteIndexModel.build h tableName columnName kt es = Ok (db, ix) ->
  SqliteIndexModel.indexTableName_ ix
  = SqliteIndexModel.make_indexTableName tableName columnName /\
  SqliteIndexModel.keyType_ ix = kt /\
  SqliteIndexModel.entryCount_ ix = (N.of_nat (List.length es) mod 2 ^ 64)%N /\
  exists n rows,
    reads_as (SqliteIndexModel.make_indexTableName tableName columnName) n /\
    index_state db ix n rows /\
    List.length rows = List.length es /\
    (forall x, In x rows -> exists e, In e es /\ x = entry_row h kt e).
Proof.
  unfold SqliteIndexModel.build. intros Hb.
  destruct (SqliteIndexModel.SqliteIndex_new ∅ tableName columnName kt)
    as [[db0 ix0]|err] eqn:Hnew; [|discriminate Hb].
  cbn [bind fst snd] in Hb.
  destruct (new_index_state _ _ _ _ _ Hnew) as (n & Hr & Hix & _ & Hst).
  destruct (insert_all_inv es db0 ix0 n [] db ix Hst Hb)
    as (Hn & Hk & Hc & rows & Hst' & Hlen & Hin).
  { rewrite Hix. reflexivity. }
  rewrite Hix in Hn, Hk, Hc.
  cbn [fresh_index SqliteIndexModel.indexTableName_ SqliteIndexModel.keyType_
       SqliteIndexModel.entryCount_] in Hn, Hk, Hc.
  cbn [N.add] in Hc.
  split; [exact Hn|]. split; [exact Hk|]. split; [exact Hc|].
  exists n, rows. split; [exact Hr|]. split; [exact Hst'|]. split; [exact Hlen|].
  intros x Hx. destruct (Hin x Hx) as [[]|(e & He & ->)].
  exists e. split; [exact He|]. rewrite Hix. reflexivity.
Qed.

Lemma apply_affinity_null (ty : SqlType) : apply_affinity h ty SqlNull = SqlNull.
Proof. destruct ty; reflexivity. Qed.

(** The index table takes no Null key. *)
Lemma insert_null_rejected db ix (n : string) rows (o l s : N) :
  index_state db ix n rows ->
  SqliteIndexModel.insert h db ix VNull o l s = Err (HostError SQLITE_CONSTRAINT).
Proof.
  intros Hst. rewrite (insert_index h db ix n rows VNull o l s Hst). cbn zeta.
  unfold stored_row, column. cbn [nth SqliteIndexModel.bindKey].
  rewrite apply_affinity_null. reflexivity.
Qed.

End IndexRuns.

(** ** The host-SQL-backed index *)

Section IndexTableClaim.

(** C8, the counterexample: for a table name with a double quote between
    two letters the engine refuses the CREATE TABLE statement, whose quoted
    name ends at that double quote, and the constructor throws; no table is
    made. *)
Lemma index_table_contract_fails : ~ index_table_contract.
Proof.
  intros H.
  destruct (H ∅ (String "a"%char (String dquote_char "b"%string)) "c"%string TInt32
              "INTEGER"%string eq_refl) as (db' & ix & t & Hnew & _).
  vm_compute in Hnew. discriminate Hnew.
Qed.

(** C8, as the code has it.  For a table and a column name without double
    quote and NUL byte the constructor names its table _idx_{table}_{column}
    and hands the engine the CREATE TABLE IF NOT EXISTS statement for it.
    When the database has no table of that name (names compared without
    regard to case), the engine makes of the statement the table with the
    columns key, data_offset, data_length and sequence, each NOT NULL, the
    primary key (key, sequence) and no rowid; the key column is declared
    INTEGER for the integer types and Bool, REAL for the two float types,
    TEXT for String and BLOB for Bytes (and for Null).  A table of that name
    that is there already is left as it is: the constructor succeeds when
    it has the four columns, and throws when it has not. *)
Theorem index_table_declaration (db : Database) (tableName columnName : string)
    (kt : ValueType) :
  plain_text tableName = true -> plain_text columnName = true ->
  let name := ("_idx_" ++ tableName ++ "_" ++ columnName)%string in
  let keyType := match declared_key_type kt with
                 | Some w => w
                 | None => "BLOB"%string
                 end in
  let created :=
    mkTableState
      (mkTable name
         [mkColumn "key" keyType true;
          mkColumn "data_offset" "INTEGER" true;
          mkColumn "data_length" "INTEGER" true;
          mkColumn "sequence" "INTEGER" true]
         (["key"; "sequence"])%string true) [] in
  match db !! fold_name name with
  | None =>
      exists ix,
        SqliteIndexModel.SqliteIndex_new db tableName columnName kt
        = Ok (<[fold_name name := created]> db, ix) /\
        SqliteIndexModel.indexTableName_ ix = name /\
        SqliteIndexModel.keyType_ ix = kt /\
        SqliteIndexModel.getEntryCount ix = 0%N /\
        index_table_shape name keyType (t_decl created)
  | Some t =>
      if forallb (has_column (t_decl t))
           (["key"; "data_offset"; "data_length"; "sequence"])%string
      then
        exists ix,
          SqliteIndexModel.SqliteIndex_new db tableName columnName kt = Ok (db, ix) /\
          SqliteIndexModel.indexTableName_ ix = name /\
          SqliteIndexModel.keyType_ ix = kt /\
          SqliteIndexModel.getEntryCount ix = 0%N
      else
        SqliteIndexModel.SqliteIndex_new db tableName columnName kt
        = Err (HostError SQLITE_ERROR)
  end.
Proof.
  intros H1 H2. cbn zeta.
  pose proof (plain_reads _ (plain_index_name _ _ H1 H2)) as Hr.
  rewrite (SqliteIndex_new_reads db tableName columnName _ kt Hr).
  unfold SqliteIndexModel.make_indexTableName.
  destruct (db !! fold_name ("_idx_" ++ tableName ++ "_" ++ columnName)%string) as [t|].
  - fold index_columns.
    destruct (forallb (has_column (t_decl t)) index_columns); [|reflexivity].
    eexists. split; [reflexivity|]. repeat split.
  - eexists. split.
    + f_equal. f_equal. f_equal. destruct kt; reflexivity.
    + repeat split.
Qed.

Lemma index_table_declaration_witness :
  exists ix,
    SqliteIndexModel.SqliteIndex_new ∅ "User" "id" TInt32
    = Ok ({[ "_idx_user_id"%string
             := mkTableState
                  (mkTable "_idx_User_id"
                     [mkColumn "key" "INTEGER" true;
                      mkColumn "data_offset" "INTEGER" true;
                      mkColumn "data_length" "INTEGER" true;
                      mkColumn "sequence" "INTEGER" true]
                     (["key"; "sequence"])%string true) [] ]}, ix) /\
    SqliteIndexModel.indexTableName_ ix = "_idx_User_id"%string.
Proof.
  pose proof (index_table_declaration ∅ "User" "id" TInt32 eq_refl eq_refl) as H.
  cbn zeta in H. rewrite lookup_empty in H.
  destruct H as (ix & Hnew & Hname & _).
  exists ix. split; [exact Hnew | exact Hname].
Defined.

(** *** What the conditions on the names and on the database keep out *)

(** A NUL byte in a name ends the statement text there: the engine refuses
    the unfinished CREATE TABLE statement. *)
Lemma nul_in_name_rejected :
  SqliteIndexModel.SqliteIndex_new ∅ (String "a"%char (String "000"%char "b"%string))
    "c" TInt32
  = Err (HostError SQLITE_ERROR).
Proof. vm_compute. reflexivity. Qed.

(** Two double quotes in a row stand for one within the quoted name: the
    table made for such a table name has another name than
    _idx_{table}_{column}. *)
Lemma doubled_quote_renames :
  exists ix,
    SqliteIndexModel.SqliteIndex_new ∅
      (String "a"%char (String dquote_char (String dquote_char "b"%string))) "c" TInt32
    = Ok ({[ String "_"%char (String "i"%char (String "d"%char (String "x"%char
               (String "_"%char (String "a"%char (String dquote_char "b_c"%string))))))
             := mkTableState
                  (mkTable
                     (String "_"%char (String "i"%char (String "d"%char (String "x"%char
                        (String "_"%char (String "a"%char
                           (String dquote_char "b_c"%string)))))))
                     [mkColumn "key" "INTEGER" true;
                      mkColumn "data_offset" "INTEGER" true;
                      mkColumn "data_length" "INTEGER" true;
                      mkColumn "sequence" "INTEGER" true]
                     (["key"; "sequence"])%string true) [] ]}, ix).
Proof. eexists. vm_compute. reflexivity. Qed.

(** A table of the name that is there already stays as it was declared,
    here with four TEXT columns, no primary key and a rowid. *)
Lemma existing_table_kept :
  exists ix,
    SqliteIndexModel.SqliteIndex_new
      {[ "_idx_user_id"%string
         := mkTableState
              (mkTable "_IDX_USER_ID"
                 [mkColumn "key" "TEXT" false; mkColumn "data_offset" "TEXT" false;
                  mkColumn "data_length" "TEXT" false; mkColumn "sequence" "TEXT" false]
                 [] false) [] ]}
      "User" "id" TInt32
    = Ok ({[ "_idx_user_id"%string
             := mkTableState
                  (mkTable "_IDX_USER_ID"
                     [mkColumn "key" "TEXT" false; mkColumn "data_offset" "TEXT" false;
                      mkColumn "data_length" "TEXT" false; mkColumn "sequence" "TEXT" false]
                     [] false) [] ]}, ix).
Proof. eexists. vm_compute. reflexivity. Qed.

End IndexTableClaim.

Section NullKeys.

(** C3, the counterexample: on a fresh host-SQL index the insert of a
    Null key ends with SQLITE_CONSTRAINT. *)
Lemma null_key_contract_fails : ~ null_key_contract.
Proof.
  intros [_ H].
  destruct (new_index_plain "User" "email" TString eq_refl eq_refl) as [[db ix] Hnew].
  destruct (H (mkConversions (fun _ v => v) (fun _ => 0) (fun _ => S754_zero false)
                             (fun _ => None) (fun _ => []))
              "User"%string "email"%string TString 0%N 0%N 1%N db ix Hnew) as [r Hr].
  destruct (new_index_state _ _ _ _ _ Hnew) as (n & _ & _ & _ & Hst).
  rewrite (insert_null_rejected _ db ix n [] _ _ _ Hst) in Hr. discriminate Hr.
Qed.

(** C3, as the code has it.  The B-tree takes a Null key like any other:
    the entry is stored and counted.  The host-SQL index rejects it: its key
    column is declared NOT NULL, the INSERT ends with SQLITE_CONSTRAINT and
    insert throws, leaving table and count as they were.  That holds in
    every state in which the index works on the table its constructor
    declared, and so for every index that was constructed on an empty
    database and filled. *)
Theorem null_key_by_backend :
  (forall (kt : ValueType) (order : Z) (es : list IndexEntry) (t : BTree) (o l s : N),
     2 <= order -> build kt order es = Ok t ->
     exists t' r,
       BTreeIndex.insert t VNull o l s = Ok t' /\
       all t' = Ok r /\ In (mkEntry VNull o l s) r /\
       getEntryCount t' = ((getEntryCount t + 1) mod 2 ^ 64)%N) /\
  (forall (h : Conversions) (db : Database) (ix : SqliteIndexModel.SqliteIndex)
          (n : string) (rows : list Row) (o l s : N),
     index_state db ix n rows ->
     SqliteIndexModel.insert h db ix VNull o l s = Err (HostError SQLITE_CONSTRAINT)) /\
  (forall (h : Conversions) (tableName columnName : string) (kt : ValueType)
          (es : list IndexEntry) (db : Database) (ix : SqliteIndexModel.SqliteIndex)
          (o l s : N),
     SqliteIndexModel.build h tableName columnName kt es = Ok (db, ix) ->
     SqliteIndexModel.insert h db ix VNull o l s = Err (HostError SQLITE_CONSTRAINT)).
Proof.
  split; [|split].
  - intros kt order es t o l s Hord Hb.
    destruct (build_outcome kt order es) as [(t0 & T & H1 & Hh & Ho & _)|[Hlt _]]; [|lia].
    rewrite Hb in H1. injection H1 as <-.
    destruct (insert_spec t T VNull o l s) as (t' & T' & Hrun & Hh' & _ & _ & Hc & Hins).
    { rewrite Ho. exact Hord. }
    { exact Hh. }
    exists t', (inorder T'). split; [exact Hrun|]. split; [apply all_spec; exact Hh'|].
    split; [|exact Hc].
    apply list_elem_of_In. rewrite (inserted_perm _ _ _ Hins). apply elem_of_cons. auto.
  - intros h db ix n rows o l s Hst. exact (insert_null_rejected h db ix n rows o l s Hst).
  - intros h tableName columnName kt es db ix o l s Hb.
    destruct (build_inv h _ _ _ _ _ _ Hb) as (_ & _ & _ & n & rows & _ & Hst & _).
    exact (insert_null_rejected h db ix n rows o l s Hst).
Qed.

Lemma null_key_by_backend_witness :
  (exists t t' r,
     build TInt32 4 (fives [1; 2; 3]%N) = Ok t /\
     BTreeIndex.insert t VNull 400 50 4 = Ok t' /\
     all t' = Ok r /\ In (mkEntry VNull 400 50 4) r) /\
  (exists db ix,
     SqliteIndexModel.build plain_conversions "User" "email" TString [] = Ok (db, ix) /\
     SqliteIndexModel.insert plain_conversions db ix VNull 400 50 4
     = Err (HostError SQLITE_CONSTRAINT)).
Proof.
  split.
  - destruct (build_outcome TInt32 4 (fives [1; 2; 3]%N)) as [(t & T & Hb & _)|[Hlt _]];
      [|lia].
    destruct (proj1 null_key_by_backend TInt32 4 (fives [1; 2; 3]%N) t 400%N 50%N 4%N)
      as (t' & r & H1 & H2 & H3 & _); [lia | exact Hb |].
    exists t, t', r. auto.
  - destruct (new_index_plain "User" "email" TString eq_refl eq_refl) as [[db ix] Hnew].
    assert (Hb : SqliteIndexModel.build plain_conversions "User" "email" TString []
                 = Ok (db, ix)).
    { unfold SqliteIndexModel.build. rewrite Hnew. reflexivity. }
    exists db, ix. split; [exact Hb|].
    exact (proj2 (proj2 null_key_by_backend) plain_conversions _ _ _ _ db ix
             400%N 50%N 4%N Hb).
Defined.

End NullKeys.

(** ** The framed append log *)

Section LogFacts.

Import StreamingStore.
Local Open Scope N_scope.

Lemma to_N_byte_of_N (n : N) : Byte.to_N (byte_of_N n) = n mod 256.
Proof.
  unfold byte_of_N.
  destruct (Byte.of_N (n mod 256)) as [b|] eqn:E.
  - apply Byte.to_of_N. exact E.
  - apply Byte.of_N_None_iff in E.
    pose proof (N.mod_upper_bound n 256). lia.
Qed.

Lemma byte_of_N_to_N (b : byte) (k : N) : byte_of_N (Byte.to_N b + 256 * k) = b.
Proof.
  unfold byte_of_N.
  pose proof (Byte.to_N_bounded b) as Hb.
  replace ((Byte.to_N b + 256 * k) mod 256) with (Byte.to_N b).
  - rewrite Byte.of_to_N. reflexivity.
  - replace (Byte.to_N b + 256 * k) with (Byte.to_N b + k * 256) by lia.
    rewrite N.Div0.mod_add. symmetry. apply N.mod_small. lia.
Qed.

Lemma div_byte (b : byte) (k : N) : (Byte.to_N b + 256 * k) / 256 = k.
Proof.
  pose proof (Byte.to_N_bounded b) as Hb.
  replace (Byte.to_N b + 256 * k) with (Byte.to_N b + k * 256) by lia.
  rewrite N.div_add by lia. rewrite N.div_small by lia. lia.
Qed.

Lemma u32le_read (b0 b1 b2 b3 : byte) (z : list byte) :
  u32le (read_u32le (b0 :: b1 :: b2 :: b3 :: z)) = [b0; b1; b2; b3].
Proof.
  unfold read_u32le, u32le.
  set (n0 := Byte.to_N b0). set (n1 := Byte.to_N b1).
  set (n2 := Byte.to_N b2). set (n3 := Byte.to_N b3).
  replace (n0 + 256 * n1 + 65536 * n2 + 16777216 * n3)
    with (n0 + 256 * (n1 + 256 * (n2 + 256 * (n3 + 256 * 0)))) by lia.
  assert (E1 : (n0 + 256 * (n1 + 256 * (n2 + 256 * (n3 + 256 * 0)))) / 65536
               = n2 + 256 * (n3 + 256 * 0)).
  { change 65536 with (256 * 256). rewrite <- N.Div0.div_div.
    unfold n0. rewrite div_byte. unfold n1. rewrite div_byte. reflexivity. }
  assert (E2 : (n0 + 256 * (n1 + 256 * (n2 + 256 * (n3 + 256 * 0)))) / 16777216
               = n3 + 256 * 0).
  { change 16777216 with (256 * (256 * 256)).
    rewrite <- N.Div0.div_div. unfold n0. rewrite div_byte.
    rewrite <- N.Div0.div_div. unfold n1. rewrite div_byte.
    unfold n2. rewrite div_byte. reflexivity. }
  rewrite E1, E2. unfold n0 at 2. rewrite div_byte.
  unfold n0, n1, n2, n3. rewrite !byte_of_N_to_N. reflexivity.
Qed.

Lemma read_u32le_bound (bytes : list byte) : read_u32le bytes < 2 ^ 32.
Proof.
  unfold read_u32le.
  destruct bytes as [|b0 [|b1 [|b2 [|b3 z]]]]; try reflexivity.
  pose proof (Byte.to_N_bounded b0). pose proof (Byte.to_N_bounded b1).
  pose proof (Byte.to_N_bounded b2). pose proof (Byte.to_N_bounded b3).
  change (2 ^ 32) with 4294967296. lia.
Qed.

Lemma read_u32le_frame (n : N) (z : list byte) :
  n < 2 ^ 32 -> read_u32le (u32le n ++ z) = n.
Proof.
  intros Hn. unfold u32le. cbn [app read_u32le]. rewrite !to_N_byte_of_N.
  change (2 ^ 32) with 4294967296 in Hn.
  change 65536 with (256 * 256). change 16777216 with (256 * 256 * 256).
  rewrite <- !N.Div0.div_div.
  set (q1 := n / 256). set (q2 := q1 / 256). set (q3 := q2 / 256).
  pose proof (N.div_mod n 256) as E0. pose proof (N.div_mod q1 256) as E1.
  pose proof (N.div_mod q2 256) as E2.
  fold q1 in E0. fold q2 in E1. fold q3 in E2.
  assert (q3 < 256).
  { unfold q3, q2, q1. rewrite !N.Div0.div_div. apply N.Div0.div_lt_upper_bound. lia. }
  rewrite (N.mod_small q3) by lia. lia.
Qed.

Lemma length_u32le (n : N) : length (u32le n) = 4%nat.
Proof. reflexivity. Qed.

Lemma length_frame (payload : list byte) :
  length (frame payload) = (4 + length payload)%nat.
Proof. unfold frame. rewrite length_app, length_u32le. reflexivity. Qed.

Lemma next_frame_Some (bytes payload rest : list byte) :
  next_frame bytes = Some (payload, rest) ->
  bytes = frame payload ++ rest /\ N.of_nat (length payload) < 2 ^ 32.
Proof.
  unfold next_frame.
  destruct (N.of_nat (length bytes) <? 4) eqn:E4; [discriminate|].
  destruct (N.of_nat (length bytes) <? 4 + read_u32le bytes) eqn:Es; [discriminate|].
  apply N.ltb_ge in E4, Es.
  intros H. injection H as <- <-.
  destruct bytes as [|b0 [|b1 [|b2 [|b3 z]]]]; cbn [length] in E4; try lia.
  set (size := read_u32le (b0 :: b1 :: b2 :: b3 :: z)) in *.
  cbn [length] in Es.
  assert (Hlen : length (take (N.to_nat size) z) = N.to_nat size).
  { rewrite length_take. lia. }
  change (drop 4 (b0 :: b1 :: b2 :: b3 :: z)) with z.
  change (drop (4 + N.to_nat size) (b0 :: b1 :: b2 :: b3 :: z)) with (drop (N.to_nat size) z).
  split.
  - unfold frame. rewrite Hlen, N2Nat.id. unfold size at 1. rewrite u32le_read.
    cbn [app drop]. rewrite take_drop. reflexivity.
  - rewrite Hlen, N2Nat.id. apply read_u32le_bound.
Qed.

Lemma next_frame_frame (payload z : list byte) :
  N.of_nat (length payload) < 2 ^ 32 ->
  next_frame (frame payload ++ z) = Some (payload, z).
Proof.
  intros Hv. unfold next_frame.
  assert (Hr : read_u32le (frame payload ++ z) = N.of_nat (length payload)).
  { unfold frame. rewrite <- app_assoc. apply read_u32le_frame. exact Hv. }
  rewrite Hr, length_app, length_frame.
  destruct (N.of_nat (4 + length payload + length z) <? 4) eqn:E4;
    [apply N.ltb_lt in E4; lia|].
  destruct (N.of_nat (4 + length payload + length z) <? 4 + N.of_nat (length payload)) eqn:Es;
    [apply N.ltb_lt in Es; lia|].
  rewrite Nat2N.id. unfold frame. rewrite <- app_assoc.
  change (drop 4 (u32le (N.of_nat (length payload)) ++ payload ++ z)) with (payload ++ z).
  change (drop (4 + length payload) (u32le (N.of_nat (length payload)) ++ payload ++ z))
    with (drop (length payload) (payload ++ z)).
  rewrite take_app_length, drop_app_length. reflexivity.
Qed.

Lemma next_frame_None (bytes : list byte) : next_frame bytes = None <-> incomplete bytes.
Proof.
  unfold next_frame, incomplete.
  destruct (N.of_nat (length bytes) <? 4) eqn:E4.
  - apply N.ltb_lt in E4. tauto.
  - apply N.ltb_ge in E4.
    destruct (N.of_nat (length bytes) <? 4 + read_u32le bytes) eqn:Es.
    + apply N.ltb_lt in Es. tauto.
    + apply N.ltb_ge in Es. split; [discriminate|]. intros [H|H]; lia.
Qed.

Context {A : Type}.
Variable callback : A -> CallbackArgs -> A.

Lemma length_frames_cons (p : list byte) (ps : list (list byte)) :
  length (frames (p :: ps)) = (4 + length p + length (frames ps))%nat.
Proof.
  unfold frames. cbn [List.map concat]. rewrite length_app, length_frame. reflexivity.
Qed.

Lemma length_frames_ge (ps : list (list byte)) : (length ps <= length (frames ps))%nat.
Proof.
  induction ps as [|p ps IH]; [cbn; lia|].
  rewrite length_frames_cons. cbn [length]. lia.
Qed.

Lemma ingest_loop_frames (ps : list (list byte)) :
  forall (fuel : nat) (st : StreamingFlatBufferStore) (acc : A) (z : list byte) (pos count : N),
    valid_payloads ps ->
    ingest_loop callback (length ps + fuel) st acc (frames ps ++ z) pos count
    = ingest_loop callback fuel (fst (append_all callback st acc ps))
        (snd (append_all callback st acc ps)) z
        (pos + N.of_nat (length (frames ps))) (count + N.of_nat (length ps)).
Proof.
  induction ps as [|p ps IH]; intros fuel st acc z pos count Hv.
  - cbn. rewrite !N.add_0_r. reflexivity.
  - inversion Hv as [|? ? Hp Hps]; subst.
    cbn [length Nat.add ingest_loop].
    change (frames (p :: ps)) with (frame p ++ frames ps).
    rewrite <- app_assoc, (next_frame_frame p _ Hp).
    cbn [append_all].
    destruct (ingestFlatBuffer callback st acc p) as [[st1 acc1] sq].
    rewrite (IH fuel st1 acc1 z _ _ Hps).
    f_equal.
    + rewrite length_app, length_frame. lia.
    + cbn [length]. lia.
Qed.

Lemma ingest_frames (st : StreamingFlatBufferStore) (acc : A) (ps : list (list byte))
    (tail : list byte) :
  valid_payloads ps -> next_frame tail = None ->
  ingest callback st acc (frames ps ++ tail)
  = Ok (fst (append_all callback st acc ps), snd (append_all callback st acc ps),
        N.of_nat (length (frames ps)), N.of_nat (length ps)).
Proof.
  intros Hv Ht. unfold ingest.
  pose proof (length_frames_ge ps) as Hge.
  replace (S (length (frames ps ++ tail)))
    with (length ps + S (length (frames ps ++ tail) - length ps))%nat
    by (rewrite length_app; lia).
  rewrite (ingest_loop_frames ps _ st acc tail 0 0 Hv).
  cbn [ingest_loop]. rewrite Ht. rewrite !N.add_0_l. reflexivity.
Qed.

Lemma split_frames (s : list byte) :
  exists ps tail, s = frames ps ++ tail /\ valid_payloads ps /\ next_frame tail = None.
Proof.
  remember (length s) as n eqn:Hn. revert s Hn.
  induction n as [n IH] using lt_wf_ind. intros s Hn.
  destruct (next_frame s) as [[p r]|] eqn:E.
  - destruct (next_frame_Some _ _ _ E) as [Hs Hp].
    destruct (IH (length r)) with (s := r) as (ps & tail & Hr & Hv & Ht); [|reflexivity|].
    { subst n. rewrite Hs, length_app, length_frame. lia. }
    exists (p :: ps), tail. split; [|split; [constructor; assumption|exact Ht]].
    change (frames (p :: ps)) with (frame p ++ frames ps).
    rewrite <- app_assoc, <- Hr. exact Hs.
  - exists [], s. split; [reflexivity|]. split; [constructor|exact E].
Qed.

Lemma frames_prefix (qs : list (list byte)) :
  forall (w : list byte) (ps : list (list byte)) (tail : list byte),
    valid_payloads qs -> valid_payloads ps -> next_frame tail = None ->
    frames qs ++ w = frames ps ++ tail ->
    exists ps2, ps = qs ++ ps2 /\ w = frames ps2 ++ tail.
Proof.
  induction qs as [|q qs IH]; intros w ps tail Hq Hp Ht E.
  - exists ps. split; [reflexivity|exact E].
  - inversion Hq as [|? ? Hq1 Hq2]; subst.
    change (frames (q :: qs)) with (frame q ++ frames qs) in E.
    rewrite <- app_assoc in E.
    pose proof (next_frame_frame q (frames qs ++ w) Hq1) as N1.
    rewrite E in N1.
    destruct ps as [|p ps].
    + cbn in N1. rewrite Ht in N1. discriminate.
    + inversion Hp as [|? ? Hp1 Hp2]; subst.
      change (frames (p :: ps)) with (frame p ++ frames ps) in N1.
      rewrite <- app_assoc, (next_frame_frame p _ Hp1) in N1.
      injection N1 as -> E'.
      destruct (IH w ps tail Hq2 Hp2 Ht (eq_sym E')) as (ps2 & -> & Hw).
      exists ps2. split; [reflexivity|exact Hw].
Qed.

Lemma append_all_app (ps qs : list (list byte)) :
  forall (st : StreamingFlatBufferStore) (acc : A),
    append_all callback st acc (ps ++ qs)
    = append_all callback (fst (append_all callback st acc ps))
        (snd (append_all callback st acc ps)) qs.
Proof.
  induction ps as [|p ps IH]; intros st acc; [reflexivity|].
  cbn [app append_all].
  destruct (ingestFlatBuffer callback st acc p) as [[st1 acc1] sq]. apply IH.
Qed.

Lemma feed_bytes_frames (allData : list byte) :
  forall (st : StreamingFlatBufferStore) (acc : A) (buffer : list byte) (total : N)
         (ps : list (list byte)) (tail : list byte),
    next_frame buffer = None ->
    buffer ++ allData = frames ps ++ tail ->
    valid_payloads ps -> next_frame tail = None ->
    feed_bytes callback st acc buffer total allData
    = Ok (fst (append_all callback st acc ps), snd (append_all callback st acc ps),
          tail, total + N.of_nat (length ps)).
Proof.
  induction allData as [|b allData IH]; intros st acc buffer total ps tail Hb E Hv Ht.
  - rewrite app_nil_r in E. cbn [feed_bytes].
    destruct ps as [|p ps].
    + cbn in E. subst tail. cbn. rewrite N.add_0_r. reflexivity.
    + inversion Hv as [|? ? Hp1 Hp2]; subst.
      change (frames (p :: ps)) with (frame p ++ frames ps) in Hb.
      rewrite <- app_assoc, (next_frame_frame p _ Hp1) in Hb. discriminate.
  - cbn [feed_bytes].
    destruct (split_frames (buffer ++ [b])) as (qs & t & Hx & Hq & Hnt).
    rewrite Hx at 1. rewrite (ingest_frames st acc qs t Hq Hnt).
    cbn [bind].
    assert (Hbuf : (if 0 <? N.of_nat (length (frames qs))
                    then drop (N.to_nat (N.of_nat (length (frames qs)))) (buffer ++ [b])
                    else buffer ++ [b]) = t).
    { rewrite Hx. destruct (0 <? N.of_nat (length (frames qs))) eqn:E0.
      - rewrite Nat2N.id, drop_app_length. reflexivity.
      - apply N.ltb_ge in E0. destruct (frames qs); [reflexivity|cbn in E0; lia]. }
    rewrite Hbuf.
    assert (E' : frames qs ++ (t ++ allData) = frames ps ++ tail).
    { rewrite app_assoc, <- Hx, <- app_assoc. exact E. }
    destruct (frames_prefix qs _ ps tail Hq Hv Ht E') as (ps2 & -> & Hw).
    apply Forall_app in Hv. destruct Hv as [_ Hv2].
    rewrite (IH _ _ t _ ps2 tail Hnt Hw Hv2 Ht).
    rewrite append_all_app, length_app, Nat2N.inj_add, N.add_assoc. reflexivity.
Qed.

Lemma ingestFlatBuffer_log (st : StreamingFlatBufferStore) (acc : A) (p : list byte) :
  let st' := fst (fst (ingestFlatBuffer callback st acc p)) in
  data_ st' = data_ st ++ frame p /\
  writeOffset_ st' = writeOffset_ st + 4 + N.of_nat (length p) /\
  nextSequence_ st' = nextSequence_ st + 1 /\
  recordCount_ st' = recordCount_ st + 1.
Proof. cbn. auto. Qed.

Lemma append_all_log (ps : list (list byte)) :
  forall (st : StreamingFlatBufferStore) (acc : A),
    let st' := fst (append_all callback st acc ps) in
    data_ st' = data_ st ++ frames ps /\
    writeOffset_ st' = writeOffset_ st + N.of_nat (length (frames ps)) /\
    nextSequence_ st' = nextSequence_ st + N.of_nat (length ps) /\
    recordCount_ st' = recordCount_ st + N.of_nat (length ps).
Proof.
  induction ps as [|p ps IH]; intros st acc; cbn zeta.
  - cbn. rewrite app_nil_r, !N.add_0_r. auto.
  - cbn [append_all].
    pose proof (ingestFlatBuffer_log st acc p) as H0. cbn zeta in H0.
    destruct (ingestFlatBuffer callback st acc p) as [[st1 acc1] sq].
    cbn [fst] in H0. destruct H0 as (G1 & G2 & G3 & G4).
    destruct (IH st1 acc1) as (H1 & H2 & H3 & H4).
    rewrite H1, H2, H3, H4, G1, G2, G3, G4.
    change (frames (p :: ps)) with (frame p ++ frames ps).
    rewrite length_app, length_frame. cbn [length].
    rewrite <- !app_assoc. repeat split; lia.
Qed.

(** C6.  Every byte stream is a run of complete frames followed by a tail
    with no complete frame at its front.  On such a stream one call of
    ingest appends the payloads of the frames in order, reports the length
    of the run as bytesConsumed and the number of frames as
    recordsProcessed, and stops at the tail; feeding the stream one byte at
    a time, with the unconsumed bytes kept for the next call, ends in the
    same store and with the same callback invocations, hence the same
    sequence numbers, the same total of records, and the tail left in the
    buffer.  The log grows by exactly the consumed bytes and the sequence
    counter by the number of frames. *)
Theorem ingest_bytewise_same :
  (forall s : list byte,
     exists payloads tail,
       s = frames payloads ++ tail /\ valid_payloads payloads /\ incomplete tail) /\
  (forall (st : StreamingFlatBufferStore) (acc : A) (payloads : list (list byte))
          (tail : list byte),
     valid_payloads payloads -> incomplete tail ->
     let s := frames payloads ++ tail in
     let st' := fst (append_all callback st acc payloads) in
     let acc' := snd (append_all callback st acc payloads) in
     ingest callback st acc s
     = Ok (st', acc', N.of_nat (length (frames payloads)), N.of_nat (length payloads)) /\
     feed_bytes callback st acc [] 0 s = Ok (st', acc', tail, N.of_nat (length payloads)) /\
     data_ st' = data_ st ++ frames payloads /\
     writeOffset_ st' = writeOffset_ st + N.of_nat (length (frames payloads)) /\
     nextSequence_ st' = nextSequence_ st + N.of_nat (length payloads)).
Proof.
  split.
  - intros s. destruct (split_frames s) as (ps & tail & Hs & Hv & Ht).
    exists ps, tail. rewrite <- next_frame_None. auto.
  - intros st acc ps tail Hv Ht. cbn zeta. apply next_frame_None in Ht.
    split; [apply ingest_frames; assumption|].
    split.
    + rewrite (feed_bytes_frames _ st acc [] 0 ps tail); auto.
    + destruct (append_all_log ps st acc) as (H1 & H2 & H3 & _). auto.
Qed.

End LogFacts.

Section LogExamples.

Import StreamingStore.
Local Open Scope N_scope.

Lemma ingest_bytewise_same_witness :
  exists st' acc',
    ingest record_args StreamingFlatBufferStore_new [] (frames [[x01]; []] ++ [x05])
    = Ok (st', acc', 9, 2) /\
    feed_bytes record_args StreamingFlatBufferStore_new [] [] 0 (frames [[x01]; []] ++ [x05])
    = Ok (st', acc', [x05], 2) /\
    List.map cb_sequence acc' = [1; 2].
Proof.
  destruct (proj2 (ingest_bytewise_same record_args) StreamingFlatBufferStore_new []
              [[x01]; []] [x05]) as (H1 & H2 & _).
  - repeat constructor.
  - left. reflexivity.
  - eexists _, _. split; [exact H1|]. split; [exact H2|]. reflexivity.
Defined.

(** The partial-frame scenario of the specification: of a record of 60
    bytes behind its size prefix, 3 bytes, then 4, then all 64 are offered. *)
Example partial_frame :
  let s := frame (repeat x2a 60) in
  let consumed (bytes : list byte) :=
    match ingest record_args StreamingFlatBufferStore_new [] bytes with
    | Ok (_, _, c, n) => Some (c, n)
    | Err _ => None
    end in
  consumed (take 3 s) = Some (0, 0) /\
  consumed (take 4 s) = Some (0, 0) /\
  consumed s = Some (64, 1).
Proof. vm_compute. auto. Qed.

Lemma append_all_sequences (ps : list (list byte)) :
  forall (st : StreamingFlatBufferStore) (acc : list CallbackArgs),
    List.map cb_sequence (snd (append_all record_args st acc ps))
    = List.map cb_sequence acc
      ++ List.map (fun i => nextSequence_ st + N.of_nat i) (seq 0 (length ps)).
Proof.
  induction ps as [|p ps IH]; intros st acc.
  - cbn. rewrite app_nil_r. reflexivity.
  - cbn [append_all].
    destruct (ingestFlatBuffer record_args st acc p) as [[st1 acc1] sq] eqn:E.
    unfold ingestFlatBuffer in E. injection E as <- <- _.
    rewrite IH. unfold record_args at 1. rewrite List.map_app, <- app_assoc.
    f_equal. cbn [List.map cb_sequence length seq app indexRecord nextSequence_].
    rewrite N.add_0_r. f_equal.
    rewrite <- seq_shift, List.map_map. apply List.map_ext. intros i. lia.
Qed.

End LogExamples.
(** ** The two back-ends side by side *)

Section IntegerKeys.

Implicit Types (t : BTree) (T : tree) (e : IndexEntry) (k : Value) (l es : list IndexEntry).

Let ik (e : IndexEntry) : Z := int_of (key e).
Let ints (l : list IndexEntry) : Prop := List.Forall (fun e => is_integer (key e)) l.
Let M (k : Value) : list IndexEntry -> list IndexEntry := List.filter (key_matches k).

Lemma cmp_int (a b : Value) :
  is_integer a -> is_integer b -> compareValues a b = three_way (int_of a) (int_of b).
Proof.
  unfold is_integer, int_of. intros Ha Hb.
  destruct (tryGetInt64 a) as [x|] eqn:Ea; [|contradiction].
  destruct (tryGetInt64 b) as [y|] eqn:Eb; [|contradiction].
  apply compareValues_ints; assumption.
Qed.

Lemma three_way_lt (x y : Z) : three_way x y < 0 <-> x < y.
Proof. unfold three_way. destruct (Z.ltb_spec x y), (Z.ltb_spec y x); lia. Qed.

Lemma three_way_le (x y : Z) : three_way x y <= 0 <-> x <= y.
Proof. unfold three_way. destruct (Z.ltb_spec x y), (Z.ltb_spec y x); lia. Qed.

Lemma three_way_gt (x y : Z) : three_way x y > 0 <-> y < x.
Proof. unfold three_way. destruct (Z.ltb_spec x y), (Z.ltb_spec y x); lia. Qed.

Lemma three_way_eq (x y : Z) : three_way x y = 0 <-> x = y.
Proof. unfold three_way. destruct (Z.ltb_spec x y), (Z.ltb_spec y x); lia. Qed.

Lemma matches_int k e :
  is_integer k -> is_integer (key e) -> key_matches k e = (int_of k =? ik e).
Proof.
  intros Hk He. unfold key_matches. rewrite (cmp_int _ _ Hk He).
  destruct (Z.eqb_spec (three_way (int_of k) (int_of (key e))) 0) as [H|H];
    rewrite three_way_eq in H; symmetry; [apply Z.eqb_eq | apply Z.eqb_neq]; exact H.
Qed.

Lemma M_none k l :
  is_integer k -> ints l -> List.Forall (fun e => ik e <> int_of k) l -> M k l = [].
Proof.
  intros Hk. induction l as [|e l IH]; intros Hi Hn; [reflexivity|].
  inversion Hi; inversion Hn; subst. unfold M in *. cbn [List.filter].
  rewrite matches_int by assumption.
  destruct (Z.eqb_spec (int_of k) (ik e)); [congruence|]. apply IH; assumption.
Qed.

Lemma M_app k l1 l2 : M k (l1 ++ l2) = M k l1 ++ M k l2.
Proof. apply List.filter_app. Qed.

Lemma advance_split (p : IndexEntry -> bool) es :
  exists es1 es2,
    es = es1 ++ es2 /\ List.Forall (fun e => p e = true) es1 /\
    (forall e, head es2 = Some e -> p e = false) /\
    forall i, advance p es i = (i + List.length es1)%nat.
Proof.
  induction es as [|e es (es1 & es2 & E & H1 & H2 & H3)].
  - exists [], []. repeat split; [constructor | discriminate | intros; cbn; lia].
  - destruct (p e) eqn:Ep.
    + exists (e :: es1), es2. subst es. split; [reflexivity|].
      split; [constructor; assumption|]. split; [exact H2|].
      intros i. cbn [advance]. rewrite Ep, H3. cbn [List.length]. lia.
    + exists [], (e :: es). split; [reflexivity|]. split; [constructor|].
      split; [intros e' [= <-]; exact Ep|].
      intros i. cbn [advance]. rewrite Ep. cbn. lia.
Qed.

Lemma collect_equal_spec k es :
  is_integer k -> ints es -> StronglySorted key_lt es ->
  (forall e, head es = Some e -> int_of k <= ik e) ->
  forall acc, collect_equal k es acc = acc ++ M k es.
Proof.
  intros Hk. induction es as [|e es IH]; intros Hi Hs Hh acc.
  - cbn. rewrite app_nil_r. reflexivity.
  - inversion Hi as [|? ? He Hi']; subst.
    apply StronglySorted_inv in Hs as [Hs Hlt].
    specialize (Hh e eq_refl).
    assert (Hgt : List.Forall (fun x => ik e < ik x) es).
    { rewrite List.Forall_forall in *. intros x Hx. specialize (Hlt x Hx).
      unfold key_lt in Hlt. rewrite (cmp_int _ _ He (Hi' x Hx)), three_way_lt in Hlt.
      exact Hlt. }
    cbn [collect_equal]. unfold M. cbn [List.filter].
    change (compareValues k (key e) =? 0) with (key_matches k e).
    rewrite (matches_int k e Hk He).
    destruct (Z.eqb_spec (int_of k) (ik e)) as [E|E].
    + rewrite IH; try assumption.
      * fold (M k es). rewrite (M_none k es Hk Hi').
        { rewrite <- app_assoc. reflexivity. }
        eapply List.Forall_impl; [|exact Hgt]. cbn. intros; lia.
      * intros x Hx. destruct es as [|y es']; [discriminate|]. injection Hx as ->.
        inversion Hgt; subst. lia.
    + fold (M k es). rewrite (M_none k es Hk Hi'); [rewrite app_nil_r; reflexivity|].
      eapply List.Forall_impl; [|exact Hgt]. cbn. intros; lia.
Qed.

Lemma key_lt_int e1 e2 :
  is_integer (key e1) -> is_integer (key e2) -> key_lt e1 e2 <-> ik e1 < ik e2.
Proof. intros H1 H2. unfold key_lt. rewrite (cmp_int _ _ H1 H2). apply three_way_lt. Qed.

Lemma weave_r_sub {A : Type} (P : A -> Prop) (es : list A) :
  forall cs : list (list A),
    List.length cs = List.length es -> List.Forall P (weave_r es cs) -> List.Forall P es.
Proof.
  induction es as [|e es IH]; intros [|c cs] Hlen H; try discriminate Hlen;
    [constructor|].
  cbn [weave_r] in H. inversion H as [|? ? He Hrest]; subst.
  apply List.Forall_app in Hrest as [_ Hrest].
  constructor; [exact He|]. apply (IH cs); [simpl in Hlen; lia | exact Hrest].
Qed.

Lemma weave_r_sorted {A : Type} (R : A -> A -> Prop) (es : list A) :
  forall cs : list (list A),
    List.length cs = List.length es -> StronglySorted R (weave_r es cs) ->
    StronglySorted R es.
Proof.
  induction es as [|e es IH]; intros [|c cs] Hlen H; try discriminate Hlen;
    [constructor|].
  cbn [weave_r] in H. apply StronglySorted_inv in H as [Hs He].
  apply SS_app_iff in Hs as (_ & Hs & _).
  apply List.Forall_app in He as [_ He].
  constructor; [apply (IH cs); [simpl in Hlen; lia | exact Hs]|].
  apply (weave_r_sub _ es cs); [simpl in Hlen; lia | exact He].
Qed.

Lemma interleave_entries {A : Type} (R : A -> A -> Prop) (P : A -> Prop)
    (cs : list (list A)) (es : list A) :
  cs = [] \/ List.length cs = S (List.length es) ->
  StronglySorted R (interleave cs es) -> List.Forall P (interleave cs es) ->
  StronglySorted R es /\ List.Forall P es.
Proof.
  intros [-> | Hlen] Hs Hp; [auto|].
  destruct cs as [|c cs]; [discriminate Hlen|]. cbn [interleave] in *.
  injection Hlen as Hlen.
  apply SS_app_iff in Hs as (_ & Hs & _). apply List.Forall_app in Hp as [_ Hp].
  split; [eapply weave_r_sorted | eapply weave_r_sub]; eassumption.
Qed.

Lemma weave_l_below (b : Z) (cs : list (list IndexEntry)) :
  forall es,
    StronglySorted key_lt (weave_l cs es) -> ints (weave_l cs es) ->
    List.Forall (fun e => ik e < b) es ->
    List.Forall (fun x => ik x < b) (weave_l cs es).
Proof.
  induction cs as [|c cs IH]; intros [|e es] Hs Hi Hb; try constructor.
  cbn [weave_l] in *.
  apply SS_app_iff in Hs as (_ & Hs & Hce).
  apply StronglySorted_inv in Hs as [Hs _].
  apply List.Forall_app in Hi as [Hic Hi]. inversion Hi as [|? ? Hie Hi']; subst.
  inversion Hb as [|? ? Hbe Hb']; subst.
  apply List.Forall_app. split.
  - rewrite List.Forall_forall in *. intros x Hx.
    specialize (Hce x Hx). inversion Hce as [|? ? Hxe _]; subst.
    apply key_lt_int in Hxe; [lia | auto | exact Hie].
  - constructor; [exact Hbe|]. apply IH; assumption.
Qed.

Lemma locate k es (cs : list tree) :
  is_integer k ->
  StronglySorted key_lt (interleave (List.map inorder cs) es) ->
  ints (interleave (List.map inorder cs) es) ->
  cs = [] \/ List.length cs = S (List.length es) ->
  exists es1 es2,
    es = es1 ++ es2 /\
    (forall i, advance (fun e => compareValues k (key e) >? 0) es i
               = (i + List.length es1)%nat) /\
    List.Forall (fun e => ik e < int_of k) es1 /\
    List.Forall (fun e => int_of k <= ik e) es2 /\
    ints es /\
    (forall acc, collect_equal k es2 acc = acc ++ M k es2) /\
    M k es2 = match es2 with
              | e :: _ => if int_of k =? ik e then [e] else []
              | [] => []
              end /\
    (cs = [] -> M k (interleave (List.map inorder cs) es) = M k es2) /\
    (List.length cs = S (List.length es) ->
     exists cs1 c cs2,
       cs = cs1 ++ c :: cs2 /\ List.length cs1 = List.length es1 /\
       M k (interleave (List.map inorder cs) es) = M k (inorder c) ++ M k es2 /\
       (M k es2 <> [] -> M k (inorder c) = []) /\
       StronglySorted key_lt (inorder c) /\ ints (inorder c)).
Proof.
  intros Hk Hs Hi Hshape.
  destruct (interleave_entries key_lt (fun e => is_integer (key e))
              (List.map inorder cs) es) as [Hes Hies]; try assumption.
  { destruct Hshape as [-> | H]; [left; reflexivity | right; rewrite length_map; exact H]. }
  destruct (advance_split (fun e => compareValues k (key e) >? 0) es)
    as (es1 & es2 & E & H1 & H2 & H3).
  subst es. exists es1, es2.
  apply SS_app_iff in Hes as (Hs1 & Hs2 & _).
  pose proof Hies as Hies0.
  apply List.Forall_app in Hies as [Hi1 Hi2].
  assert (Hlow : List.Forall (fun e => ik e < int_of k) es1).
  { rewrite List.Forall_forall in *. intros e He. specialize (H1 e He).
    apply Z.gtb_lt in H1. rewrite (cmp_int _ _ Hk (Hi1 e He)) in H1.
    exact (proj1 (three_way_gt _ _) (Z.lt_gt _ _ H1)). }
  assert (Hhead : forall e, head es2 = Some e -> int_of k <= ik e).
  { intros e He. specialize (H2 e He).
    assert (Hie : is_integer (key e)).
    { destruct es2 as [|x es2']; [discriminate|]. injection He as ->.
      inversion Hi2; assumption. }
    rewrite (cmp_int _ _ Hk Hie) in H2.
    destruct (Z.gtb_spec (three_way (int_of k) (int_of (key e))) 0) as [G|G];
      [discriminate|].
    exact (proj1 (three_way_le _ _) G). }
  assert (Hrest : forall e es2', es2 = e :: es2' -> List.Forall (fun x => ik e < ik x) es2').
  { intros e es2' ->. apply StronglySorted_inv in Hs2 as [_ Hlt].
    inversion Hi2 as [|? ? Hie Hi2']; subst.
    rewrite List.Forall_forall in *. intros x Hx.
    apply key_lt_int; auto. }
  assert (Hhigh : List.Forall (fun e => int_of k <= ik e) es2).
  { destruct es2 as [|e es2']; [constructor|].
    specialize (Hhead e eq_refl). constructor; [exact Hhead|].
    eapply List.Forall_impl; [|exact (Hrest e es2' eq_refl)]. cbn. intros; lia. }
  assert (HM2 : M k es2 = match es2 with
                          | e :: _ => if int_of k =? ik e then [e] else []
                          | [] => []
                          end).
  { destruct es2 as [|e es2']; [reflexivity|].
    inversion Hi2 as [|? ? Hie Hi2']; subst.
    unfold M. cbn [List.filter]. rewrite (matches_int k e Hk Hie).
    fold (M k es2'). rewrite (M_none k es2' Hk Hi2').
    - destruct (int_of k =? ik e); reflexivity.
    - specialize (Hhead e eq_refl).
      eapply List.Forall_impl; [|exact (Hrest e es2' eq_refl)]. cbn. intros; lia. }
  assert (HM1 : M k es1 = []).
  { apply (M_none k es1 Hk Hi1).
    eapply List.Forall_impl; [|exact Hlow]. cbn. intros; lia. }
  split; [reflexivity|]. split; [exact H3|]. split; [exact Hlow|].
  split; [exact Hhigh|]. split; [exact Hies0|].
  split; [intros acc; apply collect_equal_spec; assumption|].
  split; [exact HM2|]. split.
  - intros ->. cbn [List.map interleave]. rewrite M_app, HM1. reflexivity.
  - intros Hlen. rewrite length_app in Hlen.
    destruct (nth_error cs (List.length es1)) as [c|] eqn:Ec.
    2: { apply nth_error_None in Ec. lia. }
    apply nth_error_split in Ec as (cs1 & cs2 & -> & Hlen1).
    exists cs1, c, cs2. split; [reflexivity|]. split; [exact Hlen1|].
    rewrite List.map_app in Hs, Hi |- *. cbn [List.map] in Hs, Hi |- *.
    rewrite interleave_split in Hs, Hi |- * by (rewrite length_map; exact Hlen1).
    set (W1 := weave_l (List.map inorder cs1) es1) in *.
    set (W2 := weave_r es2 (List.map inorder cs2)) in *.
    apply SS_app_iff in Hs as (HsW1 & Hs & _).
    apply SS_app_iff in Hs as (HsC & HsW2 & HCW).
    apply List.Forall_app in Hi as [HiW1 Hi]. apply List.Forall_app in Hi as [HiC HiW2].
    assert (HMW1 : M k W1 = []).
    { apply (M_none k W1 Hk HiW1).
      eapply List.Forall_impl; [|exact (weave_l_below (int_of k) _ es1 HsW1 HiW1 Hlow)].
      cbn. intros; lia. }
    assert (HMW2 : M k W2 = M k es2 /\ (M k es2 <> [] -> M k (inorder c) = [])).
    { rewrite HM2. destruct es2 as [|e es2'].
      - split; [reflexivity | congruence].
      - destruct cs2 as [|c2 cs2'].
        { rewrite !length_app in Hlen. cbn [List.length] in Hlen. lia. }
        specialize (Hhead e eq_refl).
        unfold W2 in *. cbn [List.map weave_r] in *.
        apply StronglySorted_inv in HsW2 as [_ Hlt].
        inversion HiW2 as [|? ? Hie HiR]; subst.
        unfold M at 1. cbn [List.filter]. rewrite (matches_int k e Hk Hie).
        match goal with
        | |- context [List.filter (key_matches k) ?r] => fold (M k r); rewrite (M_none k r Hk HiR)
        end.
        + split; [destruct (int_of k =? ik e); reflexivity|].
          destruct (Z.eqb_spec (int_of k) (ik e)) as [Eq|]; [|congruence].
          intros _. apply (M_none k _ Hk HiC).
          rewrite List.Forall_forall in *. intros x Hx.
          specialize (HCW x Hx). inversion HCW as [|? ? Hxe _]; subst.
          apply key_lt_int in Hxe; [lia | auto | exact Hie].
        + rewrite List.Forall_forall in *. intros x Hx.
          specialize (Hlt x Hx). apply key_lt_int in Hlt; [lia | exact Hie | auto]. }
    destruct HMW2 as [HMW2 Hc].
    split; [rewrite !M_app, HMW1, HMW2; reflexivity|].
    split; [exact Hc|]. split; assumption.
Qed.

Lemma searchNode_spec (fuel : nat) t k :
  is_integer k ->
  forall T acc,
    rep (nodes_ t) T -> (height T <= fuel)%nat ->
    StronglySorted key_lt (inorder T) -> ints (inorder T) ->
    searchNode fuel t (tid T) k acc = Ok (acc ++ M k (inorder T)).
Proof.
  intros Hk. induction fuel as [|fuel IH]; intros T acc Hrep Hh Hs Hi.
  { destruct T; simpl in Hh; lia. }
  destruct T as [id leaf es cs]. cbn [tid searchNode].
  inversion Hrep as [? ? ? ? Hsh Hl Hcs]; subst.
  destruct (getNode_shape _ _ _ Hsh) as (n & Hg & Hshp).
  apply shape_eq in Hshp as (Hn1 & Hn2 & Hn3).
  rewrite Hg. cbn [bind]. rewrite Hn1, Hn2, Hn3.
  cbn [inorder] in Hs, Hi |- *.
  destruct (locate k es cs Hk Hs Hi)
    as (es1 & es2 & E & Hadv & _ & _ & _ & Hcol & _ & Hleaf & Hint).
  { destruct leaf; auto. }
  rewrite !Hadv. cbn [Nat.add]. clear Hg Hn1 Hn2 Hn3. subst es.
  rewrite drop_app_length, Hcol.
  destruct leaf; cbn [negb].
  - rewrite (Hleaf Hl). reflexivity.
  - destruct (Hint Hl) as (cs1 & c & cs2 & -> & Hlen1 & HM & Hc & Hsc & Hic).
    rewrite (List.map_app tid). cbn [List.map].
    rewrite vec_at_middle' by (rewrite length_map; auto). cbn [bind].
    rewrite IH; try assumption.
    + rewrite HM, <- app_assoc. f_equal.
      destruct (M k es2) as [|x r] eqn:E2; [rewrite app_nil_r; reflexivity|].
      rewrite Hc by discriminate. rewrite app_nil_r. reflexivity.
    + rewrite Forall_forall in Hcs. apply Hcs. apply elem_of_app. right.
      apply elem_of_cons. auto.
    + eapply height_rep_child; [exact Hh|]. apply elem_of_app. right.
      apply elem_of_cons. auto.
Qed.

Lemma lower_bound_spec (le : IndexEntry -> bool) (es1 es2 : list IndexEntry) :
  List.Forall (fun e => le e = false) es1 -> List.Forall (fun e => le e = true) es2 ->
  forall (n lo hi : nat),
    (lo <= List.length es1 <= hi)%nat -> (hi <= List.length (es1 ++ es2))%nat ->
    (hi - lo <= n)%nat ->
    lower_bound le (es1 ++ es2) n lo hi = Ok (List.length es1).
Proof.
  intros H1 H2. induction n as [|n IH]; intros lo hi Hb Hhi Hn; cbn [lower_bound];
    destruct (Nat.ltb_spec lo hi) as [Hlt|Hge]; try lia;
    try (f_equal; lia).
  pose proof (Nat.div_mod_eq (hi - lo) 2) as Hd.
  pose proof (Nat.mod_upper_bound (hi - lo) 2) as Hm.
  set (mid := (lo + (hi - lo) / 2)%nat).
  assert (Hmid : (lo <= mid < hi)%nat) by (unfold mid; lia).
  unfold vec_at.
  destruct (Nat.lt_ge_cases mid (List.length es1)) as [Hl|Hr].
  - rewrite nth_error_app1 by exact Hl.
    destruct (nth_error es1 mid) as [e|] eqn:E; [|apply nth_error_None in E; lia].
    cbn [bind]. rewrite List.Forall_forall in H1.
    rewrite (H1 e) by (eapply nth_error_In; exact E).
    apply IH; lia.
  - rewrite nth_error_app2 by exact Hr. rewrite length_app in Hhi.
    destruct (nth_error es2 (mid - List.length es1)) as [e|] eqn:E;
      [|apply nth_error_None in E; lia].
    cbn [bind]. rewrite List.Forall_forall in H2.
    rewrite (H2 e) by (eapply nth_error_In; exact E).
    apply IH; [lia | rewrite length_app; lia | lia].
Qed.

Lemma entry_int_int (indet : Z) e : is_integer (key e) -> entry_int indet e = ik e.
Proof.
  unfold is_integer, entry_int, ik, int_of.
  destruct (key e); cbn; try contradiction; reflexivity.
Qed.

Lemma searchNodeFirst_int (indet : Z) (fuel : nat) t (id : N) k :
  is_integer k ->
  searchNodeFirst indet fuel t id k = searchNodeFirstInt indet fuel t id (int_of k).
Proof.
  unfold is_integer, int_of. intros Hk.
  destruct (tryGetInt64 k) as [z|] eqn:E; [|contradiction].
  destruct fuel; cbn [searchNodeFirst]; rewrite E; reflexivity.
Qed.

Lemma searchNodeFirstInt_spec (indet : Z) (fuel : nat) t k :
  is_integer k ->
  forall T,
    rep (nodes_ t) T -> (height T <= fuel)%nat ->
    StronglySorted key_lt (inorder T) -> ints (inorder T) ->
    searchNodeFirstInt indet fuel t (tid T) (int_of k) = Ok (head (M k (inorder T))).
Proof.
  intros Hk. induction fuel as [|fuel IH]; intros T Hrep Hh Hs Hi.
  { destruct T; simpl in Hh; lia. }
  destruct T as [id leaf es cs]. cbn [tid searchNodeFirstInt].
  inversion Hrep as [? ? ? ? Hsh Hl Hcs]; subst.
  destruct (getNode_shape _ _ _ Hsh) as (n & Hg & Hshp).
  apply shape_eq in Hshp as (Hn1 & Hn2 & Hn3).
  rewrite Hg. cbn [bind]. rewrite Hn1, Hn2, Hn3.
  cbn [inorder] in Hs, Hi |- *.
  destruct (locate k es cs Hk Hs Hi)
    as (es1 & es2 & E & _ & Hlow & Hhigh & Hies & _ & HM2 & Hleaf & Hint).
  { destruct leaf; auto. }
  clear Hg Hn1 Hn2 Hn3. subst es. apply List.Forall_app in Hies as [Hi1 Hi2].
  rewrite (lower_bound_spec _ es1 es2).
  2: { rewrite List.Forall_forall in *. intros e He.
       rewrite (entry_int_int indet e (Hi1 e He)). apply Z.leb_gt. apply Hlow. exact He. }
  2: { rewrite List.Forall_forall in *. intros e He.
       rewrite (entry_int_int indet e (Hi2 e He)). apply Z.leb_le. apply Hhigh. exact He. }
  2, 3, 4: rewrite ?length_app; lia.
  cbn [bind]. rewrite length_app.
  assert (Hchild : leaf = false ->
            (c <- vec_at (List.map tid cs) (List.length es1) ;;
             searchNodeFirstInt indet fuel t c (int_of k))
            = Ok (head (M k (interleave (List.map inorder cs) (es1 ++ es2)))) \/
            M k es2 <> []).
  { intros ->. destruct (Hint Hl) as (cs1 & c & cs2 & -> & Hlen1 & HM & Hc & Hsc & Hic).
    destruct (M k es2) as [|x r] eqn:E2; [left | right; discriminate].
    rewrite (List.map_app tid). cbn [List.map].
    rewrite vec_at_middle' by (rewrite length_map; auto). cbn [bind].
    rewrite IH; try assumption.
    - rewrite HM, app_nil_r. reflexivity.
    - rewrite Forall_forall in Hcs. apply Hcs. apply elem_of_app. right.
      apply elem_of_cons. auto.
    - eapply height_rep_child; [exact Hh|]. apply elem_of_app. right.
      apply elem_of_cons. auto. }
  assert (Hall : M k (interleave (List.map inorder cs) (es1 ++ es2)) = M k es2 \/
                 M k es2 = []).
  { destruct leaf.
    - left. apply Hleaf. exact Hl.
    - destruct (Hint Hl) as (cs1 & c & cs2 & -> & Hlen1 & HM & Hc & _).
      destruct (M k es2) as [|x r] eqn:E2; [right; reflexivity|].
      left. rewrite HM, Hc by discriminate. reflexivity. }
  destruct es2 as [|e es2'].
  - cbn [List.length]. rewrite Nat.add_0_r, Nat.ltb_irrefl. cbn [bind].
    destruct leaf; cbn [negb andb].
    + destruct Hall as [-> | _]; [reflexivity|]. rewrite (Hleaf Hl). reflexivity.
    + rewrite length_map, Hl, length_app. cbn [List.length].
      replace (List.length es1 <? S (List.length es1 + 0))%nat with true
        by (symmetry; apply Nat.ltb_lt; lia).
      destruct (Hchild eq_refl) as [-> | H]; [reflexivity | contradiction].
  - cbn [List.length].
    replace (List.length es1 <? List.length es1 + S (List.length es2'))%nat with true
      by (symmetry; apply Nat.ltb_lt; lia).
    rewrite vec_at_middle. cbn [bind].
    inversion Hi2 as [|? ? Hie _]; subst.
    rewrite (entry_int_int indet e Hie).
    destruct (Z.eqb_spec (int_of k) (ik e)) as [Eq|Ne].
    + cbn [bind]. destruct Hall as [-> | H0]; [rewrite HM2; reflexivity|].
      rewrite HM2 in H0. discriminate H0.
    + cbn [bind].
      destruct leaf; cbn [negb andb].
      * rewrite (Hleaf Hl), HM2. reflexivity.
      * rewrite length_map, Hl, length_app. cbn [List.length].
        replace (List.length es1 <? S (List.length es1 + S (List.length es2')))%nat
          with true by (symmetry; apply Nat.ltb_lt; lia).
        destruct (Hchild eq_refl) as [-> | H]; [reflexivity|].
        rewrite HM2 in H. contradiction.
Qed.

Lemma strict_of_NoDup l :
  StronglySorted key_le l -> ints l -> List.NoDup (List.map ik l) ->
  StronglySorted key_lt l.
Proof.
  induction 1 as [|a l Hs IH Ha]; intros Hi Hn; [constructor|].
  inversion Hi as [|? ? Hia Hi']; subst. cbn [List.map] in Hn.
  apply List.NoDup_cons_iff in Hn as [Hna Hn].
  constructor; [apply IH; assumption|].
  rewrite List.Forall_forall in *. intros x Hx.
  specialize (Ha x Hx). unfold key_le in Ha.
  rewrite (cmp_int _ _ Hia (Hi' x Hx)) in Ha.
  pose proof (proj1 (three_way_le _ _) Ha) as Hle.
  apply key_lt_int; auto.
  assert (ik a <> ik x); [|unfold ik in *; lia].
  intros E. apply Hna. rewrite E. apply (List.in_map ik). exact Hx.
Qed.

Lemma sorted_perm_eq l1 :
  forall l2,
    ints l1 -> StronglySorted key_lt l1 -> StronglySorted key_lt l2 -> l1 ≡ₚ l2 ->
    l1 = l2.
Proof.
  induction l1 as [|a l1 IH]; intros l2 Hi H1 H2 Hp.
  - apply Permutation_nil in Hp. auto.
  - destruct l2 as [|b l2].
    { symmetry in Hp. apply Permutation_nil in Hp. discriminate Hp. }
    assert (Hi2 : ints (b :: l2)).
    { unfold ints. eapply Permutation_Forall; [exact Hp | exact Hi]. }
    inversion Hi as [|? ? Hia Hi1]; inversion Hi2 as [|? ? Hib Hi2']; subst.
    apply StronglySorted_inv in H1 as [H1 Ha]. apply StronglySorted_inv in H2 as [H2 Hb].
    assert (Hab : a = b).
    { assert (Hina : In a (b :: l2)).
      { eapply Permutation_in; [exact Hp | left; reflexivity]. }
      assert (Hinb : In b (a :: l1)).
      { eapply Permutation_in; [symmetry; exact Hp | left; reflexivity]. }
      destruct Hina as [->|Hina]; [reflexivity|].
      destruct Hinb as [->|Hinb]; [reflexivity|].
      rewrite List.Forall_forall in Ha, Hb.
      specialize (Ha b Hinb). specialize (Hb a Hina).
      apply key_lt_int in Ha; [|assumption..].
      apply key_lt_int in Hb; [|assumption..]. lia. }
    subst b. f_equal. apply IH; try assumption.
    eapply Permutation_cons_inv. exact Hp.
Qed.

Lemma btree_queries (kt : ValueType) (order : Z) es :
  2 <= order -> ints es -> List.NoDup (List.map ik es) ->
  exists t L,
    build kt order es = Ok t /\ L ≡ₚ es /\ StronglySorted key_lt L /\
    getEntryCount t = count_mod (List.length es) /\
    all t = Ok L /\
    (forall k, is_integer k -> search t k = Ok (M k L)) /\
    (forall k indet, is_integer k -> searchFirst indet t k = Ok (head (M k L))) /\
    (forall lo hi, is_integer lo -> is_integer hi ->
       range t lo hi = Ok (List.filter (key_in_range lo hi) L)).
Proof.
  intros Hord Hi Hn.
  destruct (build_outcome kt order es) as [(t & T & Hb & Hh & _ & Hp & Hc)|[Hlt _]]; [|lia].
  pose proof (owned_height _ _ (holds_owned _ _ Hh)) as Hheight.
  pose proof (all_spec _ _ Hh) as Hall.
  destruct Hh as (Hrep & Htid & _ & _ & Hsorted).
  assert (HiT : ints (inorder T)).
  { unfold ints. eapply Permutation_Forall; [symmetry; exact Hp | exact Hi]. }
  pose proof (Sorted_family_strong is_integer integer_family _ Hsorted HiT) as Hstrong.
  assert (Hstrict : StronglySorted key_lt (inorder T)).
  { apply strict_of_NoDup; try assumption.
    eapply Permutation_NoDup; [|exact Hn]. apply Permutation_map. symmetry. exact Hp. }
  exists t, (inorder T).
  split; [exact Hb|]. split; [exact Hp|]. split; [exact Hstrict|].
  split; [exact Hc|]. split; [exact Hall|]. split; [|split].
  - intros k Hk. unfold search. rewrite <- Htid.
    apply (searchNode_spec _ t k Hk T []); assumption.
  - intros k indet Hk. unfold searchFirst. rewrite <- Htid.
    rewrite searchNodeFirst_int by exact Hk.
    apply searchNodeFirstInt_spec; assumption.
  - intros lo hi Hlo Hhi. unfold range. rewrite <- Htid.
    apply (rangeSearch_spec is_integer integer_family lo hi Hlo Hhi _ t T []); assumption.
Qed.

End IntegerKeys.

(** *** Keys of any ordered family

    The B-tree only ever looks at the sign of compareValues.  On a set of
    keys that an integer-valued function [rk] orders the way compareValues
    does, the descents find what the integer descents find. *)

Section RankedKeys.

Implicit Types (t : BTree) (T : tree) (e : IndexEntry) (k : Value) (l es : list IndexEntry).

Variable P : Value -> Prop.
Variable rk : Value -> Z.
Hypothesis cmp_rk :
  forall a b, P a -> P b -> Z.sgn (compareValues a b) = three_way (rk a) (rk b).

Let ik (e : IndexEntry) : Z := rk (key e).
Let ints (l : list IndexEntry) : Prop := List.Forall (fun e => P (key e)) l.
Let M (k : Value) : list IndexEntry -> list IndexEntry := List.filter (key_matches k).

Lemma cmp_eqb (a b : Value) : P a -> P b -> (compareValues a b =? 0) = (rk a =? rk b).
Proof.
  intros Ha Hb. pose proof (cmp_rk a b Ha Hb) as H. unfold three_way in H.
  destruct (Z.ltb_spec (rk a) (rk b)), (Z.ltb_spec (rk b) (rk a)),
    (Z.eqb_spec (compareValues a b) 0), (Z.eqb_spec (rk a) (rk b)); try reflexivity; lia.
Qed.

Lemma cmp_gtb (a b : Value) : P a -> P b -> (compareValues a b >? 0) = (rk b <? rk a).
Proof.
  intros Ha Hb. pose proof (cmp_rk a b Ha Hb) as H. unfold three_way in H.
  destruct (Z.ltb_spec (rk a) (rk b)), (Z.ltb_spec (rk b) (rk a)),
    (Z.gtb_spec (compareValues a b) 0); try reflexivity; lia.
Qed.

Lemma cmp_leb (a b : Value) : P a -> P b -> (compareValues a b <=? 0) = (rk a <=? rk b).
Proof.
  intros Ha Hb. pose proof (cmp_rk a b Ha Hb) as H. unfold three_way in H.
  destruct (Z.ltb_spec (rk a) (rk b)), (Z.ltb_spec (rk b) (rk a)),
    (Z.leb_spec (compareValues a b) 0), (Z.leb_spec (rk a) (rk b)); try reflexivity; lia.
Qed.

Lemma M_app_rk k l1 l2 : M k (l1 ++ l2) = M k l1 ++ M k l2.
Proof. apply List.filter_app. Qed.

Lemma cmp_lt (a b : Value) : P a -> P b -> compareValues a b < 0 <-> rk a < rk b.
Proof.
  intros Ha Hb. pose proof (cmp_rk a b Ha Hb) as H. unfold three_way in H.
  destruct (Z.ltb_spec (rk a) (rk b)), (Z.ltb_spec (rk b) (rk a)); lia.
Qed.

Lemma matches_rk k e :
  P k -> P (key e) -> key_matches k e = (rk k =? ik e).
Proof.
  intros Hk He. unfold key_matches. apply cmp_eqb; assumption.
Qed.

Lemma M_none_rk k l :
  P k -> ints l -> List.Forall (fun e => ik e <> rk k) l -> M k l = [].
Proof.
  intros Hk. induction l as [|e l IH]; intros Hi Hn; [reflexivity|].
  inversion Hi; inversion Hn; subst. unfold M in *. cbn [List.filter].
  rewrite matches_rk by assumption.
  destruct (Z.eqb_spec (rk k) (ik e)); [congruence|]. apply IH; assumption.
Qed.

Lemma collect_equal_rk k es :
  P k -> ints es -> StronglySorted key_lt es ->
  (forall e, head es = Some e -> rk k <= ik e) ->
  forall acc, collect_equal k es acc = acc ++ M k es.
Proof.
  intros Hk. induction es as [|e es IH]; intros Hi Hs Hh acc.
  - cbn. rewrite app_nil_r. reflexivity.
  - inversion Hi as [|? ? He Hi']; subst.
    apply StronglySorted_inv in Hs as [Hs Hlt].
    specialize (Hh e eq_refl).
    assert (Hgt : List.Forall (fun x => ik e < ik x) es).
    { rewrite List.Forall_forall in *. intros x Hx. specialize (Hlt x Hx).
      apply (cmp_lt _ _ He (Hi' x Hx)). exact Hlt. }
    cbn [collect_equal]. unfold M. cbn [List.filter].
    change (compareValues k (key e) =? 0) with (key_matches k e).
    rewrite (matches_rk k e Hk He).
    destruct (Z.eqb_spec (rk k) (ik e)) as [E|E].
    + rewrite IH; try assumption.
      * fold (M k es). rewrite (M_none_rk k es Hk Hi').
        { rewrite <- app_assoc. reflexivity. }
        eapply List.Forall_impl; [|exact Hgt]. cbn. intros; lia.
      * intros x Hx. destruct es as [|y es']; [discriminate|]. injection Hx as ->.
        inversion Hgt; subst. lia.
    + fold (M k es). rewrite (M_none_rk k es Hk Hi'); [rewrite app_nil_r; reflexivity|].
      eapply List.Forall_impl; [|exact Hgt]. cbn. intros; lia.
Qed.

Lemma key_lt_rk e1 e2 :
  P (key e1) -> P (key e2) -> key_lt e1 e2 <-> ik e1 < ik e2.
Proof. intros H1 H2. unfold key_lt. apply cmp_lt; assumption. Qed.

Lemma weave_l_below_rk (b : Z) (cs : list (list IndexEntry)) :
  forall es,
    StronglySorted key_lt (weave_l cs es) -> ints (weave_l cs es) ->
    List.Forall (fun e => ik e < b) es ->
    List.Forall (fun x => ik x < b) (weave_l cs es).
Proof.
  induction cs as [|c cs IH]; intros [|e es] Hs Hi Hb; try constructor.
  cbn [weave_l] in *.
  apply SS_app_iff in Hs as (_ & Hs & Hce).
  apply StronglySorted_inv in Hs as [Hs _].
  apply List.Forall_app in Hi as [Hic Hi]. inversion Hi as [|? ? Hie Hi']; subst.
  inversion Hb as [|? ? Hbe Hb']; subst.
  apply List.Forall_app. split.
  - rewrite List.Forall_forall in *. intros x Hx.
    specialize (Hce x Hx). inversion Hce as [|? ? Hxe _]; subst.
    apply key_lt_rk in Hxe; [lia | auto | exact Hie].
  - constructor; [exact Hbe|]. apply IH; assumption.
Qed.

Lemma locate_rk k es (cs : list tree) :
  P k ->
  StronglySorted key_lt (interleave (List.map inorder cs) es) ->
  ints (interleave (List.map inorder cs) es) ->
  cs = [] \/ List.length cs = S (List.length es) ->
  exists es1 es2,
    es = es1 ++ es2 /\
    (forall i, advance (fun e => compareValues k (key e) >? 0) es i
               = (i + List.length es1)%nat) /\
    List.Forall (fun e => ik e < rk k) es1 /\
    List.Forall (fun e => rk k <= ik e) es2 /\
    ints es /\
    (forall acc, collect_equal k es2 acc = acc ++ M k es2) /\
    M k es2 = match es2 with
              | e :: _ => if rk k =? ik e then [e] else []
              | [] => []
              end /\
    (cs = [] -> M k (interleave (List.map inorder cs) es) = M k es2) /\
    (List.length cs = S (List.length es) ->
     exists cs1 c cs2,
       cs = cs1 ++ c :: cs2 /\ List.length cs1 = List.length es1 /\
       M k (interleave (List.map inorder cs) es) = M k (inorder c) ++ M k es2 /\
       (M k es2 <> [] -> M k (inorder c) = []) /\
       StronglySorted key_lt (inorder c) /\ ints (inorder c)).
Proof.
  intros Hk Hs Hi Hshape.
  destruct (interleave_entries key_lt (fun e => P (key e))
              (List.map inorder cs) es) as [Hes Hies]; try assumption.
  { destruct Hshape as [-> | H]; [left; reflexivity | right; rewrite length_map; exact H]. }
  destruct (advance_split (fun e => compareValues k (key e) >? 0) es)
    as (es1 & es2 & E & H1 & H2 & H3).
  subst es. exists es1, es2.
  apply SS_app_iff in Hes as (Hs1 & Hs2 & _).
  pose proof Hies as Hies0.
  apply List.Forall_app in Hies as [Hi1 Hi2].
  assert (Hlow : List.Forall (fun e => ik e < rk k) es1).
  { rewrite List.Forall_forall in *. intros e He. specialize (H1 e He).
    rewrite (cmp_gtb _ _ Hk (Hi1 e He)) in H1. apply Z.ltb_lt in H1. exact H1. }
  assert (Hhead : forall e, head es2 = Some e -> rk k <= ik e).
  { intros e He. specialize (H2 e He).
    assert (Hie : P (key e)).
    { destruct es2 as [|x es2']; [discriminate|]. injection He as ->.
      inversion Hi2; assumption. }
    rewrite (cmp_gtb _ _ Hk Hie) in H2. apply Z.ltb_ge in H2. exact H2. }
  assert (Hrest : forall e es2', es2 = e :: es2' -> List.Forall (fun x => ik e < ik x) es2').
  { intros e es2' ->. apply StronglySorted_inv in Hs2 as [_ Hlt].
    inversion Hi2 as [|? ? Hie Hi2']; subst.
    rewrite List.Forall_forall in *. intros x Hx.
    apply key_lt_rk; auto. }
  assert (Hhigh : List.Forall (fun e => rk k <= ik e) es2).
  { destruct es2 as [|e es2']; [constructor|].
    specialize (Hhead e eq_refl). constructor; [exact Hhead|].
    eapply List.Forall_impl; [|exact (Hrest e es2' eq_refl)]. cbn. intros; lia. }
  assert (HM2 : M k es2 = match es2 with
                          | e :: _ => if rk k =? ik e then [e] else []
                          | [] => []
                          end).
  { destruct es2 as [|e es2']; [reflexivity|].
    inversion Hi2 as [|? ? Hie Hi2']; subst.
    unfold M. cbn [List.filter]. rewrite (matches_rk k e Hk Hie).
    fold (M k es2'). rewrite (M_none_rk k es2' Hk Hi2').
    - destruct (rk k =? ik e); reflexivity.
    - specialize (Hhead e eq_refl).
      eapply List.Forall_impl; [|exact (Hrest e es2' eq_refl)]. cbn. intros; lia. }
  assert (HM1 : M k es1 = []).
  { apply (M_none_rk k es1 Hk Hi1).
    eapply List.Forall_impl; [|exact Hlow]. cbn. intros; lia. }
  split; [reflexivity|]. split; [exact H3|]. split; [exact Hlow|].
  split; [exact Hhigh|]. split; [exact Hies0|].
  split; [intros acc; apply collect_equal_rk; assumption|].
  split; [exact HM2|]. split.
  - intros ->. cbn [List.map interleave]. rewrite M_app_rk, HM1. reflexivity.
  - intros Hlen. rewrite length_app in Hlen.
    destruct (nth_error cs (List.length es1)) as [c|] eqn:Ec.
    2: { apply nth_error_None in Ec. lia. }
    apply nth_error_split in Ec as (cs1 & cs2 & -> & Hlen1).
    exists cs1, c, cs2. split; [reflexivity|]. split; [exact Hlen1|].
    rewrite List.map_app in Hs, Hi |- *. cbn [List.map] in Hs, Hi |- *.
    rewrite interleave_split in Hs, Hi |- * by (rewrite length_map; exact Hlen1).
    set (W1 := weave_l (List.map inorder cs1) es1) in *.
    set (W2 := weave_r es2 (List.map inorder cs2)) in *.
    apply SS_app_iff in Hs as (HsW1 & Hs & _).
    apply SS_app_iff in Hs as (HsC & HsW2 & HCW).
    apply List.Forall_app in Hi as [HiW1 Hi]. apply List.Forall_app in Hi as [HiC HiW2].
    assert (HMW1 : M k W1 = []).
    { apply (M_none_rk k W1 Hk HiW1).
      eapply List.Forall_impl; [|exact (weave_l_below_rk (rk k) _ es1 HsW1 HiW1 Hlow)].
      cbn. intros; lia. }
    assert (HMW2 : M k W2 = M k es2 /\ (M k es2 <> [] -> M k (inorder c) = [])).
    { rewrite HM2. destruct es2 as [|e es2'].
      - split; [reflexivity | congruence].
      - destruct cs2 as [|c2 cs2'].
        { rewrite !length_app in Hlen. cbn [List.length] in Hlen. lia. }
        specialize (Hhead e eq_refl).
        unfold W2 in *. cbn [List.map weave_r] in *.
        apply StronglySorted_inv in HsW2 as [_ Hlt].
        inversion HiW2 as [|? ? Hie HiR]; subst.
        unfold M at 1. cbn [List.filter]. rewrite (matches_rk k e Hk Hie).
        match goal with
        | |- context [List.filter (key_matches k) ?r] => fold (M k r); rewrite (M_none_rk k r Hk HiR)
        end.
        + split; [destruct (rk k =? ik e); reflexivity|].
          destruct (Z.eqb_spec (rk k) (ik e)) as [Eq|]; [|congruence].
          intros _. apply (M_none_rk k _ Hk HiC).
          rewrite List.Forall_forall in *. intros x Hx.
          specialize (HCW x Hx). inversion HCW as [|? ? Hxe _]; subst.
          apply key_lt_rk in Hxe; [lia | auto | exact Hie].
        + rewrite List.Forall_forall in *. intros x Hx.
          specialize (Hlt x Hx). apply key_lt_rk in Hlt; [lia | exact Hie | auto]. }
    destruct HMW2 as [HMW2 Hc].
    split; [rewrite !M_app_rk, HMW1, HMW2; reflexivity|].
    split; [exact Hc|]. split; assumption.
Qed.

Lemma searchNode_rk (fuel : nat) t k :
  P k ->
  forall T acc,
    rep (nodes_ t) T -> (height T <= fuel)%nat ->
    StronglySorted key_lt (inorder T) -> ints (inorder T) ->
    searchNode fuel t (tid T) k acc = Ok (acc ++ M k (inorder T)).
Proof.
  intros Hk. induction fuel as [|fuel IH]; intros T acc Hrep Hh Hs Hi.
  { destruct T; simpl in Hh; lia. }
  destruct T as [id leaf es cs]. cbn [tid searchNode].
  inversion Hrep as [? ? ? ? Hsh Hl Hcs]; subst.
  destruct (getNode_shape _ _ _ Hsh) as (n & Hg & Hshp).
  apply shape_eq in Hshp as (Hn1 & Hn2 & Hn3).
  rewrite Hg. cbn [bind]. rewrite Hn1, Hn2, Hn3.
  cbn [inorder] in Hs, Hi |- *.
  destruct (locate_rk k es cs Hk Hs Hi)
    as (es1 & es2 & E & Hadv & _ & _ & _ & Hcol & _ & Hleaf & Hint).
  { destruct leaf; auto. }
  rewrite !Hadv. cbn [Nat.add]. clear Hg Hn1 Hn2 Hn3. subst es.
  rewrite drop_app_length, Hcol.
  destruct leaf; cbn [negb].
  - rewrite (Hleaf Hl). reflexivity.
  - destruct (Hint Hl) as (cs1 & c & cs2 & -> & Hlen1 & HM & Hc & Hsc & Hic).
    rewrite (List.map_app tid). cbn [List.map].
    rewrite vec_at_middle' by (rewrite length_map; auto). cbn [bind].
    rewrite IH; try assumption.
    + rewrite HM, <- app_assoc. f_equal.
      destruct (M k es2) as [|x r] eqn:E2; [rewrite app_nil_r; reflexivity|].
      rewrite Hc by discriminate. rewrite app_nil_r. reflexivity.
    + rewrite Forall_forall in Hcs. apply Hcs. apply elem_of_app. right.
      apply elem_of_cons. auto.
    + eapply height_rep_child; [exact Hh|]. apply elem_of_app. right.
      apply elem_of_cons. auto.
Qed.

(** The first match of the comparison descent, for a key that is no
    integer. *)
Lemma searchNodeFirst_rk (indet : Z) (fuel : nat) t k :
  P k -> tryGetInt64 k = None ->
  forall T,
    rep (nodes_ t) T -> (height T <= fuel)%nat ->
    StronglySorted key_lt (inorder T) -> ints (inorder T) ->
    searchNodeFirst indet fuel t (tid T) k = Ok (head (M k (inorder T))).
Proof.
  intros Hk Hnone. induction fuel as [|fuel IH]; intros T Hrep Hh Hs Hi.
  { destruct T; simpl in Hh; lia. }
  destruct T as [id leaf es cs]. cbn [tid searchNodeFirst]. rewrite Hnone.
  inversion Hrep as [? ? ? ? Hsh Hl Hcs]; subst.
  destruct (getNode_shape _ _ _ Hsh) as (n & Hg & Hshp).
  apply shape_eq in Hshp as (Hn1 & Hn2 & Hn3).
  rewrite Hg. cbn [bind]. rewrite Hn1, Hn2, Hn3.
  cbn [inorder] in Hs, Hi |- *.
  destruct (locate_rk k es cs Hk Hs Hi)
    as (es1 & es2 & E & _ & Hlow & Hhigh & Hies & _ & HM2 & Hleaf & Hint).
  { destruct leaf; auto. }
  clear Hg Hn1 Hn2 Hn3. subst es. apply List.Forall_app in Hies as [Hi1 Hi2].
  rewrite (lower_bound_spec _ es1 es2).
  2: { rewrite List.Forall_forall in *. intros e He.
       rewrite (cmp_leb _ _ Hk (Hi1 e He)). apply Z.leb_gt. apply Hlow. exact He. }
  2: { rewrite List.Forall_forall in *. intros e He.
       rewrite (cmp_leb _ _ Hk (Hi2 e He)). apply Z.leb_le. apply Hhigh. exact He. }
  2, 3, 4: rewrite ?length_app; lia.
  cbn [bind]. rewrite length_app.
  assert (Hchild : leaf = false ->
            (c <- vec_at (List.map tid cs) (List.length es1) ;;
             searchNodeFirst indet fuel t c k)
            = Ok (head (M k (interleave (List.map inorder cs) (es1 ++ es2)))) \/
            M k es2 <> []).
  { intros ->. destruct (Hint Hl) as (cs1 & c & cs2 & -> & Hlen1 & HM & Hc & Hsc & Hic).
    destruct (M k es2) as [|x r] eqn:E2; [left | right; discriminate].
    rewrite (List.map_app tid). cbn [List.map].
    rewrite vec_at_middle' by (rewrite length_map; auto). cbn [bind].
    rewrite IH; try assumption.
    - rewrite HM, app_nil_r. reflexivity.
    - rewrite Forall_forall in Hcs. apply Hcs. apply elem_of_app. right.
      apply elem_of_cons. auto.
    - eapply height_rep_child; [exact Hh|]. apply elem_of_app. right.
      apply elem_of_cons. auto. }
  assert (Hall : M k (interleave (List.map inorder cs) (es1 ++ es2)) = M k es2 \/
                 M k es2 = []).
  { destruct leaf.
    - left. apply Hleaf. exact Hl.
    - destruct (Hint Hl) as (cs1 & c & cs2 & -> & Hlen1 & HM & Hc & _).
      destruct (M k es2) as [|x r] eqn:E2; [right; reflexivity|].
      left. rewrite HM, Hc by discriminate. reflexivity. }
  destruct es2 as [|e es2'].
  - cbn [List.length]. rewrite Nat.add_0_r, Nat.ltb_irrefl. cbn [bind].
    destruct leaf; cbn [negb andb].
    + destruct Hall as [-> | _]; [reflexivity|]. rewrite (Hleaf Hl). reflexivity.
    + rewrite length_map, Hl, length_app. cbn [List.length].
      replace (List.length es1 <? S (List.length es1 + 0))%nat with true
        by (symmetry; apply Nat.ltb_lt; lia).
      destruct (Hchild eq_refl) as [-> | H]; [reflexivity | contradiction].
  - cbn [List.length].
    replace (List.length es1 <? List.length es1 + S (List.length es2'))%nat with true
      by (symmetry; apply Nat.ltb_lt; lia).
    rewrite vec_at_middle. cbn [bind].
    inversion Hi2 as [|? ? Hie _]; subst.
    rewrite (cmp_eqb _ _ Hk Hie). fold (ik e).
    destruct (Z.eqb_spec (rk k) (ik e)) as [Eq|Ne].
    + cbn [bind]. destruct Hall as [-> | H0]; [rewrite HM2; reflexivity|].
      rewrite HM2 in H0. discriminate H0.
    + cbn [bind].
      destruct leaf; cbn [negb andb].
      * rewrite (Hleaf Hl), HM2. reflexivity.
      * rewrite length_map, Hl, length_app. cbn [List.length].
        replace (List.length es1 <? S (List.length es1 + S (List.length es2')))%nat
          with true by (symmetry; apply Nat.ltb_lt; lia).
        destruct (Hchild eq_refl) as [-> | H]; [reflexivity|].
        rewrite HM2 in H. contradiction.
Qed.

End RankedKeys.

(** *** The keys of an index

    What bindKey, the key column and extractKey do with the keys of an
    index, and how the engine's order of the bound values relates to
    compareValues. *)

Section KeyFamilies.

Lemma to_int32_small (z : Z) : - 2 ^ 31 <= z < 2 ^ 31 -> to_int32 z = z.
Proof.
  intros H. unfold to_int32. change (2 ^ 31) with 2147483648 in *.
  change (2 ^ 32) with 4294967296. rewrite Z.mod_small by lia. lia.
Qed.

Lemma to_int64_small (z : Z) : - 2 ^ 63 <= z < 2 ^ 63 -> to_int64 z = z.
Proof.
  intros H. unfold to_int64. change (2 ^ 63) with 9223372036854775808 in *.
  change (2 ^ 64) with 18446744073709551616. rewrite Z.mod_small by lia. lia.
Qed.

Lemma wrap_unsigned_to_int64 (z : Z) :
  0 <= z < 2 ^ 64 -> SqliteIndexModel.wrap_unsigned 64 (to_int64 z) = z.
Proof.
  intros H. unfold SqliteIndexModel.wrap_unsigned, to_int64.
  change (2 ^ 63) with 9223372036854775808 in *.
  change (2 ^ 64) with 18446744073709551616 in *.
  Z.div_mod_to_equations. lia.
Qed.

Lemma wrap_unsigned_to_int32 (z : Z) :
  0 <= z < 2 ^ 32 -> SqliteIndexModel.wrap_unsigned 32 (to_int32 (to_int32 z)) = z.
Proof.
  intros H. unfold SqliteIndexModel.wrap_unsigned, to_int32.
  change (2 ^ 31) with 2147483648 in *.
  change (2 ^ 32) with 4294967296 in *.
  Z.div_mod_to_equations. lia.
Qed.

Lemma key_affinity_cases (kt : ValueType) :
  key_affinity kt
  = match kt with
    | TFloat32 | TFloat64 => REAL
    | TString => TEXT
    | TBytes | TNull => BLOB
    | _ => INTEGER
    end.
Proof. destruct kt; vm_compute; reflexivity. Qed.

Lemma compare_bytes_lex (a b : list Z) : compare_bytes a b = lex_compare a b.
Proof. reflexivity. Qed.

Lemma query_of_index (kt : ValueType) (k : Value) : index_key kt k -> query_key kt k.
Proof.
  destruct kt, k; cbn [index_key query_key]; try contradiction; intros H; eauto;
    try (split; [exact I|]);
    try (unfold Value_ok, in_range in H; unfold int_of;
         cbn [SqliteIndexModel.bindKey tryGetInt64];
         rewrite ?to_int32_small; [reflexivity|];
         change (2 ^ 7) with 128 in *; change (2 ^ 8) with 256 in *;
         change (2 ^ 15) with 32768 in *; change (2 ^ 16) with 65536 in *;
         change (2 ^ 31) with 2147483648 in *; change (2 ^ 32) with 4294967296 in *;
         lia).
  - reflexivity.
  - reflexivity.
  - exists f. split; [reflexivity | apply H].
  - exists f. split; [reflexivity | apply H].
Qed.

Lemma query_not_null (kt : ValueType) (q : Value) :
  query_key kt q -> is_null (SqliteIndexModel.bindKey q) = false.
Proof.
  destruct kt; cbn [query_key]; try contradiction;
    try (intros [_ ->]; reflexivity).
  - intros (b & ->). reflexivity.
  - intros (f & -> & Hf). cbn [SqliteIndexModel.bindKey].
    destruct (double_of_float f); try congruence; reflexivity.
  - intros (f & -> & Hf). destruct f; try congruence; reflexivity.
  - intros (s & ->). reflexivity.
  - intros (b & -> & Hb). destruct b; [congruence | reflexivity].
Qed.

Lemma query_param (h : Conversions) (kt : ValueType) (q : Value) :
  query_key kt q ->
  apply_affinity h (compare_affinity (key_affinity kt)) (SqliteIndexModel.bindKey q)
  = SqliteIndexModel.bindKey q.
Proof.
  rewrite key_affinity_cases.
  destruct kt; cbn [query_key]; try contradiction;
    try (intros [_ ->]; reflexivity).
  - intros (b & ->). reflexivity.
  - intros (f & -> & Hf). cbn [SqliteIndexModel.bindKey].
    destruct (double_of_float f); try congruence; reflexivity.
  - intros (f & -> & Hf). destruct f; try congruence; reflexivity.
  - intros (s & ->). reflexivity.
  - intros (b & -> & Hb). destruct b; [congruence | reflexivity].
Qed.

Lemma index_stored (h : Conversions) (kt : ValueType) (k : Value) :
  index_key kt k ->
  apply_affinity h (key_affinity kt) (SqliteIndexModel.bindKey k)
  = SqliteIndexModel.bindKey k.
Proof.
  rewrite key_affinity_cases.
  destruct kt, k; cbn [index_key]; try contradiction; intros H; try reflexivity.
  - destruct H as (H1 & H2 & _). cbn [SqliteIndexModel.bindKey].
    destruct (double_of_float _) as [[|]| | |]; try congruence; reflexivity.
  - destruct H as [H1 H2].
    match goal with f : spec_float |- _ => destruct f as [[|]| | |] end;
      try congruence; reflexivity.
  - match goal with H : ?b <> [] |- _ => destruct b; [congruence | reflexivity] end.
Qed.

Lemma extract_bound (h : Conversions) (kt : ValueType) (k : Value) :
  index_key kt k ->
  SqliteIndexModel.extractKey h kt (SqliteIndexModel.bindKey k) = k.
Proof.
  destruct kt, k; cbn [index_key]; try contradiction; intros H;
    cbn [SqliteIndexModel.bindKey SqliteIndexModel.extractKey];
    unfold column_int; cbn [column_int64 column_text column_double column_blob].
  all: try (unfold Value_ok, in_range in H; f_equal;
       unfold SqliteIndexModel.wrap_signed, SqliteIndexModel.wrap_unsigned, to_int32, to_int64;
       change (8 - 1) with 7; change (16 - 1) with 15;
       change (2 ^ 7) with 128 in *; change (2 ^ 8) with 256 in *;
       change (2 ^ 15) with 32768 in *; change (2 ^ 16) with 65536 in *;
       change (2 ^ 31) with 2147483648 in *; change (2 ^ 32) with 4294967296 in *;
       change (2 ^ 63) with 9223372036854775808 in *;
       change (2 ^ 64) with 18446744073709551616 in *;
       Z.div_mod_to_equations; lia).
  - match goal with b : bool |- _ => destruct b; reflexivity end.
  - destruct H as (H1 & H2 & H3). rewrite <- H3 at 2.
    destruct (double_of_float _); try congruence; reflexivity.
  - destruct H as [H1 H2].
    match goal with f : spec_float |- _ => destruct f end; try congruence; reflexivity.
  - rewrite H. reflexivity.
  - match goal with H : ?b <> [] |- _ => destruct b; [congruence | reflexivity] end.
Qed.

Lemma SFltb_compare (f g : spec_float) :
  f <> S754_nan -> g <> S754_nan ->
  (if SFltb f g then -1 else if SFltb g f then 1 else 0) = sign_of (compare_real f g).
Proof.
  intros Hf Hg. unfold SFltb, compare_real.
  pose proof (SFcompare_swap f g) as Hs.
  destruct (SFcompare_some f g Hf Hg) as [c E]. rewrite E in *.
  rewrite Hs. destruct c; reflexivity.
Qed.

Lemma bound_compare (kt : ValueType) (a b : Value) :
  query_key kt a -> query_key kt b ->
  sign_of (sql_compare (SqliteIndexModel.bindKey a) (SqliteIndexModel.bindKey b))
  = Z.sgn (compareValues a b).
Proof.
  assert (Hint : is_integer a /\ SqliteIndexModel.bindKey a = SqlInteger (int_of a) ->
                 is_integer b /\ SqliteIndexModel.bindKey b = SqlInteger (int_of b) ->
                 sign_of (sql_compare (SqliteIndexModel.bindKey a)
                                      (SqliteIndexModel.bindKey b))
                 = Z.sgn (compareValues a b)).
  { intros [Ha ->] [Hb ->]. rewrite (cmp_int _ _ Ha Hb). cbn [sql_compare].
    unfold three_way.
    destruct (Z.compare_spec (int_of a) (int_of b)), (Z.ltb_spec (int_of a) (int_of b)),
      (Z.ltb_spec (int_of b) (int_of a)); try reflexivity; lia. }
  destruct kt; cbn [query_key]; try contradiction; try exact Hint.
  - intros ([|] & ->) ([|] & ->); reflexivity.
  - intros (f & -> & Hf) (g & -> & Hg).
    change (compareValues (VFloat32 f) (VFloat32 g))
      with (if SFltb (double_of_float f) (double_of_float g) then -1
            else if SFltb (double_of_float g) (double_of_float f) then 1 else 0).
    rewrite (SFltb_compare _ _ Hf Hg). cbn [SqliteIndexModel.bindKey].
    destruct (double_of_float f), (double_of_float g); try congruence;
      cbn [SqliteIndexModel.bind_double sql_compare];
      destruct (compare_real _ _); reflexivity.
  - intros (f & -> & Hf) (g & -> & Hg).
    change (compareValues (VFloat64 f) (VFloat64 g))
      with (if SFltb f g then -1 else if SFltb g f then 1 else 0).
    rewrite (SFltb_compare f g Hf Hg).
    destruct f, g; try congruence;
      cbn [SqliteIndexModel.bindKey SqliteIndexModel.bind_double sql_compare];
      destruct (compare_real _ _); reflexivity.
  - intros (s & ->) (t & ->).
    change (compareValues (VString s) (VString t)) with (string_compare s t).
    rewrite string_compare_sign. cbn [SqliteIndexModel.bindKey sql_compare].
    rewrite compare_bytes_lex. reflexivity.
  - intros (x & -> & Hx) (y & -> & Hy).
    change (compareValues (VBytes x) (VBytes y)) with (bytes_compare x y).
    rewrite bytes_compare_sign.
    destruct x; [congruence|]. destruct y; [congruence|].
    cbn [SqliteIndexModel.bindKey SqliteIndexModel.bind_blob sql_compare].
    rewrite compare_bytes_lex.
    destruct (lex_compare _ _); reflexivity.
Qed.

Lemma float_family : ordered_family (fun v => exists f, v = VFloat64 f /\ f <> S754_nan).
Proof.
  intros a b c (f & -> & Hf) (g & -> & Hg) (k & -> & Hk).
  change (compareValues (VFloat64 f) (VFloat64 g))
    with (if SFltb f g then -1 else if SFltb g f then 1 else 0).
  change (compareValues (VFloat64 g) (VFloat64 k))
    with (if SFltb g k then -1 else if SFltb k g then 1 else 0).
  change (compareValues (VFloat64 f) (VFloat64 k))
    with (if SFltb f k then -1 else if SFltb k f then 1 else 0).
  rewrite !SFltb_compare by assumption. unfold compare_real.
  pose proof (SFcompare_le_trans f g k Hg) as Ht.
  destruct (SFcompare_some f g Hf Hg) as [c1 E1].
  destruct (SFcompare_some g k Hg Hk) as [c2 E2].
  destruct (SFcompare_some f k Hf Hk) as [c3 E3].
  rewrite E1, E2, E3 in *.
  destruct c1, c2, c3; cbn [sign_of]; try lia; exfalso; apply Ht; congruence.
Qed.

Lemma float32_family :
  ordered_family (fun v => exists f, v = VFloat32 f /\ double_of_float f <> S754_nan).
Proof.
  intros a b c (f & -> & Hf) (g & -> & Hg) (k & -> & Hk).
  apply (float_family (VFloat64 (double_of_float f)) (VFloat64 (double_of_float g))
           (VFloat64 (double_of_float k))); eauto.
Qed.

Lemma query_family (kt : ValueType) : ordered_family (query_key kt).
Proof.
  assert (Hint : ordered_family
                   (fun q => is_integer q /\ SqliteIndexModel.bindKey q = SqlInteger (int_of q))).
  { intros a b c [Ha _] [Hb _] [Hc _]. apply integer_family; assumption. }
  destruct kt; cbn [query_key]; try exact Hint.
  - intros a b c [].
  - exact bool_family.
  - exact float32_family.
  - exact float_family.
  - exact string_family.
  - intros a b c (x & -> & _) (y & -> & _) (z & -> & _).
    apply bytes_family; eauto.
Qed.

Lemma index_key_eq (kt : ValueType) (a b : Value) :
  index_key kt a -> index_key kt b -> compareValues a b = 0 -> a = b.
Proof.
  intros Ha Hb E.
  pose proof (bound_compare kt a b (query_of_index _ _ Ha) (query_of_index _ _ Hb)) as Hs.
  rewrite E in Hs. cbn [Z.sgn] in Hs. apply sign_of_eq in Hs.
  rewrite <- (extract_bound plain_conversions kt a Ha),
    <- (extract_bound plain_conversions kt b Hb).
  destruct kt, a, b; cbn [index_key] in Ha, Hb; try contradiction;
    cbn [SqliteIndexModel.bindKey sql_compare] in Hs |- *;
    try (apply Z.compare_eq in Hs; rewrite Hs; reflexivity).
  - destruct Ha as (Ha1 & Ha2 & Ha3), Hb as (Hb1 & Hb2 & Hb3).
    destruct (double_of_float f) as [s1| | |] eqn:Ef,
      (double_of_float f0) as [s2| | |] eqn:Eg; try congruence;
      cbn [SqliteIndexModel.bind_double sql_compare] in Hs |- *;
      unfold compare_real in Hs;
      match type of Hs with
      | match SFcompare ?x ?y with _ => _ end = _ =>
          destruct (SFcompare_some x y ltac:(congruence) ltac:(congruence)) as [c Ec];
          rewrite Ec in Hs; subst c;
          destruct (SFcompare_eq _ _ Ec) as [->|(t1 & t2 & E1 & E2)];
          [reflexivity | try discriminate]
      end.
    destruct s1, s2; try congruence; reflexivity.
  - destruct Ha as [Ha1 Ha2], Hb as [Hb1 Hb2].
    destruct f, f0; try congruence;
      cbn [SqliteIndexModel.bind_double sql_compare] in Hs |- *;
      unfold compare_real in Hs;
      match type of Hs with
      | match SFcompare ?x ?y with _ => _ end = _ =>
          destruct (SFcompare_some x y ltac:(congruence) ltac:(congruence)) as [c Ec];
          rewrite Ec in Hs; subst c;
          destruct (SFcompare_eq _ _ Ec) as [->|(s1 & s2 & E1 & E2)];
          [reflexivity | try discriminate]
      end.
    injection E1 as <-. injection E2 as <-.
    destruct s, s0; try congruence; reflexivity.
  - rewrite compare_bytes_lex in Hs. apply lex_compare_eq in Hs.
    apply bytes_of_string_inj in Hs. rewrite Hs. reflexivity.
  - repeat match goal with H : ?b <> [] |- _ => destruct b; [congruence|]; clear H end.
    cbn [SqliteIndexModel.bind_blob sql_compare] in Hs |- *.
    rewrite compare_bytes_lex in Hs. apply lex_compare_eq in Hs.
    apply bytes_as_Z_inj in Hs. rewrite Hs. reflexivity.
Qed.

End KeyFamilies.

(** *** Orders within a family of keys *)

Section FamilyOrder.

Variable K : Value -> Prop.
Hypothesis K_ordered : ordered_family K.

Lemma family_lt_trans (a b c : Value) :
  K a -> K b -> K c ->
  compareValues a b < 0 -> compareValues b c < 0 -> compareValues a c < 0.
Proof.
  intros Ha Hb Hc H1 H2.
  pose proof (K_ordered a b c Ha Hb Hc ltac:(lia) ltac:(lia)) as H3.
  destruct (Z.eq_dec (compareValues a c) 0) as [E|E]; [|lia].
  pose proof (compareValues_swap a c) as Hs. rewrite E in Hs. cbn [Z.sgn Z.opp] in Hs.
  pose proof (K_ordered c a b Hc Ha Hb ltac:(lia) ltac:(lia)) as H4.
  pose proof (compareValues_swap b c). lia.
Qed.

Lemma family_le_lt_trans (a b c : Value) :
  K a -> K b -> K c ->
  compareValues a b <= 0 -> compareValues b c < 0 -> compareValues a c < 0.
Proof.
  intros Ha Hb Hc H1 H2.
  pose proof (K_ordered a b c Ha Hb Hc ltac:(lia) ltac:(lia)) as H3.
  destruct (Z.eq_dec (compareValues a c) 0) as [E|E]; [|lia].
  pose proof (compareValues_swap a c) as Hs. rewrite E in Hs. cbn [Z.sgn Z.opp] in Hs.
  pose proof (K_ordered c a b Hc Ha Hb ltac:(lia) ltac:(lia)) as H4.
  pose proof (compareValues_swap b c). lia.
Qed.

Lemma family_lt_le_trans (a b c : Value) :
  K a -> K b -> K c ->
  compareValues a b < 0 -> compareValues b c <= 0 -> compareValues a c < 0.
Proof.
  intros Ha Hb Hc H1 H2.
  pose proof (K_ordered a b c Ha Hb Hc ltac:(lia) ltac:(lia)) as H3.
  destruct (Z.eq_dec (compareValues a c) 0) as [E|E]; [|lia].
  pose proof (compareValues_swap a c) as Hs. rewrite E in Hs. cbn [Z.sgn Z.opp] in Hs.
  pose proof (K_ordered b c a Hb Hc Ha ltac:(lia) ltac:(lia)) as H4.
  pose proof (compareValues_swap a b). lia.
Qed.

(** How many of the values [S] come before a value tells the order of two
    values of [S]. *)
Lemma filter_length_le {A : Type} (p q : A -> bool) (l : list A) :
  (forall x, In x l -> p x = true -> q x = true) ->
  (List.length (List.filter p l) <= List.length (List.filter q l))%nat.
Proof.
  induction l as [|x l IH]; intros H; [reflexivity|]. cbn [List.filter].
  assert (IH' := IH (fun y Hy => H y (or_intror Hy))).
  destruct (p x) eqn:Ep.
  - rewrite (H x (or_introl eq_refl) Ep). cbn [List.length]. lia.
  - destruct (q x); cbn [List.length]; lia.
Qed.

Lemma filter_length_lt {A : Type} (p q : A -> bool) (l : list A) (a : A) :
  (forall x, In x l -> p x = true -> q x = true) ->
  In a l -> p a = false -> q a = true ->
  (List.length (List.filter p l) < List.length (List.filter q l))%nat.
Proof.
  induction l as [|x l IH]; intros H Ha Hpa Hqa; [destruct Ha|]. cbn [List.filter].
  pose proof (filter_length_le p q l (fun y Hy => H y (or_intror Hy))) as Hle.
  destruct Ha as [->|Ha].
  - rewrite Hpa, Hqa. cbn [List.length]. lia.
  - specialize (IH (fun y Hy => H y (or_intror Hy)) Ha Hpa Hqa).
    destruct (p x) eqn:Ep.
    + rewrite (H x (or_introl eq_refl) Ep). cbn [List.length]. lia.
    + destruct (q x); cbn [List.length]; lia.
Qed.

Lemma rank_order (S : list Value) (a b : Value) :
  List.Forall K S -> In a S -> In b S ->
  Z.sgn (compareValues a b) = three_way (rank S a) (rank S b).
Proof.
  intros HS Ha Hb. rewrite List.Forall_forall in HS.
  pose proof (HS a Ha) as Ka. pose proof (HS b Hb) as Kb.
  assert (Hlt : forall x y, In x S -> In y S -> compareValues x y < 0 ->
                            rank S x < rank S y).
  { intros x y Hx Hy Hxy. unfold rank. apply inj_lt.
    apply (filter_length_lt _ _ S x).
    - intros z Hz Hzx. apply Z.ltb_lt in Hzx. apply Z.ltb_lt.
      apply (family_lt_trans z x y); auto.
    - exact Hx.
    - apply Z.ltb_ge. rewrite compareValues_refl. lia.
    - apply Z.ltb_lt. exact Hxy. }
  assert (Hle : forall x y, In x S -> In y S -> compareValues x y <= 0 ->
                            rank S x <= rank S y).
  { intros x y Hx Hy Hxy. unfold rank. apply inj_le.
    apply filter_length_le.
    intros z Hz Hzx. apply Z.ltb_lt in Hzx. apply Z.ltb_lt.
    apply (family_lt_le_trans z x y); auto. }
  pose proof (compareValues_swap a b) as Hs.
  unfold three_way.
  destruct (Z.ltb_spec (rank S a) (rank S b)) as [H1|H1];
    [|destruct (Z.ltb_spec (rank S b) (rank S a)) as [H2|H2]].
  - destruct (Z_lt_le_dec (compareValues a b) 0) as [L|L]; [lia|].
    assert (compareValues b a <= 0) by lia.
    pose proof (Hle b a Hb Ha ltac:(assumption)). lia.
  - destruct (Z_lt_le_dec 0 (compareValues a b)) as [L|L]; [lia|].
    pose proof (Hle a b Ha Hb L). lia.
  - destruct (Z_lt_le_dec (compareValues a b) 0) as [L|L].
    { pose proof (Hlt a b Ha Hb L). lia. }
    destruct (Z_lt_le_dec 0 (compareValues a b)) as [G|G]; [|lia].
    assert (compareValues b a < 0) by lia.
    pose proof (Hlt b a Hb Ha ltac:(assumption)). lia.
Qed.

(** Two strictly ascending lists with the same entries are one list. *)
Lemma key_sorted_unique (l1 : list IndexEntry) :
  forall l2,
    StronglySorted key_lt l1 -> StronglySorted key_lt l2 -> l1 ≡ₚ l2 -> l1 = l2.
Proof.
  induction l1 as [|a l1 IH]; intros l2 H1 H2 Hp.
  - apply Permutation_nil in Hp. auto.
  - destruct l2 as [|b l2].
    { symmetry in Hp. apply Permutation_nil in Hp. discriminate Hp. }
    apply StronglySorted_inv in H1 as [H1 Ha]. apply StronglySorted_inv in H2 as [H2 Hb].
    assert (Hab : a = b).
    { assert (Hina : In a (b :: l2)).
      { eapply Permutation_in; [exact Hp | left; reflexivity]. }
      assert (Hinb : In b (a :: l1)).
      { eapply Permutation_in; [symmetry; exact Hp | left; reflexivity]. }
      destruct Hina as [->|Hina]; [reflexivity|].
      destruct Hinb as [->|Hinb]; [reflexivity|].
      rewrite List.Forall_forall in Ha, Hb.
      specialize (Ha b Hinb). specialize (Hb a Hina). unfold key_lt in Ha, Hb.
      pose proof (compareValues_swap (key a) (key b)). lia. }
    subst b. f_equal. apply IH; try assumption.
    eapply Permutation_cons_inv. exact Hp.
Qed.

(** Ascending entries with distinct keys of the family ascend strictly. *)
Lemma strict_of_distinct (l : list IndexEntry) :
  StronglySorted key_le l ->
  (forall a b, In a l -> In b l -> compareValues (key a) (key b) = 0 -> key a = key b) ->
  List.NoDup (List.map key l) ->
  StronglySorted key_lt l.
Proof.
  induction 1 as [|a l Hs IH Ha]; intros Heq Hn; [constructor|].
  cbn [List.map] in Hn. apply List.NoDup_cons_iff in Hn as [Hna Hn].
  constructor.
  - apply IH; [|exact Hn]. intros x y Hx Hy. apply Heq; right; assumption.
  - rewrite List.Forall_forall in *. intros x Hx.
    specialize (Ha x Hx). unfold key_le in Ha. unfold key_lt.
    destruct (Z.eq_dec (compareValues (key a) (key x)) 0) as [E|E]; [|lia].
    exfalso. apply Hna. rewrite (Heq a x (or_introl eq_refl) (or_intror Hx) E).
    apply (List.in_map key). exact Hx.
Qed.

End FamilyOrder.

(** *** The B-tree filled with keys of one family *)

Section BTreeFamily.

Implicit Types (t : BTree) (T : tree) (e : IndexEntry) (k : Value) (l es : list IndexEntry).

Variable kt : ValueType.

Lemma query_is_integer k :
  integer_type kt -> query_key kt k -> is_integer k.
Proof.
  intros Hkt. unfold integer_type in Hkt. cbn [In] in Hkt.
  destruct Hkt as [<-|[<-|[<-|[<-|[<-|[<-|[<-|[<-|[]]]]]]]]];
    cbn [query_key]; intros [H _]; exact H.
Qed.

Lemma query_no_integer k :
  ~ integer_type kt -> query_key kt k -> tryGetInt64 k = None.
Proof.
  intros Hkt. unfold integer_type in Hkt. cbn [In] in Hkt.
  destruct kt; cbn [query_key]; try contradiction; try (exfalso; apply Hkt; tauto).
  - intros (b & ->). reflexivity.
  - intros (f & -> & _). reflexivity.
  - intros (f & -> & _). reflexivity.
  - intros (s & ->). reflexivity.
  - intros (b & -> & _). reflexivity.
Qed.

Lemma integer_type_dec : integer_type kt \/ ~ integer_type kt.
Proof.
  unfold integer_type. cbn [In].
  destruct kt; try (left; tauto); right; intros H; repeat destruct H as [H|H];
    try discriminate H; exact H.
Qed.

Lemma btree_family_queries (order : Z) es :
  2 <= order ->
  List.Forall (fun e => index_key kt (key e)) es -> List.NoDup (List.map key es) ->
  exists t L,
    BTreeIndex.build kt order es = Ok t /\ L ≡ₚ es /\ StronglySorted key_lt L /\
    getEntryCount t = count_mod (List.length es) /\
    all t = Ok L /\
    (forall k, query_key kt k -> search t k = Ok (List.filter (key_matches k) L)) /\
    (forall k indet, query_key kt k ->
       searchFirst indet t k = Ok (head (List.filter (key_matches k) L))) /\
    (forall lo hi, query_key kt lo -> query_key kt hi ->
       range t lo hi = Ok (List.filter (key_in_range lo hi) L)).
Proof.
  intros Hord Hi Hn.
  destruct (build_outcome kt order es) as [(t & T & Hb & Hh & _ & Hp & Hc)|[Hlt _]]; [|lia].
  pose proof (owned_height _ _ (holds_owned _ _ Hh)) as Hheight.
  pose proof (all_spec _ _ Hh) as Hall.
  destruct Hh as (Hrep & Htid & _ & _ & Hsorted).
  assert (HiT : List.Forall (fun e => index_key kt (key e)) (inorder T)).
  { eapply Permutation_Forall; [symmetry; exact Hp | exact Hi]. }
  assert (HqT : List.Forall (fun e => query_key kt (key e)) (inorder T)).
  { eapply List.Forall_impl; [|exact HiT]. intros e. apply query_of_index. }
  pose proof (Sorted_family_strong (query_key kt) (query_family kt) _ Hsorted HqT) as Hstrong.
  assert (Hstrict : StronglySorted key_lt (inorder T)).
  { apply strict_of_distinct; try assumption.
    - rewrite List.Forall_forall in HiT. intros a b Ha Hb'.
      apply (index_key_eq kt); auto.
    - eapply Permutation_NoDup; [|exact Hn]. apply Permutation_map. symmetry. exact Hp. }
  exists t, (inorder T).
  split; [exact Hb|]. split; [exact Hp|]. split; [exact Hstrict|].
  split; [exact Hc|]. split; [exact Hall|].
  assert (Hrank : forall k, query_key kt k ->
            let S := k :: List.map key (inorder T) in
            List.Forall (query_key kt) S /\ In k S /\
            List.Forall (fun e => In (key e) S) (inorder T)).
  { intros k Hk S. split; [|split].
    - constructor; [exact Hk|]. apply List.Forall_map. exact HqT.
    - left. reflexivity.
    - apply List.Forall_forall. intros e He. right. apply (List.in_map key). exact He. }
  split; [|split].
  - intros k Hk. destruct (Hrank k Hk) as (HS & HkS & HTS).
    unfold search. rewrite <- Htid.
    apply (searchNode_rk (fun v => In v (k :: List.map key (inorder T)))
             (rank (k :: List.map key (inorder T)))
             (fun a b Ha Hb => rank_order (query_key kt) (query_family kt) _ a b HS Ha Hb)
             _ t k HkS T []); assumption.
  - intros k indet Hk. unfold searchFirst. rewrite <- Htid.
    destruct integer_type_dec as [Hint|Hint].
    + pose proof (query_is_integer k Hint Hk) as Hik.
      rewrite searchNodeFirst_int by exact Hik.
      apply searchNodeFirstInt_spec; try assumption.
      * eapply List.Forall_impl; [|exact HqT]. intros e. apply query_is_integer. exact Hint.
    + destruct (Hrank k Hk) as (HS & HkS & HTS).
      apply (searchNodeFirst_rk (fun v => In v (k :: List.map key (inorder T)))
               (rank (k :: List.map key (inorder T)))
               (fun a b Ha Hb => rank_order (query_key kt) (query_family kt) _ a b HS Ha Hb)
               indet _ t k HkS (query_no_integer k Hint Hk) T); assumption.
  - intros lo hi Hlo Hhi. unfold range. rewrite <- Htid.
    apply (rangeSearch_spec (query_key kt) (query_family kt) lo hi Hlo Hhi _ t T []);
      assumption.
Qed.

End BTreeFamily.

(** *** The host-SQL index filled with keys of one family *)

Section SqlFamily.

Implicit Types (e : IndexEntry) (k : Value) (l es : list IndexEntry).

Variable h : Conversions.
Variable kt : ValueType.

Let row (e : IndexEntry) : Row := entry_row h kt e.

Lemma entry_row_bound e :
  index_key kt (key e) ->
  row e = [SqliteIndexModel.bindKey (key e);
           SqlInteger (to_int64 (Z.of_N (dataOffset e)));
           SqlInteger (to_int32 (Z.of_N (dataLength e)));
           SqlInteger (to_int64 (Z.of_N (sequence e)))].
Proof.
  intros Hk. unfold row, entry_row, stored_row. rewrite (index_stored h kt _ Hk). reflexivity.
Qed.

Lemma extract_entry_row e :
  index_entry kt e -> SqliteIndexModel.extractEntry h kt (row e) = e.
Proof.
  intros (Hk & Ho & Hl & Hs). rewrite (entry_row_bound e Hk).
  unfold SqliteIndexModel.extractEntry, column. cbn [nth].
  rewrite (extract_bound h kt _ Hk).
  unfold column_int. cbn [column_int64].
  change (2 ^ 64)%N with 18446744073709551616%N in *.
  change (2 ^ 32)%N with 4294967296%N in *.
  rewrite !wrap_unsigned_to_int64, wrap_unsigned_to_int32.
  - rewrite !N2Z.id. destruct e; reflexivity.
  - change (2 ^ 32) with 4294967296. lia.
  - change (2 ^ 64) with 18446744073709551616. lia.
  - change (2 ^ 64) with 18446744073709551616. lia.
Qed.

Lemma map_extract_rows l :
  List.Forall (index_entry kt) l ->
  List.map (SqliteIndexModel.extractEntry h kt) (List.map row l) = l.
Proof.
  induction 1 as [|e l He _ IH]; [reflexivity|].
  cbn [List.map]. rewrite IH, (extract_entry_row e He). reflexivity.
Qed.

Lemma filter_map_comm {A B : Type} (p : B -> bool) (f : A -> B) (l : list A) :
  List.filter p (List.map f l) = List.map f (List.filter (fun x => p (f x)) l).
Proof.
  induction l as [|a l IH]; [reflexivity|]. cbn [List.map List.filter].
  destruct (p (f a)); cbn [List.map]; rewrite IH; reflexivity.
Qed.

Lemma entries_filter (p : IndexEntry -> bool) l :
  List.Forall (index_entry kt) l -> List.Forall (index_entry kt) (List.filter p l).
Proof.
  intros H. rewrite List.Forall_forall in *. intros x Hx.
  apply List.filter_In in Hx as [Hx _]. auto.
Qed.

(** The key column of two rows compares as compareValues does on the
    keys. *)
Lemma row_key_compare a b :
  index_key kt (key a) -> index_key kt (key b) ->
  sign_of (sql_compare (column (row a) 0) (column (row b) 0))
  = Z.sgn (compareValues (key a) (key b)).
Proof.
  intros Ha Hb. rewrite (entry_row_bound a Ha), (entry_row_bound b Hb).
  unfold column. cbn [nth].
  apply (bound_compare kt); apply query_of_index; assumption.
Qed.

Lemma row_key_not_null e : index_key kt (key e) -> is_null (column (row e) 0) = false.
Proof.
  intros He. rewrite (entry_row_bound e He). unfold column. cbn [nth].
  apply (query_not_null kt). apply query_of_index. exact He.
Qed.

(** The condition [key op ?] with a bound key, on the row of an entry. *)
Lemma key_test_row (op : CompareOp) (q : Value) e :
  index_key kt (key e) -> query_key kt q ->
  key_test h kt op (SqliteIndexModel.bindKey q) (row e)
  = match op with
    | OpEq => compareValues (key e) q =? 0
    | OpGe => compareValues (key e) q >=? 0
    | OpLe => compareValues (key e) q <=? 0
    end.
Proof.
  intros He Hq. unfold key_test. rewrite (query_param h kt q Hq).
  pose proof (bound_compare kt (key e) q (query_of_index _ _ He) Hq) as Hs.
  pose proof (row_key_not_null e He) as Hn.
  pose proof (query_not_null kt q Hq) as Hn'.
  rewrite (entry_row_bound e He) in Hn |- *. unfold column in Hn |- *. cbn [nth] in Hn |- *.
  unfold sql_eq, sql_ge, sql_le. rewrite Hn, Hn'. cbn [negb andb].
  destruct (sql_compare _ _); cbn [sign_of] in Hs;
    destruct op;
    repeat match goal with
           | |- context [?x =? 0] => destruct (Z.eqb_spec x 0)
           | |- context [?x >=? 0] => destruct (Z.geb_spec x 0)
           | |- context [?x <=? 0] => destruct (Z.leb_spec x 0)
           end; try reflexivity; lia.
Qed.

Lemma idx_taken_fresh e l :
  index_key kt (key e) -> List.Forall (fun x => index_key kt (key x)) l ->
  List.Forall (fun x => key x <> key e) l ->
  idx_taken (row e) (List.map row l) = false.
Proof.
  intros He Hl Hn. unfold idx_taken.
  induction l as [|x l IH]; [reflexivity|].
  inversion Hl as [|? ? Hx Hl']; inversion Hn as [|? ? Hxe Hn']; subst.
  cbn [List.map existsb]. rewrite (IH Hl' Hn'), orb_false_r.
  pose proof (row_key_compare e x He Hx) as Hs.
  unfold sql_eq at 1.
  destruct (sql_compare (column (row e) 0) (column (row x) 0)); cbn [sign_of] in Hs;
    rewrite ?andb_false_r; try reflexivity.
  exfalso. apply Hxe. symmetry. apply (index_key_eq kt); try assumption. lia.
Qed.

Lemma pk_insert_rows (n ty : string) e l :
  index_key kt (key e) -> List.Forall (fun x => index_key kt (key x)) l ->
  StronglySorted key_lt l -> List.Forall (fun x => key x <> key e) l ->
  exists l',
    pk_insert (index_table n ty) (row e) (List.map row l) = List.map row l' /\
    l' ≡ₚ e :: l /\ StronglySorted key_lt l'.
Proof.
  intros He. induction l as [|x l IH]; intros Hl Hs Hn.
  - exists [e]. split; [reflexivity|]. split; [reflexivity|]. repeat constructor.
  - apply StronglySorted_inv in Hs as [Hs Hx].
    inversion Hl as [|? ? Hkx Hl']; inversion Hn as [|? ? Hxe Hn']; subst.
    cbn [List.map pk_insert]. rewrite pk_compare_index. unfold idx_compare.
    pose proof (row_key_compare e x He Hkx) as Hc.
    assert (Hne : compareValues (key e) (key x) <> 0).
    { intros E. apply Hxe. symmetry. apply (index_key_eq kt); assumption. }
    destruct (sql_compare (column (row e) 0) (column (row x) 0)); cbn [sign_of] in Hc.
    + lia.
    + exists (e :: x :: l). split; [reflexivity|]. split; [reflexivity|].
      constructor; [constructor; assumption|].
      assert (Hex : key_lt e x) by (unfold key_lt; lia).
      constructor; [exact Hex|].
      rewrite List.Forall_forall in *. intros y Hy.
      apply (family_lt_trans (query_key kt) (query_family kt) (key e) (key x) (key y));
        try (apply query_of_index; auto).
      * exact Hex.
      * apply Hx. exact Hy.
    + destruct (IH Hl' Hs Hn') as (l' & Hl'' & Hp & Hs').
      exists (x :: l'). split; [rewrite Hl''; reflexivity|].
      split; [rewrite Hp; apply perm_swap|].
      constructor; [exact Hs'|].
      eapply Permutation_Forall; [symmetry; exact Hp|].
      constructor; [|exact Hx].
      unfold key_lt. pose proof (compareValues_swap (key e) (key x)). lia.
Qed.

Lemma insert_rows db ix (n : string) l e :
  SqliteIndexModel.keyType_ ix = kt ->
  index_state db ix n (List.map row l) ->
  index_entry kt e -> List.Forall (index_entry kt) l ->
  StronglySorted key_lt l -> List.Forall (fun x => key x <> key e) l ->
  exists db' ix' l',
    SqliteIndexModel.insert h db ix (key e) (dataOffset e) (dataLength e) (sequence e)
    = Ok (db', ix') /\
    SqliteIndexModel.keyType_ ix' = kt /\
    index_state db' ix' n (List.map row l') /\
    SqliteIndexModel.entryCount_ ix' = ((SqliteIndexModel.entryCount_ ix + 1) mod 2 ^ 64)%N /\
    l' ≡ₚ e :: l /\ StronglySorted key_lt l'.
Proof.
  intros Hkt Hst (Hk & _) Hl Hs Hn.
  assert (Hl' : List.Forall (fun x => index_key kt (key x)) l).
  { eapply List.Forall_impl; [|exact Hl]. intros x (Hx & _). exact Hx. }
  destruct (pk_insert_rows n (SqliteIndexModel.getSqliteType kt) e l Hk Hl' Hs Hn)
    as (l' & E & Hp & Hs').
  pose proof (insert_index h db ix n (List.map row l) (key e) (dataOffset e) (dataLength e)
                (sequence e) Hst) as Hins.
  cbv zeta in Hins. rewrite Hkt in Hins.
  change (stored_row h (key_affinity kt) (key e) (dataOffset e) (dataLength e) (sequence e))
    with (row e) in Hins.
  rewrite (row_key_not_null e Hk), (idx_taken_fresh e l Hk Hl' Hn), E in Hins.
  cbn [orb] in Hins.
  eexists _, _, l'. split; [exact Hins|].
  split; [exact Hkt|]. split; [|split; [reflexivity|split; assumption]].
  rewrite <- Hkt. apply (index_state_insert db ix n (List.map row l)). exact Hst.
Qed.

Lemma insert_all_rows (n : string) es :
  forall db ix l,
    SqliteIndexModel.keyType_ ix = kt ->
    index_state db ix n (List.map row l) ->
    List.Forall (index_entry kt) es -> List.Forall (index_entry kt) l ->
    StronglySorted key_lt l -> List.NoDup (List.map key (es ++ l)) ->
    (SqliteIndexModel.entryCount_ ix < 2 ^ 64)%N ->
    exists db' ix' l',
      SqliteIndexModel.insert_all h db ix es = Ok (db', ix') /\
      SqliteIndexModel.keyType_ ix' = kt /\
      index_state db' ix' n (List.map row l') /\
      SqliteIndexModel.entryCount_ ix'
      = ((SqliteIndexModel.entryCount_ ix + N.of_nat (List.length es)) mod 2 ^ 64)%N /\
      l' ≡ₚ es ++ l /\ StronglySorted key_lt l'.
Proof.
  induction es as [|e es IH]; intros db ix l Hkt Hst Hfit Hl Hs Hn Hc.
  - exists db, ix, l. cbn [SqliteIndexModel.insert_all List.length app].
    rewrite N.add_0_r, N.mod_small by exact Hc.
    repeat (split; [first [reflexivity | assumption]|]). assumption.
  - pose proof (List.Forall_inv Hfit) as He.
    pose proof (List.Forall_inv_tail Hfit) as Hfit'.
    cbn [app List.map] in Hn. apply List.NoDup_cons_iff in Hn as [Hne Hn].
    assert (Hfresh : List.Forall (fun x => key x <> key e) l).
    { apply List.Forall_forall. intros x Hx E. apply Hne. rewrite <- E.
      apply (List.in_map key). apply List.in_or_app. auto. }
    destruct (insert_rows db ix n l e Hkt Hst He Hl Hs Hfresh)
      as (db1 & ix1 & l1 & Hins & Hkt1 & Hst1 & Hc1 & Hp1 & Hs1).
    destruct (IH db1 ix1 l1 Hkt1 Hst1 Hfit') as (db' & ix' & l' & Hall & Hkt' & Hst' & Hc' & Hp' & Hs').
    { eapply Permutation_Forall; [symmetry; exact Hp1|]. constructor; assumption. }
    { exact Hs1. }
    { eapply Permutation_NoDup; [|exact (List.NoDup_cons _ Hne Hn)].
      change (key e :: List.map key (es ++ l)) with (List.map key (e :: es ++ l)).
      apply Permutation_map. rewrite Hp1. apply Permutation_middle. }
    { rewrite Hc1. apply N.mod_upper_bound. discriminate. }
    exists db', ix', l'. cbn [SqliteIndexModel.insert_all]. rewrite Hins. cbn [bind fst snd].
    split; [exact Hall|]. split; [exact Hkt'|]. split; [exact Hst'|].
    split; [|split; [|exact Hs']].
    + rewrite Hc', Hc1. cbn [List.length].
      rewrite N.Div0.add_mod_idemp_l. f_equal. lia.
    + rewrite Hp', Hp1. cbn [app]. symmetry. apply Permutation_middle.
Qed.

Lemma rows_key_sorted l :
  List.Forall (index_entry kt) l -> StronglySorted key_lt l -> key_sorted (List.map row l).
Proof.
  intros Hl Hs. unfold key_sorted.
  induction Hs as [|a l Hs IH Ha]; [constructor|].
  inversion Hl as [|? ? Hka Hl']; subst.
  cbn [List.map]. constructor; [apply IH; exact Hl'|].
  apply List.Forall_map. rewrite List.Forall_forall in *. intros x Hx.
  pose proof (row_key_compare a x (proj1 Hka) (proj1 (Hl' x Hx))) as Hc.
  specialize (Ha x Hx). unfold key_lt in Ha.
  destruct (sql_compare _ _); cbn [sign_of] in Hc; try discriminate; lia.
Qed.

(** The answers of an index whose table holds the rows of the entries [l],
    in ascending order of their keys. *)
Lemma state_queries db ix (n : string) l :
  SqliteIndexModel.keyType_ ix = kt ->
  index_state db ix n (List.map row l) ->
  List.Forall (index_entry kt) l -> key_sorted (List.map row l) ->
  SqliteIndexModel.all h db ix = l /\
  (forall k, query_key kt k ->
     SqliteIndexModel.search h db ix k = List.filter (key_matches k) l) /\
  (forall k, query_key kt k ->
     SqliteIndexModel.searchFirst h db ix k = head (List.filter (key_matches k) l)) /\
  (forall lo hi, query_key kt lo -> query_key kt hi ->
     SqliteIndexModel.range h db ix lo hi = List.filter (key_in_range lo hi) l) /\
  exists db' ix',
    SqliteIndexModel.clear db ix = Ok (db', ix') /\
    SqliteIndexModel.all h db' ix' = [] /\
    SqliteIndexModel.getEntryCount ix' = 0%N.
Proof.
  intros Hkt Hst Hl Hs.
  assert (Hkeys : List.Forall (fun x => index_key kt (key x)) l).
  { eapply List.Forall_impl; [|exact Hl]. intros x (Hx & _). exact Hx. }
  assert (Hsel : forall k, query_key kt k ->
            List.filter (key_test h kt OpEq (SqliteIndexModel.bindKey k)) (List.map row l)
            = List.map row (List.filter (key_matches k) l)).
  { intros k Hk. rewrite filter_map_comm. f_equal.
    apply List.filter_ext_in. intros e He.
    rewrite List.Forall_forall in Hkeys.
    rewrite (key_test_row OpEq k e (Hkeys e He) Hk). unfold key_matches.
    pose proof (compareValues_swap (key e) k).
    destruct (Z.eqb_spec (compareValues (key e) k) 0),
      (Z.eqb_spec (compareValues k (key e)) 0); try reflexivity; lia. }
  split; [|split; [|split; [|split]]].
  - rewrite (all_index h db ix n _ Hst), Hkt.
    rewrite order_by_sorted by assumption.
    apply map_extract_rows. exact Hl.
  - intros k Hk. rewrite (search_index h db ix n _ k Hst), Hkt, (Hsel k Hk).
    apply map_extract_rows. apply entries_filter. exact Hl.
  - intros k Hk. rewrite (searchFirst_index h db ix n _ k Hst), Hkt, (Hsel k Hk).
    pose proof (entries_filter (key_matches k) l Hl) as Hf.
    destruct (List.filter (key_matches k) l) as [|x r]; [reflexivity|].
    cbn [List.map head option_map].
    rewrite (extract_entry_row x (List.Forall_inv Hf)). reflexivity.
  - intros lo hi Hlo Hhi. rewrite (range_index h db ix n _ lo hi Hst), Hkt.
    rewrite order_by_sorted by (apply key_sorted_filter; assumption).
    rewrite filter_map_comm.
    rewrite (List.filter_ext_in _ (key_in_range lo hi)).
    + apply map_extract_rows. apply entries_filter. exact Hl.
    + intros e He. rewrite List.Forall_forall in Hkeys.
      rewrite (key_test_row OpGe lo e (Hkeys e He) Hlo),
        (key_test_row OpLe hi e (Hkeys e He) Hhi).
      reflexivity.
  - rewrite (clear_index db ix n _ Hst). eexists _, _. split; [reflexivity|].
    split; [|reflexivity].
    rewrite (all_index h _ _ n []
               (index_state_insert db ix n (List.map row l) [] 0%N Hst)).
    reflexivity.
Qed.

Lemma sql_family_queries (tableName columnName : string) es :
  (exists s, SqliteIndexModel.SqliteIndex_new ∅ tableName columnName kt = Ok s) ->
  List.Forall (index_entry kt) es -> List.NoDup (List.map key es) ->
  exists db ix l,
    SqliteIndexModel.build h tableName columnName kt es = Ok (db, ix) /\
    l ≡ₚ es /\ StronglySorted key_lt l /\
    SqliteIndexModel.getEntryCount ix = count_mod (List.length es) /\
    SqliteIndexModel.all h db ix = l /\
    (forall k, query_key kt k ->
       SqliteIndexModel.search h db ix k = List.filter (key_matches k) l) /\
    (forall k, query_key kt k ->
       SqliteIndexModel.searchFirst h db ix k = head (List.filter (key_matches k) l)) /\
    (forall lo hi, query_key kt lo -> query_key kt hi ->
       SqliteIndexModel.range h db ix lo hi = List.filter (key_in_range lo hi) l) /\
    exists db' ix',
      SqliteIndexModel.clear db ix = Ok (db', ix') /\
      SqliteIndexModel.all h db' ix' = [] /\
      SqliteIndexModel.getEntryCount ix' = 0%N.
Proof.
  intros [[db0 ix0] Hnew] Hfit Hn.
  destruct (new_index_state _ _ _ _ _ Hnew) as (n & _ & Hix & _ & Hst0).
  unfold SqliteIndexModel.build. rewrite Hnew. cbn [bind fst snd].
  destruct (insert_all_rows n es db0 ix0 []) as (db & ix & l & Hall & Hkt & Hst & Hc & Hp & Hs).
  - rewrite Hix. reflexivity.
  - exact Hst0.
  - exact Hfit.
  - constructor.
  - constructor.
  - rewrite app_nil_r. exact Hn.
  - rewrite Hix. reflexivity.
  - rewrite app_nil_r in Hp.
    assert (Hfl : List.Forall (index_entry kt) l).
    { eapply Permutation_Forall; [symmetry; exact Hp | exact Hfit]. }
    destruct (state_queries db ix n l Hkt Hst Hfl (rows_key_sorted l Hfl Hs))
      as (Q1 & Q2 & Q3 & Q4 & Q5).
    exists db, ix, l. split; [exact Hall|]. split; [exact Hp|]. split; [exact Hs|].
    split; [|auto 10].
    unfold SqliteIndexModel.getEntryCount. rewrite Hc, Hix. reflexivity.
Qed.

End SqlFamily.

(** *** The two back-ends filled alike *)

Section BackEnds.

(** C4, the counterexample: on the table User and the column id, whose
    index the constructor makes, the B-tree takes an entry with a Null key
    and the host-SQL index refuses it. *)
Lemma backend_contract_fails : ~ backend_contract.
Proof.
  intros H.
  pose proof (new_index_plain "User" "id" TInt32 eq_refl eq_refl) as Hnew.
  specialize (H plain_conversions TInt32 "User"%string "id"%string [mkEntry VNull 0 0 1]
                Hnew).
  destruct Hnew as [[db ix] Hnew].
  destruct (new_index_state _ _ _ _ _ Hnew) as (n & _ & _ & _ & Hst).
  unfold backends_agree in H.
  destruct (build_outcome TInt32 4 [mkEntry VNull 0 0 1]) as [(t & _ & Hb & _)|[Hlt _]];
    [|lia].
  rewrite Hb in H.
  unfold SqliteIndexModel.build in H. rewrite Hnew in H.
  cbn [bind fst snd SqliteIndexModel.insert_all key dataOffset dataLength sequence] in H.
  rewrite (insert_null_rejected plain_conversions db ix n [] 0 0 1 Hst) in H.
  cbn [bind] in H.
  apply H.
  - repeat constructor.
  - repeat constructor.
Qed.

(** C4, as the code has it.  Take an index whose constructor succeeds, and
    entries whose keys are keys of the index's key type that the index
    table hands back unchanged, no two of them equal.  Filled with these
    entries, both back-ends take every insert and then agree: on the entry
    count, on the full scan, on search, searchFirst and range for every
    key of the family of the key type, and after clear. *)
Theorem backends_agree_on_index_keys (h : Conversions) (kt : ValueType) (order : Z)
    (tableName columnName : string) (es : list IndexEntry) :
  2 <= order ->
  (exists s, SqliteIndexModel.SqliteIndex_new ∅ tableName columnName kt = Ok s) ->
  List.Forall (index_entry kt) es -> List.NoDup (List.map key es) ->
  (exists t, BTreeIndex.build kt order es = Ok t) /\
  (exists s, SqliteIndexModel.build h tableName columnName kt es = Ok s) /\
  backends_agree (query_key kt) h kt order tableName columnName es.
Proof.
  intros Hord Hnew Hfit Hn.
  assert (Hkeys : List.Forall (fun e => index_key kt (key e)) es).
  { eapply List.Forall_impl; [|exact Hfit]. intros e (Hk & _). exact Hk. }
  destruct (btree_family_queries kt order es Hord Hkeys Hn)
    as (t & L & Hb & Hp & Hs & Hc & B1 & B2 & B3 & B4).
  destruct (sql_family_queries h kt tableName columnName es Hnew Hfit Hn)
    as (db & ix & l & Hq & Hp' & Hs' & Hc' & Q1 & Q2 & Q3 & Q4 & db' & ix' & Q5 & Q6 & Q7).
  assert (E : L = l).
  { apply key_sorted_unique; try assumption. rewrite Hp, Hp'. reflexivity. }
  subst L.
  split; [eauto|]. split; [eauto|].
  unfold backends_agree. rewrite Hb, Hq.
  split; [rewrite Hc, Hc'; reflexivity|].
  split; [rewrite B1, Q1; reflexivity|].
  split; [intros k Hk; rewrite Q2 by exact Hk; apply B2; exact Hk|].
  split; [intros k indet Hk; rewrite Q3 by exact Hk; apply B3; exact Hk|].
  split; [intros lo hi Hlo Hhi; rewrite Q4 by assumption; apply B4; assumption|].
  rewrite Q5. split; [rewrite Q7; reflexivity|].
  rewrite Q6. apply (all_spec _ _ (holds_clear t)).
Qed.

Lemma backends_agree_on_index_keys_witness :
  (exists t,
     BTreeIndex.build TString 4
       [mkEntry (VString "carol") 0 50 1; mkEntry (VString "alice") 100 50 2;
        mkEntry (VString "bob") 200 50 3]
     = Ok t) /\
  backends_agree (query_key TString) plain_conversions TString 4 "User" "name"
    [mkEntry (VString "carol") 0 50 1; mkEntry (VString "alice") 100 50 2;
     mkEntry (VString "bob") 200 50 3].
Proof.
  destruct (backends_agree_on_index_keys plain_conversions TString 4 "User" "name"
              [mkEntry (VString "carol") 0 50 1; mkEntry (VString "alice") 100 50 2;
               mkEntry (VString "bob") 200 50 3]) as (H1 & _ & H3).
  - lia.
  - apply new_index_plain; reflexivity.
  - repeat constructor; cbn; lia.
  - repeat constructor; cbn; intuition discriminate.
  - split; assumption.
Defined.

(** *** What the conditions on the keys keep out

    Each condition of the theorem above is needed: without it the two
    back-ends, filled alike on the table User and the column id, answer
    differently. *)

Lemma agree_scan (Q : Value -> Prop) (h : Conversions) (kt : ValueType) (order : Z)
    (tableName columnName : string) (es : list IndexEntry) :
  backends_agree Q h kt order tableName columnName es ->
  match BTreeIndex.build kt order es,
        SqliteIndexModel.build h tableName columnName kt es with
  | Ok t, Ok (db, ix) => all t = Ok (SqliteIndexModel.all h db ix)
  | Err _, Err _ => True
  | _, _ => False
  end.
Proof.
  unfold backends_agree.
  destruct (BTreeIndex.build kt order es) as [t|],
    (SqliteIndexModel.build h tableName columnName kt es) as [[db ix]|]; try tauto.
Qed.

Lemma agree_search (Q : Value -> Prop) (h : Conversions) (kt : ValueType) (order : Z)
    (tableName columnName : string) (es : list IndexEntry) (k : Value) :
  backends_agree Q h kt order tableName columnName es -> Q k ->
  match BTreeIndex.build kt order es,
        SqliteIndexModel.build h tableName columnName kt es with
  | Ok t, Ok (db, ix) => search t k = Ok (SqliteIndexModel.search h db ix k)
  | Err _, Err _ => True
  | _, _ => False
  end.
Proof.
  unfold backends_agree.
  destruct (BTreeIndex.build kt order es) as [t|],
    (SqliteIndexModel.build h tableName columnName kt es) as [[db ix]|]; try tauto.
  intros (_ & _ & H & _) Hk. apply H. exact Hk.
Qed.

Lemma agree_range (Q : Value -> Prop) (h : Conversions) (kt : ValueType) (order : Z)
    (tableName columnName : string) (es : list IndexEntry) (lo hi : Value) :
  backends_agree Q h kt order tableName columnName es -> Q lo -> Q hi ->
  match BTreeIndex.build kt order es,
        SqliteIndexModel.build h tableName columnName kt es with
  | Ok t, Ok (db, ix) => range t lo hi = Ok (SqliteIndexModel.range h db ix lo hi)
  | Err _, Err _ => True
  | _, _ => False
  end.
Proof.
  unfold backends_agree.
  destruct (BTreeIndex.build kt order es) as [t|],
    (SqliteIndexModel.build h tableName columnName kt es) as [[db ix]|]; try tauto.
  intros (_ & _ & _ & _ & H & _) Hlo Hhi. apply H; assumption.
Qed.

(** Equal keys: of six entries with the key 5 the B-tree scans the sequence
    numbers 1, 2, 3, 6, 4, 5 and the table 1 to 6. *)
Lemma repeated_keys_disagree :
  ~ backends_agree (query_key TInt32) plain_conversions TInt32 4 "User" "id"
      (fives [1; 2; 3; 4; 5; 6]%N).
Proof. intros H. apply agree_scan in H. vm_compute in H. discriminate H. Qed.

(** A UInt32 key from 2^31 on is bound as a negative [int]: the table has
    it before the key 1. *)
Lemma uint32_above_int_max_disagrees :
  ~ backends_agree (query_key TUInt32) plain_conversions TUInt32 4 "User" "id"
      [mkEntry (VUInt32 1) 0 0 1; mkEntry (VUInt32 (2 ^ 31)) 0 0 2].
Proof. intros H. apply agree_scan in H. vm_compute in H. discriminate H. Qed.

(** A string key with a NUL byte comes back cut at that byte. *)
Lemma nul_in_string_disagrees :
  ~ backends_agree (query_key TString) plain_conversions TString 4 "User" "id"
      [mkEntry (VString (String "a" (String "000" "b"))) 0 0 1].
Proof. intros H. apply agree_scan in H. vm_compute in H. discriminate H. Qed.

(** An empty blob and a NaN are bound as NULL, which the key column does
    not take; the B-tree takes both. *)
Lemma empty_blob_disagrees :
  ~ backends_agree (query_key TBytes) plain_conversions TBytes 4 "User" "id"
      [mkEntry (VBytes []) 0 0 1].
Proof. intros H. apply agree_scan in H. vm_compute in H. exact H. Qed.

Lemma nan_key_disagrees :
  ~ backends_agree (query_key TFloat64) plain_conversions TFloat64 4 "User" "id"
      [mkEntry (VFloat64 S754_nan) 0 0 1].
Proof. intros H. apply agree_scan in H. vm_compute in H. exact H. Qed.

(** The negative zero comes back from the table as the positive zero. *)
Lemma negative_zero_disagrees :
  ~ backends_agree (query_key TFloat64) plain_conversions TFloat64 4 "User" "id"
      [mkEntry (VFloat64 (S754_zero true)) 0 0 1].
Proof. intros H. apply agree_scan in H. vm_compute in H. discriminate H. Qed.

(** A key of another alternative than the key type names comes back as a
    value of the key type. *)
Lemma other_alternative_disagrees :
  ~ backends_agree (query_key TInt32) plain_conversions TInt32 4 "User" "id"
      [mkEntry (VInt64 7) 0 0 1].
Proof. intros H. apply agree_scan in H. vm_compute in H. discriminate H. Qed.

(** A query key of another family: the B-tree compares the integer key
    2^53 + 1 and the double 2^53 as doubles and finds them equal, the
    engine compares them exactly. *)
Lemma double_query_disagrees :
  ~ backends_agree (fun q => q = VFloat64 (double_of_Z (2 ^ 53))) plain_conversions
      TInt64 4 "User" "id" [mkEntry (VInt64 (2 ^ 53 + 1)) 0 0 1].
Proof.
  intros H.
  pose proof (agree_search _ _ _ _ _ _ _ (VFloat64 (double_of_Z (2 ^ 53))) H eq_refl) as H'.
  vm_compute in H'. discriminate H'.
Qed.

(** A UInt32 query key from 2^31 on is bound as a negative [int] as well:
    the range from 0 to 2^31 is empty in the table. *)
Lemma uint32_bound_disagrees :
  ~ backends_agree (fun q => exists z, q = VUInt32 z) plain_conversions
      TUInt32 4 "User" "id" [mkEntry (VUInt32 1) 0 0 1].
Proof.
  intros H.
  pose proof (agree_range _ _ _ _ _ _ _ (VUInt32 0) (VUInt32 (2 ^ 31)) H
                (ex_intro _ 0 eq_refl) (ex_intro _ (2 ^ 31) eq_refl)) as H'.
  vm_compute in H'. discriminate H'.
Qed.

End BackEnds.

(** * Further properties of the code *)

(** ** compareValues as an order *)

Section CompareOrder.

(** Every value compares equal to itself, and swapping the arguments of a
    comparison flips the sign of its result: the comparison never says both
    a < b and b < a. *)
Theorem compare_reflexive_antisymmetric (a b : Value) :
  compareValues a a = 0 /\
  Z.sgn (compareValues b a) = - Z.sgn (compareValues a b) /\
  (compareValues a b = 0 <-> compareValues b a = 0).
Proof.
  pose proof (compareValues_swap a b) as H.
  split; [apply compareValues_refl|]. split; [exact H|]. lia.
Qed.

(** On integer keys of any width and on string keys the comparison is
    transitive, so it orders them; over all values it is not: an integer
    above 2^53 and the double it rounds to compare equal. *)
Theorem compare_transitive_within_families :
  ordered_family is_integer /\
  ordered_family (fun v => exists s, v = VString s) /\
  ~ ordered_family (fun _ => True).
Proof.
  split; [exact integer_family|]. split; [exact string_family|].
  intros H.
  specialize (H (VInt64 (2 ^ 53 + 1)) (VFloat64 (double_of_Z (2 ^ 53))) (VInt64 (2 ^ 53))
                I I I).
  vm_compute in H. apply H; [discriminate | discriminate | reflexivity].
Qed.

(** Blob keys are ordered lexicographically by unsigned byte value, a
    proper prefix before its extensions. *)
Theorem blob_order_lexicographic (a b : list byte) :
  compareValues (VBytes a) (VBytes b)
  = sign_of (lex_compare (List.map (fun c => Z.of_N (Byte.to_N c)) a)
                         (List.map (fun c => Z.of_N (Byte.to_N c)) b)).
Proof.
  change (compareValues (VBytes a) (VBytes b)) with (bytes_compare a b).
  revert b. induction a as [|x a IH]; intros [|y b]; try reflexivity.
  rewrite bytes_compare_cons. cbn [List.map lex_compare].
  destruct (N.ltb_spec (Byte.to_N x) (Byte.to_N y)) as [H1|H1].
  - replace (Z.of_N (Byte.to_N x) ?= Z.of_N (Byte.to_N y)) with Lt; [reflexivity|].
    symmetry. apply Z.compare_lt_iff. lia.
  - destruct (N.ltb_spec (Byte.to_N y) (Byte.to_N x)) as [H2|H2].
    + replace (Z.of_N (Byte.to_N x) ?= Z.of_N (Byte.to_N y)) with Gt; [reflexivity|].
      symmetry. apply Z.compare_gt_iff. lia.
    + replace (Z.of_N (Byte.to_N x) ?= Z.of_N (Byte.to_N y)) with Eq; [apply IH|].
      symmetry. apply Z.compare_eq_iff. lia.
Qed.

End CompareOrder.

(** ** The B-tree index: scans and point queries *)

Section BTreeScans.
Implicit Types (t : BTree) (T : tree) (e : IndexEntry) (k : Value) (l es : list IndexEntry).



(** An index of order below 2 takes no insert: the root counts as full
    while empty, and the split that insert starts reads the middle entry of
    an empty vector. *)
Theorem order_below_2_rejects_insert (kt : ValueType) (order : Z) k (o l s : N) :
  order < 2 ->
  insert (BTree_new kt order) k o l s = Err OutOfRange /\
  insert (clear (BTree_new kt order)) k o l s = Err OutOfRange.
Proof.
  intros Hord. split.
  - apply (insert_small_order _ 1%N); [exact Hord | apply holds_new].
  - apply (insert_small_order _ 1%N); [exact Hord | apply holds_clear].
Qed.

Lemma order_below_2_rejects_insert_witness :
  insert (BTree_new TInt32 1) (VInt32 7) 0 50 1 = Err OutOfRange.
Proof. apply (order_below_2_rejects_insert TInt32 1 (VInt32 7) 0 50 1). lia. Defined.

Lemma filter_unique_key k l e :
  is_integer k -> List.Forall (fun x => is_integer (key x)) l ->
  List.NoDup (List.map (fun x => int_of (key x)) l) ->
  In e l -> int_of (key e) = int_of k ->
  List.filter (key_matches k) l = [e].
Proof.
  intros Hk. induction l as [|x l IH]; intros Hi Hn Hin He; [contradiction|].
  pose proof (List.Forall_inv Hi) as Hix. pose proof (List.Forall_inv_tail Hi) as Hi'.
  cbn [List.map] in Hn. apply List.NoDup_cons_iff in Hn as [Hnx Hn].
  cbn [List.filter]. rewrite (matches_int k x Hk Hix).
  destruct Hin as [->|Hin].
  - destruct (Z.eqb_spec (int_of k) (int_of (key e))) as [_|Hne]; [|congruence]. f_equal.
    apply (M_none k l Hk Hi'). apply List.Forall_forall. intros y Hy E.
    apply Hnx. rewrite He, <- E. apply (List.in_map (fun x => int_of (key x))). exact Hy.
  - destruct (Z.eqb_spec (int_of k) (int_of (key x))) as [E|E].
    + exfalso. apply Hnx. rewrite <- E, <- He.
      apply (List.in_map (fun x => int_of (key x))). exact Hin.
    + apply IH; assumption.
Qed.

(** Insert then look up, for integer keys no two of which are equal: the
    search for the key of an inserted entry returns that entry and nothing
    else, and the search for an integer that was never inserted returns
    nothing. *)
Theorem search_finds_distinct_keys (kt : ValueType) (order : Z) es t :
  2 <= order ->
  List.Forall (fun e => is_integer (key e)) es ->
  List.NoDup (List.map (fun e => int_of (key e)) es) ->
  build kt order es = Ok t ->
  (forall e, In e es -> search t (key e) = Ok [e]) /\
  (forall k, is_integer k -> (forall e, In e es -> int_of (key e) <> int_of k) ->
             search t k = Ok []).
Proof.
  intros Hord Hi Hn Hb.
  destruct (btree_queries kt order es Hord Hi Hn)
    as (t' & L & Hb' & Hp & _ & _ & _ & Hsearch & _).
  rewrite Hb in Hb'. injection Hb' as <-.
  assert (HiL : List.Forall (fun e => is_integer (key e)) L).
  { eapply Permutation_Forall; [symmetry; exact Hp | exact Hi]. }
  assert (HnL : List.NoDup (List.map (fun e => int_of (key e)) L)).
  { eapply Permutation_NoDup; [|exact Hn]. apply Permutation_map. symmetry. exact Hp. }
  split.
  - intros e He.
    assert (Hie : is_integer (key e)).
    { rewrite List.Forall_forall in Hi. apply Hi. exact He. }
    rewrite (Hsearch (key e) Hie). f_equal.
    apply filter_unique_key; try assumption; [|reflexivity].
    eapply Permutation_in; [symmetry; exact Hp | exact He].
  - intros k Hk Hfresh. rewrite (Hsearch k Hk). f_equal.
    apply (M_none k L Hk HiL). apply List.Forall_forall. intros x Hx.
    apply Hfresh. eapply Permutation_in; [exact Hp | exact Hx].
Qed.

Lemma search_finds_distinct_keys_witness :
  exists t,
    build TInt32 4 [mkEntry (VInt32 7) 0 50 1; mkEntry (VInt32 3) 100 50 2] = Ok t /\
    search t (VInt32 3) = Ok [mkEntry (VInt32 3) 100 50 2] /\
    search t (VInt64 5) = Ok [].
Proof.
  destruct (build_outcome TInt32 4 [mkEntry (VInt32 7) 0 50 1; mkEntry (VInt32 3) 100 50 2])
    as [(t & _ & Hb & _)|[Hlt _]]; [|lia].
  destruct (search_finds_distinct_keys TInt32 4
              [mkEntry (VInt32 7) 0 50 1; mkEntry (VInt32 3) 100 50 2] t) as [H1 H2].
  - lia.
  - repeat constructor.
  - repeat constructor; cbn; intuition discriminate.
  - exact Hb.
  - exists t. split; [exact Hb|]. split.
    + apply (H1 (mkEntry (VInt32 3) 100 50 2)). cbn. auto.
    + apply (H2 (VInt64 5)); [exact I|]. cbn. intros e [<-|[<-|[]]]; cbn; discriminate.
Defined.

End BTreeScans.

(** ** searchFirst on integer keys, duplicates included *)

Section FirstMatch.
Implicit Types (t : BTree) (T : tree) (e : IndexEntry) (k : Value) (l es : list IndexEntry).

Let ik (e : IndexEntry) : Z := int_of (key e).
Let ints (l : list IndexEntry) : Prop := List.Forall (fun e => is_integer (key e)) l.

Lemma key_le_int e1 e2 :
  is_integer (key e1) -> is_integer (key e2) -> key_le e1 e2 <-> ik e1 <= ik e2.
Proof. intros H1 H2. unfold key_le. rewrite (cmp_int _ _ H1 H2). apply three_way_le. Qed.

Lemma split_at_int (z : Z) es :
  ints es -> StronglySorted key_le es ->
  exists es1 es2,
    es = es1 ++ es2 /\ List.Forall (fun e => ik e < z) es1 /\
    List.Forall (fun e => z <= ik e) es2.
Proof.
  induction es as [|e es IH]; intros Hi Hs.
  - exists [], []. repeat split; constructor.
  - pose proof (List.Forall_inv Hi) as Hie. pose proof (List.Forall_inv_tail Hi) as Hi'.
    apply StronglySorted_inv in Hs as [Hs Hle].
    destruct (Z.lt_ge_cases (ik e) z) as [Hlt|Hge].
    + destruct (IH Hi' Hs) as (es1 & es2 & -> & H1 & H2).
      exists (e :: es1), es2. split; [reflexivity|]. split; [constructor; assumption|exact H2].
    + exists [], (e :: es). split; [reflexivity|]. split; [constructor|].
      constructor; [exact Hge|].
      rewrite List.Forall_forall in *. intros x Hx.
      specialize (Hle x Hx). apply key_le_int in Hle; auto. unfold ik in *. lia.
Qed.

Lemma weave_l_below_le (b : Z) (cs : list (list IndexEntry)) :
  forall es,
    StronglySorted key_le (weave_l cs es) -> ints (weave_l cs es) ->
    List.Forall (fun e => ik e < b) es ->
    List.Forall (fun x => ik x < b) (weave_l cs es).
Proof.
  induction cs as [|c cs IH]; intros [|e es] Hs Hi Hb; try constructor.
  cbn [weave_l] in *.
  apply SS_app_iff in Hs as (_ & Hs & Hce).
  apply StronglySorted_inv in Hs as [Hs _].
  apply List.Forall_app in Hi as [Hic Hi].
  pose proof (List.Forall_inv Hi) as Hie. pose proof (List.Forall_inv_tail Hi) as Hi'.
  pose proof (List.Forall_inv Hb) as Hbe. pose proof (List.Forall_inv_tail Hb) as Hb'.
  apply List.Forall_app. split.
  - rewrite List.Forall_forall in *. intros x Hx.
    specialize (Hce x Hx). pose proof (List.Forall_inv Hce) as Hxe.
    apply key_le_int in Hxe; [unfold ik in *; lia | auto | exact Hie].
  - constructor; [exact Hbe|]. apply IH; assumption.
Qed.

Lemma weave_r_above (b : Z) (es : list IndexEntry) :
  forall cs : list (list IndexEntry),
    StronglySorted key_le (weave_r es cs) -> ints (weave_r es cs) ->
    (forall e, head es = Some e -> b < ik e) ->
    List.Forall (fun x => b < ik x) (weave_r es cs).
Proof.
  intros cs Hs Hi Hh.
  destruct es as [|e es]; [constructor|]. destruct cs as [|c cs]; [constructor|].
  cbn [weave_r] in *. specialize (Hh e eq_refl).
  apply StronglySorted_inv in Hs as [_ Hle].
  pose proof (List.Forall_inv Hi) as Hie. pose proof (List.Forall_inv_tail Hi) as Hi'.
  constructor; [exact Hh|].
  rewrite List.Forall_forall in *. intros x Hx.
  specialize (Hle x Hx). apply key_le_int in Hle; auto. unfold ik in *. lia.
Qed.

(** What searchNodeFirstInt answers on a subtree. *)
Let answer (z : Z) (l : list IndexEntry) (r : option IndexEntry) : Prop :=
  match r with
  | Some e => In e l /\ ik e = z
  | None => List.Forall (fun x => ik x <> z) l
  end.

Lemma answer_lift (z : Z) (l1 l l2 : list IndexEntry) r :
  List.Forall (fun x => ik x <> z) l1 -> List.Forall (fun x => ik x <> z) l2 ->
  answer z l r -> answer z (l1 ++ l ++ l2) r.
Proof.
  intros H1 H2. destruct r as [e|]; cbn.
  - intros [Hin He]. split; [|exact He].
    apply List.in_or_app. right. apply List.in_or_app. left. exact Hin.
  - intros H. apply List.Forall_app. split; [exact H1|].
    apply List.Forall_app. split; assumption.
Qed.

Lemma searchNodeFirstInt_answer (indet : Z) (fuel : nat) t (z : Z) :
  forall T,
    rep (nodes_ t) T -> (height T <= fuel)%nat ->
    StronglySorted key_le (inorder T) -> ints (inorder T) ->
    exists r, searchNodeFirstInt indet fuel t (tid T) z = Ok r /\ answer z (inorder T) r.
Proof.
  induction fuel as [|fuel IH]; intros T Hrep Hh Hs Hi.
  { destruct T; simpl in Hh; lia. }
  destruct T as [id leaf es cs]. cbn [tid searchNodeFirstInt].
  inversion Hrep as [? ? ? ? Hsh Hl Hcs]; subst.
  destruct (getNode_shape _ _ _ Hsh) as (n & Hg & Hshp).
  apply shape_eq in Hshp as (Hn1 & Hn2 & Hn3).
  rewrite Hg. cbn [bind]. rewrite Hn1, Hn2, Hn3. clear Hg Hn1 Hn2 Hn3.
  cbn [inorder] in Hs, Hi |- *.
  destruct (interleave_entries key_le (fun e => is_integer (key e))
              (List.map inorder cs) es) as [Hes Hies]; try assumption.
  { destruct leaf; [left; rewrite Hl; reflexivity | right; rewrite length_map; exact Hl]. }
  destruct (split_at_int z es Hies Hes) as (es1 & es2 & -> & Hlow & Hhigh).
  apply List.Forall_app in Hies as [Hi1 Hi2].
  rewrite (lower_bound_spec _ es1 es2).
  2: { rewrite List.Forall_forall in *. intros e He.
       rewrite (entry_int_int indet e (Hi1 e He)). apply Z.leb_gt. apply Hlow. exact He. }
  2: { rewrite List.Forall_forall in *. intros e He.
       rewrite (entry_int_int indet e (Hi2 e He)). apply Z.leb_le. apply Hhigh. exact He. }
  2, 3, 4: rewrite ?length_app; lia.
  cbn [bind]. rewrite length_app.
  assert (Hne1 : List.Forall (fun x => ik x <> z) es1).
  { eapply List.Forall_impl; [|exact Hlow]. cbn. intros; lia. }
  (* the entry at the position found, when it carries the key *)
  destruct es2 as [|e es2'].
  - cbn [List.length]. rewrite Nat.add_0_r, Nat.ltb_irrefl. cbn [bind].
    destruct leaf; cbn [negb andb].
    + subst cs. exists None. split; [reflexivity|].
      cbn [List.map interleave answer]. rewrite app_nil_r. exact Hne1.
    + rewrite length_map, Hl, length_app. cbn [List.length].
      replace (List.length es1 <? S (List.length es1 + 0))%nat with true
        by (symmetry; apply Nat.ltb_lt; lia).
      rewrite length_app in Hl. cbn [List.length] in Hl.
      destruct (nth_error cs (List.length es1)) as [c|] eqn:Ec.
      2: { apply nth_error_None in Ec. lia. }
      apply nth_error_split in Ec as (cs1 & cs2 & -> & Hlen1).
      destruct cs2 as [|c2 cs2]; [|rewrite length_app in Hl; cbn [List.length] in Hl; lia].
      rewrite (List.map_app tid). cbn [List.map].
      rewrite vec_at_middle' by (rewrite length_map; auto). cbn [bind].
      rewrite (List.map_app inorder) in Hs, Hi |- *. cbn [List.map] in Hs, Hi |- *.
      rewrite interleave_split in Hs, Hi |- * by (rewrite length_map; exact Hlen1).
      cbn [weave_r] in Hs, Hi |- *.
      apply SS_app_iff in Hs as (HsW1 & Hs & _).
      apply SS_app_iff in Hs as (HsC & _ & _).
      apply List.Forall_app in Hi as [HiW1 Hi]. apply List.Forall_app in Hi as [HiC _].
      destruct (IH c) as (r & Hr & Ha); try assumption.
      { rewrite Forall_forall in Hcs. apply Hcs. apply elem_of_app. right.
        apply elem_of_cons. auto. }
      { eapply height_rep_child; [exact Hh|]. apply elem_of_app. right.
        apply elem_of_cons. auto. }
      exists r. split; [exact Hr|].
      apply answer_lift; [|constructor|exact Ha].
      eapply List.Forall_impl; [|exact (weave_l_below_le z _ es1 HsW1 HiW1 Hlow)].
      cbn. intros; lia.
  - cbn [List.length].
    replace (List.length es1 <? List.length es1 + S (List.length es2'))%nat with true
      by (symmetry; apply Nat.ltb_lt; lia).
    rewrite vec_at_middle. cbn [bind].
    pose proof (List.Forall_inv Hi2) as Hie. pose proof (List.Forall_inv Hhigh) as Hze.
    rewrite (entry_int_int indet e Hie).
    destruct (Z.eqb_spec z (int_of (key e))) as [Eq|Ne]; cbn [bind].
    + exists (Some e). split; [reflexivity|]. cbn [answer]. split; [|symmetry; exact Eq].
      destruct leaf.
      * subst cs. cbn [List.map interleave]. apply List.in_or_app. right. left. reflexivity.
      * rewrite length_app in Hl. cbn [List.length] in Hl.
        destruct (nth_error cs (List.length es1)) as [c|] eqn:Ec.
        2: { apply nth_error_None in Ec. lia. }
        apply nth_error_split in Ec as (cs1 & cs2 & -> & Hlen1).
        destruct cs2 as [|c2 cs2].
        { rewrite length_app in Hl. cbn [List.length] in Hl. lia. }
        rewrite (List.map_app inorder). cbn [List.map].
        rewrite interleave_split by (rewrite length_map; exact Hlen1).
        cbn [weave_r]. apply List.in_or_app. right. apply List.in_or_app. right.
        left. reflexivity.
    + assert (Hgt : z < ik e) by (unfold ik in *; lia).
      destruct leaf; cbn [negb andb].
      * subst cs. exists None. split; [reflexivity|].
        cbn [List.map interleave answer]. apply List.Forall_app. split; [exact Hne1|].
        apply SS_app_iff in Hs as (_ & Hs2 & _).
        apply StronglySorted_inv in Hs2 as [_ Hle].
        constructor; [unfold ik in *; lia|].
        pose proof (List.Forall_inv_tail Hi2) as Hi2'.
        rewrite List.Forall_forall in *. intros x Hx.
        specialize (Hle x Hx). apply key_le_int in Hle; auto. unfold ik in *. lia.
      * rewrite length_map, Hl, length_app. cbn [List.length].
        replace (List.length es1 <? S (List.length es1 + S (List.length es2')))%nat
          with true by (symmetry; apply Nat.ltb_lt; lia).
        rewrite length_app in Hl. cbn [List.length] in Hl.
        destruct (nth_error cs (List.length es1)) as [c|] eqn:Ec.
        2: { apply nth_error_None in Ec. lia. }
        apply nth_error_split in Ec as (cs1 & cs2 & -> & Hlen1).
        rewrite (List.map_app tid). cbn [List.map].
        rewrite vec_at_middle' by (rewrite length_map; auto). cbn [bind].
        rewrite (List.map_app inorder) in Hs, Hi |- *. cbn [List.map] in Hs, Hi |- *.
        rewrite interleave_split in Hs, Hi |- * by (rewrite length_map; exact Hlen1).
        apply SS_app_iff in Hs as (HsW1 & Hs & _).
        apply SS_app_iff in Hs as (HsC & HsW2 & _).
        apply List.Forall_app in Hi as [HiW1 Hi]. apply List.Forall_app in Hi as [HiC HiW2].
        destruct (IH c) as (r & Hr & Ha); try assumption.
        { rewrite Forall_forall in Hcs. apply Hcs. apply elem_of_app. right.
          apply elem_of_cons. auto. }
        { eapply height_rep_child; [exact Hh|]. apply elem_of_app. right.
          apply elem_of_cons. auto. }
        exists r. split; [exact Hr|].
        apply answer_lift; [| |exact Ha].
        -- eapply List.Forall_impl; [|exact (weave_l_below_le z _ es1 HsW1 HiW1 Hlow)].
           cbn. intros; lia.
        -- eapply List.Forall_impl; [|apply (weave_r_above z _ _ HsW2 HiW2)].
           ++ cbn. intros; lia.
           ++ intros x [= <-]. exact Hgt.
Qed.

End FirstMatch.

Section FirstMatchContract.

(** searchFirst on an index of integer keys, equal keys allowed: when some
    stored entry has a key equal to the one looked for, searchFirst returns
    such an entry; when none has, it reports no match. *)
Theorem searchFirst_finds_integer_key (kt : ValueType) (order : Z)
    (es : list IndexEntry) (t : BTree) (k : Value) (indet : Z) :
  List.Forall (fun e => is_integer (key e)) es -> is_integer k ->
  build kt order es = Ok t ->
  exists r,
    searchFirst indet t k = Ok r /\
    match r with
    | Some e => In e es /\ compareValues k (key e) = 0
    | None => forall e, In e es -> compareValues k (key e) <> 0
    end.
Proof.
  intros Hi Hk Hb.
  destruct (build_holds _ _ _ _ Hb) as (T & Hh & Hp).
  pose proof (owned_height _ _ (holds_owned _ _ Hh)) as Hheight.
  destruct Hh as (Hrep & Htid & _ & _ & Hsorted).
  assert (HiT : List.Forall (fun e => is_integer (key e)) (inorder T)).
  { eapply Permutation_Forall; [symmetry; exact Hp | exact Hi]. }
  pose proof (Sorted_family_strong is_integer integer_family _ Hsorted HiT) as Hstrong.
  destruct (searchNodeFirstInt_answer indet _ t (int_of k) T Hrep Hheight Hstrong HiT)
    as (r & Hr & Ha).
  exists r. split.
  - unfold searchFirst. rewrite <- Htid, searchNodeFirst_int by exact Hk. exact Hr.
  - destruct r as [e|]; cbn in Ha.
    + destruct Ha as [Hin He]. split; [eapply Permutation_in; eassumption|].
      assert (Hie : is_integer (key e)).
      { rewrite List.Forall_forall in HiT. apply HiT. exact Hin. }
      rewrite (cmp_int _ _ Hk Hie). apply three_way_eq. symmetry. exact He.
    + intros e He.
      assert (Hin : In e (inorder T)).
      { eapply Permutation_in; [symmetry; exact Hp | exact He]. }
      rewrite List.Forall_forall in Ha, HiT.
      rewrite (cmp_int _ _ Hk (HiT e Hin)), three_way_eq.
      intros E. apply (Ha e Hin). symmetry. exact E.
Qed.

Lemma searchFirst_finds_integer_key_witness :
  exists t r,
    build TInt32 4 (fives [1; 2; 3; 4]%N) = Ok t /\
    searchFirst 0 t (VInt64 5) = Ok (Some r) /\ In r (fives [1; 2; 3; 4]%N).
Proof.
  destruct (build_outcome TInt32 4 (fives [1; 2; 3; 4]%N)) as [(t & _ & Hb & _)|[Hlt _]];
    [|lia].
  destruct (searchFirst_finds_integer_key TInt32 4 (fives [1; 2; 3; 4]%N) t (VInt64 5) 0)
    as (r & Hr & Ha).
  - repeat constructor.
  - exact I.
  - exact Hb.
  - destruct r as [e|].
    + exists t, e. split; [exact Hb|]. split; [exact Hr|]. apply Ha.
    + exfalso. apply (Ha (mkEntry (VInt32 5) 100 50 1)); [cbn; auto | reflexivity].
Defined.

End FirstMatchContract.

(** ** The host-SQL index: keys, duplicates, counts *)

Section SqliteKeys.

Variable h : Conversions.

Lemma c_string_no_nul (a b : string) :
  c_string a = a -> c_string (a ++ String "000"%char b) = a.
Proof.
  induction a as [|c a IH]; intros H; [reflexivity|].
  change ((String c a ++ String "000"%char b)%string)
    with (String c (a ++ String "000"%char b)).
  cbn [c_string] in H |- *.
  destruct (Ascii.eqb c "000"%char); [discriminate H|].
  injection H as H. rewrite (IH H). reflexivity.
Qed.

(** Keys come back from the index table as they went in: integers of the
    index's key type over the whole range of their C++ type, booleans,
    strings without a NUL byte and non-empty blobs.  A string with a NUL
    byte comes back cut off at that byte. *)
Theorem key_round_trip (kt : ValueType) :
  (forall k, storable kt k ->
     SqliteIndexModel.extractKey h kt
       (apply_affinity h (affinity_of_type (SqliteIndexModel.getSqliteType kt))
          (SqliteIndexModel.bindKey k))
     = k) /\
  (forall a b, c_string a = a ->
     SqliteIndexModel.extractKey h TString
       (apply_affinity h (affinity_of_type (SqliteIndexModel.getSqliteType TString))
          (SqliteIndexModel.bindKey (VString (a ++ String "000"%char b))))
     = VString a).
Proof.
  split.
  - intros k Hk.
    change (affinity_of_type (SqliteIndexModel.getSqliteType kt)) with (key_affinity kt).
    rewrite key_affinity_cases.
    destruct kt, k; cbn [storable] in Hk; try contradiction;
      cbn [SqliteIndexModel.bindKey apply_affinity
           SqliteIndexModel.extractKey column_text column_blob];
      unfold column_int; cbn [column_int64].
    all: try (unfold Value_ok, in_range in Hk; f_equal;
       unfold SqliteIndexModel.wrap_signed, SqliteIndexModel.wrap_unsigned, to_int32, to_int64;
       change (8 - 1) with 7; change (16 - 1) with 15;
       change (2 ^ 7) with 128 in *; change (2 ^ 8) with 256 in *;
       change (2 ^ 15) with 32768 in *; change (2 ^ 16) with 65536 in *;
       change (2 ^ 31) with 2147483648 in *; change (2 ^ 32) with 4294967296 in *;
       change (2 ^ 63) with 9223372036854775808 in *;
       change (2 ^ 64) with 18446744073709551616 in *;
       Z.div_mod_to_equations; lia).
    + match goal with b : bool |- _ => destruct b; reflexivity end.
    + rewrite Hk. reflexivity.
    + match goal with H : ?b <> [] |- _ => destruct b; [congruence | reflexivity] end.
  - intros a b Ha.
    change (affinity_of_type (SqliteIndexModel.getSqliteType TString))
      with (key_affinity TString).
    rewrite key_affinity_cases.
    cbn [SqliteIndexModel.bindKey apply_affinity SqliteIndexModel.extractKey column_text].
    rewrite (c_string_no_nul a b Ha). reflexivity.
Qed.

End SqliteKeys.

Section SqliteState.

Variable h : Conversions.

(** A primary key is taken once: on an index made by its constructor, a
    second insert of the same key with the same sequence number fails with
    SQLITE_CONSTRAINT, whatever offset and length it carries. *)
Theorem repeated_key_sequence_rejected (db : Database)
    (ix : SqliteIndexModel.SqliteIndex) (n : string) (rows : list Row)
    (k : Value) (o l s : N)
    (db' : Database) (ix' : SqliteIndexModel.SqliteIndex) (o' l' : N) :
  index_state db ix n rows ->
  SqliteIndexModel.insert h db ix k o l s = Ok (db', ix') ->
  SqliteIndexModel.insert h db' ix' k o' l' s = Err (HostError SQLITE_CONSTRAINT).
Proof.
  intros Hst Hins.
  destruct (insert_inv h _ _ _ _ _ _ _ _ _ _ Hst Hins) as (Hn & _ & Hst' & _ & Hkt & _).
  cbn zeta in Hn, Hst'.
  rewrite (insert_index h db' ix' n _ k o' l' s Hst'). cbv zeta. rewrite Hkt.
  change (column (stored_row h (key_affinity (SqliteIndexModel.keyType_ ix)) k o' l' s) 0)
    with (column (stored_row h (key_affinity (SqliteIndexModel.keyType_ ix)) k o l s) 0).
  rewrite Hn. cbn [orb].
  match goal with
  | |- context [idx_taken ?r2 (pk_insert ?d ?r ?rs)] =>
      assert (Ht : idx_taken r2 (pk_insert d r rs) = true)
  end.
  { unfold idx_taken. apply existsb_exists. eexists. split; [apply In_pk_insert|].
    unfold sql_eq.
    change (column (stored_row h (key_affinity (SqliteIndexModel.keyType_ ix)) k o' l' s) 0)
      with (column (stored_row h (key_affinity (SqliteIndexModel.keyType_ ix)) k o l s) 0).
    change (column (stored_row h (key_affinity (SqliteIndexModel.keyType_ ix)) k o' l' s) 3)
      with (column (stored_row h (key_affinity (SqliteIndexModel.keyType_ ix)) k o l s) 3).
    rewrite Hn, !sql_compare_refl. reflexivity. }
  rewrite Ht. reflexivity.
Qed.

End SqliteState.

Section SqliteBuilt.

Variable h : Conversions.

Lemma has_index_columns (n ty : string) :
  forallb (has_column (index_table n ty)) index_columns = true.
Proof. reflexivity. Qed.

(** The constructor sets the entry count to 0 and keeps an existing table:
    a second SqliteIndex made for the same table and column of a database
    that already holds the index rows answers its queries from those rows,
    while its getEntryCount is 0. *)
Theorem reopened_index_counts_zero (tableName columnName : string) (kt : ValueType)
    (es : list IndexEntry) (db : Database) (ix : SqliteIndexModel.SqliteIndex) :
  SqliteIndexModel.build h tableName columnName kt es = Ok (db, ix) ->
  exists reopened,
    SqliteIndexModel.SqliteIndex_new db tableName columnName kt = Ok (db, reopened) /\
    SqliteIndexModel.all h db reopened = SqliteIndexModel.all h db ix /\
    (forall k, SqliteIndexModel.search h db reopened k = SqliteIndexModel.search h db ix k) /\
    List.length (SqliteIndexModel.all h db ix) = List.length es /\
    SqliteIndexModel.getEntryCount ix = (N.of_nat (List.length es) mod 2 ^ 64)%N /\
    SqliteIndexModel.getEntryCount reopened = 0%N.
Proof.
  intros Hb.
  destruct (build_inv h _ _ _ _ _ _ Hb) as (Hn & Hk & Hc & n & rows & Hr & Hst & Hlen & _).
  exists (fresh_index (SqliteIndexModel.make_indexTableName tableName columnName) n kt).
  pose proof Hst as (_ & Hdb).
  rewrite (SqliteIndex_new_reads db tableName columnName n kt Hr), Hdb.
  cbn [t_decl]. rewrite has_index_columns.
  assert (Hst2 : index_state db
                   (fresh_index (SqliteIndexModel.make_indexTableName tableName columnName)
                      n kt) n rows).
  { split; [repeat split|]. cbn [fresh_index SqliteIndexModel.keyType_].
    rewrite Hdb, Hk. reflexivity. }
  split; [reflexivity|].
  split; [rewrite (all_index h _ _ n rows Hst2), (all_index h _ _ n rows Hst), Hk;
          reflexivity|].
  split; [intros k; rewrite (search_index h _ _ n rows k Hst2),
                      (search_index h _ _ n rows k Hst), Hk; reflexivity|].
  split.
  { rewrite (all_index h _ _ n rows Hst), List.length_map.
    rewrite (Permutation_length (order_by_perm _ _ rows)). exact Hlen. }
  split; [exact Hc | reflexivity].
Qed.

Lemma bindKey_integer (k : Value) :
  is_integer k -> exists z, SqliteIndexModel.bindKey k = SqlInteger z.
Proof.
  destruct k; cbn; intros H; try contradiction; eauto.
Qed.

(** UInt32 keys from 2^31 on are bound through [static_cast<int>] and
    stored as negative integers: the index then orders them before the
    keys below 2^31, where compareValues orders them behind.  A range from
    a bound below 2^31 to a bound from 2^31 on is empty, whatever the index
    holds. *)
Theorem uint32_range_across_int_max (tableName columnName : string)
    (es : list IndexEntry) (db : Database) (ix : SqliteIndexModel.SqliteIndex)
    (lo hi : Z) :
  List.Forall (fun e => is_integer (key e)) es ->
  SqliteIndexModel.build h tableName columnName TUInt32 es = Ok (db, ix) ->
  0 <= lo < 2 ^ 31 -> 2 ^ 31 <= hi < 2 ^ 32 ->
  compareValues (VUInt32 lo) (VUInt32 hi) < 0 /\
  sql_compare (SqliteIndexModel.bindKey (VUInt32 lo)) (SqliteIndexModel.bindKey (VUInt32 hi))
  = Gt /\
  SqliteIndexModel.range h db ix (VUInt32 lo) (VUInt32 hi) = [].
Proof.
  intros Hint Hb Hlo Hhi.
  assert (Elo : to_int32 lo = lo).
  { apply to_int32_small. lia. }
  assert (Ehi : to_int32 hi = hi - 2 ^ 32).
  { unfold to_int32. change (2 ^ 31) with 2147483648 in *.
    change (2 ^ 32) with 4294967296 in *. Z.div_mod_to_equations. lia. }
  split; [|split].
  - rewrite cmp_int by exact I. unfold int_of. cbn [tryGetInt64].
    apply three_way_lt. lia.
  - cbn [SqliteIndexModel.bindKey sql_compare]. rewrite Elo, Ehi.
    apply Z.compare_gt_iff. lia.
  - destruct (build_inv h _ _ _ _ _ _ Hb) as (_ & Hk & _ & n & rows & _ & Hst & _ & Hin).
    rewrite (range_index h db ix n rows _ _ Hst), Hk.
    match goal with
    | |- List.map _ (order_by _ _ (List.filter ?p rows)) = [] =>
        assert (Hf : List.filter p rows = [])
    end.
    { match goal with |- ?l = [] => destruct l as [|x l'] eqn:Ef; [reflexivity|] end.
      exfalso.
      assert (Hx : In x (x :: l')) by (left; reflexivity).
      rewrite <- Ef in Hx. apply List.filter_In in Hx as [Hx Hp].
      destruct (Hin x Hx) as (e & He & ->).
      rewrite List.Forall_forall in Hint.
      destruct (bindKey_integer _ (Hint e He)) as (z & Hz).
      unfold key_test, entry_row, stored_row, column in Hp. cbn [nth] in Hp.
      rewrite key_affinity_cases in Hp.
      cbn [SqliteIndexModel.bindKey compare_affinity] in Hp.
      rewrite Hz in Hp. cbn [apply_affinity] in Hp.
      rewrite Elo, Ehi in Hp.
      unfold sql_ge, sql_le in Hp. cbn [is_null negb andb sql_compare] in Hp.
      destruct (Z.compare_spec z lo), (Z.compare_spec z (hi - 2 ^ 32));
        try discriminate Hp; lia. }
    rewrite Hf. reflexivity.
Qed.

End SqliteBuilt.

Section SqliteDuplicates.

Variable h : Conversions.
Variable kt : ValueType.

Let small (e : IndexEntry) : Prop := (sequence e < 2 ^ 63)%N.
Let other (e x : IndexEntry) : Prop :=
  ~ (int_of (key x) = int_of (key e) /\ sequence x = sequence e).

Lemma faithful_facts k :
  sql_faithful kt k ->
  index_key kt k /\ is_integer k /\ SqliteIndexModel.bindKey k = SqlInteger (int_of k).
Proof.
  intros Hk.
  assert (Hi : index_key kt k).
  { destruct kt, k; cbn [sql_faithful] in Hk; try contradiction;
      cbn [index_key]; unfold Value_ok, in_range;
      change (2 ^ 7) with 128 in *; change (2 ^ 8) with 256 in *;
      change (2 ^ 15) with 32768 in *; change (2 ^ 16) with 65536 in *;
      change (2 ^ 31) with 2147483648 in *; change (2 ^ 32) with 4294967296 in *;
      change (2 ^ 63) with 9223372036854775808 in *;
      change (2 ^ 64) with 18446744073709551616 in *; lia. }
  split; [exact Hi|].
  pose proof (query_of_index kt k Hi) as Hq.
  destruct kt, k; cbn [sql_faithful] in Hk; try contradiction; exact Hq.
Qed.


Lemma entry_row_fits e : entry_fits kt e -> entry_row h kt e = row_of e.
Proof.
  intros (Hk & _). destruct (faithful_facts _ Hk) as (Hi & _ & Hb).
  rewrite (entry_row_bound h kt e Hi), Hb. reflexivity.
Qed.


Lemma idx_compare_row_of (e x : IndexEntry) :
  small e -> small x ->
  idx_compare (row_of e) (row_of x)
  = match int_of (key e) ?= int_of (key x) with
    | Eq => (sequence e ?= sequence x)%N
    | c => c
    end.
Proof.
  unfold small. intros He Hx.
  unfold idx_compare, row_of, column. cbn [nth sql_compare].
  change (2 ^ 63)%N with 9223372036854775808%N in *.
  rewrite !to_int64_small by (change (2 ^ 63) with 9223372036854775808; lia).
  rewrite N2Z.inj_compare. reflexivity.
Qed.

Lemma idx_taken_other (e : IndexEntry) (l : list IndexEntry) :
  small e -> List.Forall small l -> List.Forall (other e) l ->
  idx_taken (row_of e) (List.map row_of l) = false.
Proof.
  intros He Hs Ho. induction l as [|x l IH]; [reflexivity|].
  pose proof (List.Forall_inv Hs) as Hx. pose proof (List.Forall_inv Ho) as Hox.
  unfold idx_taken in *. cbn [List.map existsb].
  rewrite (IH (List.Forall_inv_tail Hs) (List.Forall_inv_tail Ho)), orb_false_r.
  pose proof (idx_compare_row_of e x He Hx) as Hc.
  unfold idx_compare in Hc. unfold sql_eq, other in *.
  destruct (sql_compare (column (row_of e) 0) (column (row_of x) 0));
    rewrite ?andb_false_r; try reflexivity.
  rewrite Hc.
  destruct (Z.compare_spec (int_of (key e)) (int_of (key x))) as [E|E|E];
    rewrite ?andb_false_r; try reflexivity.
  destruct (N.compare_spec (sequence e) (sequence x)) as [E'|E'|E'];
    rewrite ?andb_false_r; try reflexivity.
  exfalso. apply Hox. split; congruence.
Qed.

Lemma key_seq_lt_trans (a b c : IndexEntry) :
  key_seq_lt a b -> key_seq_lt b c -> key_seq_lt a c.
Proof. unfold key_seq_lt. lia. Qed.

Lemma pk_insert_other (n ty : string) (e : IndexEntry) (l : list IndexEntry) :
  small e -> List.Forall small l -> StronglySorted key_seq_lt l ->
  List.Forall (other e) l ->
  exists l',
    pk_insert (index_table n ty) (row_of e) (List.map row_of l) = List.map row_of l' /\
    l' ≡ₚ e :: l /\ StronglySorted key_seq_lt l'.
Proof.
  intros He. induction l as [|x l IH]; intros Hsm Hs Ho.
  - exists [e]. split; [reflexivity|]. split; [reflexivity|]. repeat constructor.
  - apply StronglySorted_inv in Hs as [Hs Hx].
    pose proof (List.Forall_inv Hsm) as Hsx. pose proof (List.Forall_inv Ho) as Hox.
    cbn [List.map pk_insert]. rewrite pk_compare_index, (idx_compare_row_of e x He Hsx).
    assert (Hcase : key_seq_lt e x \/ key_seq_lt x e).
    { unfold key_seq_lt, other in *. lia. }
    assert (Hbelow : key_seq_lt e x ->
              match int_of (key e) ?= int_of (key x) with
              | Eq => (sequence e ?= sequence x)%N
              | c => c
              end = Lt).
    { unfold key_seq_lt. intros [H|[H1 H2]].
      - apply Z.compare_lt_iff in H. rewrite H. reflexivity.
      - apply Z.compare_eq_iff in H1. rewrite H1. apply N.compare_lt_iff. exact H2. }
    assert (Habove : key_seq_lt x e ->
              match int_of (key e) ?= int_of (key x) with
              | Eq => (sequence e ?= sequence x)%N
              | c => c
              end = Gt).
    { unfold key_seq_lt. intros [H|[H1 H2]].
      - apply Z.compare_gt_iff in H. rewrite H. reflexivity.
      - symmetry in H1. apply Z.compare_eq_iff in H1. rewrite H1.
        apply N.compare_gt_iff. exact H2. }
    destruct Hcase as [Hlt|Hgt].
    + rewrite (Hbelow Hlt). exists (e :: x :: l).
      split; [reflexivity|]. split; [reflexivity|].
      constructor; [constructor; assumption|].
      constructor; [exact Hlt|].
      eapply List.Forall_impl; [|exact Hx]. intros y. apply key_seq_lt_trans. exact Hlt.
    + rewrite (Habove Hgt).
      destruct (IH (List.Forall_inv_tail Hsm) Hs (List.Forall_inv_tail Ho))
        as (l' & Hl' & Hp & Hs').
      exists (x :: l'). split; [rewrite Hl'; reflexivity|].
      split; [rewrite Hp; apply perm_swap|].
      constructor; [exact Hs'|].
      eapply Permutation_Forall; [symmetry; exact Hp|].
      constructor; [exact Hgt | exact Hx].
Qed.

Lemma sql_insert_all_other (n : string) (es : list IndexEntry) :
  forall db ix l,
    SqliteIndexModel.keyType_ ix = kt ->
    index_state db ix n (List.map row_of l) ->
    List.Forall (entry_fits kt) es -> List.Forall small (es ++ l) ->
    StronglySorted key_seq_lt l ->
    List.NoDup (List.map (fun e => (int_of (key e), sequence e)) (es ++ l)) ->
    (SqliteIndexModel.entryCount_ ix < 2 ^ 64)%N ->
    exists db' ix' l',
      SqliteIndexModel.insert_all h db ix es = Ok (db', ix') /\
      SqliteIndexModel.keyType_ ix' = kt /\
      index_state db' ix' n (List.map row_of l') /\
      SqliteIndexModel.entryCount_ ix'
      = ((SqliteIndexModel.entryCount_ ix + N.of_nat (List.length es)) mod 2 ^ 64)%N /\
      l' ≡ₚ es ++ l /\ StronglySorted key_seq_lt l'.
Proof.
  induction es as [|e es IH]; intros db ix l Hkt Hst Hfit Hsm Hs Hn Hc.
  - exists db, ix, l. cbn [SqliteIndexModel.insert_all List.length app].
    rewrite N.add_0_r, N.mod_small by exact Hc.
    repeat (split; [first [reflexivity | assumption]|]). assumption.
  - pose proof (List.Forall_inv Hfit) as He.
    pose proof (List.Forall_inv_tail Hfit) as Hfit'.
    cbn [app] in Hsm.
    pose proof (List.Forall_inv Hsm) as Hse.
    pose proof (List.Forall_inv_tail Hsm) as Hsm'.
    cbn [app List.map] in Hn. apply List.NoDup_cons_iff in Hn as [Hne Hn].
    assert (Hsl : List.Forall small l).
    { apply List.Forall_forall. intros x Hx. rewrite List.Forall_forall in Hsm'.
      apply Hsm'. apply List.in_or_app. auto. }
    assert (Hfresh : List.Forall (other e) l).
    { apply List.Forall_forall. intros x Hx [E1 E2]. apply Hne.
      rewrite <- E1, <- E2.
      apply (List.in_map (fun e => (int_of (key e), sequence e))).
      apply List.in_or_app. auto. }
    destruct (pk_insert_other n (SqliteIndexModel.getSqliteType kt) e l Hse Hsl Hs Hfresh)
      as (l1 & Hl1 & Hp1 & Hs1).
    pose proof (insert_index h db ix n (List.map row_of l) (key e) (dataOffset e)
                  (dataLength e) (sequence e) Hst) as Hins.
    cbv zeta in Hins. rewrite Hkt in Hins.
    change (stored_row h (key_affinity kt) (key e) (dataOffset e) (dataLength e)
              (sequence e)) with (entry_row h kt e) in Hins.
    rewrite (entry_row_fits e He) in Hins.
    rewrite (idx_taken_other e l Hse Hsl Hfresh), Hl1 in Hins.
    change (is_null (column (row_of e) 0)) with false in Hins. cbn [orb] in Hins.
    match type of Hins with _ = Ok (?d, ?i) => set (db1 := d) in *; set (ix1 := i) in * end.
    destruct (IH db1 ix1 l1) as (db' & ix' & l' & Hall & Hkt' & Hst' & Hc' & Hp' & Hs').
    { exact Hkt. }
    { subst db1 ix1. rewrite <- Hkt.
      apply (index_state_insert db ix n (List.map row_of l)). exact Hst. }
    { exact Hfit'. }
    { eapply Permutation_Forall; [|exact Hsm].
      rewrite Hp1. apply Permutation_middle. }
    { exact Hs1. }
    { eapply Permutation_NoDup; [|exact (List.NoDup_cons _ Hne Hn)].
      change ((int_of (key e), sequence e)
              :: List.map (fun e => (int_of (key e), sequence e)) (es ++ l))
        with (List.map (fun e => (int_of (key e), sequence e)) (e :: es ++ l)).
      apply Permutation_map. rewrite Hp1. apply Permutation_middle. }
    { apply N.mod_upper_bound. discriminate. }
    exists db', ix', l'. cbn [SqliteIndexModel.insert_all]. rewrite Hins. cbn [bind fst snd].
    split; [exact Hall|]. split; [exact Hkt'|]. split; [exact Hst'|].
    split; [|split; [|exact Hs']].
    + rewrite Hc'. subst ix1.
      cbn [SqliteIndexModel.entryCount_ SqliteIndexModel.with_count List.length].
      rewrite N.Div0.add_mod_idemp_l. f_equal. lia.
    + rewrite Hp', Hp1. cbn [app]. symmetry. apply Permutation_middle.
Qed.

(** The index that such inserts build. *)
Lemma build_fits (tableName columnName : string) (es : list IndexEntry) :
  (exists s, SqliteIndexModel.SqliteIndex_new ∅ tableName columnName kt = Ok s) ->
  List.Forall (entry_fits kt) es ->
  List.Forall (fun e => (sequence e < 2 ^ 63)%N) es ->
  List.NoDup (List.map (fun e => (int_of (key e), sequence e)) es) ->
  exists db ix n r,
    SqliteIndexModel.build h tableName columnName kt es = Ok (db, ix) /\
    SqliteIndexModel.keyType_ ix = kt /\
    index_state db ix n (List.map row_of r) /\
    SqliteIndexModel.entryCount_ ix = (N.of_nat (List.length es) mod 2 ^ 64)%N /\
    r ≡ₚ es /\ StronglySorted key_seq_lt r.
Proof.
  intros [[db0 ix0] Hnew] Hfit Hsm Hn.
  destruct (new_index_state _ _ _ _ _ Hnew) as (n & _ & Hix & _ & Hst0).
  unfold SqliteIndexModel.build. rewrite Hnew. cbn [bind fst snd].
  destruct (sql_insert_all_other n es db0 ix0 [])
    as (db & ix & r & Hall & Hkt & Hst & Hc & Hp & Hs).
  { rewrite Hix. reflexivity. }
  { exact Hst0. }
  { exact Hfit. }
  { rewrite List.app_nil_r. exact Hsm. }
  { constructor. }
  { rewrite List.app_nil_r. exact Hn. }
  { rewrite Hix. reflexivity. }
  rewrite List.app_nil_r in Hp.
  exists db, ix, n, r. split; [exact Hall|]. split; [exact Hkt|]. split; [exact Hst|].
  split; [rewrite Hc, Hix; reflexivity|]. split; assumption.
Qed.



End SqliteDuplicates.


Lemma repeated_key_sequence_rejected_witness :
  exists db ix db' ix',
    SqliteIndexModel.SqliteIndex_new ∅ "Post" "user_id" TInt32 = Ok (db, ix) /\
    SqliteIndexModel.insert plain_conversions db ix (VInt32 3) 0 50 7 = Ok (db', ix') /\
    SqliteIndexModel.insert plain_conversions db' ix' (VInt32 3) 100 60 7
    = Err (HostError SQLITE_CONSTRAINT).
Proof.
  destruct (build_fits plain_conversions TInt32 "Post" "user_id" [mkEntry (VInt32 3) 0 50 7])
    as (db & ix & n & r & Hb & _).
  - apply new_index_plain; reflexivity.
  - repeat constructor; cbn; lia.
  - repeat constructor; cbn; lia.
  - repeat constructor; cbn; intuition discriminate.
  - unfold SqliteIndexModel.build in Hb.
    destruct (SqliteIndexModel.SqliteIndex_new ∅ "Post" "user_id" TInt32)
      as [[db0 ix0]|err0] eqn:E0; [|discriminate Hb].
    cbn [bind fst snd SqliteIndexModel.insert_all key dataOffset dataLength sequence] in Hb.
    destruct (SqliteIndexModel.insert plain_conversions db0 ix0 (VInt32 3) 0 50 7)
      as [[db1 ix1]|err] eqn:E; [|discriminate Hb].
    destruct (new_index_state _ _ _ _ _ E0) as (n0 & _ & _ & _ & Hst0).
    exists db0, ix0, db1, ix1. split; [reflexivity|]. split; [exact E|].
    exact (repeated_key_sequence_rejected plain_conversions db0 ix0 n0 [] (VInt32 3) 0 50 7
             db1 ix1 100 60 Hst0 E).
Defined.

Lemma reopened_index_counts_zero_witness :
  exists db ix reopened,
    SqliteIndexModel.build plain_conversions "Post" "user_id" TInt32
      [mkEntry (VInt32 3) 0 50 1; mkEntry (VInt32 4) 54 50 2] = Ok (db, ix) /\
    SqliteIndexModel.getEntryCount ix = 2%N /\
    List.length (SqliteIndexModel.all plain_conversions db ix) = 2%nat /\
    SqliteIndexModel.SqliteIndex_new db "Post" "user_id" TInt32 = Ok (db, reopened) /\
    SqliteIndexModel.getEntryCount reopened = 0%N.
Proof.
  destruct (build_fits plain_conversions TInt32 "Post" "user_id"
              [mkEntry (VInt32 3) 0 50 1; mkEntry (VInt32 4) 54 50 2])
    as (db & ix & n & r & Hb & _).
  - apply new_index_plain; reflexivity.
  - repeat constructor; cbn; lia.
  - repeat constructor; cbn; lia.
  - repeat constructor; cbn; intuition discriminate.
  - destruct (reopened_index_counts_zero plain_conversions "Post" "user_id" TInt32 _ db ix Hb)
      as (reopened & Hnew & _ & _ & Hlen & Hc & H0).
    exists db, ix, reopened. split; [exact Hb|].
    split; [exact Hc|]. split; [exact Hlen|]. split; [exact Hnew | exact H0].
Defined.

Lemma uint32_range_across_int_max_witness :
  exists db ix,
    SqliteIndexModel.build plain_conversions "Post" "views" TUInt32
      [mkEntry (VUInt32 5) 0 50 1; mkEntry (VUInt32 7) 54 50 2] = Ok (db, ix) /\
    SqliteIndexModel.range plain_conversions db ix (VUInt32 0) (VUInt32 4294967295) = [].
Proof.
  destruct (build_fits plain_conversions TUInt32 "Post" "views"
              [mkEntry (VUInt32 5) 0 50 1; mkEntry (VUInt32 7) 54 50 2])
    as (db & ix & n & r & Hb & _).
  - apply new_index_plain; reflexivity.
  - repeat constructor; cbn; lia.
  - repeat constructor; cbn; lia.
  - repeat constructor; cbn; intuition discriminate.
  - exists db, ix. split; [exact Hb|].
    assert (Hint : List.Forall (fun e => is_integer (key e))
              [mkEntry (VUInt32 5) 0 50 1; mkEntry (VUInt32 7) 54 50 2]).
    { repeat constructor. }
    assert (Hlo : 0 <= 0 < 2 ^ 31) by lia.
    assert (Hhi : 2 ^ 31 <= 4294967295 < 2 ^ 32) by lia.
    exact (proj2 (proj2 (uint32_range_across_int_max plain_conversions "Post" "views" _ db ix
                           0 4294967295 Hint Hb Hlo Hhi))).
Defined.

(** ** The command-line reader *)

Section CliReader.

Import StreamingStore Cli.

Context {A : Type}.
Variable callback : A -> CallbackArgs -> A.

Lemma log_ingest_frames (db : StreamingFlatBufferStore * A) (s : list byte) :
  exists ps tail,
    s = frames ps ++ tail /\ valid_payloads ps /\ next_frame tail = None /\
    log_ingest callback db s
    = Ok (append_all callback (fst db) (snd db) ps, N.of_nat (List.length ps)).
Proof.
  destruct (split_frames s) as (ps & tail & Hs & Hv & Ht).
  exists ps, tail. split; [exact Hs|]. split; [exact Hv|]. split; [exact Ht|].
  unfold log_ingest. rewrite Hs, (ingest_frames callback _ _ ps tail Hv Ht).
  cbn [bind fst snd]. destruct (append_all callback (fst db) (snd db) ps). reflexivity.
Qed.

Lemma drop_nil_length {B : Type} (n : nat) (l : list B) :
  drop n l = [] -> take n l = l.
Proof.
  intros H. rewrite <- (take_drop n l) at 2. rewrite H, List.app_nil_r. reflexivity.
Qed.

(** The loop ends with the whole input in the buffer, and its last ingest
    was handed all of it. *)
Lemma read_loop_spec (fuel : nat) :
  forall (input buffer : list byte) (db : StreamingFlatBufferStore * A),
    (List.length input < fuel)%nat -> input <> [] ->
    exists before r,
      log_ingest callback before (buffer ++ input) = Ok r /\
      read_loop (log_ingest callback) fuel input buffer db = Ok (fst r, buffer ++ input) /\
      ((List.length input <= CHUNK_SIZE)%nat -> before = db).
Proof.
  induction fuel as [|fuel IH]; intros input buffer db Hlt Hne; [lia|].
  destruct input as [|b input]; [contradiction|].
  cbn [read_loop].
  destruct (log_ingest_frames db (buffer ++ take CHUNK_SIZE (b :: input)))
    as (ps & tail & _ & _ & _ & Hr).
  rewrite Hr. cbn [bind fst].
  destruct (drop CHUNK_SIZE (b :: input)) as [|c rest] eqn:Hd.
  - rewrite (drop_nil_length _ _ Hd) in *.
    exists db. eexists. split; [exact Hr|].
    destruct fuel as [|fuel]; [cbn [List.length] in Hlt; lia|].
    cbn [read_loop fst]. split; [reflexivity|]. auto.
  - destruct (IH (c :: rest) (buffer ++ take CHUNK_SIZE (b :: input))
                 (append_all callback (fst db) (snd db) ps))
      as (before & r & H1 & H2 & _).
    + assert (List.length (drop CHUNK_SIZE (b :: input)) < List.length (b :: input))%nat.
      { rewrite length_drop. unfold CHUNK_SIZE. cbn [List.length]. lia. }
      rewrite Hd in H. lia.
    + discriminate.
    + rewrite <- Hd, <- List.app_assoc, take_drop in H1, H2.
      exists before, r. split; [exact H1|]. split; [rewrite <- Hd; exact H2|].
      intros Hle. exfalso.
      assert (drop CHUNK_SIZE (b :: input) = []) by (apply drop_ge; exact Hle).
      congruence.
Qed.

(** runCLI never takes the consumed bytes out of its buffer.  Whatever
    comes from stdin, the complete frames of the whole stream are appended
    to the log by the ingest of the last chunk and once more by the final
    ingest, behind whatever the earlier chunks left there; a stream of at
    most 64 KiB is stored exactly twice. *)
Theorem cli_stores_stream_twice (st : StreamingFlatBufferStore) (acc : A)
    (payloads : list (list byte)) (tail : list byte) :
  valid_payloads payloads -> incomplete tail -> frames payloads ++ tail <> [] ->
  exists before,
    let once := append_all callback (fst before) (snd before) payloads in
    let twice := append_all callback (fst once) (snd once) payloads in
    ingest_stdin (log_ingest callback) (frames payloads ++ tail) (st, acc) = Ok twice /\
    data_ (fst twice) = data_ (fst before) ++ frames payloads ++ frames payloads /\
    recordCount_ (fst twice)
    = (recordCount_ (fst before) + 2 * N.of_nat (List.length payloads))%N /\
    ((List.length (frames payloads ++ tail) <= CHUNK_SIZE)%nat -> before = (st, acc)).
Proof.
  intros Hv Ht Hne. apply next_frame_None in Ht.
  destruct (read_loop_spec (S (List.length (frames payloads ++ tail)))
              (frames payloads ++ tail) [] (st, acc)) as (before & r & H1 & H2 & H3);
    [lia|exact Hne|].
  cbn [app] in H1, H2.
  assert (Hlog : forall db,
            log_ingest callback db (frames payloads ++ tail)
            = Ok (append_all callback (fst db) (snd db) payloads,
                  N.of_nat (List.length payloads))).
  { intros db. unfold log_ingest.
    rewrite (ingest_frames callback _ _ payloads tail Hv Ht). cbn [bind fst snd].
    destruct (append_all callback (fst db) (snd db) payloads). reflexivity. }
  rewrite Hlog in H1. injection H1 as <-. cbn [fst] in H2.
  exists before. cbn zeta. unfold ingest_stdin. rewrite H2. cbn [bind fst snd].
  destruct (frames payloads ++ tail) as [|b rest] eqn:E; [contradiction|].
  rewrite Hlog. cbn [bind fst].
  destruct (append_all_log callback payloads (fst before) (snd before)) as (D1 & _ & _ & C1).
  destruct (append_all_log callback payloads
              (fst (append_all callback (fst before) (snd before) payloads))
              (snd (append_all callback (fst before) (snd before) payloads)))
    as (D2 & _ & _ & C2).
  cbn zeta in D1, C1, D2, C2.
  split; [reflexivity|]. split; [rewrite D2, D1, <- List.app_assoc; reflexivity|].
  split; [rewrite C2, C1; lia|]. exact H3.
Qed.

End CliReader.

Lemma cli_stores_stream_twice_witness :
  exists db,
    Cli.ingest_stdin (Cli.log_ingest StreamingStore.record_args)
      (StreamingStore.frames [[x01; x02]; [x03]])
      (StreamingStore.StreamingFlatBufferStore_new, []) = Ok db /\
    StreamingStore.recordCount_ (fst db) = 4%N.
Proof.
  destruct (cli_stores_stream_twice StreamingStore.record_args
              StreamingStore.StreamingFlatBufferStore_new [] [[x01; x02]; [x03]] [])
    as (before & Hrun & _ & Hcount & Hsmall).
  - repeat constructor; cbn; lia.
  - left. cbn. lia.
  - discriminate.
  - rewrite List.app_nil_r in Hrun, Hsmall.
    eexists. split; [exact Hrun|].
    rewrite Hcount, Hsmall; [reflexivity|].
    change (List.length (StreamingStore.frames [[x01; x02]; [x03]])) with 11%nat.
    unfold Cli.CHUNK_SIZE. lia.
Defined.

(** ** Schema analysis: cycle detection and import order *)

Import Junction.

Section ImportGraphFacts.

Variable g : ImportGraph.

Lemma map_find_In {V : Type} (k : string) (m : list (string * V)) (v : V) :
  map_find k m = Some v -> In (k, v) m.
Proof.
  induction m as [|[k' v'] m IH]; cbn [map_find]; [discriminate|].
  destruct (String.eqb_spec k k') as [->|Hne].
  - intros [= ->]. left. reflexivity.
  - intros H. right. exact (IH H).
Qed.

Lemma edge_nodes (u v : string) : edge g u v -> In u (nodes g) /\ In v (nodes g).
Proof.
  intros (es & Hf & Hv). apply map_find_In in Hf. unfold nodes. split.
  - apply List.in_or_app. left. apply (List.in_map fst) in Hf. exact Hf.
  - apply List.in_or_app. right. apply List.in_concat. exists es. split; [|exact Hv].
    apply (List.in_map snd) in Hf. exact Hf.
Qed.

Lemma edge_source (u v : string) : edge g u v -> In u (List.map fst g).
Proof.
  intros (es & Hf & _). apply map_find_In in Hf. apply (List.in_map fst) in Hf. exact Hf.
Qed.

Lemma walk_snoc (p : list string) (n : string) :
  walk g p -> (forall u, last p = Some u -> edge g u n) -> walk g (p ++ [n]).
Proof.
  induction p as [|a p IH]; intros Hw Hl; [exact I|].
  destruct p as [|b p].
  - cbn. split; [|exact I]. apply Hl. reflexivity.
  - cbn [walk app] in Hw |- *. destruct Hw as [Hab Hw].
    split; [exact Hab|]. apply IH; [exact Hw|].
    intros u Hu. apply Hl. exact Hu.
Qed.

Lemma walk_suffix (p1 p2 : list string) : walk g (p1 ++ p2) -> walk g p2.
Proof.
  induction p1 as [|a p1 IH]; [auto|]. intros Hw. apply IH.
  cbn [app] in Hw. destruct (p1 ++ p2); [exact I|]. exact (proj2 Hw).
Qed.

Lemma from_first_spec (x : string) (l : list string) :
  In x l -> exists p1 p2, l = p1 ++ x :: p2 /\ from_first x l = x :: p2.
Proof.
  induction l as [|y l IH]; [intros []|]. intros Hin. cbn [from_first].
  destruct (String.eqb_spec y x) as [->|Hne].
  - exists [], l. split; reflexivity.
  - destruct Hin as [E|Hin]; [congruence|].
    destruct (IH Hin) as (p1 & p2 & -> & Hf). exists (y :: p1), p2. split; [reflexivity|exact Hf].
Qed.

Lemma walk_reaches (l : list string) (x y : string) :
  walk g (x :: l ++ [y]) -> reaches g x y.
Proof.
  revert x. induction l as [|a l IH]; intros x Hw.
  - apply Relation_Operators.t_step. exact (proj1 Hw).
  - cbn [app walk] in Hw. destruct Hw as [Hxa Hw].
    eapply Relation_Operators.t_trans; [apply Relation_Operators.t_step; exact Hxa|].
    apply IH. exact Hw.
Qed.

Lemma postorder_closed (done : list string) (u v : string) :
  postorder g done -> In u done -> edge g u v -> In v done.
Proof.
  induction done as [|a done IH]; [intros _ []|].
  cbn [postorder]. intros [Ha Hp] [->|Hu] He.
  - right. apply Ha. exact He.
  - right. exact (IH Hp Hu He).
Qed.

Lemma postorder_reaches (done : list string) (u v : string) :
  postorder g done -> In u done -> reaches g u v -> In v done.
Proof.
  intros Hp Hu Hr. revert Hu. induction Hr as [u v He|u w v _ IH1 _ IH2]; intros Hu.
  - exact (postorder_closed done u v Hp Hu He).
  - apply IH2, IH1, Hu.
Qed.

Lemma postorder_acyclic (done : list string) (u : string) :
  postorder g done -> In u done -> ~ reaches g u u.
Proof.
  induction done as [|a done IH]; [intros _ []|].
  cbn [postorder]. intros [Ha Hp] Hu Hr.
  assert (Htail : In u done).
  { destruct Hu as [->|Hu]; [|exact Hu].
    pose proof (Operators_Properties.clos_trans_t1n _ _ _ _ Hr) as Hr1.
    inversion Hr1; subst.
    - apply Ha. assumption.
    - match goal with
      | He : edge g u ?w, Hr' : Relation_Operators.clos_trans_1n _ _ ?w u |- _ =>
          apply (postorder_reaches done w u Hp); [apply Ha; exact He|];
          apply Operators_Properties.clos_t1n_trans; exact Hr'
      end. }
  exact (IH Hp Htail Hr).
Qed.

Let U : gset string := list_to_set (nodes g).

(** What a call of [dfs], or a run of its loop, leaves behind when it has
    started in [st] with the files [done] finished. *)
Let after (st : DfsState) (done : list string) (seen : list string)
    (r : bool * DfsState) : Prop :=
  visited st ⊆ visited (snd r) /\
  if fst r then closed_walk g (found (snd r))
  else exists done',
      dfs_inv g (snd r) done' /\ path (snd r) = path st /\
      (forall x, In x done -> In x done') /\ (forall n, In n seen -> In n done').

Let dfs_contract (rec : string -> DfsState -> result (bool * DfsState)) (fuel : nat) : Prop :=
  forall n st done,
    dfs_inv g st done -> n ∉ visited st -> n ∈ U ->
    (forall u, last (path st) = Some u -> edge g u n) ->
    (size (U ∖ visited st) < fuel)%nat ->
    exists r, rec n st = Ok r /\ after st done [n] r.

Lemma dfs_neighbors_spec (rec : string -> DfsState -> result (bool * DfsState))
    (fuel : nat) (node : string) :
  dfs_contract rec fuel ->
  forall ns st done,
    dfs_inv g st done -> last (path st) = Some node ->
    (forall n, In n ns -> edge g node n) ->
    (size (U ∖ visited st) < fuel)%nat ->
    exists r, dfs_neighbors rec ns st = Ok r /\ after st done ns r.
Proof.
  intros Hrec. induction ns as [|n ns IH]; intros st done Hinv Hlast Hedges Hsize.
  - exists (false, st). split; [reflexivity|]. split; [reflexivity|]. cbn [fst snd].
    exists done. split; [exact Hinv|]. split; [reflexivity|]. split; [auto|]. intros ? [].
  - cbn [dfs_neighbors].
    assert (Hn : edge g node n) by (apply Hedges; left; reflexivity).
    assert (Hns : forall x, In x ns -> edge g node x) by (intros x Hx; apply Hedges; right; exact Hx).
    destruct (bool_decide (n ∈ visited st)) eqn:Hv; cbn [negb].
    + apply bool_decide_eq_true_1 in Hv.
      destruct (bool_decide (n ∈ inStack st)) eqn:Hs.
      * apply bool_decide_eq_true_1 in Hs.
        eexists. split; [reflexivity|]. split; [reflexivity|]. cbn [fst snd found].
        destruct Hinv as (_ & Hstack & _ & _ & Hwalk & _).
        apply Hstack in Hs.
        destruct (from_first_spec n (path st) Hs) as (p1 & p2 & Hp & Hf).
        split; [reflexivity|]. exists n, p2. cbn [cyclePath]. rewrite Hf.
        split; [reflexivity|].
        change ((n :: p2) ++ [n]) with ((n :: p2) ++ [n]).
        apply walk_snoc.
        -- apply (walk_suffix p1). rewrite <- Hp. exact Hwalk.
        -- intros u Hu. assert (last (path st) = Some u) as Hlu.
           { rewrite Hp. rewrite last_app. rewrite Hu. reflexivity. }
           rewrite Hlast in Hlu. injection Hlu as <-. exact Hn.
      * apply bool_decide_eq_false_1 in Hs.
        destruct (IH st done Hinv Hlast Hns Hsize) as (r & Hr & Hsub & Hpost).
        exists r. split; [exact Hr|]. split; [exact Hsub|].
        destruct (fst r); [exact Hpost|].
        destruct Hpost as (done' & Hinv' & Hpath & Hincl & Hseen).
        exists done'. split; [exact Hinv'|]. split; [exact Hpath|]. split; [exact Hincl|].
        intros x [<-|Hx]; [|auto]. apply Hincl.
        destruct Hinv as (Hvis & _). apply Hvis in Hv. destruct Hv; [assumption|contradiction].
    + apply bool_decide_eq_false_1 in Hv.
      destruct (Hrec n st done Hinv Hv) as (r1 & Hr1 & Hsub1 & Hpost1).
      { apply elem_of_list_to_set. apply list_elem_of_In. apply (edge_nodes node n Hn). }
      { intros u Hu. rewrite Hlast in Hu. injection Hu as <-. exact Hn. }
      { exact Hsize. }
      rewrite Hr1. cbn [bind]. destruct r1 as [b st1]. cbn [fst snd] in *.
      destruct b.
      * eexists. split; [reflexivity|]. split; [exact Hsub1|exact Hpost1].
      * destruct Hpost1 as (done1 & Hinv1 & Hpath1 & Hincl1 & Hseen1).
        destruct (IH st1 done1 Hinv1) as (r & Hr & Hsub & Hpost).
        { rewrite Hpath1. exact Hlast. }
        { exact Hns. }
        { eapply Nat.le_lt_trans; [|exact Hsize]. apply subseteq_size.
          intros x. rewrite !elem_of_difference. intros [H1 H2]. split; [exact H1|].
          intros H3. apply H2. apply Hsub1. exact H3. }
        exists r. split; [exact Hr|]. split; [intros x Hx; apply Hsub, Hsub1, Hx|].
        destruct (fst r); [exact Hpost|].
        destruct Hpost as (done' & Hinv' & Hpath & Hincl & Hseen).
        exists done'. split; [exact Hinv'|]. split; [congruence|]. split; [auto|].
        intros x [<-|Hx]; [|auto]. apply Hincl, Hseen1. left. reflexivity.
Qed.

Lemma dfs_spec (fuel : nat) : dfs_contract (dfs g fuel) fuel.
Proof.
  induction fuel as [|fuel IH]; intros node st done Hinv Hnew HU Hlast Hsize; [lia|].
  cbn [dfs].
  set (st1 := mkDfs ({[node]} ∪ visited st) ({[node]} ∪ inStack st)
                    (path st ++ [node]) (found st)).
  pose proof Hinv as (Hvis & Hstack & Hnd & Hdisj & Hwalk & Hpost & Hfound).
  assert (Hinv1 : dfs_inv g st1 done).
  { unfold dfs_inv, st1. cbn [visited inStack path found].
    split.
    { intros x. rewrite !elem_of_union, Hvis. tauto. }
    split.
    { intros x. rewrite elem_of_union, Hstack, in_app_iff, elem_of_singleton.
      cbn [In]. split.
      - intros [->|H]; auto.
      - intros [H|[->|[]]]; auto. }
    split; [exact Hnd|].
    split.
    { intros x Hx. rewrite elem_of_union, elem_of_singleton.
      intros [->|Hs]; [apply Hnew, Hvis; auto|exact (Hdisj x Hx Hs)]. }
    split; [apply walk_snoc; assumption|].
    split; assumption. }
  destruct (dfs_neighbors_spec (dfs g fuel) fuel node IH
              (default [] (map_find node g)) st1 done Hinv1)
    as ([b st2] & Hr & Hsub & Hafter).
  { unfold st1. cbn [path]. apply last_snoc. }
  { intros n Hn. destruct (map_find node g) as [es|] eqn:Hf; [|destruct Hn].
    exists es. split; [exact Hf|exact Hn]. }
  { unfold st1. cbn [visited].
    assert (size (U ∖ ({[node]} ∪ visited st)) < size (U ∖ visited st))%nat; [|lia].
    apply subset_size. split.
    - intros x. rewrite !elem_of_difference, elem_of_union. tauto.
    - intros Hc. specialize (Hc node).
      rewrite !elem_of_difference, elem_of_union, elem_of_singleton in Hc.
      destruct Hc as [_ Hc]; [split; assumption|]. apply Hc. left. reflexivity. }
  rewrite Hr. cbn [bind fst snd] in *.
  assert (Hsub' : visited st ⊆ visited st2).
  { intros x Hx. apply Hsub. unfold st1. cbn [visited]. apply elem_of_union. right. exact Hx. }
  destruct b.
  - eexists. split; [reflexivity|]. split; [exact Hsub'|exact Hafter].
  - destruct Hafter as (done2 & Hinv2 & Hpath2 & Hincl2 & Hseen2).
    eexists. split; [reflexivity|]. cbn [fst snd visited].
    split; [exact Hsub'|].
    destruct Hinv2 as (Hvis2 & Hstack2 & Hnd2 & Hdisj2 & Hwalk2 & Hpost2 & Hfound2).
    unfold st1 in Hpath2. cbn [path] in Hpath2.
    assert (Hnode_stack : node ∈ inStack st2).
    { apply Hstack2. rewrite Hpath2. apply in_app_iff. right. left. reflexivity. }
    assert (Hnode_path : ~ In node (path st)).
    { intros Hin. apply Hnew, Hvis. right. apply Hstack. exact Hin. }
    exists (node :: done2). split; [|split; [|split]].
    + unfold dfs_inv. cbn [fst snd visited inStack path found].
      split.
      { intros x. rewrite elem_of_difference, elem_of_singleton, Hvis2. cbn [In].
        destruct (decide (x = node)) as [->|Hne].
        - split; [auto|intros _; right; exact Hnode_stack].
        - split.
          + intros [H|H]; [left; right; exact H|right; split; assumption].
          + intros [[H|H]|[H _]]; [congruence|left; exact H|right; exact H]. }
      split.
      { intros x. rewrite elem_of_difference, elem_of_singleton, Hstack2, Hpath2,
          removelast_last, in_app_iff. cbn [In]. split.
        - intros [[H|[H|[]]] Hne]; [exact H|congruence].
        - intros H. split; [left; exact H|intros ->; exact (Hnode_path H)]. }
      split.
      { constructor; [intros Hin; exact (Hdisj2 node Hin Hnode_stack)|exact Hnd2]. }
      split.
      { intros x [<-|Hx]; rewrite elem_of_difference, elem_of_singleton.
        - intros [_ Hne]. exact (Hne eq_refl).
        - intros [Hs _]. exact (Hdisj2 x Hx Hs). }
      split; [rewrite Hpath2, removelast_last; exact Hwalk|].
      split; [|exact Hfound2].
      cbn [postorder]. split; [|exact Hpost2].
      intros v (es & Hf & Hv). apply Hseen2. rewrite Hf. exact Hv.
    + cbn [fst snd path]. rewrite Hpath2. apply removelast_last.
    + intros x Hx. right. exact (Hincl2 x Hx).
    + intros n [<-|[]]. left. reflexivity.
Qed.

Lemma size_list_to_set_le (l : list string) :
  (size (list_to_set l : gset string) <= List.length l)%nat.
Proof.
  induction l as [|x l IH]; [rewrite list_to_set_nil, size_empty; lia|].
  rewrite list_to_set_cons, size_union_alt, size_singleton. cbn [List.length].
  assert (size (list_to_set l ∖ {[x]} : gset string) <= size (list_to_set l : gset string))%nat.
  { apply subseteq_size. intros y. rewrite elem_of_difference. tauto. }
  lia.
Qed.

Lemma dfs_roots_spec (fuel : nat) :
  forall files st done,
    dfs_inv g st done -> path st = [] ->
    (forall f, In f files -> In f (nodes g)) ->
    (size (U ∖ visited st) < fuel)%nat ->
    exists st',
      dfs_roots (dfs g fuel) files st = Ok st' /\
      (closed_walk g (found st') \/
       exists done', dfs_inv g st' done' /\ path st' = [] /\
                     (forall x, In x done -> In x done') /\
                     (forall f, In f files -> In f done')).
Proof.
  induction files as [|f files IH]; intros st done Hinv Hpath Hfiles Hsize.
  - exists st. split; [reflexivity|]. right. exists done.
    split; [exact Hinv|]. split; [exact Hpath|]. split; [auto|]. intros ? [].
  - cbn [dfs_roots].
    assert (Hfs : forall x, In x files -> In x (nodes g)) by (intros x Hx; apply Hfiles; right; exact Hx).
    destruct (bool_decide (f ∈ visited st)) eqn:Hv; cbn [negb].
    + apply bool_decide_eq_true_1 in Hv.
      destruct (IH st done Hinv Hpath Hfs Hsize) as (st' & Hr & Hres).
      exists st'. split; [exact Hr|].
      destruct Hres as [Hc|(done' & Hinv' & Hpath' & Hincl & Hall)]; [left; exact Hc|].
      right. exists done'. split; [exact Hinv'|]. split; [exact Hpath'|].
      split; [exact Hincl|].
      intros x [<-|Hx]; [|auto]. apply Hincl.
      destruct Hinv as (Hvis & Hstack & _). apply Hvis in Hv.
      destruct Hv as [H|H]; [exact H|].
      apply Hstack in H. rewrite Hpath in H. destruct H.
    + apply bool_decide_eq_false_1 in Hv.
      destruct (dfs_spec fuel f st done Hinv Hv) as ([b st1] & Hd & Hsub & Hafter).
      { apply elem_of_list_to_set. apply list_elem_of_In. apply Hfiles. left. reflexivity. }
      { rewrite Hpath. discriminate. }
      { exact Hsize. }
      rewrite Hd. cbn [bind fst snd] in *. destruct b.
      * eexists. split; [reflexivity|]. left. exact Hafter.
      * destruct Hafter as (done1 & Hinv1 & Hpath1 & Hincl1 & Hseen1).
        destruct (IH st1 done1 Hinv1) as (st' & Hr & Hres).
        { rewrite Hpath1. exact Hpath. }
        { exact Hfs. }
        { eapply Nat.le_lt_trans; [|exact Hsize]. apply subseteq_size.
          intros x. rewrite !elem_of_difference. intros [H1 H2]. split; [exact H1|].
          intros H3. apply H2. apply Hsub. exact H3. }
        exists st'. split; [exact Hr|].
        destruct Hres as [Hc|(done' & Hinv' & Hpath' & Hincl & Hall)]; [left; exact Hc|].
        right. exists done'. split; [exact Hinv'|]. split; [exact Hpath'|].
        split; [auto|].
        intros x [<-|Hx]; [|auto]. apply Hincl, Hseen1. left. reflexivity.
Qed.

(** The two outcomes of detectCycles. *)
Lemma detectCycles_outcome :
  exists c,
    detectCycles g = Ok c /\
    (closed_walk g c \/
     (c = mkCycleInfo false [] /\
      exists done, postorder g done /\ List.NoDup done /\
                   (forall f, In f (List.map fst g) -> In f done))).
Proof.
  unfold detectCycles.
  destruct (dfs_roots_spec (S (List.length (nodes g))) (List.map fst g)
              (mkDfs ∅ ∅ [] (mkCycleInfo false [])) [])
    as (st' & Hr & Hres).
  - unfold dfs_inv. cbn [visited inStack path found].
    split; [intros x; rewrite elem_of_empty; cbn [In]; tauto|].
    split; [intros x; rewrite elem_of_empty; cbn [In]; tauto|].
    split; [constructor|]. split; [intros x []|]. split; [exact I|].
    split; [exact I|reflexivity].
  - reflexivity.
  - intros f Hf. unfold nodes. apply List.in_or_app. left. exact Hf.
  - cbn [visited].
    assert (size (U ∖ ∅) <= size U)%nat.
    { apply subseteq_size. intros x. rewrite elem_of_difference. tauto. }
    pose proof (size_list_to_set_le (nodes g)). fold U in H0. lia.
  - rewrite Hr. cbn [bind]. exists (found st'). split; [reflexivity|].
    destruct Hres as [Hc|(done & Hinv & _ & _ & Hall)]; [left; exact Hc|].
    right. destruct Hinv as (_ & _ & Hnd & _ & _ & Hpost & Hfound).
    split; [exact Hfound|]. exists done. auto.
Qed.

End ImportGraphFacts.

(** detectCycles always returns, and its answer is right either way: a
    reported cycle is a chain of includes that leads from a file back to
    itself, listed from that file to that file; when no cycle is reported
    the path is empty and no file includes itself, directly or through
    other files. *)
Theorem detectCycles_sound_complete (importGraph : ImportGraph) :
  exists c,
    detectCycles importGraph = Ok c /\
    (hasCycle c = true ->
       walk importGraph (cyclePath c) /\
       exists x mid, cyclePath c = x :: mid ++ [x] /\ reaches importGraph x x) /\
    (hasCycle c = false -> cyclePath c = [] /\ acyclic importGraph) /\
    (hasCycle c = true <-> ~ acyclic importGraph).
Proof.
  destruct (detectCycles_outcome importGraph) as (c & Hc & Hres).
  exists c. split; [exact Hc|].
  destruct Hres as [(Hb & x & mid & Hp & Hw)|(-> & done & Hpost & _ & Hall)].
  - assert (Hr : reaches importGraph x x).
    { apply (walk_reaches importGraph mid). rewrite <- Hp. exact Hw. }
    split; [|split].
    + intros _. split; [exact Hw|]. exists x, mid. auto.
    + rewrite Hb. discriminate.
    + split; [intros _ Ha; exact (Ha x Hr)|intros _; exact Hb].
  - assert (Ha : acyclic importGraph).
    { intros u Hr. apply (postorder_acyclic importGraph done u Hpost); [|exact Hr].
      apply Hall.
      apply Operators_Properties.clos_trans_t1n in Hr.
      inversion Hr; subst;
        match goal with He : edge _ u _ |- _ => exact (edge_source importGraph _ _ He) end. }
    cbn [hasCycle cyclePath]. split; [discriminate|]. split; [auto|].
    split; [discriminate|]. intros Hn. destruct (Hn Ha).
Qed.

Section ImportOrderFacts.

Lemma string_compare_refl (s : string) : String.compare s s = Eq.
Proof.
  pose proof (String.compare_antisym s s) as H.
  destruct (String.compare s s); [reflexivity|discriminate H|discriminate H].
Qed.

Lemma compare_ne (a b : string) : String.compare a b <> Eq -> a <> b.
Proof. intros H ->. apply H, string_compare_refl. Qed.

Lemma find_assign_eq {V : Type} (k : string) (v : V) (m : list (string * V)) :
  map_find k (map_assign k v m) = Some v.
Proof.
  induction m as [|[k' v'] m IH]; cbn [map_assign map_find].
  - rewrite String.eqb_refl. reflexivity.
  - destruct (String.compare k k') eqn:Hc; cbn [map_find].
    + rewrite String.eqb_refl. reflexivity.
    + rewrite String.eqb_refl. reflexivity.
    + destruct (String.eqb_spec k k') as [->|_]; [|exact IH].
      rewrite string_compare_refl in Hc. discriminate Hc.
Qed.

Lemma find_assign_ne {V : Type} (k k0 : string) (v : V) (m : list (string * V)) :
  k0 <> k -> map_find k0 (map_assign k v m) = map_find k0 m.
Proof.
  intros Hne. induction m as [|[k' v'] m IH]; cbn [map_assign map_find].
  - destruct (String.eqb_spec k0 k); [contradiction|reflexivity].
  - destruct (String.compare k k') eqn:Hc; cbn [map_find].
    + apply String.compare_eq_iff in Hc. subst k'.
      destruct (String.eqb_spec k0 k); [contradiction|reflexivity].
    + destruct (String.eqb_spec k0 k); [contradiction|reflexivity].
    + destruct (String.eqb_spec k0 k'); [reflexivity|exact IH].
Qed.

Lemma keys_assign {V : Type} (k x : string) (v : V) (m : list (string * V)) :
  In x (List.map fst (map_assign k v m)) <-> x = k \/ In x (List.map fst m).
Proof.
  induction m as [|[k' v'] m IH]; cbn [map_assign List.map fst In].
  - intuition congruence.
  - destruct (String.compare k k') eqn:Hc; cbn [List.map fst In].
    + apply String.compare_eq_iff in Hc. subst k'. intuition congruence.
    + intuition congruence.
    + rewrite IH. intuition congruence.
Qed.

Lemma degree_assign_eq (k : string) (d : Z) (m : list (string * Z)) :
  degree (map_assign k d m) k = d.
Proof. unfold degree. rewrite find_assign_eq. reflexivity. Qed.

Lemma degree_assign_ne (k n : string) (d : Z) (m : list (string * Z)) :
  n <> k -> degree (map_assign k d m) n = degree m n.
Proof. intros H. unfold degree. rewrite find_assign_ne by exact H. reflexivity. Qed.

Lemma occurrences_nonneg (n : string) (l : list string) : 0 <= occurrences n l.
Proof.
  induction l as [|x l IH]; cbn [occurrences]; [lia|].
  destruct (String.eqb x n); lia.
Qed.

Lemma occurrences_pos (n : string) (l : list string) : 0 < occurrences n l <-> In n l.
Proof.
  induction l as [|x l IH]; cbn [occurrences In]; [lia|].
  pose proof (occurrences_nonneg n l).
  destruct (String.eqb_spec x n) as [->|Hne].
  - split; [auto|lia].
  - rewrite <- IH. split; [intros; right; lia|intros [E|E]; [congruence|lia]].
Qed.

Lemma existsb_eqb (u : string) (l : list string) :
  existsb (String.eqb u) l = true <-> In u l.
Proof.
  rewrite existsb_exists. split.
  - intros (x & Hx & E). apply String.eqb_eq in E. subst. exact Hx.
  - intros H. exists u. split; [exact H|apply String.eqb_refl].
Qed.

Lemma pending_nonneg (g : ImportGraph) (taken : list string) (n : string) :
  0 <= pending g taken n.
Proof.
  induction g as [|e rest IH]; cbn [pending]; [lia|].
  pose proof (occurrences_nonneg n (snd e)).
  destruct (existsb (String.eqb (fst e)) taken); lia.
Qed.

Lemma pending_mono (g : ImportGraph) (taken taken' : list string) (n : string) :
  (forall x, In x taken -> In x taken') -> pending g taken' n <= pending g taken n.
Proof.
  intros Hsub. induction g as [|e rest IH]; cbn [pending]; [lia|].
  pose proof (occurrences_nonneg n (snd e)).
  destruct (existsb (String.eqb (fst e)) taken) eqn:E1.
  - apply existsb_eqb in E1. apply Hsub in E1. apply existsb_eqb in E1. rewrite E1. lia.
  - destruct (existsb (String.eqb (fst e)) taken'); lia.
Qed.

Lemma pending_zero (g : ImportGraph) (taken : list string) (n u : string)
    (es : list string) :
  pending g taken n = 0 -> In (u, es) g -> In n es -> In u taken.
Proof.
  induction g as [|e rest IH]; cbn [pending]; [intros _ []|].
  intros H0 Hin Hn. pose proof (pending_nonneg rest taken n) as Hp.
  pose proof (occurrences_nonneg n (snd e)) as Ho.
  destruct Hin as [->|Hin].
  - cbn [fst snd] in *.
    destruct (existsb (String.eqb u) taken) eqn:E; [apply existsb_eqb; exact E|].
    apply occurrences_pos in Hn. lia.
  - apply IH; [|exact Hin|exact Hn].
    destruct (existsb (String.eqb (fst e)) taken); lia.
Qed.

Lemma pending_zero_intro (g : ImportGraph) (taken : list string) (n : string) :
  (forall u es, In (u, es) g -> In n es -> In u taken) -> pending g taken n = 0.
Proof.
  induction g as [|e rest IH]; cbn [pending]; [reflexivity|].
  intros H. rewrite IH by (intros u es Hin; apply H; right; exact Hin).
  destruct (existsb (String.eqb (fst e)) taken) eqn:E; [reflexivity|].
  destruct (occurrences n (snd e)) eqn:Ho; [reflexivity| |].
  - exfalso. assert (Hin : In n (snd e)) by (apply occurrences_pos; lia).
    assert (In (fst e) taken) as Ht by (apply (H (fst e) (snd e)); [left; destruct e; reflexivity|exact Hin]).
    apply existsb_eqb in Ht. congruence.
  - pose proof (occurrences_nonneg n (snd e)). lia.
Qed.

Lemma find_keys {V : Type} (k : string) (m : list (string * V)) :
  map_find k m = None <-> ~ In k (List.map fst m).
Proof.
  induction m as [|[k' v'] m IH]; cbn [map_find List.map fst In]; [tauto|].
  destruct (String.eqb_spec k k') as [->|Hne].
  - split; [discriminate|intros H; exfalso; apply H; left; reflexivity].
  - rewrite IH. intuition congruence.
Qed.

Lemma find_NoDup {V : Type} (k : string) (v : V) (m : list (string * V)) :
  List.NoDup (List.map fst m) -> In (k, v) m -> map_find k m = Some v.
Proof.
  induction m as [|[k' v'] m IH]; [intros _ []|].
  cbn [List.map fst map_find]. intros Hnd Hin.
  apply List.NoDup_cons_iff in Hnd as [Hk Hnd].
  destruct Hin as [[= -> ->]|Hin].
  - rewrite String.eqb_refl. reflexivity.
  - destruct (String.eqb_spec k k') as [->|Hne]; [|exact (IH Hnd Hin)].
    exfalso. apply Hk. apply (List.in_map fst) in Hin. exact Hin.
Qed.

(** Taking [u] from the queue lowers the pending includes by those of [u]. *)
Lemma pending_snoc (g : ImportGraph) (taken : list string) (u n : string) :
  List.NoDup (List.map fst g) -> ~ In u taken ->
  pending g (taken ++ [u]) n
  = pending g taken n - occurrences n (default [] (map_find u g)).
Proof.
  induction g as [|[k es] rest IH]; intros Hnd Hu; cbn [pending map_find fst snd].
  - cbn. lia.
  - cbn [List.map fst] in Hnd. apply List.NoDup_cons_iff in Hnd as [Hk Hnd].
    rewrite existsb_app. cbn [existsb]. rewrite orb_false_r.
    destruct (String.eqb_spec u k) as [->|Hne].
    + rewrite String.eqb_refl, orb_true_r. cbn [from_option id].
      assert (E : existsb (String.eqb k) taken = false).
      { destruct (existsb (String.eqb k) taken) eqn:E; [|reflexivity].
        apply existsb_eqb in E. contradiction. }
      rewrite E.
      assert (Hrest : pending rest (taken ++ [k]) n = pending rest taken n).
      { rewrite (IH Hnd Hu).
        assert (map_find k rest = None) as -> by (apply find_keys; exact Hk).
        cbn. lia. }
      rewrite Hrest. lia.
    + assert (String.eqb k u = false) as -> by (apply String.eqb_neq; congruence).
      rewrite orb_false_r, (IH Hnd Hu). lia.
Qed.

Lemma inDegree_nodes_spec (g : ImportGraph) :
  forall m,
    let m' := fold_left (fun inDegree (e : string * list string) =>
                           match map_find (fst e) inDegree with
                           | Some _ => inDegree
                           | None => map_assign (fst e) 0 inDegree
                           end) g m in
    (forall n, degree m n = 0) ->
    (forall n, degree m' n = 0) /\
    (forall n, In n (List.map fst m') <-> In n (List.map fst m) \/ In n (List.map fst g)).
Proof.
  induction g as [|e rest IH]; intros m; cbn [fold_left List.map In]; intros Hz.
  - split; [exact Hz|]. tauto.
  - destruct (map_find (fst e) m) eqn:Hf.
    + destruct (IH m Hz) as [H1 H2]. split; [exact H1|].
      intros n. rewrite H2.
      assert (In (fst e) (List.map fst m)).
      { destruct (List.in_dec string_dec (fst e) (List.map fst m)) as [H|H]; [exact H|].
        apply find_keys in H. congruence. }
      intuition congruence.
    + destruct (IH (map_assign (fst e) 0 m)) as [H1 H2].
      { intros n. destruct (string_dec n (fst e)) as [->|Hne].
        - apply degree_assign_eq.
        - rewrite degree_assign_ne by exact Hne. apply Hz. }
      split; [exact H1|]. intros n. rewrite H2, keys_assign. intuition congruence.
Qed.

Lemma bump_targets_spec (es : list string) :
  forall m,
    let m' := fold_left (fun inDegree target =>
                           map_assign target (degree inDegree target + 1) inDegree) es m in
    (forall n, degree m' n = degree m n + occurrences n es) /\
    (forall n, In n (List.map fst m') <-> In n (List.map fst m) \/ In n es).
Proof.
  induction es as [|x es IH]; intros m; cbn [fold_left occurrences In].
  - split; [intros; lia|tauto].
  - destruct (IH (map_assign x (degree m x + 1) m)) as [H1 H2]. split.
    + intros n. rewrite H1. destruct (String.eqb_spec x n) as [->|Hne].
      * rewrite degree_assign_eq. lia.
      * rewrite degree_assign_ne by congruence. lia.
    + intros n. rewrite H2, keys_assign. intuition congruence.
Qed.

Lemma inDegree_edges_spec (g : ImportGraph) :
  forall m,
    (forall n, degree (inDegree_edges g m) n = degree m n + pending g [] n) /\
    (forall n, In n (List.map fst (inDegree_edges g m))
               <-> In n (List.map fst m) \/ In n (List.concat (List.map snd g))).
Proof.
  unfold inDegree_edges.
  induction g as [|e rest IH]; intros m; cbn [fold_left pending List.map List.concat existsb].
  - split; [intros; lia|]. cbn [In]. tauto.
  - destruct (bump_targets_spec (snd e) m) as [B1 B2]. cbn zeta in B1, B2.
    destruct (IH (fold_left (fun inDegree target =>
                               map_assign target (degree inDegree target + 1) inDegree)
                            (snd e) m)) as [H1 H2].
    split.
    + intros n. rewrite H1, B1. lia.
    + intros n. rewrite H2, B2, in_app_iff. tauto.
Qed.

Lemma initial_inDegree (g : ImportGraph) :
  let inDegree := inDegree_edges g (inDegree_nodes g) in
  (forall n, degree inDegree n = pending g [] n) /\
  (forall n, In n (List.map fst inDegree) <-> In n (nodes g)).
Proof.
  cbn zeta. destruct (inDegree_nodes_spec g []) as [N1 N2]; [reflexivity|].
  destruct (inDegree_edges_spec g (inDegree_nodes g)) as [E1 E2].
  cbn zeta in N1, N2. fold (inDegree_nodes g) in N1, N2. split.
  - intros n. rewrite E1, N1. lia.
  - intros n. rewrite E2, N2. unfold nodes. rewrite in_app_iff. cbn [List.map In]. tauto.
Qed.

(** The loop over the includes of a file taken from the queue: every
    counter drops by the number of times the file includes it, and the
    files whose counter reaches 0 join the queue, each once. *)
Lemma release_spec (es : list string) :
  forall inDegree queue,
    (forall n, 0 <= degree inDegree n - occurrences n es) ->
    exists released,
      snd (release es inDegree queue) = queue ++ released /\
      (forall n, degree (fst (release es inDegree queue)) n
                 = degree inDegree n - occurrences n es) /\
      List.NoDup released /\
      (forall n, In n released <-> In n es /\ degree inDegree n - occurrences n es = 0).
Proof.
  induction es as [|x es IH]; intros inDegree queue Hpos; cbn [release occurrences].
  - exists []. cbn [fst snd]. rewrite List.app_nil_r. split; [reflexivity|].
    split; [intros; lia|]. split; [constructor|]. cbn [In]. tauto.
  - set (d := degree inDegree x - 1).
    assert (Hpos' : forall n, 0 <= degree (map_assign x d inDegree) n - occurrences n es).
    { intros n. specialize (Hpos n). cbn [occurrences] in Hpos.
      destruct (String.eqb_spec x n) as [->|Hne].
      - rewrite degree_assign_eq. unfold d. lia.
      - rewrite degree_assign_ne by congruence. lia. }
    destruct (IH (map_assign x d inDegree)
                 (if d =? 0 then queue ++ [x] else queue) Hpos')
      as (rel & Hq & Hd & Hnd & Hin).
    assert (Hdeg : forall n, degree (map_assign x d inDegree) n - occurrences n es
                             = degree inDegree n
                               - ((if String.eqb x n then 1 else 0) + occurrences n es)).
    { intros n. destruct (String.eqb_spec x n) as [->|Hne].
      - rewrite degree_assign_eq. unfold d. lia.
      - rewrite degree_assign_ne by congruence. lia. }
    destruct (Z.eqb_spec d 0) as [Hd0|Hd0].
    + exists (x :: rel). rewrite Hq, <- List.app_assoc. split; [reflexivity|].
      split; [intros n; rewrite Hd; apply Hdeg|].
      assert (Hx : ~ In x es).
      { intros Hx. apply occurrences_pos in Hx. specialize (Hpos' x).
        rewrite degree_assign_eq in Hpos'. lia. }
      split.
      * constructor; [|exact Hnd]. intros Hc. apply Hin in Hc. tauto.
      * intros n. cbn [In]. rewrite Hin, Hdeg. split.
        -- intros [<-|[H1 H2]]; [|tauto]. split; [left; reflexivity|].
           rewrite String.eqb_refl.
           assert (occurrences x es = 0).
           { pose proof (occurrences_nonneg x es). specialize (Hpos' x).
             rewrite degree_assign_eq in Hpos'. lia. }
           lia.
        -- intros [[->|H1] H2]; [left; reflexivity|right; tauto].
    + exists rel. split; [exact Hq|].
      split; [intros n; rewrite Hd; apply Hdeg|]. split; [exact Hnd|].
      intros n. cbn [In]. rewrite Hin, Hdeg. split; [tauto|].
      intros [[->|H1] H2]; [|tauto].
      destruct (List.in_dec string_dec n es) as [Hi|Hi]; [tauto|].
      exfalso. rewrite String.eqb_refl in H2.
      assert (occurrences n es = 0).
      { pose proof (occurrences_nonneg n es).
        destruct (Z_lt_le_dec 0 (occurrences n es)) as [Hl|Hl]; [|lia].
        apply occurrences_pos in Hl. contradiction. }
      lia.
Qed.

Lemma In_take_sub {A : Type} (i : nat) (l : list A) (x : A) : In x (take i l) -> In x l.
Proof. rewrite <- !list_elem_of_In. apply subseteq_take. Qed.

Lemma sorted_pending_zero (g : ImportGraph) (sorted : list string) (v : string) :
  (forall i x, sorted !! i = Some x -> pending g (take i sorted) x = 0) ->
  In v sorted -> pending g sorted v = 0.
Proof.
  intros H4 Hv. apply list_elem_of_In, list_elem_of_lookup in Hv as [i Hi].
  pose proof (H4 i v Hi) as H0.
  pose proof (pending_mono g (take i sorted) sorted v (In_take_sub i sorted)) as Hm.
  pose proof (pending_nonneg g sorted v). lia.
Qed.

(** One iteration of the while loop keeps the invariant. *)
Lemma sort_step (g : ImportGraph) (inDegree : list (string * Z)) (u : string)
    (queue sorted : list string) :
  List.NoDup (List.map fst g) ->
  sort_inv g inDegree (u :: queue) sorted ->
  let s := release (default [] (map_find u g)) inDegree queue in
  sort_inv g (fst s) (snd s) (sorted ++ [u]).
Proof.
  intros Hkeys (H1 & H2 & H3 & H4 & H5 & H6). cbn zeta.
  set (es := default [] (map_find u g)).
  assert (Hu : ~ In u sorted).
  { apply List.NoDup_remove_2 in H2. intros Hc. apply H2. apply List.in_or_app. auto. }
  assert (Hsnoc : forall n, pending g (sorted ++ [u]) n = pending g sorted n - occurrences n es).
  { intros n. apply pending_snoc; assumption. }
  destruct (release_spec es inDegree queue) as (rel & Hq & Hd & Hnd & Hrel).
  { intros n. rewrite H1, <- Hsnoc. apply pending_nonneg. }
  rewrite Hq.
  assert (Hrel_pos : forall n, In n rel -> 0 < pending g sorted n).
  { intros n Hn. apply Hrel in Hn as [Hn _]. apply occurrences_pos in Hn.
    pose proof (pending_nonneg g (sorted ++ [u]) n). rewrite Hsnoc in H. lia. }
  assert (Hes : forall n, In n es -> In n (nodes g)).
  { intros n Hn. unfold es in Hn. destruct (map_find u g) as [l|] eqn:Hf; [|destruct Hn].
    apply (edge_nodes g u n). exists l. split; [exact Hf|exact Hn]. }
  unfold sort_inv. split; [|split; [|split; [|split; [|split]]]].
  - intros n. rewrite Hd, H1, Hsnoc. reflexivity.
  - rewrite <- List.app_assoc. cbn [app].
    replace (sorted ++ u :: queue ++ rel) with ((sorted ++ u :: queue) ++ rel)
      by (rewrite <- List.app_assoc; reflexivity).
    apply List.NoDup_app; [exact H2|exact Hnd|].
    intros x Hx Hr.
    pose proof (Hrel_pos x Hr) as Hp.
    apply List.in_app_or in Hx as [Hx|Hx].
    + rewrite (sorted_pending_zero g sorted x H4 Hx) in Hp. lia.
    + rewrite (H3 x Hx) in Hp. lia.
  - intros v Hv. apply List.in_app_or in Hv as [Hv|Hv].
    + pose proof (pending_nonneg g (sorted ++ [u]) v).
      pose proof (occurrences_nonneg v es).
      rewrite Hsnoc in *. rewrite (H3 v) in * by (right; exact Hv). lia.
    + apply Hrel in Hv as [_ Hv]. rewrite Hsnoc, <- H1. exact Hv.
  - intros i v Hi.
    destruct (Nat.lt_ge_cases i (List.length sorted)) as [Hlt|Hge].
    + rewrite lookup_app_l in Hi by exact Hlt.
      rewrite take_app_le by lia. exact (H4 i v Hi).
    + pose proof (lookup_lt_Some _ _ _ Hi) as Hb. rewrite length_app in Hb.
      cbn [List.length] in Hb. assert (i = List.length sorted) as -> by lia.
      rewrite list_lookup_middle in Hi by reflexivity. injection Hi as <-.
      rewrite take_app_length. apply H3. left. reflexivity.
  - intros n Hn Hp. rewrite Hsnoc in Hp.
    destruct (Z.eq_dec (pending g sorted n) 0) as [H0|H0].
    + specialize (H5 n Hn H0). rewrite <- List.app_assoc. cbn [app].
      apply List.in_app_or in H5 as [H5|[H5|H5]].
      * apply List.in_or_app. left. exact H5.
      * apply List.in_or_app. right. left. exact H5.
      * apply List.in_or_app. right. right. apply List.in_or_app. left. exact H5.
    + assert (In n rel).
      { apply Hrel. rewrite H1. split; [|exact Hp].
        apply occurrences_pos. pose proof (pending_nonneg g sorted n). lia. }
      apply List.in_or_app. right. apply List.in_or_app. auto.
  - intros v Hv. rewrite <- List.app_assoc in Hv. cbn [app] in Hv.
    apply List.in_app_or in Hv as [Hv|[Hv|Hv]].
    + apply H6. apply List.in_or_app. auto.
    + apply H6. apply List.in_or_app. right. left. exact Hv.
    + apply List.in_app_or in Hv as [Hv|Hv].
      * apply H6. apply List.in_or_app. right. right. exact Hv.
      * apply Hes. apply Hrel in Hv. tauto.
Qed.

(** The while loop ends before the fuel does, with the invariant and an
    empty queue. *)
Lemma sort_loop_spec (g : ImportGraph) (bound : nat) :
  List.NoDup (List.map fst g) ->
  (forall l, List.NoDup l -> (forall x, In x l -> In x (nodes g)) ->
             (List.length l <= bound)%nat) ->
  forall fuel inDegree queue sorted,
    sort_inv g inDegree queue sorted ->
    (bound < List.length sorted + fuel)%nat ->
    exists r inDegree',
      sort_loop g fuel inDegree queue sorted = Ok r /\ sort_inv g inDegree' [] r.
Proof.
  intros Hkeys Hbound.
  induction fuel as [|fuel IH]; intros inDegree queue sorted Hinv Hfuel.
  - exfalso. destruct Hinv as (_ & H2 & _ & _ & _ & H6).
    assert (List.length sorted <= bound)%nat; [|lia].
    apply Hbound.
    + exact (List.NoDup_app_remove_r _ _ H2).
    + intros x Hx. apply H6. apply List.in_or_app. auto.
  - cbn [sort_loop]. destruct queue as [|u queue].
    + exists sorted, inDegree. split; [reflexivity|exact Hinv].
    + apply IH.
      * apply sort_step; assumption.
      * rewrite length_app. cbn [List.length].
        destruct Hinv as (_ & H2 & _ & _ & _ & H6).
        assert (List.length (sorted ++ u :: queue) <= bound)%nat.
        { apply Hbound; [exact H2|exact H6]. }
        rewrite length_app in H. cbn [List.length] in H. lia.
Qed.

Lemma string_compare_trans (a : string) :
  forall b c, String.compare a b = Lt -> String.compare b c = Lt -> String.compare a c = Lt.
Proof.
  induction a as [|x a IH]; intros [|y b] [|z c]; cbn [String.compare];
    try discriminate; try reflexivity.
  unfold Ascii.compare.
  destruct (N.compare_spec (N_of_ascii x) (N_of_ascii y)) as [E1|E1|E1]; try discriminate;
    destruct (N.compare_spec (N_of_ascii y) (N_of_ascii z)) as [E2|E2|E2]; try discriminate;
    destruct (N.compare_spec (N_of_ascii x) (N_of_ascii z)) as [E3|E3|E3];
    try reflexivity; try lia.
  apply IH.
Qed.

(** The keys of a map built by assignments ascend, so none is repeated. *)
Lemma assign_ascending {V : Type} (k : string) (v : V) (m : list (string * V)) :
  StronglySorted (fun a b => String.compare a b = Lt) (List.map fst m) ->
  StronglySorted (fun a b => String.compare a b = Lt) (List.map fst (map_assign k v m)).
Proof.
  induction m as [|[k' v'] m IH]; cbn [map_assign List.map fst]; intros Hs.
  - repeat constructor.
  - apply StronglySorted_inv in Hs as [Hs Hk'].
    destruct (String.compare k k') eqn:Hc; cbn [List.map fst].
    + apply String.compare_eq_iff in Hc. subst k'. constructor; assumption.
    + constructor; [constructor; assumption|].
      constructor; [exact Hc|].
      eapply List.Forall_impl; [|exact Hk']. intros x Hx.
      exact (string_compare_trans k k' x Hc Hx).
    + constructor; [exact (IH Hs)|].
      apply List.Forall_forall. intros x Hx. apply keys_assign in Hx as [->|Hx].
      * rewrite String.compare_antisym, Hc. reflexivity.
      * rewrite List.Forall_forall in Hk'. exact (Hk' x Hx).
Qed.

Lemma ascending_NoDup (l : list string) :
  StronglySorted (fun a b => String.compare a b = Lt) l -> List.NoDup l.
Proof.
  induction 1 as [|a l Hs IH Ha]; constructor; [|exact IH].
  intros Hin. rewrite List.Forall_forall in Ha. specialize (Ha a Hin).
  rewrite string_compare_refl in Ha. discriminate Ha.
Qed.

Lemma inDegree_ascending (g : ImportGraph) :
  StronglySorted (fun a b => String.compare a b = Lt)
    (List.map fst (inDegree_edges g (inDegree_nodes g))).
Proof.
  assert (Hn : forall m,
             StronglySorted (fun a b => String.compare a b = Lt) (List.map fst m) ->
             StronglySorted (fun a b => String.compare a b = Lt)
               (List.map fst
                  (fold_left (fun inDegree (e : string * list string) =>
                                match map_find (fst e) inDegree with
                                | Some _ => inDegree
                                | None => map_assign (fst e) 0 inDegree
                                end) g m))).
  { induction g as [|e rest IH]; intros m Hm; cbn [fold_left]; [exact Hm|].
    apply IH. destruct (map_find (fst e) m); [exact Hm|]. apply assign_ascending, Hm. }
  assert (Hb : forall (es : list string) (m : list (string * Z)),
             StronglySorted (fun a b => String.compare a b = Lt) (List.map fst m) ->
             StronglySorted (fun a b => String.compare a b = Lt)
               (List.map fst
                  (fold_left (fun inDegree target =>
                                map_assign target (degree inDegree target + 1) inDegree)
                             es m))).
  { induction es as [|x es IH]; intros m Hm; cbn [fold_left]; [exact Hm|].
    apply IH, assign_ascending, Hm. }
  assert (He : forall m,
             StronglySorted (fun a b => String.compare a b = Lt) (List.map fst m) ->
             StronglySorted (fun a b => String.compare a b = Lt)
               (List.map fst (inDegree_edges g m))).
  { clear Hn. unfold inDegree_edges.
    induction g as [|e rest IH]; intros m Hm; cbn [fold_left]; [exact Hm|].
    apply IH, Hb, Hm. }
  apply He. apply (Hn []). constructor.
Qed.

(** topologicalSort returns; its loop ends with the invariant and an empty
    queue. *)
Lemma topologicalSort_outcome (g : ImportGraph) :
  List.NoDup (List.map fst g) ->
  exists sorted inDegree,
    topologicalSort g = Ok (rev sorted) /\ sort_inv g inDegree [] sorted.
Proof.
  intros Hkeys. unfold topologicalSort.
  set (inD := inDegree_edges g (inDegree_nodes g)).
  destruct (initial_inDegree g) as [Hdeg Hnodes]. cbn zeta in Hdeg, Hnodes. fold inD in Hdeg, Hnodes.
  pose proof (ascending_NoDup _ (inDegree_ascending g)) as HndD. fold inD in HndD.
  set (queue := List.map fst (List.filter (fun e : string * Z => snd e =? 0) inD)).
  assert (Hq : forall v, In v queue <-> In v (nodes g) /\ pending g [] v = 0).
  { intros v. unfold queue. rewrite List.in_map_iff. split.
    - intros ([k d] & <- & Hin). apply List.filter_In in Hin as [Hin Hz].
      cbn [fst snd] in *. apply Z.eqb_eq in Hz. subst d. split.
      + apply Hnodes. apply (List.in_map fst) in Hin. exact Hin.
      + rewrite <- Hdeg. unfold degree. rewrite (find_NoDup k 0 inD HndD Hin). reflexivity.
    - intros [Hv Hz]. apply Hnodes in Hv.
      destruct (map_find v inD) as [d|] eqn:Hf; [|apply find_keys in Hf; contradiction].
      assert (d = 0) as ->.
      { rewrite <- Hdeg in Hz. unfold degree in Hz. rewrite Hf in Hz. exact Hz. }
      exists (v, 0). split; [reflexivity|]. apply List.filter_In. split; [|reflexivity].
      apply map_find_In. exact Hf. }
  assert (Hinv : sort_inv g inD queue []).
  { unfold sort_inv. cbn [app]. split; [exact Hdeg|]. split.
    - unfold queue. clear Hq queue.
      assert (Hf : forall m : list (string * Z),
                 List.NoDup (List.map fst m) ->
                 List.NoDup (List.map fst (List.filter (fun e => snd e =? 0) m))).
      { induction m as [|e m IH]; cbn [List.map List.filter]; intros Hm; [constructor|].
        apply List.NoDup_cons_iff in Hm as [He Hm].
        destruct (snd e =? 0); cbn [List.map]; [|exact (IH Hm)].
        constructor; [|exact (IH Hm)].
        intros Hin. apply He. apply List.in_map_iff in Hin as (x & Hx & Hin).
        apply List.filter_In in Hin as [Hin _]. rewrite <- Hx.
        apply (List.in_map fst). exact Hin. }
      apply Hf, HndD.
    - split; [intros v Hv; apply Hq, Hv|].
      split; [intros i v Hi; rewrite lookup_nil in Hi; discriminate Hi|].
      split; [intros n Hn Hz; apply Hq; split; assumption|].
      intros v Hv. apply Hq, Hv. }
  destruct (sort_loop_spec g (List.length inD) Hkeys) with
      (fuel := S (List.length inD)) (inDegree := inD) (queue := queue)
      (sorted := @nil string) as (r & inD' & Hr & Hinv').
  - intros l Hl Hsub. rewrite <- (List.length_map fst inD).
    apply List.NoDup_incl_length; [exact Hl|].
    intros x Hx. apply Hnodes, Hsub, Hx.
  - exact Hinv.
  - cbn [List.length]. lia.
  - fold queue. rewrite Hr. cbn [bind]. exists r, inD'. split; [reflexivity|exact Hinv'].
Qed.

(** A file is taken from the queue only after every file that includes it,
    directly or through other files. *)
Lemma taken_after_importers (g : ImportGraph) (inDegree : list (string * Z))
    (sorted : list string) (u v : string) :
  sort_inv g inDegree [] sorted -> reaches g u v ->
  forall a b, sorted = a ++ v :: b -> In u a.
Proof.
  intros (_ & _ & _ & H4 & _ & _) Hr.
  induction Hr as [u v (es & Hf & Hv)|u w v _ IH1 _ IH2]; intros a b ->.
  - apply (pending_zero g a v u es); [|apply map_find_In; exact Hf|exact Hv].
    rewrite <- (take_app_length a (v :: b)). apply H4.
    apply list_lookup_middle. reflexivity.
  - pose proof (IH2 a b eq_refl) as Hw.
    apply List.in_split in Hw as (a1 & a2 & ->).
    specialize (IH1 a1 (a2 ++ v :: b)).
    rewrite <- List.app_assoc in IH1. cbn [app] in IH1.
    apply List.in_or_app. left. apply IH1. reflexivity.
Qed.

Lemma cycle_not_taken (g : ImportGraph) (inDegree : list (string * Z))
    (sorted : list string) (u : string) :
  sort_inv g inDegree [] sorted -> reaches g u u -> ~ In u sorted.
Proof.
  intros Hinv Hr Hin. apply List.in_split in Hin as (a & b & ->).
  pose proof (taken_after_importers g inDegree _ u u Hinv Hr a b eq_refl) as Ha.
  destruct Hinv as (_ & Hnd & _). rewrite List.app_nil_r in Hnd.
  apply List.NoDup_remove_2 in Hnd. apply Hnd. apply List.in_or_app. left. exact Ha.
Qed.

Lemma walk_prefix (g : ImportGraph) (p1 p2 : list string) : walk g (p1 ++ p2) -> walk g p1.
Proof.
  induction p1 as [|a p1 IH]; [intros _; exact I|].
  destruct p1 as [|b p1]; [intros _; exact I|].
  cbn [app walk]. intros [Hab Hw]. split; [exact Hab|]. apply IH. exact Hw.
Qed.

Lemma walk_cycle_members (g : ImportGraph) (x : string) (mid : list string) :
  walk g (x :: mid ++ [x]) -> forall y, In y (x :: mid ++ [x]) -> reaches g y y.
Proof.
  intros Hw y Hy.
  assert (Hx : reaches g x x) by (apply (walk_reaches g mid); exact Hw).
  destruct Hy as [<-|Hy]; [exact Hx|].
  apply List.in_app_or in Hy as [Hy|[<-|[]]]; [|exact Hx].
  apply List.in_split in Hy as (m1 & m2 & ->).
  assert (H1 : reaches g x y).
  { apply (walk_reaches g m1).
    apply (walk_prefix g (x :: m1 ++ [y]) (m2 ++ [x])).
    cbn [app]. rewrite <- !List.app_assoc. cbn [app].
    rewrite <- List.app_assoc in Hw. exact Hw. }
  assert (H2 : reaches g y x).
  { apply (walk_reaches g m2).
    apply (walk_suffix g (x :: m1) (y :: m2 ++ [x])).
    cbn [app]. rewrite <- List.app_assoc in Hw. exact Hw. }
  exact (Relation_Operators.t_trans _ _ _ _ _ H2 H1).
Qed.

Lemma postorder_tail (g : ImportGraph) (a b : list string) (u v : string) :
  postorder g (a ++ u :: b) -> edge g u v -> In v b.
Proof.
  induction a as [|x a IH]; cbn [app postorder]; intros [H1 H2] He.
  - apply H1, He.
  - apply IH; assumption.
Qed.

(** Without a cycle nothing is left behind: each file whose importers were
    all taken from the queue is taken as well. *)
Lemma acyclic_all_taken (g : ImportGraph) (inDegree : list (string * Z))
    (sorted done : list string) :
  List.NoDup (List.map fst g) ->
  sort_inv g inDegree [] sorted ->
  postorder g done -> List.NoDup done ->
  (forall f, In f (List.map fst g) -> In f done) ->
  forall n, In n (nodes g) -> In n sorted.
Proof.
  intros Hkeys Hinv Hpost Hnd Hall.
  pose proof Hinv as (_ & _ & _ & _ & H5 & _).
  assert (Hdone : forall f1 f2, done = f1 ++ f2 ->
                  forall x, In x f1 -> In x (nodes g) -> In x sorted).
  { induction f1 as [|x0 f1 IH] using rev_ind; intros f2 Hd x Hx Hn; [destruct Hx|].
    rewrite <- List.app_assoc in Hd. cbn [app] in Hd.
    apply List.in_app_or in Hx as [Hx|[<-|[]]]; [exact (IH _ Hd x Hx Hn)|].
    specialize (H5 x0 Hn). rewrite List.app_nil_r in H5. apply H5.
    apply pending_zero_intro. intros u es Hin Hv.
    assert (He : edge g u x0).
    { exists es. split; [apply find_NoDup; assumption|exact Hv]. }
    assert (Hu : In u done).
    { apply Hall. apply (List.in_map fst) in Hin. exact Hin. }
    assert (Hx0 : ~ In x0 (f1 ++ f2)).
    { rewrite Hd in Hnd. apply List.NoDup_remove_2 in Hnd. exact Hnd. }
    rewrite Hd in Hu. apply List.in_app_or in Hu as [Hu|[Hu|Hu]].
    - apply (IH _ Hd u Hu). apply (edge_nodes g u x0 He).
    - subst u. exfalso. apply Hx0. apply List.in_or_app. right.
      rewrite Hd in Hpost. exact (postorder_tail g f1 f2 x0 x0 Hpost He).
    - exfalso. apply Hx0. apply List.in_or_app. right.
      apply List.in_split in Hu as (b1 & b2 & ->).
      apply List.in_or_app. right. right.
      rewrite Hd in Hpost.
      apply (postorder_tail g (f1 ++ x0 :: b1) b2 u x0); [|exact He].
      rewrite <- List.app_assoc. exact Hpost. }
  intros n Hn. apply (Hdone done [] (eq_sym (List.app_nil_r done)) n); [|exact Hn].
  unfold nodes in Hn. apply List.in_app_or in Hn as [Hn|Hn]; [exact (Hall n Hn)|].
  apply List.in_concat in Hn as (es & Hes & Hv).
  apply List.in_map_iff in Hes as ([u es'] & E & Hin). cbn [snd] in E. subst es'.
  apply (postorder_closed g done u n Hpost).
  - apply Hall. apply (List.in_map fst) in Hin. exact Hin.
  - exists es. split; [apply find_NoDup; assumption|exact Hv].
Qed.

End ImportOrderFacts.

(** The import order lists a file before every file that includes it: a
    file is in the order only if each file that includes it is there as
    well, further back.  No file is listed twice, and a file on a cycle of
    includes is not listed at all. *)
Theorem import_order_respects_includes (importGraph : ImportGraph) :
  List.NoDup (List.map fst importGraph) ->
  exists order,
    topologicalSort importGraph = Ok order /\
    List.NoDup order /\
    (forall n, In n order -> In n (nodes importGraph)) /\
    (forall u v, edge importGraph u v -> In v order ->
       exists l1 l2 l3, order = l1 ++ v :: l2 ++ u :: l3) /\
    (forall u, reaches importGraph u u -> ~ In u order).
Proof.
  intros Hkeys.
  destruct (topologicalSort_outcome importGraph Hkeys) as (sorted & inD & Hr & Hinv).
  exists (rev sorted). split; [exact Hr|].
  pose proof Hinv as (_ & Hnd & _ & _ & _ & H6). rewrite List.app_nil_r in Hnd, H6.
  split; [apply List.NoDup_rev; exact Hnd|].
  split; [intros n Hn; apply H6, List.in_rev, Hn|]. split.
  - intros u v He Hv. apply List.in_rev in Hv.
    apply List.in_split in Hv as (a & b & ->).
    assert (Hu : In u a).
    { apply (taken_after_importers importGraph inD _ u v Hinv
               (Relation_Operators.t_step _ _ _ _ He) a b eq_refl). }
    apply List.in_split in Hu as (a1 & a2 & ->).
    exists (rev b), (rev a2), (rev a1).
    rewrite <- List.app_assoc. cbn [app].
    rewrite !List.rev_app_distr. cbn [rev]. rewrite !List.rev_app_distr. cbn [rev app].
    rewrite <- !List.app_assoc. cbn [app]. reflexivity.
  - intros u Hu Hin. apply List.in_rev in Hin.
    exact (cycle_not_taken importGraph inD sorted u Hinv Hu Hin).
Qed.

Lemma import_order_respects_includes_witness :
  exists order,
    topologicalSort [("a.fbs", ["b.fbs"; "c.fbs"]); ("b.fbs", ["c.fbs"]); ("c.fbs", [])]%string
    = Ok order /\
    List.NoDup order /\
    (In "c.fbs"%string order ->
     exists l1 l2 l3, order = l1 ++ "c.fbs"%string :: l2 ++ "a.fbs"%string :: l3).
Proof.
  destruct (import_order_respects_includes
              [("a.fbs", ["b.fbs"; "c.fbs"]); ("b.fbs", ["c.fbs"]); ("c.fbs", [])]%string)
    as (order & Hr & Hnd & _ & Hbefore & _).
  - cbn [List.map fst]. repeat constructor; cbn [In]; intuition discriminate.
  - exists order. split; [exact Hr|]. split; [exact Hnd|].
    apply (Hbefore "a.fbs"%string "c.fbs"%string).
    exists ["b.fbs"; "c.fbs"]%string. split; [reflexivity|]. right. left. reflexivity.
Defined.

(** analyze runs detectCycles and topologicalSort on the same graph.  When
    no cycle is reported, the import order lists every file of the graph,
    each once; when a cycle is reported, no file of the reported path is in
    the import order. *)
Theorem cycle_report_and_import_order (importGraph : ImportGraph) :
  List.NoDup (List.map fst importGraph) ->
  exists c order,
    detectCycles importGraph = Ok c /\
    topologicalSort importGraph = Ok order /\
    List.NoDup order /\
    (hasCycle c = false -> forall n, In n order <-> In n (nodes importGraph)) /\
    (hasCycle c = true -> forall x, In x (cyclePath c) -> ~ In x order).
Proof.
  intros Hkeys.
  destruct (detectCycles_outcome importGraph) as (c & Hc & Hres).
  destruct (topologicalSort_outcome importGraph Hkeys) as (sorted & inD & Hr & Hinv).
  exists c, (rev sorted). split; [exact Hc|]. split; [exact Hr|].
  pose proof Hinv as (_ & Hnd & _ & _ & _ & H6). rewrite List.app_nil_r in Hnd, H6.
  split; [apply List.NoDup_rev; exact Hnd|].
  destruct Hres as [(Hb & x & mid & Hp & Hw)|(-> & done & Hpost & Hndd & Hall)].
  - split; [rewrite Hb; discriminate|].
    intros _ y Hy Hin. apply List.in_rev in Hin. rewrite Hp in Hy, Hw.
    exact (cycle_not_taken importGraph inD sorted y Hinv
             (walk_cycle_members importGraph x mid Hw y Hy) Hin).
  - cbn [hasCycle]. split; [|discriminate].
    intros _ n. rewrite <- List.in_rev. split; [apply H6|].
    exact (acyclic_all_taken importGraph inD sorted done Hkeys Hinv Hpost Hndd Hall n).
Qed.

Lemma cycle_report_and_import_order_witness :
  exists c order,
    detectCycles [("a.fbs", ["b.fbs"]); ("b.fbs", ["a.fbs"]); ("c.fbs", [])]%string = Ok c /\
    topologicalSort [("a.fbs", ["b.fbs"]); ("b.fbs", ["a.fbs"]); ("c.fbs", [])]%string
    = Ok order /\
    List.NoDup order.
Proof.
  destruct (cycle_report_and_import_order
              [("a.fbs", ["b.fbs"]); ("b.fbs", ["a.fbs"]); ("c.fbs", [])]%string)
    as (c & order & Hc & Hr & Hnd & _).
  - cbn [List.map fst]. repeat constructor; cbn [In]; intuition discriminate.
  - exists c, order. auto.
Defined.

(** ** Junction rows: the in-memory tables of JunctionManager *)

Section JunctionRows.

Implicit Types (f : JunctionRowData -> N) (rows pre suf : list JunctionRowData)
  (index : list (N * nat)) (t : JunctionTableData) (s : Impl).

Lemma emplace_sorted (k : N) (v : nat) index :
  StronglySorted (fun a b => (fst a <= fst b)%N) index ->
  StronglySorted (fun a b => (fst a <= fst b)%N) (multimap_emplace k v index).
Proof.
  induction index as [|[k' v'] index IH]; cbn [multimap_emplace]; intros Hs.
  - repeat constructor.
  - apply StronglySorted_inv in Hs as [Hs Hk'].
    destruct (N.ltb_spec k k') as [Hlt|Hge].
    + constructor; [constructor; assumption|].
      constructor; [cbn; lia|].
      eapply List.Forall_impl; [|exact Hk']. cbn. intros; lia.
    + constructor; [exact (IH Hs)|].
      apply List.Forall_forall. intros x Hx.
      assert (Hx' : x = (k, v) \/ In x index).
      { clear -Hx. induction index as [|[k2 v2] index IH]; cbn [multimap_emplace] in Hx.
        - destruct Hx as [<-|[]]. auto.
        - destruct (k <? k2)%N.
          + destruct Hx as [<-|Hx]; auto.
          + destruct Hx as [<-|Hx]; [right; left; reflexivity|].
            destruct (IH Hx); [auto|right; right; assumption]. }
      destruct Hx' as [->|Hx']; [cbn; lia|].
      rewrite List.Forall_forall in Hk'. exact (Hk' x Hx').
Qed.

Lemma filter_none {A : Type} (p : A -> bool) (l : list A) :
  (forall x, In x l -> p x = false) -> List.filter p l = [].
Proof.
  induction l as [|x l IH]; [reflexivity|]. intros H. cbn [List.filter].
  rewrite (H x) by (left; reflexivity). apply IH. intros y Hy. apply H. right. exact Hy.
Qed.

Lemma emplace_equal_range (k k0 : N) (v : nat) index :
  StronglySorted (fun a b => (fst a <= fst b)%N) index ->
  equal_range k0 (multimap_emplace k v index)
  = equal_range k0 index ++ (if (k =? k0)%N then [v] else []).
Proof.
  unfold equal_range.
  induction index as [|[k' v'] index IH]; cbn [multimap_emplace]; intros Hs.
  - cbn [List.filter List.map fst app]. destruct (k =? k0)%N; reflexivity.
  - apply StronglySorted_inv in Hs as [Hs Hk'].
    destruct (N.ltb_spec k k') as [Hlt|Hge].
    + destruct (N.eqb_spec k k0) as [->|Hne].
      * assert (Hnone : List.filter (fun p : N * nat => (fst p =? k0)%N) ((k', v') :: index)
                        = []).
        { apply filter_none. intros p [<-|Hp]; [apply N.eqb_neq; cbn; lia|].
          rewrite List.Forall_forall in Hk'. specialize (Hk' p Hp). cbn in Hk'.
          apply N.eqb_neq. lia. }
        rewrite Hnone.
        change (List.filter (fun p : N * nat => (fst p =? k0)%N)
                  ((k0, v) :: (k', v') :: index))
          with (if (k0 =? k0)%N
                then (k0, v) :: List.filter (fun p : N * nat => (fst p =? k0)%N)
                                  ((k', v') :: index)
                else List.filter (fun p : N * nat => (fst p =? k0)%N) ((k', v') :: index)).
        rewrite N.eqb_refl, Hnone. reflexivity.
      * rewrite List.app_nil_r.
        change (List.filter (fun p : N * nat => (fst p =? k0)%N)
                  ((k, v) :: (k', v') :: index))
          with (if (k =? k0)%N
                then (k, v) :: List.filter (fun p : N * nat => (fst p =? k0)%N)
                                 ((k', v') :: index)
                else List.filter (fun p : N * nat => (fst p =? k0)%N) ((k', v') :: index)).
        apply N.eqb_neq in Hne. rewrite Hne. reflexivity.
    + cbn [List.filter fst].
      destruct (k' =? k0)%N; cbn [List.map snd app]; rewrite (IH Hs); reflexivity.
Qed.

Lemma snoc_cons {A : Type} (pre : list A) (x : A) (suf : list A) :
  (pre ++ [x]) ++ suf = pre ++ x :: suf.
Proof. rewrite <- List.app_assoc. reflexivity. Qed.

Lemma live_from_snoc f (k : N) (i : nat) pre (r : JunctionRowData) :
  live_from f k i (pre ++ [r])
  = live_from f k i pre
    ++ (if negb (rd_id r =? 0)%N && (f r =? k)%N then [(i + List.length pre)%nat] else []).
Proof.
  revert i. induction pre as [|x pre IH]; intros i; cbn [app live_from List.length].
  - rewrite Nat.add_0_r, List.app_nil_r. reflexivity.
  - rewrite IH, <- List.app_assoc. replace (S i + List.length pre)%nat
      with (i + S (List.length pre))%nat by lia. reflexivity.
Qed.

(** Reading the rows an index lists gives the live rows it stands for. *)
Lemma collect_rows_spec f (k : N) suf :
  forall pre,
    collect_rows (pre ++ suf) (live_from f k (List.length pre) suf)
    = Ok (List.map to_row (List.filter (fun r => (f r =? k)%N) (live suf))).
Proof.
  induction suf as [|r suf IH]; intros pre; [reflexivity|].
  cbn [live_from]. specialize (IH (pre ++ [r])).
  rewrite snoc_cons, length_app in IH. cbn [List.length] in IH.
  rewrite Nat.add_1_r in IH. unfold live. cbn [List.filter].
  destruct (N.eqb_spec (rd_id r) 0) as [Hid|Hid]; cbn [negb andb app].
  - exact IH.
  - destruct (f r =? k)%N eqn:Hk; cbn [app List.filter].
    + cbn [collect_rows]. rewrite vec_at_middle. cbn [bind]. rewrite IH. cbn [bind].
      apply N.eqb_neq in Hid. rewrite Hid, Hk. reflexivity.
    + rewrite Hk. exact IH.
Qed.

Lemma count_rows_spec f (k : N) suf :
  forall pre,
    count_rows (pre ++ suf) (live_from f k (List.length pre) suf)
    = Ok (N.of_nat (List.length (List.filter (fun r => (f r =? k)%N) (live suf)))).
Proof.
  induction suf as [|r suf IH]; intros pre; [reflexivity|].
  cbn [live_from]. specialize (IH (pre ++ [r])).
  rewrite snoc_cons, length_app in IH. cbn [List.length] in IH.
  rewrite Nat.add_1_r in IH. unfold live. cbn [List.filter].
  destruct (N.eqb_spec (rd_id r) 0) as [Hid|Hid]; cbn [negb andb app].
  - exact IH.
  - destruct (f r =? k)%N eqn:Hk; cbn [app List.filter].
    + cbn [count_rows]. rewrite vec_at_middle. cbn [bind]. rewrite IH. cbn [bind].
      apply N.eqb_neq in Hid. rewrite Hid, Hk. cbn [List.length].
      rewrite Nat2N.inj_succ. apply f_equal. unfold live. lia.
    + rewrite Hk. exact IH.
Qed.

(** The rows after the marks of removeByParent. *)
Let mark (p : N) rows : list JunctionRowData :=
  List.map (fun r => if negb (rd_id r =? 0)%N && (rd_parentRowId r =? p)%N
                     then mkJunctionRowData 0 (rd_parentRowId r) (rd_childRowId r)
                            (rd_vecIndex r) (rd_unionType r)
                     else r) rows.

Lemma mark_deleted_spec (p : N) suf :
  forall pre,
    mark_deleted (live_from rd_parentRowId p (List.length pre) suf) (pre ++ suf)
    = Ok (pre ++ mark p suf).
Proof.
  induction suf as [|r suf IH]; intros pre; [reflexivity|].
  cbn [live_from]. unfold mark. cbn [List.map]. fold (mark p suf).
  destruct (negb (rd_id r =? 0)%N && (rd_parentRowId r =? p)%N); cbn [app].
  - cbn [mark_deleted]. rewrite vec_at_middle. cbn [bind].
    rewrite insert_app_r_alt by lia. rewrite Nat.sub_diag. cbn [insert list_insert].
    specialize (IH (pre ++ [mkJunctionRowData 0 (rd_parentRowId r) (rd_childRowId r)
                              (rd_vecIndex r) (rd_unionType r)])).
    rewrite !snoc_cons, length_app in IH. cbn [List.length] in IH.
    rewrite Nat.add_1_r in IH. exact IH.
  - specialize (IH (pre ++ [r])).
    rewrite !snoc_cons, length_app in IH. cbn [List.length] in IH.
    rewrite Nat.add_1_r in IH. exact IH.
Qed.

Lemma live_mark (p : N) rows :
  live (mark p rows) = List.filter (fun r => negb (rd_parentRowId r =? p)%N) (live rows).
Proof.
  unfold live, mark. induction rows as [|r rows IH]; [reflexivity|].
  cbn [List.map List.filter].
  destruct (N.eqb_spec (rd_id r) 0) as [Hid|Hid]; cbn [negb andb].
  - rewrite Hid. cbn [N.eqb negb]. exact IH.
  - destruct (rd_parentRowId r =? p)%N eqn:Hp; cbn [rd_id N.eqb negb List.filter].
    + rewrite Hp. cbn [negb]. exact IH.
    + apply N.eqb_neq in Hid. rewrite Hid, Hp. cbn [negb]. rewrite IH. reflexivity.
Qed.

Lemma length_mark (p : N) rows : List.length (mark p rows) = List.length rows.
Proof. unfold mark. apply List.length_map. Qed.

Lemma index_ok_nil f : index_ok f [] [].
Proof. split; [constructor|reflexivity]. Qed.

Lemma index_ok_snoc f pre index (r : JunctionRowData) :
  index_ok f pre index ->
  index_ok f (pre ++ [r])
    (if (rd_id r =? 0)%N then index else multimap_emplace (f r) (List.length pre) index).
Proof.
  intros [Hs Hr]. split.
  - destruct (rd_id r =? 0)%N; [exact Hs|apply emplace_sorted, Hs].
  - intros k. rewrite live_from_snoc. cbn [Nat.add].
    destruct (rd_id r =? 0)%N; cbn [negb andb].
    + rewrite List.app_nil_r. apply Hr.
    + rewrite (emplace_equal_range _ _ _ _ Hs), Hr. reflexivity.
Qed.

Lemma rebuild_indexes_spec suf :
  forall pre pi ci,
    index_ok rd_parentRowId pre pi -> index_ok rd_childRowId pre ci ->
    index_ok rd_parentRowId (pre ++ suf)
      (fst (rebuild_indexes suf (List.length pre) pi ci)) /\
    index_ok rd_childRowId (pre ++ suf)
      (snd (rebuild_indexes suf (List.length pre) pi ci)).
Proof.
  induction suf as [|r suf IH]; intros pre pi ci Hp Hc.
  - rewrite List.app_nil_r. split; assumption.
  - cbn [rebuild_indexes].
    pose proof (index_ok_snoc rd_parentRowId pre pi r Hp) as Hp'.
    pose proof (index_ok_snoc rd_childRowId pre ci r Hc) as Hc'.
    rewrite <- snoc_cons.
    replace (S (List.length pre)) with (List.length (pre ++ [r]))
      by (rewrite length_app; cbn [List.length]; lia).
    destruct (rd_id r =? 0)%N; apply IH; assumption.
Qed.

Lemma live_snoc rows (r : JunctionRowData) :
  live (rows ++ [r]) = live rows ++ (if (rd_id r =? 0)%N then [] else [r]).
Proof.
  unfold live. rewrite List.filter_app. cbn [List.filter].
  destruct (rd_id r =? 0)%N; reflexivity.
Qed.

Lemma find_adjust_eq {V : Type} (j : string) (f : V -> V) (m : list (string * V)) :
  map_find j (map_adjust j f m) = option_map f (map_find j m).
Proof.
  induction m as [|[k v] m IH]; [reflexivity|]. cbn [map_adjust map_find].
  destruct (String.eqb_spec j k) as [->|Hne]; cbn [map_find].
  - rewrite String.eqb_refl. reflexivity.
  - destruct (String.eqb_spec j k); [contradiction|exact IH].
Qed.

Lemma find_adjust_ne {V : Type} (j j' : string) (f : V -> V) (m : list (string * V)) :
  j' <> j -> map_find j' (map_adjust j f m) = map_find j' m.
Proof.
  intros Hne. induction m as [|[k v] m IH]; [reflexivity|]. cbn [map_adjust map_find].
  destruct (String.eqb_spec j k) as [->|Hjk]; cbn [map_find].
  - destruct (String.eqb_spec j' k); [contradiction|reflexivity].
  - destruct (String.eqb_spec j' k); [reflexivity|exact IH].
Qed.

Lemma keys_adjust {V : Type} (j : string) (f : V -> V) (m : list (string * V)) :
  List.map fst (map_adjust j f m) = List.map fst m.
Proof.
  induction m as [|[k v] m IH]; [reflexivity|]. cbn [map_adjust].
  destruct (String.eqb j k); cbn [List.map fst]; [reflexivity|rewrite IH; reflexivity].
Qed.

Lemma Forall_adjust {V : Type} (P : V -> Prop) (j : string) (f : V -> V)
    (m : list (string * V)) :
  List.Forall (fun e => P (snd e)) m ->
  (forall v, map_find j m = Some v -> P (f v)) ->
  List.Forall (fun e => P (snd e)) (map_adjust j f m).
Proof.
  induction m as [|[k v] m IH]; intros Hm Hf; [constructor|].
  pose proof (List.Forall_inv Hm) as Hv. pose proof (List.Forall_inv_tail Hm) as Hm'.
  cbn [map_adjust map_find] in *.
  destruct (String.eqb_spec j k) as [->|Hne].
  - constructor; [cbn; apply Hf; reflexivity|exact Hm'].
  - constructor; [exact Hv|]. apply IH; assumption.
Qed.

Lemma map_adjust_same {V W : Type} (g : V -> W) (j : string) (f : V -> V)
    (m : list (string * V)) :
  (forall v, g (f v) = g v) ->
  List.map (fun e => g (snd e)) (map_adjust j f m) = List.map (fun e => g (snd e)) m.
Proof.
  intros Hg. induction m as [|[k v] m IH]; [reflexivity|]. cbn [map_adjust].
  destruct (String.eqb j k); cbn [List.map snd]; [rewrite Hg|rewrite IH]; reflexivity.
Qed.

Lemma find_table_ok s (j : string) t :
  state_ok s -> map_find j (junctionTables s) = Some t -> table_ok t.
Proof.
  intros [_ Hall] Hf. apply map_find_In in Hf.
  rewrite List.Forall_forall in Hall. exact (Hall (j, t) Hf).
Qed.

(** The live rows of a junction table, none for a table that does not
    exist. *)
Let rows_of s (j : string) : list JunctionRowData :=
  match map_find j (junctionTables s) with
  | Some t => live (rows t)
  | None => []
  end.

Lemma getChildrenByParent_spec s (j : string) (p : N) :
  state_ok s ->
  getChildrenByParent j p s
  = Ok (List.map to_row (List.filter (fun r => (rd_parentRowId r =? p)%N) (rows_of s j))).
Proof.
  intros Hok. unfold getChildrenByParent, rows_of.
  destruct (map_find j (junctionTables s)) as [t|] eqn:Hf; [|reflexivity].
  destruct (find_table_ok s j t Hok Hf) as (_ & [_ Hp] & _).
  rewrite Hp. exact (collect_rows_spec rd_parentRowId p (rows t) []).
Qed.

Lemma getParentsByChild_spec s (j : string) (c : N) :
  state_ok s ->
  getParentsByChild j c s
  = Ok (List.map to_row (List.filter (fun r => (rd_childRowId r =? c)%N) (rows_of s j))).
Proof.
  intros Hok. unfold getParentsByChild, rows_of.
  destruct (map_find j (junctionTables s)) as [t|] eqn:Hf; [|reflexivity].
  destruct (find_table_ok s j t Hok Hf) as (_ & _ & [_ Hc]).
  rewrite Hc. exact (collect_rows_spec rd_childRowId c (rows t) []).
Qed.

Lemma addJunctionRow_spec s (j : string) (p c : N) (vi : option Z) (ut : option string) :
  state_ok s ->
  let r := addJunctionRow j p c vi ut s in
  state_ok (fst r) /\
  List.map fst (junctionTables (fst r)) = List.map fst (junctionTables s) /\
  getJunctionTables (fst r) = getJunctionTables s /\
  deletedRowIds (fst r) = deletedRowIds s /\
  (forall j', j' <> j -> map_find j' (junctionTables (fst r)) = map_find j' (junctionTables s)) /\
  match map_find j (junctionTables s) with
  | None => r = (s, 0%N)
  | Some t =>
      snd r = (N.of_nat (List.length (rows t)) + 1)%N /\
      rows_of (fst r) j = rows_of s j ++ [mkJunctionRowData (snd r) p c vi ut] /\
      exists t', map_find j (junctionTables (fst r)) = Some t' /\
                 List.length (rows t') = S (List.length (rows t))
  end.
Proof.
  intros Hok. cbn zeta. unfold addJunctionRow, rows_of.
  destruct (map_find j (junctionTables s)) as [t|] eqn:Hf; cbn [fst snd].
  - destruct (find_table_ok s j t Hok Hf) as (Hid & Hp & Hc).
    cbn [junctionTables deletedRowIds rd_id].
    split.
    { destruct Hok as [Hkeys Hall]. split; cbn [junctionTables].
      - rewrite keys_adjust. exact Hkeys.
      - apply (Forall_adjust table_ok); [exact Hall|].
        intros v Hv. rewrite Hf in Hv. injection Hv as <-.
        unfold table_ok. cbn [rows nextId parentIndex childIndex].
        split; [rewrite length_app, Hid; cbn [List.length]; lia|].
        pose proof (index_ok_snoc rd_parentRowId (rows t) (parentIndex t)
                      (mkJunctionRowData (nextId t) p c vi ut) Hp) as Hp'.
        pose proof (index_ok_snoc rd_childRowId (rows t) (childIndex t)
                      (mkJunctionRowData (nextId t) p c vi ut) Hc) as Hc'.
        cbn [rd_id rd_parentRowId rd_childRowId] in Hp', Hc'.
        assert (Hnz : (nextId t =? 0)%N = false) by (apply N.eqb_neq; lia).
        rewrite Hnz in Hp', Hc'. split; assumption. }
    split; [apply keys_adjust|].
    split; [unfold getJunctionTables; cbn [junctionTables];
            apply (map_adjust_same definition); reflexivity|].
    split; [reflexivity|].
    split; [intros j' Hne; apply find_adjust_ne; exact Hne|].
    split; [exact Hid|].
    rewrite find_adjust_eq, Hf. cbn [option_map rows].
    split.
    + rewrite live_snoc. cbn [rd_id].
      assert (Hnz : (nextId t =? 0)%N = false) by (apply N.eqb_neq; lia).
      rewrite Hnz. reflexivity.
    + eexists. split; [reflexivity|]. cbn [rows]. rewrite length_app. cbn [List.length]. lia.
  - split; [exact Hok|]. repeat (split; [first [reflexivity | intros; reflexivity]|]).
    reflexivity.
Qed.

Lemma removeByParent_spec s (j : string) (p : N) :
  state_ok s ->
  exists s',
    removeByParent j p s = Ok s' /\ state_ok s' /\
    List.map fst (junctionTables s') = List.map fst (junctionTables s) /\
    getJunctionTables s' = getJunctionTables s /\
    deletedRowIds s' = deletedRowIds s /\
    total_rows s' = total_rows s /\
    (forall j', j' <> j -> map_find j' (junctionTables s') = map_find j' (junctionTables s)) /\
    rows_of s' j = List.filter (fun r => negb (rd_parentRowId r =? p)%N) (rows_of s j).
Proof.
  intros Hok. unfold removeByParent, rows_of.
  destruct (map_find j (junctionTables s)) as [t|] eqn:Hf.
  - destruct (find_table_ok s j t Hok Hf) as (Hid & [_ Hp] & _).
    rewrite Hp. pose proof (mark_deleted_spec p (rows t) []) as Hm.
    cbn [List.length app] in Hm. rewrite Hm. cbn [bind].
    eexists. split; [reflexivity|]. cbn [junctionTables deletedRowIds].
    destruct (rebuild_indexes_spec (mark p (rows t)) [] [] []
                (index_ok_nil _) (index_ok_nil _)) as [Hp' Hc'].
    cbn [app List.length] in Hp', Hc'.
    split.
    { destruct Hok as [Hkeys Hall]. split; cbn [junctionTables].
      - rewrite keys_adjust. exact Hkeys.
      - apply (Forall_adjust table_ok); [exact Hall|].
        intros v Hv. rewrite Hf in Hv. injection Hv as <-.
        unfold table_ok. cbn [rows nextId parentIndex childIndex].
        split; [rewrite length_mark; exact Hid|]. split; assumption. }
    split; [apply keys_adjust|].
    split; [unfold getJunctionTables; cbn [junctionTables];
            apply (map_adjust_same definition); reflexivity|].
    split; [reflexivity|].
    split.
    { unfold total_rows. cbn [junctionTables]. f_equal.
      clear -Hf. revert Hf. generalize (junctionTables s) as m.
      induction m as [|[k v] m IH]; [reflexivity|]. cbn [map_find map_adjust].
      destruct (String.eqb_spec j k) as [->|Hne]; intros Hf.
      - injection Hf as ->. cbn [List.map snd rows]. rewrite length_mark. reflexivity.
      - cbn [List.map snd]. rewrite (IH Hf). reflexivity. }
    split; [intros j' Hne; apply find_adjust_ne; exact Hne|].
    rewrite find_adjust_eq, Hf. cbn [option_map rows]. apply live_mark.
  - exists s. split; [reflexivity|]. split; [exact Hok|].
    repeat (split; [first [reflexivity | intros; reflexivity]|]). rewrite Hf. reflexivity.
Qed.

Lemma filter_sublist {A : Type} (p : A -> bool) (l : list A) :
  sublist (List.filter p l) l.
Proof.
  induction l as [|x l IH]; cbn [List.filter]; [constructor|].
  destruct (p x); [apply sublist_skip|apply sublist_cons]; exact IH.
Qed.

Lemma sublist_filter_mono {A : Type} (p : A -> bool) (l' l : list A) :
  sublist l' l -> sublist (List.filter p l') (List.filter p l).
Proof.
  induction 1 as [|x l1 l2 _ IH|x l1 l2 _ IH]; cbn [List.filter].
  - constructor.
  - destruct (p x); [apply sublist_skip|]; exact IH.
  - destruct (p x); [apply sublist_cons|]; exact IH.
Qed.

Lemma sublist_map_mono {A B : Type} (f : A -> B) (l' l : list A) :
  sublist l' l -> sublist (List.map f l') (List.map f l).
Proof.
  induction 1 as [|x l1 l2 _ IH|x l1 l2 _ IH]; cbn [List.map].
  - constructor.
  - apply sublist_skip. exact IH.
  - apply sublist_cons. exact IH.
Qed.

Lemma sublist_In {A : Type} (l' l : list A) (x : A) : sublist l' l -> In x l' -> In x l.
Proof.
  induction 1 as [|y l1 l2 _ IH|y l1 l2 _ IH]; cbn [In]; [tauto| |]; intuition.
Qed.

(** The number of live rows of all junction tables. *)
Let live_count s : nat :=
  list_sum (List.map (fun e => List.length (live (rows (snd e)))) (junctionTables s)).

Lemma keys_NoDup s : state_ok s -> List.NoDup (List.map fst (junctionTables s)).
Proof. intros [H _]. apply ascending_NoDup, H. Qed.

Lemma rows_of_entry s (e : string * JunctionTableData) :
  state_ok s -> In e (junctionTables s) -> rows_of s (fst e) = live (rows (snd e)).
Proof.
  intros Hok Hin. unfold rows_of. destruct e as [j t]. cbn [fst snd].
  rewrite (find_NoDup j t _ (keys_NoDup s Hok) Hin). reflexivity.
Qed.

Lemma live_count_rows_of s :
  state_ok s ->
  live_count s
  = list_sum (List.map (fun j => List.length (rows_of s j))
                       (List.map fst (junctionTables s))).
Proof.
  intros Hok. unfold live_count. rewrite List.map_map. f_equal.
  apply List.map_ext_in. intros e He. rewrite (rows_of_entry s e Hok He). reflexivity.
Qed.

Lemma list_sum_cons_eq (x : nat) (l : list nat) : list_sum (x :: l) = (x + list_sum l)%nat.
Proof. reflexivity. Qed.

Lemma live_le_rows (m : list (string * JunctionTableData)) :
  (list_sum (List.map (fun e => List.length (live (rows (snd e)))) m)
   <= list_sum (List.map (fun e => List.length (rows (snd e))) m))%nat.
Proof.
  induction m as [|e m IH]; [cbn; lia|]. cbn [List.map]. rewrite !list_sum_cons_eq.
  pose proof (List.filter_length_le (fun r => negb (rd_id r =? 0)%N) (rows (snd e))) as H.
  fold (live (rows (snd e))) in H. lia.
Qed.

Lemma live_count_le_total s : (live_count s <= total_rows s)%nat.
Proof. apply live_le_rows. Qed.

Lemma sum_change (g g' : string -> nat) (keys : list string) (j : string) :
  List.NoDup keys -> (forall j', j' <> j -> g' j' = g j') -> (g' j <= g j)%nat ->
  (list_sum (List.map g' keys) <= list_sum (List.map g keys))%nat /\
  (In j keys -> list_sum (List.map g' keys) + (g j - g' j) = list_sum (List.map g keys))%nat.
Proof.
  intros Hnd Hother Hle. induction keys as [|k keys IH]; [cbn; split; [lia|intros []]|].
  apply List.NoDup_cons_iff in Hnd as [Hk Hnd]. destruct (IH Hnd) as [IH1 IH2].
  cbn [List.map In]. rewrite !list_sum_cons_eq.
  destruct (string_dec k j) as [->|Hne].
  - assert (Hrest : list_sum (List.map g' keys) = list_sum (List.map g keys)).
    { f_equal. apply List.map_ext_in. intros x Hx. apply Hother. intros ->. contradiction. }
    split; [lia|]. intros _. lia.
  - rewrite (Hother k Hne). split; [lia|].
    intros [E|Hin]; [congruence|]. specialize (IH2 Hin). lia.
Qed.

(** getParents and getReferenceCount walk the same tables and look at the
    same rows. *)
Lemma parents_and_count s (childTable : string) (c : N) :
  state_ok s ->
  forall tables,
    (forall e, In e tables -> In e (junctionTables s)) ->
    exists ps,
      getParents_loop tables childTable c s = Ok ps /\
      getReferenceCount_loop tables childTable c = Ok (N.of_nat (List.length ps)).
Proof.
  intros Hok. induction tables as [|e tables IH]; intros Hsub.
  - exists []. split; reflexivity.
  - destruct IH as (ps & Hp & Hc); [intros x Hx; apply Hsub; right; exact Hx|].
    assert (He : In e (junctionTables s)) by (apply Hsub; left; reflexivity).
    cbn [getParents_loop getReferenceCount_loop]. rewrite Hp, Hc.
    destruct (references_table (definition (snd e)) childTable).
    + rewrite (getParentsByChild_spec s (fst e) c Hok), (rows_of_entry s e Hok He).
      assert (Ht : table_ok (snd e)).
      { destruct Hok as [_ Hall]. rewrite List.Forall_forall in Hall. exact (Hall e He). }
      destruct Ht as (_ & _ & [_ Hci]). rewrite Hci.
      pose proof (count_rows_spec rd_childRowId c (rows (snd e)) []) as Hcount.
      cbn [List.length app] in Hcount. rewrite Hcount. cbn [bind].
      eexists. split; [reflexivity|].
      rewrite length_app, List.length_map, Nat2N.inj_add. reflexivity.
    + cbn [bind app]. exists ps. split; [reflexivity|].
      rewrite N.add_0_l. reflexivity.
Qed.

(** A change that only takes junction rows away. *)
Let shrinks s s' : Prop :=
  state_ok s' /\
  List.map fst (junctionTables s') = List.map fst (junctionTables s) /\
  getJunctionTables s' = getJunctionTables s /\
  total_rows s' = total_rows s /\
  (forall j, sublist (rows_of s' j) (rows_of s j)) /\
  (live_count s' <= live_count s)%nat /\
  (forall x, x ∈ deletedRowIds s -> x ∈ deletedRowIds s').

Lemma shrinks_refl s : state_ok s -> shrinks s s.
Proof.
  intros Hok. unfold shrinks. split; [exact Hok|]. split; [reflexivity|].
  split; [reflexivity|]. split; [reflexivity|]. split; [intros j; reflexivity|].
  split; [lia|intros x Hx; exact Hx].
Qed.

Lemma shrinks_trans s1 s2 s3 : shrinks s1 s2 -> shrinks s2 s3 -> shrinks s1 s3.
Proof.
  intros (_ & K1 & D1 & T1 & R1 & L1 & X1) (Hok & K2 & D2 & T2 & R2 & L2 & X2).
  unfold shrinks. split; [exact Hok|]. split; [congruence|]. split; [congruence|].
  split; [congruence|]. split; [intros j; etransitivity; [apply R2|apply R1]|].
  split; [lia|intros x Hx; apply X2, X1, Hx].
Qed.

Lemma removeByParent_shrinks s (j : string) (p : N) :
  state_ok s ->
  exists s',
    removeByParent j p s = Ok s' /\ shrinks s s' /\
    deletedRowIds s' = deletedRowIds s /\
    rows_of s' j = List.filter (fun r => negb (rd_parentRowId r =? p)%N) (rows_of s j) /\
    (forall j', j' <> j -> rows_of s' j' = rows_of s j') /\
    (live_count s'
     + List.length (List.filter (fun r => (rd_parentRowId r =? p)%N) (rows_of s j))
     = live_count s)%nat.
Proof.
  intros Hok.
  destruct (removeByParent_spec s j p Hok)
    as (s' & Hr & Hok' & Hkeys & Hdefs & Hdel & Htot & Hother & Hrows).
  exists s'. split; [exact Hr|].
  assert (Hothers : forall j', j' <> j -> rows_of s' j' = rows_of s j').
  { intros j' Hne. unfold rows_of. rewrite (Hother j' Hne). reflexivity. }
  pose proof (List.filter_length (fun r => (rd_parentRowId r =? p)%N) (rows_of s j)) as Hlen.
  cbn beta in Hlen. rewrite <- Hrows in Hlen.
  destruct (sum_change (fun x => List.length (rows_of s x))
              (fun x => List.length (rows_of s' x))
              (List.map fst (junctionTables s)) j (keys_NoDup s Hok)) as [Hle Hexact].
  { intros j' Hne. rewrite (Hothers j' Hne). reflexivity. }
  { lia. }
  rewrite <- (live_count_rows_of s Hok) in Hle, Hexact.
  rewrite <- Hkeys, <- (live_count_rows_of s' Hok') in Hle, Hexact.
  split; [|split; [exact Hdel|split; [exact Hrows|split; [exact Hothers|]]]].
  - unfold shrinks. split; [exact Hok'|]. split; [exact Hkeys|]. split; [exact Hdefs|].
    split; [exact Htot|]. split; [|split; [exact Hle|rewrite Hdel; intros x Hx; exact Hx]].
    intros j'. destruct (string_dec j' j) as [->|Hne].
    + rewrite Hrows. apply filter_sublist.
    + rewrite (Hothers j' Hne). reflexivity.
  - destruct (List.in_dec string_dec j (List.map fst (junctionTables s))) as [Hin|Hnin].
    + rewrite <- Hkeys in Hin. specialize (Hexact Hin). lia.
    + assert (Hnone : rows_of s j = []).
      { unfold rows_of. apply find_keys in Hnin. rewrite Hnin. reflexivity. }
      assert (Hnone' : rows_of s' j = []) by (rewrite Hrows, Hnone; reflexivity).
      assert (live_count s' = live_count s).
      { rewrite (live_count_rows_of s Hok), (live_count_rows_of s' Hok'), Hkeys.
        f_equal. apply List.map_ext_in. intros x Hx.
        destruct (string_dec x j) as [->|Hne]; [contradiction|].
        rewrite (Hothers x Hne). reflexivity. }
      rewrite Hnone. cbn [List.filter List.length]. lia.
Qed.

Lemma children_to_check_length (d : JunctionTable) (children : list JunctionRow) :
  (List.length (children_to_check d children) <= List.length children)%nat.
Proof.
  unfold children_to_check. induction children as [|c children IH]; [cbn; lia|].
  cbn [flat_map List.length]. rewrite length_app.
  destruct (String.eqb _ EmptyString); cbn [List.length]; lia.
Qed.

Lemma unlink_children_spec (tableName : string) (rowId : N) :
  forall tables s,
    state_ok s ->
    exists s' cs,
      unlink_children tables tableName rowId s = Ok (s', cs) /\
      shrinks s s' /\ deletedRowIds s' = deletedRowIds s /\
      (List.length cs + live_count s' <= live_count s)%nat /\
      (forall e, In e tables -> parentTable (definition (snd e)) = tableName ->
         List.Forall (fun r => rd_parentRowId r <> rowId) (rows_of s' (fst e))).
Proof.
  induction tables as [|e tables IH]; intros s Hok.
  - exists s, []. split; [reflexivity|]. split; [apply shrinks_refl, Hok|].
    split; [reflexivity|]. split; [cbn; lia|]. intros ? [].
  - cbn [unlink_children].
    destruct (String.eqb_spec (parentTable (definition (snd e))) tableName) as [Hpt|Hpt].
    + rewrite (getChildrenByParent_spec s (fst e) rowId Hok). cbn [bind].
      destruct (removeByParent_shrinks s (fst e) rowId Hok)
        as (s1 & Hr & Hsh1 & Hdel1 & Hrows1 & _ & Hcount1).
      rewrite Hr. cbn [bind].
      destruct (IH s1 (proj1 Hsh1)) as (s' & cs & Hu & Hsh & Hdel & Hcount & Hnone).
      rewrite Hu. cbn [bind fst snd]. eexists _, _. split; [reflexivity|].
      split; [exact (shrinks_trans _ _ _ Hsh1 Hsh)|]. split; [congruence|]. split.
      * rewrite length_app.
        pose proof (children_to_check_length (definition (snd e))
                      (List.map to_row
                         (List.filter (fun r => (rd_parentRowId r =? rowId)%N)
                            (rows_of s (fst e))))) as Hc.
        rewrite List.length_map in Hc. lia.
      * intros x [<-|Hx] Hx'; [|exact (Hnone x Hx Hx')].
        apply List.Forall_forall. intros r Hr'.
        destruct Hsh as (_ & _ & _ & _ & Hsub & _).
        apply (sublist_In _ _ r (Hsub (fst e))) in Hr'.
        rewrite Hrows1 in Hr'. apply List.filter_In in Hr' as [_ Hr'].
        apply negb_true_iff, N.eqb_neq in Hr'. exact Hr'.
    + destruct (IH s Hok) as (s' & cs & Hu & Hsh & Hdel & Hcount & Hnone).
      exists s', cs. split; [exact Hu|]. split; [exact Hsh|]. split; [exact Hdel|].
      split; [exact Hcount|].
      intros x [<-|Hx] Hx'; [contradiction|exact (Hnone x Hx Hx')].
Qed.

Lemma getReferenceCount_total s (tableName : string) (rowId : N) :
  state_ok s -> exists n, getReferenceCount tableName rowId s = Ok n.
Proof.
  intros Hok.
  destruct (parents_and_count s tableName rowId Hok (junctionTables s)) as (ps & _ & Hc);
    [auto|].
  eexists. exact Hc.
Qed.

Lemma delete_orphans_spec (rec : string -> N -> Impl -> result Impl) (bound : nat) :
  (forall tn r s, state_ok s -> (live_count s < bound)%nat ->
                  exists s', rec tn r s = Ok s' /\ shrinks s s') ->
  forall cs s,
    state_ok s -> (cs <> [] -> (live_count s < bound)%nat) ->
    exists s', delete_orphans rec cs s = Ok s' /\ shrinks s s'.
Proof.
  intros Hrec. induction cs as [|c cs IH]; intros s Hok Hb.
  - exists s. split; [reflexivity|apply shrinks_refl, Hok].
  - cbn [delete_orphans].
    destruct (getReferenceCount_total s (fst c) (snd c) Hok) as (n & Hn).
    rewrite Hn. cbn [bind].
    assert (Hlt : (live_count s < bound)%nat) by (apply Hb; discriminate).
    destruct (n =? 0)%N.
    + destruct (Hrec (fst c) (snd c) s Hok Hlt) as (s1 & Hr1 & Hsh1).
      rewrite Hr1. cbn [bind].
      destruct (IH s1 (proj1 Hsh1)) as (s' & Hr & Hsh).
      { intros _. destruct Hsh1 as (_ & _ & _ & _ & _ & Hle & _). lia. }
      exists s'. split; [exact Hr|exact (shrinks_trans _ _ _ Hsh1 Hsh)].
    + cbn [bind]. destruct (IH s Hok) as (s' & Hr & Hsh); [intros _; exact Hlt|].
      exists s'. split; [exact Hr|exact Hsh].
Qed.

Lemma cascade_spec (fuel : nat) :
  forall tableName rowId s,
    state_ok s -> (live_count s < fuel)%nat ->
    exists s',
      cascade fuel tableName rowId s = Ok s' /\ shrinks s s' /\
      rowId ∈ deletedRowIds s' /\
      (forall e, In e (junctionTables s) ->
         parentTable (definition (snd e)) = tableName ->
         List.Forall (fun r => rd_parentRowId r <> rowId) (rows_of s' (fst e))).
Proof.
  induction fuel as [|fuel IH]; intros tableName rowId s Hok Hlt; [lia|].
  cbn [cascade].
  destruct (unlink_children_spec tableName rowId (junctionTables s) s Hok)
    as (s1 & cs & Hu & Hsh1 & Hdel1 & Hcount & Hnone).
  rewrite Hu. cbn [bind fst snd].
  set (s2 := mkImpl (junctionTables s1) ({[rowId]} ∪ deletedRowIds s1)).
  assert (Hsh12 : shrinks s1 s2).
  { destruct Hsh1 as (Hok1 & _). unfold shrinks, s2, state_ok, getJunctionTables,
      total_rows, rows_of, live_count. cbn [junctionTables deletedRowIds].
    split; [exact Hok1|]. split; [reflexivity|]. split; [reflexivity|].
    split; [reflexivity|]. split; [intros j; reflexivity|]. split; [lia|].
    intros x Hx. apply elem_of_union. right. exact Hx. }
  destruct (delete_orphans_spec (cascade fuel) fuel) with (cs := cs) (s := s2)
    as (s' & Hr & Hsh2).
  - intros tn r s0 Hok0 Hlt0. destruct (IH tn r s0 Hok0 Hlt0) as (s0' & H1 & H2 & _).
    exists s0'. split; assumption.
  - exact (proj1 Hsh12).
  - intros Hcs. destruct cs as [|c cs]; [contradiction|]. cbn [List.length] in Hcount.
    destruct Hsh12 as (_ & _ & _ & _ & _ & Hle & _). lia.
  - exists s'. split; [exact Hr|].
    split; [exact (shrinks_trans _ _ _ Hsh1 (shrinks_trans _ _ _ Hsh12 Hsh2))|].
    split.
    + destruct Hsh2 as (_ & _ & _ & _ & _ & _ & Hdel). apply Hdel.
      unfold s2. cbn [deletedRowIds]. apply elem_of_union. left.
      apply elem_of_singleton. reflexivity.
    + intros e He Hpt. apply List.Forall_forall. intros r Hr'.
      pose proof (shrinks_trans _ _ _ Hsh12 Hsh2) as (_ & _ & _ & _ & Hsub & _).
      apply (sublist_In _ _ r (Hsub (fst e))) in Hr'.
      specialize (Hnone e He Hpt). rewrite List.Forall_forall in Hnone.
      exact (Hnone r Hr').
Qed.

Lemma In_assign {V : Type} (k : string) (v : V) (m : list (string * V)) (e : string * V) :
  In e (map_assign k v m) -> e = (k, v) \/ In e m.
Proof.
  induction m as [|[k' v'] m IH]; cbn [map_assign In].
  - intros [<-|[]]. auto.
  - destruct (String.compare k k'); cbn [In].
    + intros [<-|H]; auto.
    + intros [<-|[<-|H]]; auto.
    + intros [<-|H]; [auto|]. destruct (IH H); auto.
Qed.

(** The keys of the map of junction tables are the names of the
    definitions. *)
Let named s : Prop :=
  List.Forall (fun e => fst e = name (definition (snd e))) (junctionTables s).

Lemma named_same s s' :
  List.map fst (junctionTables s') = List.map fst (junctionTables s) ->
  getJunctionTables s' = getJunctionTables s -> named s -> named s'.
Proof.
  unfold named, getJunctionTables.
  generalize (junctionTables s) as m. generalize (junctionTables s') as m'.
  induction m' as [|e' m' IH]; intros [|e m] Hk Hd Hn; try discriminate; [constructor|].
  cbn [List.map] in Hk, Hd. injection Hk as Hk1 Hk. injection Hd as Hd1 Hd.
  constructor; [|exact (IH m Hk Hd (List.Forall_inv_tail Hn))].
  rewrite Hk1, Hd1. exact (List.Forall_inv Hn).
Qed.

Lemma initialize_ok (jts : list JunctionTable) :
  let s := initialize jts JunctionManager_new in
  state_ok s /\ named s /\
  (forall j, In j (List.map fst (junctionTables s)) <-> In j (List.map name jts)) /\
  (forall j, rows_of s j = []).
Proof.
  cbn zeta. unfold initialize, JunctionManager_new, state_ok, named, rows_of.
  cbn [junctionTables].
  assert (H : forall m : list (string * JunctionTableData),
             StronglySorted (fun a b => String.compare a b = Lt) (List.map fst m) ->
             List.Forall (fun e => table_ok (snd e) /\ fst e = name (definition (snd e))
                                   /\ rows (snd e) = []) m ->
             let m' := fold_left
                         (fun m jt => map_assign (name jt) (mkJunctionTableData jt [] 1 [] []) m)
                         jts m in
             StronglySorted (fun a b => String.compare a b = Lt) (List.map fst m') /\
             List.Forall (fun e => table_ok (snd e) /\ fst e = name (definition (snd e))
                                   /\ rows (snd e) = []) m' /\
             (forall j, In j (List.map fst m')
                        <-> In j (List.map fst m) \/ In j (List.map name jts))).
  { induction jts as [|jt jts IH]; intros m Hs Hall; cbn [fold_left List.map In].
    - split; [exact Hs|]. split; [exact Hall|]. tauto.
    - destruct (IH (map_assign (name jt) (mkJunctionTableData jt [] 1 [] []) m))
        as (H1 & H2 & H3).
      + apply assign_ascending, Hs.
      + apply List.Forall_forall. intros e He. apply In_assign in He as [->|He].
        * cbn [fst snd definition rows]. split; [|split; reflexivity].
          unfold table_ok. cbn [rows nextId parentIndex childIndex List.length].
          split; [reflexivity|]. split; apply index_ok_nil.
        * rewrite List.Forall_forall in Hall. exact (Hall e He).
      + split; [exact H1|]. split; [exact H2|].
        intros j. rewrite H3, keys_assign. intuition congruence. }
  destruct (H [] (SSorted_nil _) (List.Forall_nil _)) as (H1 & H2 & H3).
  cbn zeta in H1, H2, H3.
  split; [split; [exact H1|]|split; [|split]].
  - eapply List.Forall_impl; [|exact H2]. intros e He. apply He.
  - eapply List.Forall_impl; [|exact H2]. intros e He. apply He.
  - intros j. rewrite H3. cbn [List.map In]. tauto.
  - intros j.
    destruct (map_find j _) as [t|] eqn:Hf; [|reflexivity].
    apply map_find_In in Hf. rewrite List.Forall_forall in H2.
    destruct (H2 (j, t) Hf) as (_ & _ & Hrows). cbn [snd] in Hrows. rewrite Hrows. reflexivity.
Qed.

Lemma deleteWithCascade_spec s (tableName : string) (rowId : N) :
  state_ok s ->
  exists s',
    deleteWithCascade tableName rowId s = Ok s' /\ shrinks s s' /\
    rowId ∈ deletedRowIds s' /\
    (forall e, In e (junctionTables s) ->
       parentTable (definition (snd e)) = tableName ->
       List.Forall (fun r => rd_parentRowId r <> rowId) (rows_of s' (fst e))).
Proof.
  intros Hok. unfold deleteWithCascade. apply cascade_spec; [exact Hok|].
  pose proof (live_count_le_total s). lia.
Qed.

(** No sequence of calls fails, and none changes the set of junction
    tables. *)
Lemma run_calls_ok (calls : list junction_call) :
  forall s,
    state_ok s ->
    exists s',
      run_calls calls s = Ok s' /\ state_ok s' /\
      List.map fst (junctionTables s') = List.map fst (junctionTables s) /\
      getJunctionTables s' = getJunctionTables s.
Proof.
  induction calls as [|c calls IH]; intros s Hok.
  - exists s. split; [reflexivity|]. split; [exact Hok|]. split; reflexivity.
  - cbn [run_calls].
    assert (Hstep : exists s1, run_call c s = Ok s1 /\ state_ok s1 /\
                      List.map fst (junctionTables s1) = List.map fst (junctionTables s) /\
                      getJunctionTables s1 = getJunctionTables s).
    { destruct c as [j p ch vi ut|j p|tn r]; cbn [run_call].
      - destruct (addJunctionRow_spec s j p ch vi ut Hok) as (H1 & H2 & H3 & _).
        eexists. split; [reflexivity|]. split; [exact H1|]. split; assumption.
      - destruct (removeByParent_spec s j p Hok) as (s1 & H0 & H1 & H2 & H3 & _).
        exists s1. split; [exact H0|]. split; [exact H1|]. split; assumption.
      - destruct (deleteWithCascade_spec s tn r Hok) as (s1 & H0 & (H1 & H2 & H3 & _) & _).
        exists s1. split; [exact H0|]. split; [exact H1|]. split; assumption. }
    destruct Hstep as (s1 & Hr1 & Hok1 & Hk1 & Hd1). rewrite Hr1. cbn [bind].
    destruct (IH s1 Hok1) as (s' & Hr & Hok' & Hk & Hd).
    exists s'. split; [exact Hr|]. split; [exact Hok'|]. split; congruence.
Qed.

Lemma filter_to_row (q : N -> bool) (l : list JunctionRowData) :
  List.map to_row (List.filter (fun r => q (rd_parentRowId r)) l)
  = List.filter (fun r => q (parentRowId r)) (List.map to_row l).
Proof.
  induction l as [|r l IH]; [reflexivity|]. cbn [List.map List.filter to_row parentRowId].
  destruct (q (rd_parentRowId r)); cbn [List.map]; rewrite IH; reflexivity.
Qed.

Lemma filter_to_row_child (q : N -> bool) (l : list JunctionRowData) :
  List.map to_row (List.filter (fun r => q (rd_childRowId r)) l)
  = List.filter (fun r => q (childRowId r)) (List.map to_row l).
Proof.
  induction l as [|r l IH]; [reflexivity|]. cbn [List.map List.filter to_row childRowId].
  destruct (q (rd_childRowId r)); cbn [List.map]; rewrite IH; reflexivity.
Qed.

(** AddRow and RemoveByParent calls leave the rows that [linked] lists. *)
Lemma run_calls_linked (calls : list junction_call) :
  forall s,
    state_ok s -> only_rows calls ->
    exists s',
      run_calls calls s = Ok s' /\ state_ok s' /\
      List.map fst (junctionTables s') = List.map fst (junctionTables s) /\
      forall j, In j (List.map fst (junctionTables s)) ->
                List.map to_row (rows_of s' j) = linked calls j (List.map to_row (rows_of s j)).
Proof.
  induction calls as [|c calls IH]; intros s Hok Honly.
  - exists s. split; [reflexivity|]. split; [exact Hok|]. split; [reflexivity|].
    intros; reflexivity.
  - pose proof (List.Forall_inv Honly) as Hc.
    pose proof (List.Forall_inv_tail Honly) as Honly'.
    cbn [run_calls linked]. destruct c as [j' p ch vi ut|j' p|tn r]; [| |destruct Hc];
      cbn [run_call].
    + destruct (addJunctionRow_spec s j' p ch vi ut Hok) as (H1 & H2 & _ & _ & H5 & H6).
      cbn [bind].
      destruct (IH _ H1 Honly') as (s' & Hr & Hok' & Hk & Hl).
      exists s'. split; [exact Hr|]. split; [exact Hok'|]. split; [congruence|].
      intros j Hj. rewrite Hl by (rewrite H2; exact Hj). f_equal.
      destruct (String.eqb_spec j' j) as [->|Hne].
      * destruct (map_find j (junctionTables s)) as [t|] eqn:Hf.
        -- destruct H6 as (_ & Hrows & _). rewrite Hrows, List.map_app. reflexivity.
        -- apply find_keys in Hf. contradiction.
      * unfold rows_of. rewrite (H5 j) by congruence. reflexivity.
    + destruct (removeByParent_spec s j' p Hok)
        as (s1 & H0 & H1 & H2 & _ & _ & _ & H5 & H6).
      rewrite H0. cbn [bind].
      destruct (IH _ H1 Honly') as (s' & Hr & Hok' & Hk & Hl).
      exists s'. split; [exact Hr|]. split; [exact Hok'|]. split; [congruence|].
      intros j Hj. rewrite Hl by (rewrite H2; exact Hj). f_equal.
      destruct (String.eqb_spec j' j) as [->|Hne].
      * rewrite H6. exact (filter_to_row (fun x => negb (x =? p)%N) (rows_of s j)).
      * unfold rows_of. rewrite (H5 j) by congruence. reflexivity.
Qed.

Lemma named_entry s (d : JunctionTable) :
  named s -> In d (getJunctionTables s) ->
  exists e, In e (junctionTables s) /\ definition (snd e) = d /\ fst e = name d.
Proof.
  intros Hn Hd. unfold getJunctionTables in Hd.
  apply List.in_map_iff in Hd as (e & He & Hin).
  exists e. split; [exact Hin|]. split; [exact He|].
  unfold named in Hn. rewrite List.Forall_forall in Hn. rewrite <- He. exact (Hn e Hin).
Qed.

(** getReferenceCount counts what getParents lists: on every state that
    calls of addJunctionRow, removeByParent and deleteWithCascade lead to
    (none of these calls fails), the reference count of a row of a table is
    the number of junction rows that getParents returns for it. *)
Theorem reference_count_matches_parents (jts : list JunctionTable)
    (calls : list junction_call) :
  exists s,
    run_calls calls (initialize jts JunctionManager_new) = Ok s /\
    forall childTable c,
      exists ps,
        getParents childTable c s = Ok ps /\
        getReferenceCount childTable c s = Ok (N.of_nat (List.length ps)).
Proof.
  destruct (initialize_ok jts) as (Hok0 & _). cbn zeta in Hok0.
  destruct (run_calls_ok calls _ Hok0) as (s & Hr & Hok & _).
  exists s. split; [exact Hr|]. intros childTable c.
  unfold getParents, getReferenceCount.
  apply (parents_and_count s childTable c Hok). auto.
Qed.

(** deleteWithCascade returns on every state that calls lead to.  It marks
    the row as deleted, leaves the junction tables defined as they were,
    takes junction rows away and adds none, and leaves no junction row
    that has the deleted row as parent in a table whose parent table is the
    one named.  cleanupOrphans then reports at least one row, whatever
    table it is asked about, and nothing when asked again. *)
Theorem cascade_unlinks_children (jts : list JunctionTable) (calls : list junction_call)
    (tableName : string) (rowId : N) :
  exists s s',
    run_calls calls (initialize jts JunctionManager_new) = Ok s /\
    deleteWithCascade tableName rowId s = Ok s' /\
    rowId ∈ deletedRowIds s' /\
    getJunctionTables s' = getJunctionTables s /\
    (forall d, In d (getJunctionTables s) -> parentTable d = tableName ->
               getChildrenByParent (name d) rowId s' = Ok []) /\
    (forall j p, exists before after,
        getChildrenByParent j p s = Ok before /\
        getChildrenByParent j p s' = Ok after /\ sublist after before) /\
    (forall anyTable,
        (1 <= snd (cleanupOrphans anyTable s'))%N /\
        snd (cleanupOrphans anyTable (fst (cleanupOrphans anyTable s'))) = 0%N).
Proof.
  destruct (initialize_ok jts) as (Hok0 & Hn0 & _). cbn zeta in Hok0, Hn0.
  destruct (run_calls_ok calls _ Hok0) as (s & Hr & Hok & Hk & Hd).
  pose proof (named_same _ s Hk Hd Hn0) as Hn.
  destruct (deleteWithCascade_spec s tableName rowId Hok)
    as (s' & Hc & (Hok' & _ & Hd' & _ & Hsub & _) & Hdel & Hnone).
  exists s, s'. split; [exact Hr|]. split; [exact Hc|]. split; [exact Hdel|].
  split; [exact Hd'|]. split; [|split].
  - intros d Hin Hpt. destruct (named_entry s d Hn Hin) as (e & He & Hde & Hname).
    rewrite <- Hname, (getChildrenByParent_spec s' (fst e) rowId Hok').
    rewrite filter_none; [reflexivity|].
    intros r Hr'. apply N.eqb_neq.
    specialize (Hnone e He). rewrite Hde in Hnone. specialize (Hnone Hpt).
    rewrite List.Forall_forall in Hnone. exact (Hnone r Hr').
  - intros j p. eexists _, _.
    split; [exact (getChildrenByParent_spec s j p Hok)|].
    split; [exact (getChildrenByParent_spec s' j p Hok')|].
    apply sublist_map_mono, sublist_filter_mono, Hsub.
  - intros anyTable. unfold cleanupOrphans. cbn [fst snd deletedRowIds].
    rewrite size_empty. split; [|reflexivity].
    assert (size (deletedRowIds s') <> 0%nat); [|lia].
    intros Hz. apply size_empty_inv in Hz. apply (Hz rowId) in Hdel.
    apply elem_of_empty in Hdel. exact Hdel.
Qed.

End JunctionRows.

(** Junction rows are kept per junction table in the order they were
    added: after any sequence of addJunctionRow and removeByParent calls on
    a manager initialised with a list of junction tables, the children of a
    parent and the parents of a child in one of these tables are the rows
    added with that parent or child and not removed since, oldest first;
    a name that is not among the tables has no rows. *)
Theorem junction_rows_follow_calls (jts : list JunctionTable) (calls : list junction_call) :
  only_rows calls ->
  exists s,
    run_calls calls (initialize jts JunctionManager_new) = Ok s /\
    (forall j, In j (List.map name jts) ->
       (forall p, getChildrenByParent j p s
                  = Ok (List.filter (fun r => (parentRowId r =? p)%N) (linked calls j []))) /\
       (forall c, getParentsByChild j c s
                  = Ok (List.filter (fun r => (childRowId r =? c)%N) (linked calls j [])))) /\
    (forall parentTable fieldName p,
       In (parentTable ++ "__" ++ fieldName)%string (List.map name jts) ->
       getChildren parentTable fieldName p s
       = Ok (List.filter (fun r => (parentRowId r =? p)%N)
               (linked calls (parentTable ++ "__" ++ fieldName)%string []))) /\
    (forall j p, ~ In j (List.map name jts) ->
       getChildrenByParent j p s = Ok [] /\ getParentsByChild j p s = Ok []).
Proof.
  intros Honly.
  destruct (initialize_ok jts) as (Hok0 & _ & Hnames & Hempty). cbn zeta in *.
  destruct (run_calls_linked calls _ Hok0 Honly) as (s & Hr & Hok & Hk & Hl).
  exists s. split; [exact Hr|].
  assert (Hview : forall j, In j (List.map name jts) ->
            List.map to_row
              (match map_find j (junctionTables s) with
               | Some t => live (rows t)
               | None => []
               end) = linked calls j []).
  { intros j Hj. rewrite (Hl j) by (apply Hnames; exact Hj). rewrite Hempty. reflexivity. }
  assert (Hc : forall j, In j (List.map name jts) ->
            forall p, getChildrenByParent j p s
                      = Ok (List.filter (fun r => (parentRowId r =? p)%N) (linked calls j []))).
  { intros j Hj p. rewrite (getChildrenByParent_spec s j p Hok).
    rewrite (filter_to_row (fun x => (x =? p)%N)), (Hview j Hj). reflexivity. }
  split; [|split].
  - intros j Hj. split; [exact (Hc j Hj)|].
    intros c. rewrite (getParentsByChild_spec s j c Hok).
    rewrite (filter_to_row_child (fun x => (x =? c)%N)), (Hview j Hj). reflexivity.
  - intros pt fn p Hj. unfold getChildren. exact (Hc _ Hj p).
  - intros j p Hj.
    assert (Hnone : map_find j (junctionTables s) = None).
    { apply find_keys. rewrite Hk. intros Hin. apply Hj, Hnames, Hin. }
    unfold getChildrenByParent, getParentsByChild. rewrite Hnone. split; reflexivity.
Qed.

Lemma junction_rows_follow_calls_witness :
  exists s,
    run_calls
      [AddRow "Monster__weapon" 1 2 None None; AddRow "Monster__weapon" 1 3 None None;
       AddRow "Monster__weapon" 7 4 None None; RemoveByParent "Monster__weapon" 7]
      (initialize
         [mkJunctionTable "Monster__weapon" "Monster" "weapon" SINGLE_TABLE "Weapon" []]
         JunctionManager_new) = Ok s /\
    getChildren "Monster" "weapon" 1 s
    = Ok [mkJunctionRow 1 2 None None; mkJunctionRow 1 3 None None] /\
    getChildren "Monster" "weapon" 7 s = Ok [].
Proof.
  destruct (junction_rows_follow_calls
              [mkJunctionTable "Monster__weapon" "Monster" "weapon" SINGLE_TABLE "Weapon" []]
              [AddRow "Monster__weapon" 1 2 None None; AddRow "Monster__weapon" 1 3 None None;
               AddRow "Monster__weapon" 7 4 None None; RemoveByParent "Monster__weapon" 7])
    as (s & Hr & _ & Hc & _).
  - repeat constructor.
  - exists s. split; [exact Hr|]. split.
    + apply (Hc "Monster"%string "weapon"%string 1%N). left. reflexivity.
    + apply (Hc "Monster"%string "weapon"%string 7%N). left. reflexivity.
Defined.
